(** * Ferroelectric polarization analysis: a shallow embedding

    This development embeds [pymatgen/analysis/ferroelectricity/polarization.py]
    (the functions on ZVAL dictionaries, [calc_ionic] and
    [get_total_ionic_dipole] and the classes [Polarization] and [EnergyTrend])
    and, in the module [Lobster], the readers of [pymatgen/io/lobster.py], and
    proves properties of them.

    Conventions.
    - Python floats and numpy float64 entries are idealised as real numbers
      ([R]).  A statement about the periodic image chosen for a step carries
      over to the doubles of the program only away from ties, where rounding
      cannot change the choice: the sections on double precision and on
      quantum shifts under rounding make this precise.
    - A 3-vector (a numpy array of shape (3,), or one row of an L x 3
      [np.matrix]) is a [vec3]; an L x 3 matrix is the list of its rows.
    - Python exceptions are the [Raise] outcomes of the [result] type.
    - [scipy.interpolate.UnivariateSpline] is an external numeric primitive; it
      is a parameter of the sections that use it.  So are the builtins
      [str.split], [float] and [int] in the readers. *)

From Stdlib Require Import Floats.
From Stdlib Require Import Reals Lra Lia ZArith List String Psatz Ascii.
From stdpp Require Import base option list gmap strings pretty sorting.

Open Scope R_scope.

(* ===================================================================== *)
(** ** Outcomes of Python calls *)

Inductive exn : Type :=
| ValueError
| KeyError (key : string)
| IndexError
| TypeError
| FitError.

Inductive result (A : Type) : Type :=
| Ok (a : A)
| Raise (e : exn).

Arguments Ok {A} a.
Arguments Raise {A} e.

(** Sequencing: an exception raised by the first call ends the computation.
    With these instances [x ← m; k] is the monadic bind of stdpp. *)
#[global] Instance result_bind : MBind result :=
  fun A B (k : A -> result B) (m : result A) =>
    match m with
    | Ok a => k a
    | Raise e => Raise e
    end.

#[global] Instance result_ret : MRet result := fun A (a : A) => Ok a.

#[global] Instance result_fmap : FMap result :=
  fun A B (f : A -> B) (m : result A) =>
    match m with
    | Ok a => Ok (f a)
    | Raise e => Raise e
    end.

(** [try: body except: handler] with a bare [except] clause. *)
Definition try_except {A : Type} (body : result A) (handler : result A) : result A :=
  match body with
  | Ok a => Ok a
  | Raise _ => handler
  end.

(* ===================================================================== *)
(** ** 3-vectors *)

Record vec3 : Type := mk3 { c0 : R; c1 : R; c2 : R }.

(** The three lattice directions a, b, c (numpy column index 0, 1, 2). *)
Inductive axis : Type := Xa | Xb | Xc.

Definition comp (v : vec3) (d : axis) : R :=
  match d with Xa => c0 v | Xb => c1 v | Xc => c2 v end.

Definition vzero : vec3 := mk3 0 0 0.
Definition vadd (u v : vec3) : vec3 := mk3 (c0 u + c0 v) (c1 u + c1 v) (c2 u + c2 v).
Definition vsub (u v : vec3) : vec3 := mk3 (c0 u - c0 v) (c1 u - c1 v) (c2 u - c2 v).
Definition vneg (u : vec3) : vec3 := mk3 (- c0 u) (- c1 u) (- c2 u).
(** [v * k] for an array [v] and a scalar [k]. *)
Definition vscale_r (v : vec3) (k : R) : vec3 := mk3 (c0 v * k) (c1 v * k) (c2 v * k).
(** [k * v] for a scalar [k] and an array [v]. *)
Definition vscale_l (k : R) (v : vec3) : vec3 := mk3 (k * c0 v) (k * c1 v) (k * c2 v).
(** [np.multiply u v]: the componentwise product. *)
Definition np_multiply (u v : vec3) : vec3 := mk3 (c0 u * c0 v) (c1 u * c1 v) (c2 u * c2 v).
(** [np.divide u v]: the componentwise quotient. *)
Definition np_divide (u v : vec3) : vec3 := mk3 (c0 u / c0 v) (c1 u / c1 v) (c2 u / c2 v).
Definition dot (u v : vec3) : R := c0 u * c0 v + c1 u * c1 v + c2 u * c2 v.
Definition cross (u v : vec3) : vec3 :=
  mk3 (c1 u * c2 v - c2 u * c1 v) (c2 u * c0 v - c0 u * c2 v) (c0 u * c1 v - c1 u * c0 v).
Definition norm2 (v : vec3) : R := dot v v.
(** [np.linalg.norm v]. *)
Definition norm (v : vec3) : R := sqrt (norm2 v).

(** The unit step along one direction. *)
Definition unit_axis (d : axis) : vec3 :=
  match d with Xa => mk3 1 0 0 | Xb => mk3 0 1 0 | Xc => mk3 0 0 1 end.

(** An integer vector, as a real one. *)
Definition zvec (n : Z * Z * Z) : vec3 :=
  let '(na, nb, nc) := n in mk3 (IZR na) (IZR nb) (IZR nc).

(** [np.sum rows axis=0] over a list of 3-vectors.  (For an empty list numpy
    returns the scalar 0.0, which behaves as the zero vector in every later
    array operation.) *)
Definition np_sum_axis0 (rows : list vec3) : vec3 := fold_left vadd rows vzero.

(* ===================================================================== *)
(** ** Lattice, sites and structures *)

(** Modelled from the spec: the class [Lattice] (pymatgen/core/lattice.py) is
    not among the sources.  The spec describes a lattice as three real-valued
    basis vectors that exposes derived scalar lengths (a, b, c), angles and the
    cell volume.  [row0], [row1], [row2] are the rows of [lattice.matrix]. *)
Record Lattice : Type := mkLattice { row0 : vec3; row1 : vec3; row2 : vec3 }.

(** Modelled from the spec: the derived lengths [l.a], [l.b], [l.c], also the
    first component of [l.lengths_and_angles]; each is the Euclidean length of
    one basis vector. *)
Definition abc (l : Lattice) : vec3 := mk3 (norm (row0 l)) (norm (row1 l)) (norm (row2 l)).

(** Modelled from the spec: the helper that [Lattice] uses to clamp a cosine
    into [-1, 1] before every [arccos] (not among the sources). *)
Definition abs_cap (x : R) : R := Rmax (Rmin x 1) (-1).

(** Modelled from the spec: the derived angles (alpha, beta, gamma), in
    degrees: alpha lies between b and c, beta between a and c, gamma between a
    and b. *)
Definition angle_deg (u v : vec3) : R :=
  acos (abs_cap (dot u v / (norm u * norm v))) * 180 / PI.

(** Modelled from the spec: the three derived angles of a lattice (see
    [angle_deg]). *)
Definition angles (l : Lattice) : vec3 :=
  mk3 (angle_deg (row1 l) (row2 l)) (angle_deg (row2 l) (row0 l)) (angle_deg (row0 l) (row1 l)).

(** Modelled from the spec: [lattice.lengths_and_angles], the pair of the
    derived lengths and the derived angles. *)
Definition lengths_and_angles (l : Lattice) : vec3 * vec3 := (abc l, angles l).

(** Modelled from the spec: the triple product of the basis vectors, the
    determinant of [lattice.matrix]. *)
Definition det (l : Lattice) : R := dot (cross (row0 l) (row1 l)) (row2 l).

(** Modelled from the spec: the cell volume, the absolute value of the triple
    product of the basis vectors. *)
Definition volume (l : Lattice) : R := Rabs (det l).

(** [math.radians]. *)
Definition radians (deg : R) : R := deg * PI / 180.

(** Modelled from the spec: [Lattice.from_lengths_and_angles abc ang] (not among
    the sources) builds the lattice that has the given lengths and angles.  The
    spec fixes lengths and angles only; the orientation is the conventional
    crystallographic one, c along z and a in the x-z plane. *)
Definition from_parameters (a b c alpha beta gamma : R) : Lattice :=
  let alpha_r := radians alpha in
  let beta_r := radians beta in
  let gamma_r := radians gamma in
  let val := abs_cap ((cos alpha_r * cos beta_r - cos gamma_r) / (sin alpha_r * sin beta_r)) in
  let gamma_star := acos val in
  mkLattice
    (mk3 (a * sin beta_r) 0 (a * cos beta_r))
    (mk3 (- b * sin alpha_r * cos gamma_star) (b * sin alpha_r * sin gamma_star) (b * cos alpha_r))
    (mk3 0 0 c).

(** Modelled from the spec: [Lattice.from_lengths_and_angles(abc, ang)], the
    lattice built by [from_parameters] from the three lengths and the three
    angles. *)
Definition from_lengths_and_angles (lengths ang : vec3) : Lattice :=
  from_parameters (c0 lengths) (c1 lengths) (c2 lengths) (c0 ang) (c1 ang) (c2 ang).

(** Modelled from the spec: Cartesian coordinates of a fractional point, the
    product of the row vector with [lattice.matrix]. *)
Definition get_cartesian_coords (l : Lattice) (f : vec3) : vec3 :=
  vadd (vadd (vscale_l (c0 f) (row0 l)) (vscale_l (c1 f) (row1 l))) (vscale_l (c2 f) (row2 l)).

(** Modelled from the spec: the rows of the inverse transpose of
    [lattice.matrix] (the reciprocal basis without the factor 2 pi), used to
    turn Cartesian into fractional coordinates. *)
Definition recip0 (l : Lattice) : vec3 := vscale_l (/ det l) (cross (row1 l) (row2 l)).
Definition recip1 (l : Lattice) : vec3 := vscale_l (/ det l) (cross (row2 l) (row0 l)).
Definition recip2 (l : Lattice) : vec3 := vscale_l (/ det l) (cross (row0 l) (row1 l)).

(** Modelled from the spec: fractional coordinates of a Cartesian point. *)
Definition get_fractional_coords (l : Lattice) (x : vec3) : vec3 :=
  mk3 (dot x (recip0 l)) (dot x (recip1 l)) (dot x (recip2 l)).

(** A [PeriodicSite]: the species symbol ([str(site.specie)]), the fractional
    coordinates and the lattice the site lives in. *)
Record PeriodicSite : Type := mkSite {
  specie : string;
  frac_coords : vec3;
  site_lattice : Lattice
}.

(** [site.coords]: the Cartesian coordinates of a site. *)
Definition coords (site : PeriodicSite) : vec3 :=
  get_cartesian_coords (site_lattice site) (frac_coords site).

(** A [Structure]: one lattice and an ordered sequence of sites. *)
Record Structure : Type := mkStructure { lattice : Lattice; sites : list PeriodicSite }.

(* ===================================================================== *)
(** ** Ionic dipole moments *)

(** [calc_ionic(site, structure, zval)]:
    [norms = structure.lattice.lengths_and_angles[0]];
    [return np.multiply(norms, -site.frac_coords * zval)]. *)
Definition calc_ionic (site : PeriodicSite) (structure : Structure) (zval : R) : vec3 :=
  let norms := fst (lengths_and_angles (lattice structure)) in
  np_multiply norms (vscale_r (vneg (frac_coords site)) zval).

(** The body of the [for site in structure] loop of [get_total_ionic_dipole],
    threading the list [tot_ionic]; [zval_dict[...]] raises [KeyError] on a
    missing key. *)
Fixpoint total_ionic_loop (todo : list PeriodicSite) (structure : Structure)
    (zval_dict : gmap string R) (tot_ionic : list vec3) : result (list vec3) :=
  match todo with
  | [] => Ok tot_ionic
  | site :: rest =>
      match zval_dict !! specie site with
      | None => Raise (KeyError (specie site))
      | Some zval =>
          total_ionic_loop rest structure zval_dict
            (tot_ionic ++ [calc_ionic site structure zval])
      end
  end.

(** [get_total_ionic_dipole(structure, zval_dict)]. *)
Definition get_total_ionic_dipole (structure : Structure) (zval_dict : gmap string R)
    : result vec3 :=
  tot_ionic ← total_ionic_loop (sites structure) structure zval_dict [];
  Ok (np_sum_axis0 tot_ionic).

(* ===================================================================== *)
(** ** The class Polarization *)

(** The attributes [self.p_elecs], [self.p_ions] (L x 3 matrices) and
    [self.structures]. *)
Record Polarization : Type := mkPolarization {
  p_elecs : list vec3;
  p_ions : list vec3;
  structures : list Structure
}.

(** [Polarization.__init__(self, p_elecs, p_ions, structures)]. *)
Definition Polarization_init (pe pi : list vec3) (ss : list Structure) : result Polarization :=
  if orb (negb (Nat.eqb (length pe) (length pi))) (negb (Nat.eqb (length pe) (length ss)))
  then Raise ValueError
  else Ok (mkPolarization pe pi ss).

(** Every instance is made by [__init__]: its three sequences have one length. *)
Definition well_formed (P : Polarization) : Prop :=
  length (p_elecs P) = length (p_ions P) /\ length (p_elecs P) = length (structures P).

(** [len(np.matrix(rows))]: the number of rows; an empty list makes a 1 x 0
    matrix, whose [len] is 1. *)
Definition matrix_len (rows : list vec3) : nat :=
  match rows with
  | [] => 1%nat
  | _ => length rows
  end.

(** [xs[i]] for a non-negative index: [IndexError] out of range. *)
Definition py_index {A : Type} (xs : list A) (i : nat) : result A :=
  match xs !! i with
  | Some x => Ok x
  | None => Raise IndexError
  end.

(** [xs[-1]]. *)
Definition py_last {A : Type} (xs : list A) : result A :=
  match last xs with
  | Some x => Ok x
  | None => Raise IndexError
  end.

(** The constants [e_to_muC] and [cm2_to_A2] of the source. *)
Definition e_to_muC : R := -1.6021766e-13.
Definition cm2_to_A2 : R := 1e16.

(** [units = 1.0 / np.matrix(volumes); units *= e_to_muC * cm2_to_A2]. *)
Definition unit_factors (volumes : list R) : list R :=
  map (fun v => 1 / v * (e_to_muC * cm2_to_A2)) volumes.

(** [[s.lattice.volume for s in self.structures]]. *)
Definition volumes_of (ss : list Structure) : list R :=
  map (fun s => volume (lattice s)) ss.

(** [Polarization.get_pelecs_and_pions(self, convert_to_muC_per_cm2)].  The
    matrices are transposed, multiplied by the row of unit factors (column i by
    [units[i]]) and transposed back. *)
Definition get_pelecs_and_pions (self : Polarization) (convert_to_muC_per_cm2 : bool)
    : list vec3 * list vec3 :=
  if negb convert_to_muC_per_cm2 then (p_elecs self, p_ions self)
  else
    let volumes := volumes_of (structures self) in
    let units := unit_factors volumes in
    (zip_with vscale_l units (p_elecs self), zip_with vscale_l units (p_ions self)).

(** The loop [for i in range(L)] that replaces [lattices[i]] by
    [Lattice.from_lengths_and_angles(np.array(l)*units.A1[i], a)]. *)
Fixpoint rescale_lattices (idx : list nat) (units : list R) (lattices : list Lattice)
    : result (list Lattice) :=
  match idx with
  | [] => Ok lattices
  | i :: rest =>
      lat ← py_index lattices i;
      let '(l, a) := lengths_and_angles lat in
      u ← py_index units i;
      rescale_lattices rest units (<[i := from_lengths_and_angles (vscale_r l u) a]> lattices)
  end.

(* ===================================================================== *)
(** ** Nearest periodic image *)

(** [np.floor]. *)
Definition floorZ (x : R) : Z := Int_part x.

(** [x % 1] on floats: the representative in [0, 1). *)
Definition mod1 (x : R) : R := x - IZR (floorZ x).

(** [f % 1], componentwise. *)
Definition vmod1 (f : vec3) : vec3 := mk3 (mod1 (c0 f)) (mod1 (c1 f)) (mod1 (c2 f)).

(** The integers [lo, lo + 1, ..., hi]. *)
Definition zrange (lo hi : Z) : list Z :=
  map (fun k => (lo + Z.of_nat k)%Z) (seq 0 (Z.to_nat (hi - lo + 1))).

(** Squared distance from [center] of the image of the fractional point [f0]
    translated by the integer vector [n]. *)
Definition image_dist2 (l : Lattice) (center f0 : vec3) (n : Z * Z * Z) : R :=
  norm2 (vsub (get_cartesian_coords l (vadd f0 (zvec n))) center).

(** Modelled from the spec: the candidates of the periodicity search of
    [get_nearest_site].  They are the translations that can reach an image at
    most as far from [center] as the sum of the three lattice lengths,
    enumerated in lexicographic order.  (No image outside this box is nearest:
    see [nearest_offset_optimal].) *)
Definition image_offsets (l : Lattice) (center f0 : vec3) : list (Z * Z * Z) :=
  let pc := get_fractional_coords l center in
  let rho := c0 (abc l) + c1 (abc l) + c2 (abc l) in
  let span (x k : R) := zrange (floorZ (x - rho * k)) (floorZ (x + rho * k) + 1) in
  na ← span (c0 pc - c0 f0) (norm (recip0 l));
  nb ← span (c1 pc - c1 f0) (norm (recip1 l));
  nc ← span (c2 pc - c2 f0) (norm (recip2 l));
  [(na, nb, nc)].

(** Modelled from the spec: ties go to the lowest image index, so the earlier
    candidate is kept unless the later one is strictly closer. *)
Definition closer (l : Lattice) (center f0 : vec3) (best n : Z * Z * Z) : Z * Z * Z :=
  if Rlt_dec (image_dist2 l center f0 n) (image_dist2 l center f0 best) then n else best.

(** Modelled from the spec: the translation of the image closest to [center]. *)
Definition nearest_offset (l : Lattice) (center f0 : vec3) : Z * Z * Z :=
  match image_offsets l center f0 with
  | [] => (0, 0, 0)%Z
  | n :: ns => fold_left (closer l center f0) ns n
  end.

(** Modelled from the spec: [Structure.get_nearest_site(coords, site)]
    (pymatgen/core/structure.py) is not among the sources.  The spec: search
    all translationally-equivalent images of the site under the lattice's
    periodicity and return the one closest to the reference point [coords] in
    real space, with its distance; ties go to the lowest image index.  The
    images are those of the site folded into the unit cell. *)
Definition get_nearest_site (d : Structure) (coords_ref : vec3) (site : PeriodicSite)
    : PeriodicSite * R :=
  let l := lattice d in
  let f0 := vmod1 (frac_coords site) in
  let n := nearest_offset l coords_ref f0 in
  (mkSite (specie site) (vadd f0 (zvec n)) l, sqrt (image_dist2 l coords_ref f0 n)).

(* ===================================================================== *)
(** ** Same-branch polarization *)

(** The loop [for i in range(L)] of [get_same_branch_polarization_data] that
    builds [d_structs] and [sites]. *)
Fixpoint branch_loop (idx : list nat) (lattices : list Lattice) (p_tot : list vec3)
    (d_structs : list Structure) (new_sites : list PeriodicSite)
    : result (list Structure * list PeriodicSite) :=
  match idx with
  | [] => Ok (d_structs, new_sites)
  | i :: rest =>
      l ← py_index lattices i;
      p ← py_index p_tot i;
      let frac_coord := np_divide p (abc l) in
      let d := mkStructure l [mkSite "C" frac_coord l] in
      site ← py_index (sites d) 0;
      prev_site ← (if Nat.eqb i 0 then Ok vzero
                   else s ← py_last new_sites; Ok (coords s));
      let new_site := get_nearest_site d prev_site site in
      branch_loop rest lattices p_tot (d_structs ++ [d]) (new_sites ++ [fst new_site])
  end.

(** [Polarization.get_same_branch_polarization_data(self, convert_to_muC_per_cm2)]. *)
Definition get_same_branch_polarization_data (self : Polarization)
    (convert_to_muC_per_cm2 : bool) : result (list vec3) :=
  let '(p_elec, p_ion) := get_pelecs_and_pions self false in
  let p_tot := zip_with vadd p_elec p_ion in
  let lattices := map lattice (structures self) in
  let volumes := volumes_of (structures self) in
  let L := matrix_len p_elec in
  '(p_tot, lattices) ←
    (if convert_to_muC_per_cm2 then
       let units := unit_factors volumes in
       let p_tot := zip_with vscale_l units p_tot in
       lattices ← rescale_lattices (seq 0 L) units lattices;
       Ok (p_tot, lattices)
     else Ok (p_tot, lattices));
  '(d_structs, new_sites) ← branch_loop (seq 0 L) lattices p_tot [] [];
  Ok (zip_with (fun s d => np_multiply (frac_coords s) (abc (lattice d))) new_sites d_structs).

(** [Polarization.get_lattice_quanta(self, convert_to_muC_per_cm2)]. *)
Definition get_lattice_quanta (self : Polarization) (convert_to_muC_per_cm2 : bool)
    : result (list vec3) :=
  let lattices := map lattice (structures self) in
  let volumes := volumes_of (structures self) in
  let L := length (structures self) in
  lattices ←
    (if convert_to_muC_per_cm2 then
       let units := unit_factors volumes in
       rescale_lattices (seq 0 L) units lattices
     else Ok lattices);
  Ok (map (fun l => fst (lengths_and_angles l)) lattices).

(** [tot[-1] - tot[0]] on the converted same-branch data. *)
Definition get_polarization_change (self : Polarization) : result vec3 :=
  tot ← get_same_branch_polarization_data self true;
  last_row ← py_last tot;
  first_row ← py_index tot 0;
  Ok (vsub last_row first_row).

(** [v / k] for an array [v] and a scalar [k]. *)
Definition vdiv_r (v : vec3) (k : R) : vec3 := mk3 (c0 v / k) (c1 v / k) (c2 v / k).

(** [Polarization.get_polarization_change_norm(self)]. *)
Definition get_polarization_change_norm (self : Polarization) : result R :=
  polar ← py_last (structures self);
  let '(a, b, c) := (row0 (lattice polar), row1 (lattice polar), row2 (lattice polar)) in
  let '(a, b, c) := (vdiv_r a (norm a), vdiv_r b (norm b), vdiv_r c (norm c)) in
  P ← get_polarization_change self;
  Ok (norm (vadd (vadd (vscale_r a (c0 P)) (vscale_r b (c1 P))) (vscale_r c (c2 P)))).

(* ===================================================================== *)
(** ** Same-branch polarization in double precision

    The entries of the arrays are IEEE-754 doubles.  This section follows
    [get_same_branch_polarization_data], called without unit conversion, with
    the two operations that feed the choice of the periodic image rounded as
    the program rounds them: the sum [p_elec + p_ion] and the quotient
    [np.divide(p_tot[i], [l.a, l.b, l.c])].  The search of the nearest image
    ([get_nearest_site]) and the final product are taken on the values of
    these doubles, without further rounding: the rows returned are real
    numbers, which the program rounds once more. *)














(* ===================================================================== *)
(** ** Spline diagnostics *)

(** Column [d] of an L x 3 matrix, flattened ([tot[:,d].A1]). *)
Definition column (d : axis) (rows : list vec3) : list R := map (fun v => comp v d) rows.

(** [range(L)], as the abscissae handed to the spline. *)
Definition range (L : nat) : list R := map INR (seq 0 L).

(** The builtin [max] over a sequence: [ValueError] when it is empty. *)
Definition py_max (xs : list R) : result R :=
  match xs with
  | [] => Raise ValueError
  | x :: rest => Ok (fold_left Rmax rest x)
  end.

Definition np_sum (xs : list R) : R := fold_left Rplus xs 0.
Definition np_square (xs : list R) : list R := map (fun x => x * x) xs.

(** [x <= y] as a Python boolean. *)
Definition Rleb (x y : R) : bool := if Rle_dec x y then true else false.

(** A value together with the lines printed while computing it. *)
Definition printing (A : Type) : Type := A * list string.

(** The attribute [self.energies]. *)
Record EnergyTrend : Type := mkEnergyTrend { energies : list R }.

(** [EnergyTrend.__init__(self, energies)]. *)
Definition EnergyTrend_init (es : list R) : result EnergyTrend := Ok (mkEnergyTrend es).

(** The dictionary returned by [endpoints_minima]. *)
Record Minima : Type := mkMinima { polar : bool; nonpolar : bool }.

Section SplineMethods.

(** [scipy.interpolate.UnivariateSpline]: the type of fitted splines; the
    constructor, given abscissae, ordinates and the degree [k] (3 when the
    call omits it), which may raise; evaluation at a point (a call on a
    sequence evaluates pointwise); and [derivative()]. *)
Context {Spline : Type}.
Variable UnivariateSpline : list R -> list R -> nat -> result Spline.
Variable spline_eval : Spline -> R -> R.
Variable spline_derivative : Spline -> Spline.

(** [sp(xs)]. *)
Definition spline_call (sp : Spline) (xs : list R) : list R := map (spline_eval sp) xs.

(** One [try: sp = UnivariateSpline(range(L), tot[:,d].A1) except: sp = None]. *)
Definition fit_column (L : nat) (tot : list vec3) (d : axis) : result (option Spline) :=
  try_except (sp ← UnivariateSpline (range L) (column d tot) 3; Ok (Some sp)) (Ok None).

(** [Polarization.same_branch_splines(self)]. *)
Definition same_branch_splines (self : Polarization)
    : result (option Spline * option Spline * option Spline) :=
  tot ← get_same_branch_polarization_data self true;
  let L := length tot in
  sp_a ← fit_column L tot Xa;
  sp_b ← fit_column L tot Xb;
  sp_c ← fit_column L tot Xc;
  Ok (sp_a, sp_b, sp_c).

(** One turn of the loop of [max_spline_jumps]: the entry of [max_jumps] for
    direction [d] stays [None] unless the spline is there. *)
Definition max_jump_entry (tot : list vec3) (d : axis) (sp : option Spline)
    : result (option R) :=
  match sp with
  | Some sp =>
      let col := column d tot in
      m ← py_max (zip_with Rminus col (spline_call sp (range (length col))));
      Ok (Some m)
  | None => Ok None
  end.

(** [Polarization.max_spline_jumps(self)]. *)
Definition max_spline_jumps (self : Polarization) : result (list (option R)) :=
  tot ← get_same_branch_polarization_data self true;
  sps ← same_branch_splines self;
  let '(sp_a, sp_b, sp_c) := sps in
  j_a ← max_jump_entry tot Xa sp_a;
  j_b ← max_jump_entry tot Xb sp_b;
  j_c ← max_jump_entry tot Xc sp_c;
  Ok [j_a; j_b; j_c].

(** [sp[i](range(L))]: calling [None] raises [TypeError]. *)
Definition call_optional (sp : option Spline) (xs : list R) : result (list R) :=
  match sp with
  | Some sp => Ok (spline_call sp xs)
  | None => Raise TypeError
  end.

Definition rms_of (diff : list R) (L : nat) : R := sqrt (np_sum (np_square diff) / INR L).

(** [Polarization.smoothness(self)]. *)
Definition Polarization_smoothness (self : Polarization) : printing (result (option (list R))) :=
  match get_same_branch_polarization_data self true with
  | Raise e => (Raise e, [])
  | Ok tot =>
      let L := length tot in
      match same_branch_splines self with
      | Raise _ => (Ok None, ["Something went wrong."%string])
      | Ok (sp_a, sp_b, sp_c) =>
          (la ← call_optional sp_a (range L);
           lb ← call_optional sp_b (range L);
           lc ← call_optional sp_c (range L);
           let diff_a := zip_with Rminus la (column Xa tot) in
           let diff_b := zip_with Rminus lb (column Xb tot) in
           let diff_c := zip_with Rminus lc (column Xc tot) in
           Ok (Some [rms_of diff_a L; rms_of diff_b L; rms_of diff_c L]), [])
      end
  end.

(** [EnergyTrend.spline(self)]. *)
Definition spline (self : EnergyTrend) : result Spline :=
  UnivariateSpline (range (length (energies self))) (energies self) 4.

(** [EnergyTrend.smoothness(self)]. *)
Definition smoothness (self : EnergyTrend) : printing (result (option R)) :=
  let energies := energies self in
  match spline self with
  | Raise _ => (Ok None, ["Energy spline failed."%string])
  | Ok sp =>
      let spline_energies := spline_call sp (range (length energies)) in
      let diff := zip_with Rminus spline_energies energies in
      let rms := sqrt (np_sum (np_square diff) / INR (length energies)) in
      (Ok (Some rms), [])
  end.

(** [EnergyTrend.max_spline_jump(self)]. *)
Definition max_spline_jump (self : EnergyTrend) : result R :=
  sp ← spline self;
  py_max (zip_with Rminus (energies self) (spline_call sp (range (length (energies self))))).

(** [EnergyTrend.endpoints_minima(self, slope_cutoff)]. *)
Definition endpoints_minima (self : EnergyTrend) (slope_cutoff : R)
    : printing (result (option Minima)) :=
  let energies := energies self in
  match spline self with
  | Raise _ => (Ok None, ["Energy spline failed."%string])
  | Ok sp =>
      let der := spline_derivative sp in
      let der_energies := spline_call der (range (length energies)) in
      (e_last ← py_last der_energies;
       e_first ← py_index der_energies 0;
       Ok (Some (mkMinima (Rleb (Rabs e_last) slope_cutoff)
                          (Rleb (Rabs e_first) slope_cutoff))), [])
  end.

End SplineMethods.

(** The matrix [adjust_pol] that [get_same_branch_polarization_data] builds from
    the two lists of its loop: [s.frac_coords * (l.a, l.b, l.c)] for each pair of
    [zip(sites, d_structs)]. *)
Definition adjust_pol (acc : list Structure * list PeriodicSite) : list vec3 :=
  zip_with (fun s d => np_multiply (frac_coords s) (abc (lattice d))) (snd acc) (fst acc).

(* ===================================================================== *)
(** ** The methods over a store of Python objects

    The definitions above compute with values.  To state what a method does to
    the objects an instance refers to, the methods are embedded a second time
    over a store: every array, matrix or list a method makes is a new object,
    the in-place statements of the source ([units *= ...] and
    [lattices[i] = ...]) overwrite an object, and [get_pelecs_and_pions]
    without conversion returns the very objects the instance holds.  [print]
    appends a line to the standard output. *)

Definition loc : Type := nat.

Inductive pyobj : Type :=
| PMatrix (rows : list vec3)         (* an L x 3 np.matrix, by rows *)
| PMatrixT (rows : list vec3)        (* the transpose of such a matrix *)
| PRow (xs : list R)                 (* a 1 x L np.matrix *)
| PLattices (ls : list Lattice)      (* a list of Lattice objects *)
| PStructures (ss : list Structure)  (* a list of Structure objects *)
| PFloats (es : list R).             (* a sequence of floats *)

Record state : Type := mkState {
  objects : gmap loc pyobj;
  stdout : list string
}.

(** A computation that may read, extend and overwrite the store, print, and
    raise. *)
Definition Py (A : Type) : Type := state -> result A * state.

#[global] Instance Py_ret : MRet Py := fun A (a : A) σ => (Ok a, σ).

#[global] Instance Py_bind : MBind Py :=
  fun A B (k : A -> Py B) (m : Py A) σ =>
    match m σ with
    | (Ok a, σ') => k a σ'
    | (Raise e, σ') => (Raise e, σ')
    end.

(** A computation on values only. *)
Definition lift {A : Type} (r : result A) : Py A := fun σ => (r, σ).

(** [try: body except: handler] with a bare [except] clause. *)
Definition st_try_except {A : Type} (body handler : Py A) : Py A :=
  fun σ =>
    match body σ with
    | (Ok a, σ') => (Ok a, σ')
    | (Raise _, σ') => handler σ'
    end.

(** A new object, at an address not in use. *)
Definition new (o : pyobj) : Py loc :=
  fun σ =>
    let l := fresh (dom (objects σ)) in
    (Ok l, mkState (<[l := o]> (objects σ)) (stdout σ)).

(** An in-place update of the object at [l]. *)
Definition overwrite (l : loc) (o : pyobj) : Py unit :=
  fun σ => (Ok tt, mkState (<[l := o]> (objects σ)) (stdout σ)).

(** [print(line)]. *)
Definition print (line : string) : Py unit :=
  fun σ => (Ok tt, mkState (objects σ) (stdout σ ++ [line])).

Definition get_matrix (l : loc) : Py (list vec3) :=
  fun σ =>
    (match objects σ !! l with Some (PMatrix rows) => Ok rows | _ => Raise TypeError end, σ).

Definition get_matrixT (l : loc) : Py (list vec3) :=
  fun σ =>
    (match objects σ !! l with Some (PMatrixT rows) => Ok rows | _ => Raise TypeError end, σ).

Definition get_row (l : loc) : Py (list R) :=
  fun σ => (match objects σ !! l with Some (PRow xs) => Ok xs | _ => Raise TypeError end, σ).

Definition get_lattices (l : loc) : Py (list Lattice) :=
  fun σ =>
    (match objects σ !! l with Some (PLattices ls) => Ok ls | _ => Raise TypeError end, σ).

Definition get_structures (l : loc) : Py (list Structure) :=
  fun σ =>
    (match objects σ !! l with Some (PStructures ss) => Ok ss | _ => Raise TypeError end, σ).

Definition get_floats (l : loc) : Py (list R) :=
  fun σ => (match objects σ !! l with Some (PFloats es) => Ok es | _ => Raise TypeError end, σ).

(** A [Polarization] instance: the objects its attributes refer to. *)
Record PolarizationRef : Type := mkPolarizationRef {
  at_p_elecs : loc;
  at_p_ions : loc;
  at_structures : loc
}.

(** An [EnergyTrend] instance. *)
Record EnergyTrendRef : Type := mkEnergyTrendRef { at_energies : loc }.

(** The state an instance has in a store. *)
Definition stored_polarization (self : PolarizationRef) (σ : state) : option Polarization :=
  match objects σ !! at_p_elecs self, objects σ !! at_p_ions self,
        objects σ !! at_structures self with
  | Some (PMatrix pe), Some (PMatrix pi), Some (PStructures ss) => Some (mkPolarization pe pi ss)
  | _, _, _ => None
  end.

Definition stored_energies (self : EnergyTrendRef) (σ : state) : option EnergyTrend :=
  match objects σ !! at_energies self with
  | Some (PFloats es) => Some (mkEnergyTrend es)
  | _ => None
  end.

(** [units = 1.0 / np.matrix(volumes); units *= e_to_muC * cm2_to_A2]: a new
    matrix, then multiplied in place. *)
Definition st_units (volumes : list R) : Py loc :=
  units ← new (PRow (map (fun v => 1 / v) volumes));
  u ← get_row units;
  _ ← overwrite units (PRow (map (fun x => x * (e_to_muC * cm2_to_A2)) u));
  mret units.

(** [Polarization.get_pelecs_and_pions], on the store. *)
Definition st_get_pelecs_and_pions (self : PolarizationRef) (convert_to_muC_per_cm2 : bool)
    : Py (loc * loc) :=
  if negb convert_to_muC_per_cm2 then mret (at_p_elecs self, at_p_ions self)
  else
    pe ← get_matrix (at_p_elecs self);
    p_elecs ← new (PMatrixT pe);
    pi ← get_matrix (at_p_ions self);
    p_ions ← new (PMatrixT pi);
    ss ← get_structures (at_structures self);
    let volumes := volumes_of ss in
    units ← st_units volumes;
    u ← get_row units;
    peT ← get_matrixT p_elecs;
    p_elecs ← new (PMatrixT (zip_with vscale_l u peT));
    piT ← get_matrixT p_ions;
    p_ions ← new (PMatrixT (zip_with vscale_l u piT));
    peT ← get_matrixT p_elecs;
    p_elecs ← new (PMatrix peT);
    piT ← get_matrixT p_ions;
    p_ions ← new (PMatrix piT);
    mret (p_elecs, p_ions).

(** The loop that replaces [lattices[i]], on the store: each turn overwrites
    the list object [lattices]. *)
Fixpoint st_rescale_lattices (idx : list nat) (units lattices : loc) : Py unit :=
  match idx with
  | [] => mret tt
  | i :: rest =>
      ls ← get_lattices lattices;
      lat ← lift (py_index ls i);
      let '(l, a) := lengths_and_angles lat in
      us ← get_row units;
      u ← lift (py_index us i);
      _ ← overwrite lattices (PLattices (<[i := from_lengths_and_angles (vscale_r l u) a]> ls));
      st_rescale_lattices rest units lattices
  end.

(** [Polarization.get_same_branch_polarization_data], on the store.  The main
    loop only appends to lists of its own, so it is the loop on values. *)
Definition st_get_same_branch_polarization_data (self : PolarizationRef)
    (convert_to_muC_per_cm2 : bool) : Py loc :=
  '(p_elec, p_ion) ← st_get_pelecs_and_pions self false;
  pe ← get_matrix p_elec;
  pi ← get_matrix p_ion;
  p_tot ← new (PMatrix (zip_with vadd pe pi));
  pt ← get_matrix p_tot;
  p_tot ← new (PMatrix pt);
  ss ← get_structures (at_structures self);
  lattices ← new (PLattices (map lattice ss));
  let volumes := volumes_of ss in
  let L := matrix_len pe in
  p_tot ←
    (if convert_to_muC_per_cm2 then
       units ← st_units volumes;
       u ← get_row units;
       pt ← get_matrix p_tot;
       p_tot ← new (PMatrix (zip_with vscale_l u pt));
       _ ← st_rescale_lattices (seq 0 L) units lattices;
       mret p_tot
     else mret p_tot);
  ls ← get_lattices lattices;
  pt ← get_matrix p_tot;
  acc ← lift (branch_loop (seq 0 L) ls pt [] []);
  new (PMatrix (adjust_pol acc)).

(** [Polarization.get_lattice_quanta], on the store. *)
Definition st_get_lattice_quanta (self : PolarizationRef) (convert_to_muC_per_cm2 : bool)
    : Py loc :=
  ss ← get_structures (at_structures self);
  lattices ← new (PLattices (map lattice ss));
  let volumes := volumes_of ss in
  let L := length ss in
  _ ← (if convert_to_muC_per_cm2 then
         units ← st_units volumes;
         st_rescale_lattices (seq 0 L) units lattices
       else mret tt);
  ls ← get_lattices lattices;
  new (PMatrix (map (fun l => fst (lengths_and_angles l)) ls)).

(** [Polarization.get_polarization_change], on the store. *)
Definition st_get_polarization_change (self : PolarizationRef) : Py vec3 :=
  t ← st_get_same_branch_polarization_data self true;
  tot ← get_matrix t;
  lift (last_row ← py_last tot; first_row ← py_index tot 0; Ok (vsub last_row first_row)).

(** [Polarization.get_polarization_change_norm], on the store. *)
Definition st_get_polarization_change_norm (self : PolarizationRef) : Py R :=
  ss ← get_structures (at_structures self);
  polar ← lift (py_last ss);
  let '(a, b, c) := (row0 (lattice polar), row1 (lattice polar), row2 (lattice polar)) in
  let '(a, b, c) := (vdiv_r a (norm a), vdiv_r b (norm b), vdiv_r c (norm c)) in
  P ← st_get_polarization_change self;
  mret (norm (vadd (vadd (vscale_r a (c0 P)) (vscale_r b (c1 P))) (vscale_r c (c2 P)))).

Section StoreSplineMethods.

Context {Spline : Type}.
Variable UnivariateSpline : list R -> list R -> nat -> result Spline.
Variable spline_eval : Spline -> R -> R.
Variable spline_derivative : Spline -> Spline.

(** [Polarization.same_branch_splines], on the store. *)
Definition st_same_branch_splines (self : PolarizationRef)
    : Py (option Spline * option Spline * option Spline) :=
  t ← st_get_same_branch_polarization_data self true;
  tot ← get_matrix t;
  let L := length tot in
  sp_a ← lift (fit_column UnivariateSpline L tot Xa);
  sp_b ← lift (fit_column UnivariateSpline L tot Xb);
  sp_c ← lift (fit_column UnivariateSpline L tot Xc);
  mret (sp_a, sp_b, sp_c).

(** [Polarization.max_spline_jumps], on the store. *)
Definition st_max_spline_jumps (self : PolarizationRef) : Py (list (option R)) :=
  t ← st_get_same_branch_polarization_data self true;
  tot ← get_matrix t;
  sps ← st_same_branch_splines self;
  let '(sp_a, sp_b, sp_c) := sps in
  j_a ← lift (max_jump_entry spline_eval tot Xa sp_a);
  j_b ← lift (max_jump_entry spline_eval tot Xb sp_b);
  j_c ← lift (max_jump_entry spline_eval tot Xc sp_c);
  mret [j_a; j_b; j_c].

(** [Polarization.smoothness], on the store. *)
Definition st_Polarization_smoothness (self : PolarizationRef) : Py (option (list R)) :=
  t ← st_get_same_branch_polarization_data self true;
  tot ← get_matrix t;
  let L := length tot in
  st_try_except
    (sp ← st_same_branch_splines self;
     let '(sp_a, sp_b, sp_c) := sp in
     mret (Some (sp_a, sp_b, sp_c)))
    (_ ← print "Something went wrong."; mret None)
  ≫= fun sp =>
    match sp with
    | None => mret None
    | Some (sp_a, sp_b, sp_c) =>
        la ← lift (call_optional spline_eval sp_a (range L));
        lb ← lift (call_optional spline_eval sp_b (range L));
        lc ← lift (call_optional spline_eval sp_c (range L));
        let diff_a := zip_with Rminus la (column Xa tot) in
        let diff_b := zip_with Rminus lb (column Xb tot) in
        let diff_c := zip_with Rminus lc (column Xc tot) in
        mret (Some [rms_of diff_a L; rms_of diff_b L; rms_of diff_c L])
    end.

(** [EnergyTrend.spline], on the store. *)
Definition st_spline (self : EnergyTrendRef) : Py Spline :=
  es ← get_floats (at_energies self);
  lift (UnivariateSpline (range (length es)) es 4).

(** [EnergyTrend.smoothness], on the store. *)
Definition st_smoothness (self : EnergyTrendRef) : Py (option R) :=
  energies ← get_floats (at_energies self);
  st_try_except (sp ← st_spline self; mret (Some sp))
    (_ ← print "Energy spline failed."; mret None)
  ≫= fun sp =>
    match sp with
    | None => mret None
    | Some sp =>
        let spline_energies := spline_call spline_eval sp (range (length energies)) in
        let diff := zip_with Rminus spline_energies energies in
        mret (Some (sqrt (np_sum (np_square diff) / INR (length energies))))
    end.

(** [EnergyTrend.max_spline_jump], on the store. *)
Definition st_max_spline_jump (self : EnergyTrendRef) : Py R :=
  sp ← st_spline self;
  es ← get_floats (at_energies self);
  lift (py_max (zip_with Rminus es (spline_call spline_eval sp (range (length es))))).

(** [EnergyTrend.endpoints_minima], on the store. *)
Definition st_endpoints_minima (self : EnergyTrendRef) (slope_cutoff : R) : Py (option Minima) :=
  energies ← get_floats (at_energies self);
  st_try_except (sp ← st_spline self; mret (Some sp))
    (_ ← print "Energy spline failed."; mret None)
  ≫= fun sp =>
    match sp with
    | None => mret None
    | Some sp =>
        let der := spline_derivative sp in
        let der_energies := spline_call spline_eval der (range (length energies)) in
        e_last ← lift (py_last der_energies);
        e_first ← lift (py_index der_energies 0);
        mret (Some (mkMinima (Rleb (Rabs e_last) slope_cutoff)
                             (Rleb (Rabs e_first) slope_cutoff)))
    end.

End StoreSplineMethods.

(* ===================================================================== *)
(** ** ZVAL dictionaries and the constructor from OUTCARs *)

(** One entry of a [Potcar] (a list of [PotcarSingle]): the attributes
    [p.element] and [p.ZVAL] that [zval_dict_from_potcar] reads. *)
Record PotcarSingle : Type := mkPotcarSingle { element : string; ZVAL : R }.

(** [zval_dict_from_potcar(potcar)]: [zval_dict = {}], then for every [p] in
    [potcar], [zval_dict.update({p.element: p.ZVAL})]. *)
Definition zval_dict_from_potcar (potcar : list PotcarSingle) : gmap string R :=
  fold_left (fun zval_dict p => <[element p := ZVAL p]> zval_dict) potcar ∅.

(** The loop [for key, value in species_potcar_dict.iteritems()] of
    [create_zval_dict_from_pseudo_dict], over the items in the order the
    dictionary yields them; [pseudo_dict[value]] raises [KeyError] on a
    missing key. *)
Fixpoint pseudo_loop (items : list (string * string)) (pseudo_dict : gmap string R)
    (zval_dict : gmap string R) : result (gmap string R) :=
  match items with
  | [] => Ok zval_dict
  | (key, value) :: rest =>
      match pseudo_dict !! value with
      | None => Raise (KeyError value)
      | Some zval => pseudo_loop rest pseudo_dict (<[key := zval]> zval_dict)
      end
  end.

(** The interpreter that runs the module.  It matters in one place here: a
    dictionary has the method [iteritems] under Python 2 only. *)
Inductive interpreter : Type := Python2 | Python3.

(** What a call gives that starts by looking up an attribute of an object:
    the [AttributeError] for the attribute the object lacks, or the outcome of
    the call. *)
Inductive attribute_outcome (A : Type) : Type :=
| AttributeError (name : string)
| Found (a : A).

Arguments AttributeError {A} name.
Arguments Found {A} a.

(** [d.iteritems()] on a dictionary [d]: under Python 2 the items, in an order
    of the dictionary's own ([map_to_list] is one such order); under Python 3
    a dictionary has no attribute [iteritems]. *)
Definition iteritems {V : Type} (python : interpreter) (d : gmap string V)
    : attribute_outcome (list (string * V)) :=
  match python with
  | Python2 => Found (map_to_list d)
  | Python3 => AttributeError "iteritems"
  end.

Section ZvalTable.

(** The table [VASP_PBE_ZVAL] that the module loads from [ZVAL.yaml] (a data
    file that is not among the sources). *)
Variable VASP_PBE_ZVAL : gmap string R.

(** [create_zval_dict_from_pseudo_dict(species_potcar_dict, pseudo_dict=None)]
    on a dictionary [species_potcar_dict], under the interpreter [python]. *)
Definition create_zval_dict_from_pseudo_dict (python : interpreter)
    (species_potcar_dict : gmap string string) (pseudo_dict : option (gmap string R))
    : attribute_outcome (result (gmap string R)) :=
  let pseudo_dict := match pseudo_dict with None => VASP_PBE_ZVAL | Some d => d end in
  match iteritems python species_potcar_dict with
  | AttributeError name => AttributeError name
  | Found items => Found (pseudo_loop items pseudo_dict ∅)
  end.

End ZvalTable.

(** An [Outcar] whose polarization has been read: the attributes [o.p_elec]
    and [o.p_ion] that [from_outcars_and_structures] reads. *)
Record Outcar : Type := mkOutcar { p_elec : vec3; p_ion : vec3 }.

(** The loop [for o in outcars] of [from_outcars_and_structures], threading
    the lists [p_elecs] and [p_ions]. *)
Fixpoint outcars_loop (outcars : list Outcar) (p_elecs p_ions : list vec3)
    : list vec3 * list vec3 :=
  match outcars with
  | [] => (p_elecs, p_ions)
  | o :: rest => outcars_loop rest (p_elecs ++ [p_elec o]) (p_ions ++ [p_ion o])
  end.

(** [Polarization.from_outcars_and_structures(cls, outcars, structures)]. *)
Definition from_outcars_and_structures (outcars : list Outcar) (structures : list Structure)
    : result Polarization :=
  let '(p_elecs, p_ions) := outcars_loop outcars [] [] in
  Polarization_init p_elecs p_ions structures.

(* ===================================================================== *)
(** * The readers of LOBSTER files

    The module [Lobster] embeds [pymatgen/io/lobster.py]: the readers
    [Charge.__init__] and [Icohplist.__init__] on the contents of their file,
    and the parts of [Cohpcar.__init__] and [Doscar._parse_doscar] that build
    the dictionaries from the arrays read.  The module has its own exceptions
    and outcomes. *)

Module Lobster.

(** The exceptions that the readers raise. *)
Inductive exn : Type :=
| IOError (message : string)
| ValueError
| IndexError.

Inductive result (A : Type) : Type :=
| Ok (a : A)
| Raise (e : exn).

Arguments Ok {A} a.
Arguments Raise {A} e.

#[global] Instance result_bind : MBind result :=
  fun A B (k : A -> result B) (m : result A) =>
    match m with
    | Ok a => k a
    | Raise e => Raise e
    end.

#[global] Instance result_ret : MRet result := fun A (a : A) => Ok a.

(** [xs[i]] for a non-negative index. *)
Definition getitem {A : Type} (xs : list A) (i : nat) : result A :=
  match xs !! i with
  | Some x => Ok x
  | None => Raise IndexError
  end.

(** [xs[a:-b]] for [b > 0]: drop the first [a] and the last [b] elements. *)
Definition slice {A : Type} (a b : nat) (xs : list A) : list A :=
  drop a (take (length xs - b) xs).

(** [s.split("\n")]. *)
Fixpoint split_lines (s : string) : list string :=
  match s with
  | EmptyString => [EmptyString]
  | String c rest =>
      if Ascii.eqb c "010"%char then EmptyString :: split_lines rest
      else
        match split_lines rest with
        | [] => [String c EmptyString]
        | line :: lines => String c line :: lines
        end
  end.

(** [needle in s] for strings. *)
Definition contains (needle s : string) : bool :=
  match String.index 0 needle s with
  | Some _ => true
  | None => false
  end.

(** [Spin.up] and [Spin.down]. *)
Inductive Spin : Type := Up | Down.

#[global] Instance Spin_eq_dec : EqDecision Spin.
Proof. solve_decision. Defined.

#[global] Instance Spin_countable : Countable Spin :=
  inj_countable' (fun s => match s with Up => true | Down => false end)
                 (fun b : bool => if b then Up else Down)
                 (fun s => match s with Up => eq_refl | Down => eq_refl end).

Section Readers.

(** Builtins of Python: [s.split()] (fields separated by white space),
    [float(s)] and [int(s)] ([None] stands for the [ValueError] they raise). *)
Variable str_split : string -> list string.
Variable float_of : string -> option R.
Variable int_of : string -> option Z.

Definition float (s : string) : result R :=
  match float_of s with Some x => Ok x | None => Raise ValueError end.

Definition int (s : string) : result Z :=
  match int_of s with Some x => Ok x | None => Raise ValueError end.

(** The attributes of a [Charge]. *)
Record Charge : Type := mkCharge {
  num_atoms : nat;
  atomlist : list string;
  types : list string;
  Mulliken : list R;
  Loewdin : list R
}.

(** The loop [for atom in range(0, self.num_atoms)] of [Charge.__init__]. *)
Fixpoint Charge_loop (atoms : list nat) (data : list string) (self : Charge)
    : result Charge :=
  match atoms with
  | [] => Ok self
  | atom :: rest =>
      row ← getitem data atom;
      let line := str_split row in
      name ← getitem line 1;
      number ← getitem line 0;
      let atomlist := atomlist self ++ [(name ++ number)%string] in
      type ← getitem line 1;
      let types := types self ++ [type] in
      field2 ← getitem line 2;
      mulliken ← float field2;
      let Mulliken := Mulliken self ++ [mulliken] in
      field3 ← getitem line 3;
      loewdin ← float field3;
      let Loewdin := Loewdin self ++ [loewdin] in
      Charge_loop rest data (mkCharge (num_atoms self) atomlist types Mulliken Loewdin)
  end.

(** [Charge.__init__(self, filename)], on the contents of the file. *)
Definition Charge_init (contents : string) : result Charge :=
  let data := slice 3 3 (split_lines contents) in
  if Nat.eqb (length data) 0 then Raise (IOError "CHARGES file contains no data.")
  else Charge_loop (seq 0 (length data)) data (mkCharge (length data) [] [] [] []).

(** The keyword arguments that [Icohplist.__init__] hands to [CompleteIcohp]:
    one entry per bond in each list. *)
Record IcohpLists : Type := mkIcohpLists {
  list_labels : list string;
  list_atom1 : list string;
  list_atom2 : list string;
  list_length : list R;
  list_translation : list (Z * Z * Z);
  list_num : list Z;
  list_icohp : list (gmap Spin R)
}.

(** The two file formats: the strings ['3.1.1'] and ['2.2.1']. *)
Inductive lobster_version : Type := V311 | V221.

(** The end of one turn of the loop of [Icohplist.__init__]: for a
    spin-polarized file, [icohp[Spin.down]] is read from column [col] of line
    [bond + num_bonds + 1]. *)
Definition icohp_down (col : nat) (spin_polarized : bool) (num_bonds : nat)
    (data : list string) (bond : nat) (icohp : gmap Spin R) : result (gmap Spin R) :=
  if spin_polarized then
    row ← getitem data (bond + num_bonds + 1);
    field ← getitem (str_split row) col;
    down ← float field;
    Ok (<[Down := down]> icohp)
  else Ok icohp.

(** One turn of the loop [for bond in range(num_bonds)] of
    [Icohplist.__init__]. *)
Definition Icohplist_bond (version : lobster_version) (spin_polarized : bool)
    (num_bonds : nat) (data : list string) (bond : nat) (acc : IcohpLists)
    : result IcohpLists :=
  row ← getitem data bond;
  let line := str_split row in
  '(label, atom1, atom2, length, translation, num, icohp) ←
    match version with
    | V221 =>
        label ← getitem line 0;
        atom1 ← getitem line 1;
        atom2 ← getitem line 2;
        field ← getitem line 3;
        length ← float field;
        field ← getitem line 4;
        up ← float field;
        field ← getitem line 5;
        num ← int field;
        icohp ← icohp_down 4 spin_polarized num_bonds data bond {[Up := up]};
        Ok (label, atom1, atom2, length, (0, 0, 0)%Z, num, icohp)
    | V311 =>
        label ← getitem line 0;
        atom1 ← getitem line 1;
        atom2 ← getitem line 2;
        field ← getitem line 3;
        length ← float field;
        field ← getitem line 4;
        ta ← int field;
        field ← getitem line 5;
        tb ← int field;
        field ← getitem line 6;
        tc ← int field;
        field ← getitem line 7;
        up ← float field;
        icohp ← icohp_down 7 spin_polarized num_bonds data bond {[Up := up]};
        Ok (label, atom1, atom2, length, (ta, tb, tc), 1%Z, icohp)
    end;
  Ok (mkIcohpLists (list_labels acc ++ [label]) (list_atom1 acc ++ [atom1])
        (list_atom2 acc ++ [atom2]) (list_length acc ++ [length])
        (list_translation acc ++ [translation]) (list_num acc ++ [num])
        (list_icohp acc ++ [icohp])).

Fixpoint Icohplist_loop (version : lobster_version) (spin_polarized : bool)
    (num_bonds : nat) (data : list string) (bonds : list nat) (acc : IcohpLists)
    : result IcohpLists :=
  match bonds with
  | [] => Ok acc
  | bond :: rest =>
      acc ← Icohplist_bond version spin_polarized num_bonds data bond acc;
      Icohplist_loop version spin_polarized num_bonds data rest acc
  end.

(** What [Icohplist.__init__] leaves in the object: the two flags and the
    arguments of the call of [CompleteIcohp]. *)
Record Icohplist : Type := mkIcohplist {
  are_coops : bool;
  is_spin_polarized : bool;
  collection_arguments : IcohpLists
}.

(** [Icohplist.__init__(self, are_coops, filename)], on the contents of the
    file, up to the call of [CompleteIcohp]; the second component holds the
    warnings issued. *)
Definition Icohplist_init (are_coops : bool) (contents : string)
    : result Icohplist * list string :=
  let data := slice 1 1 (split_lines contents) in
  if Nat.eqb (length data) 0
  then (Raise (IOError "ICOHPLIST file contains no data."), [])
  else
    let columns := length (str_split (default EmptyString (data !! 0%nat))) in
    let version :=
      if Nat.eqb columns 8 then Some (V311, [])
      else if Nat.eqb columns 6
      then Some (V221, ["Please consider using the new Lobster version. See www.cohp.de."%string])
      else None in
    match version with
    | None => (Raise ValueError, [])
    | Some (version, warnings) =>
        let middle := default EmptyString (data !! (length data / 2)%nat) in
        (if contains "distance" middle then
           let num_bonds := (length data / 2)%nat in
           if Nat.eqb num_bonds 0
           then Raise (IOError "ICOHPLIST file contains no data.")
           else
             lists ← Icohplist_loop version true num_bonds data (seq 0 num_bonds)
                       (mkIcohpLists [] [] [] [] [] [] []);
             Ok (mkIcohplist are_coops true lists)
         else
           let num_bonds := length data in
           lists ← Icohplist_loop version false num_bonds data (seq 0 num_bonds)
                     (mkIcohpLists [] [] [] [] [] [] []);
           Ok (mkIcohplist are_coops false lists),
         warnings)
    end.

End Readers.

(** [pdos[orb][spin] = column] on the [defaultdict(dict)] of one atom: a
    missing [pdos[orb]] starts as an empty dictionary. *)
Definition set_pdos (pdos : gmap string (gmap Spin (list R))) (orb : string) (spin : Spin)
    (column : list R) : gmap string (gmap Spin (list R)) :=
  <[orb := <[spin := column]> (default ∅ (pdos !! orb))]> pdos.

(** The loop [for j in range(1, ncol)] of [Doscar._parse_doscar] for a
    calculation without spin polarization.  A 2-dimensional array is the list
    of its columns: [data[:, j]] is column [j]. *)
Fixpoint pdos_columns (js : list nat) (data : list (list R)) (orbitals : list (list string))
    (atom : nat) (orbnumber : nat) (pdos : gmap string (gmap Spin (list R)))
    : result (gmap string (gmap Spin (list R))) :=
  match js with
  | [] => Ok pdos
  | j :: rest =>
      names ← getitem orbitals (atom + 1);
      orb ← getitem names orbnumber;
      column ← getitem data j;
      pdos_columns rest data orbitals atom (orbnumber + 1) (set_pdos pdos orb Up column)
  end.

(** The same loop for a spin-polarized calculation: odd columns are spin up,
    even columns spin down, and the orbital advances after each even column. *)
Fixpoint pdos_columns_polarized (js : list nat) (data : list (list R))
    (orbitals : list (list string)) (atom : nat) (orbnumber : nat)
    (pdos : gmap string (gmap Spin (list R)))
    : result (gmap string (gmap Spin (list R))) :=
  match js with
  | [] => Ok pdos
  | j :: rest =>
      let spin := if Nat.eqb (j mod 2) 0 then Down else Up in
      names ← getitem orbitals (atom + 1);
      orb ← getitem names orbnumber;
      column ← getitem data j;
      let pdos := set_pdos pdos orb spin column in
      let orbnumber := if Nat.eqb (j mod 2) 0 then (orbnumber + 1)%nat else orbnumber in
      pdos_columns_polarized rest data orbitals atom orbnumber pdos
  end.

(** The loop [for atom in range(natoms)] of [Doscar._parse_doscar]. *)
Fixpoint pdos_atoms (is_spin_polarized : bool) (atoms : list nat)
    (dos : list (list (list R))) (orbitals : list (list string))
    (pdoss : list (gmap string (gmap Spin (list R))))
    : result (list (gmap string (gmap Spin (list R)))) :=
  match atoms with
  | [] => Ok pdoss
  | atom :: rest =>
      data ← getitem dos (atom + 1);
      let ncol := length data in
      pdos ← (if is_spin_polarized
              then pdos_columns_polarized (seq 1 (ncol - 1)) data orbitals atom 0 ∅
              else pdos_columns (seq 1 (ncol - 1)) data orbitals atom 0 ∅);
      pdos_atoms is_spin_polarized rest dos orbitals (pdoss ++ [pdos])
  end.

(** What [Doscar._parse_doscar] computes from the arrays it has read:
    [energies], [tdensities] and [pdos]. *)
Record DosTables : Type := mkDosTables {
  energies : list R;
  tdensities : gmap Spin (list R);
  pdos : list (gmap string (gmap Spin (list R)))
}.

(** The second half of [Doscar._parse_doscar], from [doshere = np.array(dos[0])]
    on, for the arrays [dos] and the orbital names [orbitals] read from the
    file. *)
Definition doscar_tables (is_spin_polarized : bool) (natoms : nat)
    (dos : list (list (list R))) (orbitals : list (list string)) : result DosTables :=
  doshere ← getitem dos 0;
  energies ← getitem doshere 0;
  if negb is_spin_polarized then
    up ← getitem doshere 1;
    pdoss ← pdos_atoms false (seq 0 natoms) dos orbitals [];
    Ok (mkDosTables energies {[Up := up]} pdoss)
  else
    up ← getitem doshere 1;
    down ← getitem doshere 2;
    pdoss ← pdos_atoms true (seq 0 natoms) dos orbitals [];
    Ok (mkDosTables energies (<[Down := down]> {[Up := up]}) pdoss).

(** What [Cohpcar._get_bond_data] returns for one header line: the keys
    "length", "sites", "orbitals" and "orb_label" (the last two are [None] for
    a line that is not orbital-resolved).  An orbital is a pair of the
    principal quantum number and the index of the orbital label. *)
Record BondData : Type := mkBondData {
  bond_length : R;
  bond_sites : Z * Z;
  bond_orbitals : option (list (Z * nat));
  bond_orb_label : option string
}.

(** An entry of [cohp_data]: the keys "COHP" and "ICOHP" (whose value is
    [None] for the entries made for files of old versions) and, except for the
    average, "length" and "sites". *)
Record CohpEntry : Type := mkCohpEntry {
  COHP : option (gmap Spin (list R));
  ICOHP : option (gmap Spin (list R));
  entry_length : option R;
  entry_sites : option (Z * Z)
}.

(** An entry of [orb_cohp[label]]. *)
Record OrbitalEntry : Type := mkOrbitalEntry {
  orb_COHP : gmap Spin (list R);
  orb_ICOHP : gmap Spin (list R);
  orb_orbitals : list (Z * nat);
  orb_length : R;
  orb_sites : Z * Z
}.

(** The rows of [data] (the columns of the file) that the reader takes:
    [data[1 + 2 * s * (num_bonds + 1)]] and [data[2 + 2 * s * (num_bonds + 1)]]
    for the average, [data[2 * (bond + s * (num_bonds + 1)) + 3]] and
    [... + 4] for a bond. *)
Definition average_cohp_row (num_bonds s : nat) : nat := 1 + 2 * s * (num_bonds + 1).
Definition average_icohp_row (num_bonds s : nat) : nat := 2 + 2 * s * (num_bonds + 1).
Definition cohp_row (num_bonds bond s : nat) : nat := 2 * (bond + s * (num_bonds + 1)) + 3.
Definition icohp_row (num_bonds bond s : nat) : nat := 2 * (bond + s * (num_bonds + 1)) + 4.

(** [{spin: data[row_of(s)] for s, spin in enumerate(spins)}], over the pairs
    of [enumerate(spins)]. *)
Fixpoint spin_rows (data : list (list R)) (row_of : nat -> nat) (spins : list (nat * Spin))
    (acc : gmap Spin (list R)) : result (gmap Spin (list R)) :=
  match spins with
  | [] => Ok acc
  | (s, spin) :: rest =>
      row ← getitem data (row_of s);
      spin_rows data row_of rest (<[spin := row]> acc)
  end.

(** [enumerate(xs)]. *)
Definition enumerate {A : Type} (xs : list A) : list (nat * A) := imap pair xs.

(** The variables of the loop of [Cohpcar.__init__]. *)
Record CohpState : Type := mkCohpState {
  bondnumber : nat;
  cohp_data : gmap string CohpEntry;
  orb_cohp : gmap string (gmap (option string) OrbitalEntry)
}.

(** One turn of the loop [for bond in range(num_bonds)] of [Cohpcar.__init__],
    for the [bond_data] of the bond; [str(bondnumber)] is [pretty]. *)
Definition cohp_bond (spins : list Spin) (num_bonds : nat) (data : list (list R))
    (bond : nat) (bond_data : BondData) (st : CohpState) : result CohpState :=
  let label := pretty (bondnumber st) in
  let orbs := bond_orbitals bond_data in
  cohp ← spin_rows data (cohp_row num_bonds bond) (enumerate spins) ∅;
  icohp ← spin_rows data (icohp_row num_bonds bond) (enumerate spins) ∅;
  match orbs with
  | None =>
      let bondnumber := (bondnumber st + 1)%nat in
      let label := pretty bondnumber in
      Ok (mkCohpState bondnumber
            (<[label := mkCohpEntry (Some cohp) (Some icohp)
                          (Some (bond_length bond_data)) (Some (bond_sites bond_data))]>
               (cohp_data st))
            (orb_cohp st))
  | Some orbs =>
      let entry := mkOrbitalEntry cohp icohp orbs (bond_length bond_data)
                     (bond_sites bond_data) in
      match orb_cohp st !! label with
      | Some orbitals_of_label =>
          Ok (mkCohpState (bondnumber st) (cohp_data st)
                (<[label := <[bond_orb_label bond_data := entry]> orbitals_of_label]>
                   (orb_cohp st)))
      | None =>
          let '(bondnumber, cohp_data) :=
            match cohp_data st !! label with
            | None =>
                ((bondnumber st + 1)%nat,
                 <[label := mkCohpEntry None None (Some (bond_length bond_data))
                              (Some (bond_sites bond_data))]> (cohp_data st))
            | Some _ => (bondnumber st, cohp_data st)
            end in
          Ok (mkCohpState bondnumber cohp_data
                (<[label := {[bond_orb_label bond_data := entry]}]> (orb_cohp st)))
      end
  end.

Section CohpcarTables.

(** The outcome of [self._get_bond_data(contents[3 + bond])] for each bond. *)
Variable get_bond_data : nat -> result BondData.

Fixpoint cohp_loop (spins : list Spin) (num_bonds : nat) (data : list (list R))
    (bonds : list nat) (st : CohpState) : result CohpState :=
  match bonds with
  | [] => Ok st
  | bond :: rest =>
      bond_data ← get_bond_data bond;
      st ← cohp_bond spins num_bonds data bond bond_data st;
      cohp_loop spins num_bonds data rest st
  end.

(** The attributes [energies], [cohp_data] and [orb_res_cohp] that
    [Cohpcar.__init__] sets. *)
Record CohpTables : Type := mkCohpTables {
  cohp_energies : list R;
  table_cohp_data : gmap string CohpEntry;
  orb_res_cohp : option (gmap string (gmap (option string) OrbitalEntry))
}.

(** The part of [Cohpcar.__init__] that follows the reading of the array
    [data]: from [self.energies = data[0]] to the end, for the list [spins]
    and the number [num_bonds] taken from the parameter line. *)
Definition cohp_tables (spins : list Spin) (num_bonds : nat) (data : list (list R))
    : result CohpTables :=
  energies ← getitem data 0;
  average_cohp ← spin_rows data (average_cohp_row num_bonds) (enumerate spins) ∅;
  average_icohp ← spin_rows data (average_icohp_row num_bonds) (enumerate spins) ∅;
  let average : gmap string CohpEntry :=
    {[ "average"%string := mkCohpEntry (Some average_cohp) (Some average_icohp) None None ]} in
  st ← cohp_loop spins num_bonds data (seq 0 num_bonds) (mkCohpState 0 average ∅);
  Ok (mkCohpTables energies (cohp_data st)
        (if Nat.eqb (size (orb_cohp st)) 0 then None else Some (orb_cohp st))).

End CohpcarTables.

End Lobster.

(* ===================================================================== *)
(** * Properties *)

(** ** Construction of a track *)

Lemma init_well_formed (pe pi : list vec3) (ss : list Structure) (P : Polarization) :
  Polarization_init pe pi ss = Ok P -> well_formed P.
Proof.
  unfold Polarization_init, well_formed.
  destruct (Nat.eqb_spec (length pe) (length pi)) as [E1|N1]; simpl;
    [destruct (Nat.eqb_spec (length pe) (length ss)) as [E2|N2]; simpl|];
    intros H; inversion H; subst; simpl; auto.
Qed.

(** C3.  [Polarization.__init__] raises [ValueError] exactly when the three
    sequences do not all have the same length; on equal lengths (whatever the
    common length, 1 included) it succeeds, and the instance stores the three
    sequences whole: nothing is truncated. *)
Theorem init_length_invariant (pe pi : list vec3) (ss : list Structure) :
  (length pe <> length pi \/ length pe <> length ss ->
     Polarization_init pe pi ss = Raise ValueError)
  /\ (length pe = length pi /\ length pe = length ss ->
     Polarization_init pe pi ss = Ok (mkPolarization pe pi ss))
  /\ (forall P, Polarization_init pe pi ss = Ok P ->
     p_elecs P = pe /\ p_ions P = pi /\ structures P = ss
     /\ length pe = length pi /\ length pe = length ss).
Proof.
  unfold Polarization_init.
  destruct (Nat.eqb_spec (length pe) (length pi)) as [E1|N1];
    destruct (Nat.eqb_spec (length pe) (length ss)) as [E2|N2]; simpl;
    (split; [|split]); try tauto; try discriminate.
  intros P [= <-]. simpl. auto.
Qed.

(** A one-step track is built. *)
Lemma init_length_invariant_witness :
  let s := mkStructure (mkLattice (mk3 1 0 0) (mk3 0 1 0) (mk3 0 0 1)) [] in
  Polarization_init [vzero] [vzero] [s] = Ok (mkPolarization [vzero] [vzero] [s]).
Proof.
  intros s.
  apply (proj1 (proj2 (init_length_invariant [vzero] [vzero] [s]))).
  split; reflexivity.
Defined.

(* ===================================================================== *)
(** ** Ionic dipoles *)

(** The sum of a list of reals, as a specification. *)
Definition sum_R (xs : list R) : R := foldr Rplus 0 xs.

Lemma vec3_eq (u v : vec3) : c0 u = c0 v -> c1 u = c1 v -> c2 u = c2 v -> u = v.
Proof. destruct u, v; simpl; congruence. Qed.

Lemma comp_vadd (u v : vec3) (d : axis) : comp (vadd u v) d = comp u d + comp v d.
Proof. destruct d; reflexivity. Qed.

Lemma comp_fold_vadd (rows : list vec3) (v : vec3) (d : axis) :
  comp (fold_left vadd rows v) d = comp v d + sum_R (map (fun r => comp r d) rows).
Proof.
  revert v; induction rows as [|r rows IH]; intros v; simpl.
  - lra.
  - rewrite IH, comp_vadd. lra.
Qed.

Lemma comp_calc_ionic (site : PeriodicSite) (structure : Structure) (zval : R) (d : axis) :
  comp (calc_ionic site structure zval) d
  = - comp (abc (lattice structure)) d * comp (frac_coords site) d * zval.
Proof. destruct d; simpl; ring. Qed.

(** The zval the dictionary holds for a site (0 stands for "no entry"). *)
Definition zval_of (zval_dict : gmap string R) (site : PeriodicSite) : R :=
  default 0 (zval_dict !! specie site).

Lemma total_ionic_loop_ok (todo : list PeriodicSite) (structure : Structure)
    (zval_dict : gmap string R) (acc : list vec3) :
  (forall site, site ∈ todo -> is_Some (zval_dict !! specie site)) ->
  total_ionic_loop todo structure zval_dict acc
  = Ok (acc ++ map (fun site => calc_ionic site structure (zval_of zval_dict site)) todo).
Proof.
  revert acc; induction todo as [|site rest IH]; intros acc Hall; simpl.
  - now rewrite app_nil_r.
  - destruct (Hall site) as [z Hz]; [left|].
    unfold zval_of at 1. rewrite Hz. simpl.
    rewrite IH by (intros s Hs; apply Hall; now right).
    now rewrite <- app_assoc.
Qed.

Lemma total_ionic_loop_missing (todo : list PeriodicSite) (structure : Structure)
    (zval_dict : gmap string R) (acc : list vec3) :
  (exists site, site ∈ todo /\ zval_dict !! specie site = None) ->
  exists site, site ∈ todo /\ zval_dict !! specie site = None
    /\ total_ionic_loop todo structure zval_dict acc = Raise (KeyError (specie site)).
Proof.
  revert acc; induction todo as [|site rest IH]; intros acc [s [Hin Hs]]; simpl.
  - inversion Hin.
  - destruct (zval_dict !! specie site) as [z|] eqn:Hz.
    + apply elem_of_cons in Hin as [->|Hin]; [congruence|].
      destruct (IH (acc ++ [calc_ionic site structure z])) as [s' [Hin' [Hs' Hr]]];
        [now exists s|].
      exists s'. split; [now right|]. split; [assumption|]. exact Hr.
    + exists site. split; [left|]. split; [assumption|reflexivity].
Qed.

(** C4.  [calc_ionic] has component [-lengths[d] * frac_coord[d] * zval] in
    every lattice direction [d].  When every species of the structure has an
    entry in [zval_dict], [get_total_ionic_dipole] returns the vector whose
    component in direction [d] is the sum over all sites of that expression
    (with the site's own zval); when some species has no entry it raises
    [KeyError] for a species of the structure that the dictionary lacks. *)
Theorem ionic_dipole_sum (structure : Structure) (zval_dict : gmap string R) :
  (forall site zval d,
     comp (calc_ionic site structure zval) d
     = - comp (abc (lattice structure)) d * comp (frac_coords site) d * zval)
  /\ ((forall site, site ∈ sites structure -> is_Some (zval_dict !! specie site)) ->
      exists total,
        get_total_ionic_dipole structure zval_dict = Ok total
        /\ total = np_sum_axis0
             (map (fun site => calc_ionic site structure (zval_of zval_dict site))
                  (sites structure))
        /\ forall d, comp total d
             = sum_R (map (fun site => - comp (abc (lattice structure)) d
                                        * comp (frac_coords site) d
                                        * zval_of zval_dict site)
                          (sites structure)))
  /\ ((exists site, site ∈ sites structure /\ zval_dict !! specie site = None) ->
      exists site, site ∈ sites structure /\ zval_dict !! specie site = None
        /\ get_total_ionic_dipole structure zval_dict = Raise (KeyError (specie site))).
Proof.
  split; [|split].
  - intros; apply comp_calc_ionic.
  - intros Hall. eexists. split; [|split; [reflexivity|]].
    + unfold get_total_ionic_dipole. rewrite total_ionic_loop_ok by assumption.
      reflexivity.
    + intros d. unfold np_sum_axis0. rewrite comp_fold_vadd, map_map.
      replace (comp vzero d) with 0 by (destruct d; reflexivity).
      rewrite Rplus_0_l. f_equal. apply map_ext. intros s. apply comp_calc_ionic.
  - intros Hmiss.
    destruct (total_ionic_loop_missing (sites structure) structure zval_dict [] Hmiss)
      as [s [Hin [Hs Hr]]].
    exists s. split; [assumption|]. split; [assumption|].
    unfold get_total_ionic_dipole. now rewrite Hr.
Qed.

(* ===================================================================== *)
(** ** Unit conversion *)

Lemma unit_constant_neg : e_to_muC * cm2_to_A2 < 0.
Proof. unfold e_to_muC, cm2_to_A2. lra. Qed.

Lemma unit_factors_lookup (volumes : list R) (i : nat) (v : R) :
  volumes !! i = Some v ->
  unit_factors volumes !! i = Some (1 / v * (e_to_muC * cm2_to_A2)).
Proof. intros H. unfold unit_factors. now rewrite list_lookup_fmap, H. Qed.

Lemma volumes_of_lookup (ss : list Structure) (i : nat) (s : Structure) :
  ss !! i = Some s -> volumes_of ss !! i = Some (volume (lattice s)).
Proof. intros H. unfold volumes_of. now rewrite list_lookup_fmap, H. Qed.

Lemma length_unit_factors (volumes : list R) :
  length (unit_factors volumes) = length volumes.
Proof. unfold unit_factors. apply length_map. Qed.

Lemma length_volumes_of (ss : list Structure) : length (volumes_of ss) = length ss.
Proof. unfold volumes_of. apply length_map. Qed.

(** C5.  Without conversion [get_pelecs_and_pions] returns the stored matrices.
    With conversion, row [i] of each matrix is the stored row multiplied, in
    every component, by [scale = -1.6021766e-13 * 1e16 / volume[i]], the
    matrices keep their L rows, and (the volume of a cell being non-zero)
    dividing a converted row by [scale] gives the stored row back. *)
Theorem unit_conversion_rows (self : Polarization) (WF : well_formed self) :
  get_pelecs_and_pions self false = (p_elecs self, p_ions self)
  /\ length (fst (get_pelecs_and_pions self true)) = length (p_elecs self)
  /\ length (snd (get_pelecs_and_pions self true)) = length (p_ions self)
  /\ forall i pe pi s,
       p_elecs self !! i = Some pe -> p_ions self !! i = Some pi ->
       structures self !! i = Some s ->
       let scale := -1.6021766e-13 * 1e16 / volume (lattice s) in
       fst (get_pelecs_and_pions self true) !! i = Some (vscale_r pe scale)
       /\ snd (get_pelecs_and_pions self true) !! i = Some (vscale_r pi scale)
       /\ (volume (lattice s) <> 0 ->
           vdiv_r (vscale_r pe scale) scale = pe /\ vdiv_r (vscale_r pi scale) scale = pi).
Proof.
  destruct WF as [WF1 WF2].
  split; [reflexivity|]. simpl.
  split; [|split].
  - rewrite length_zip_with, length_unit_factors, length_volumes_of. lia.
  - rewrite length_zip_with, length_unit_factors, length_volumes_of. lia.
  - intros i pe pi s He Hi Hs.
    set (scale := -1.6021766e-13 * 1e16 / volume (lattice s)).
    pose proof (unit_factors_lookup _ _ _ (volumes_of_lookup _ _ _ Hs)) as Hu.
    assert (Hsc : 1 / volume (lattice s) * (e_to_muC * cm2_to_A2) = scale).
    { unfold scale, e_to_muC, cm2_to_A2. unfold Rdiv. ring. }
    rewrite Hsc in Hu.
    split; [|split].
    + rewrite lookup_zip_with, Hu, He. simpl. f_equal.
      apply vec3_eq; simpl; ring.
    + rewrite lookup_zip_with, Hu, Hi. simpl. f_equal.
      apply vec3_eq; simpl; ring.
    + intros Hv.
      assert (Hnz : scale <> 0).
      { unfold scale. pose proof unit_constant_neg as Hc.
        unfold e_to_muC, cm2_to_A2 in Hc.
        unfold Rdiv. apply Rmult_integral_contrapositive_currified; [lra|].
        now apply Rinv_neq_0_compat. }
      split; apply vec3_eq; simpl; field; assumption.
Qed.

(* ===================================================================== *)
(** ** Lengths of lattices *)

Lemma norm2_nonneg (v : vec3) : 0 <= norm2 v.
Proof. unfold norm2, dot. nra. Qed.

Lemma norm_nonneg (v : vec3) : 0 <= norm v.
Proof. apply sqrt_pos. Qed.

Lemma norm_sq (v : vec3) : norm v * norm v = norm2 v.
Proof. apply sqrt_sqrt, norm2_nonneg. Qed.

Lemma sqrt_sq_abs (x : R) : sqrt (x * x) = Rabs x.
Proof. apply sqrt_Rsqr_abs. Qed.

Lemma sin_cos_sq (x : R) : sin x * sin x + cos x * cos x = 1.
Proof. pose proof (sin2_cos2 x) as H. unfold Rsqr in H. exact H. Qed.

Lemma abc_nonneg (l : Lattice) (d : axis) : 0 <= comp (abc l) d.
Proof. destruct d; apply norm_nonneg. Qed.

Lemma abc_from_parameters (a b c alpha beta gamma : R) :
  abc (from_parameters a b c alpha beta gamma) = mk3 (Rabs a) (Rabs b) (Rabs c).
Proof.
  unfold from_parameters, abc, norm, norm2, dot; simpl.
  set (al := radians alpha). set (be := radians beta).
  set (gs := acos _).
  pose proof (sin_cos_sq al) as Ha.
  pose proof (sin_cos_sq be) as Hb.
  pose proof (sin_cos_sq gs) as Hg.
  f_equal; rewrite <- sqrt_sq_abs; f_equal.
  - replace (a * sin be * (a * sin be) + 0 * 0 + a * cos be * (a * cos be))
      with (a * a * (sin be * sin be + cos be * cos be)) by ring.
    rewrite Hb. ring.
  - replace (- b * sin al * cos gs * (- b * sin al * cos gs)
             + b * sin al * sin gs * (b * sin al * sin gs) + b * cos al * (b * cos al))
      with (b * b * (sin al * sin al * (sin gs * sin gs + cos gs * cos gs) + cos al * cos al))
      by ring.
    rewrite Hg, Rmult_1_r, Ha. ring.
  - ring.
Qed.

(** The lattice that [rescale_lattices] stores at one index. *)
Definition rescaled (lat : Lattice) (u : R) : Lattice :=
  from_lengths_and_angles (vscale_r (abc lat) u) (angles lat).

Lemma abc_rescaled (lat : Lattice) (u : R) :
  abc (rescaled lat u) = vscale_l (Rabs u) (abc lat).
Proof.
  unfold rescaled, from_lengths_and_angles. rewrite abc_from_parameters.
  unfold vscale_r, vscale_l, abc; simpl.
  f_equal; rewrite Rabs_mult, (Rabs_pos_eq (norm _)) by apply norm_nonneg; ring.
Qed.

Lemma bind_Ok {A B : Type} (a : A) (k : A -> result B) : (Ok a ≫= k) = k a.
Proof. reflexivity. Qed.

Lemma py_index_Some {A : Type} (xs : list A) (i : nat) (x : A) :
  xs !! i = Some x -> py_index xs i = Ok x.
Proof. intros H. unfold py_index. now rewrite H. Qed.

Lemma py_index_None {A : Type} (xs : list A) (i : nat) :
  xs !! i = None -> py_index xs i = Raise IndexError.
Proof. intros H. unfold py_index. now rewrite H. Qed.

Lemma rescale_lattices_spec (n : nat) :
  forall (k : nat) (units : list R) (lattices : list Lattice),
    (k + n <= length lattices)%nat -> (k + n <= length units)%nat ->
    exists res,
      rescale_lattices (seq k n) units lattices = Ok res
      /\ length res = length lattices
      /\ forall i,
           res !! i
           = if decide (k <= i < k + n)%nat
             then lat ← lattices !! i; u ← units !! i; Some (rescaled lat u)
             else lattices !! i.
Proof.
  induction n as [|n IH]; intros k units lattices Hl Hu; simpl.
  - exists lattices. split; [reflexivity|]. split; [reflexivity|].
    intros i. destruct (decide _) as [H|H]; [lia|reflexivity].
  - destruct (lookup_lt_is_Some_2 lattices k) as [lat Hlat]; [lia|].
    destruct (lookup_lt_is_Some_2 units k) as [u Hu']; [lia|].
    rewrite (py_index_Some _ _ _ Hlat), (py_index_Some _ _ _ Hu'). simpl.
    destruct (IH (S k) units (<[k := rescaled lat u]> lattices)) as [res [Hr [Hlen Hres]]].
    { rewrite length_insert. lia. } { lia. }
    exists res. split; [exact Hr|]. split; [now rewrite Hlen, length_insert|].
    intros i. rewrite Hres.
    destruct (decide (S k <= i < S k + n)%nat) as [H1|H1];
      destruct (decide (k <= i < k + S n)%nat) as [H2|H2]; try lia.
    + rewrite list_lookup_insert_ne by lia. reflexivity.
    + assert (i = k) as -> by lia.
      rewrite list_lookup_insert_eq by lia. now rewrite Hlat, Hu'.
    + rewrite list_lookup_insert_ne by lia. reflexivity.
Qed.

Lemma rescale_lattices_all (units : list R) (lattices : list Lattice) :
  length units = length lattices ->
  rescale_lattices (seq 0 (length lattices)) units lattices
  = Ok (zip_with rescaled lattices units).
Proof.
  intros Hlen.
  destruct (rescale_lattices_spec (length lattices) 0 units lattices) as [res [Hr [Hl Hres]]];
    [lia|lia|].
  rewrite Hr. f_equal. apply list_eq. intros i.
  rewrite Hres, lookup_zip_with.
  destruct (decide _) as [H|H]; [reflexivity|].
  rewrite (lookup_ge_None_2 lattices i) by lia. reflexivity.
Qed.

(** C6.  [get_lattice_quanta] returns one row per structure.  Row [i] holds, in
    each direction, the lattice length of structure [i]; when conversion is
    requested the length is multiplied by the magnitude of that structure's own
    unit factor [-1.6021766e-13 * 1e16 / volume[i]].  Every entry is
    non-negative in both modes. *)
Theorem lattice_quanta_rows (self : Polarization) (convert_to_muC_per_cm2 : bool) :
  exists quanta,
    get_lattice_quanta self convert_to_muC_per_cm2 = Ok quanta
    /\ length quanta = length (structures self)
    /\ (forall i s, structures self !! i = Some s ->
          quanta !! i
          = Some (if convert_to_muC_per_cm2
                  then vscale_l (Rabs (-1.6021766e-13 * 1e16 / volume (lattice s)))
                                (abc (lattice s))
                  else abc (lattice s)))
    /\ (forall q d, q ∈ quanta -> 0 <= comp q d).
Proof.
  unfold get_lattice_quanta.
  destruct convert_to_muC_per_cm2.
  - replace (length (structures self)) with (length (map lattice (structures self)))
      by apply length_map.
    rewrite rescale_lattices_all
      by now rewrite length_unit_factors, length_volumes_of, length_map.
    simpl. eexists. split; [reflexivity|].
    split; [|split].
    + rewrite length_map, length_zip_with, length_unit_factors, length_volumes_of,
        !length_map. lia.
    + intros i s Hs.
      change (map ?f ?l) with (f <$> l).
      rewrite list_lookup_fmap, lookup_zip_with, list_lookup_fmap, Hs. simpl.
      rewrite (unit_factors_lookup _ _ _ (volumes_of_lookup _ _ _ Hs)). simpl.
      rewrite abc_rescaled. do 3 f_equal.
      unfold e_to_muC, cm2_to_A2, Rdiv. ring.
    + intros q d Hq.
      apply list_elem_of_In, in_map_iff in Hq as [l [<- _]]. apply abc_nonneg.
  - simpl. eexists. split; [reflexivity|].
    split; [|split].
    + now rewrite !length_map.
    + intros i s Hs.
      change (map ?f ?l) with (f <$> l).
      rewrite !list_lookup_fmap, Hs. reflexivity.
    + intros q d Hq.
      apply list_elem_of_In, in_map_iff in Hq as [l [<- _]]. apply abc_nonneg.
Qed.

(* ===================================================================== *)
(** ** Geometry of the nearest periodic image *)

(** Unfold the vector operations down to real arithmetic. *)
Ltac vec_simpl :=
  unfold get_cartesian_coords, get_fractional_coords, recip0, recip1, recip2,
    norm2, det, dot, cross, vadd, vsub, vneg, vscale_l, vscale_r, np_multiply, np_divide;
  simpl.

Lemma cauchy_schwarz (u v : vec3) : dot u v * dot u v <= norm2 u * norm2 v.
Proof.
  assert (H : norm2 u * norm2 v - dot u v * dot u v = norm2 (cross u v))
    by (unfold norm2, dot, cross; simpl; ring).
  pose proof (norm2_nonneg (cross u v)). lra.
Qed.

Lemma dot_le_norms (u v : vec3) : dot u v <= norm u * norm v.
Proof.
  pose proof (cauchy_schwarz u v) as H.
  rewrite <- (norm_sq u), <- (norm_sq v) in H.
  pose proof (norm_nonneg u). pose proof (norm_nonneg v).
  assert (0 <= norm u * norm v) by nra.
  nra.
Qed.

Lemma norm_triangle (u v : vec3) : norm (vadd u v) <= norm u + norm v.
Proof.
  pose proof (dot_le_norms u v) as H.
  pose proof (norm_nonneg u). pose proof (norm_nonneg v).
  pose proof (norm_nonneg (vadd u v)).
  assert (E : norm (vadd u v) * norm (vadd u v)
              = norm u * norm u + 2 * dot u v + norm v * norm v).
  { rewrite !norm_sq. unfold norm2, dot, vadd; simpl. ring. }
  nra.
Qed.

Lemma norm_vscale_l (k : R) (v : vec3) : norm (vscale_l k v) = Rabs k * norm v.
Proof.
  unfold norm. rewrite <- sqrt_sq_abs, <- sqrt_mult; [|nra|apply norm2_nonneg].
  f_equal. unfold norm2, dot, vscale_l; simpl. ring.
Qed.

Lemma cartesian_linear_sub (l : Lattice) (f g : vec3) :
  get_cartesian_coords l (vsub f g)
  = vsub (get_cartesian_coords l f) (get_cartesian_coords l g).
Proof. apply vec3_eq; simpl; ring. Qed.

Lemma cartesian_fractional (l : Lattice) (x : vec3) :
  det l <> 0 -> get_cartesian_coords l (get_fractional_coords l x) = x.
Proof.
  intros Hd. destruct l as [[a0 a1 a2] [b0 b1 b2] [e0 e1 e2]], x as [x0 x1 x2].
  unfold det, dot, cross in Hd; simpl in Hd.
  apply vec3_eq; vec_simpl; field; exact Hd.
Qed.

Lemma fractional_component (l : Lattice) (h : vec3) :
  det l <> 0 ->
  c0 h = dot (get_cartesian_coords l h) (recip0 l)
  /\ c1 h = dot (get_cartesian_coords l h) (recip1 l)
  /\ c2 h = dot (get_cartesian_coords l h) (recip2 l).
Proof.
  intros Hd. destruct l as [[a0 a1 a2] [b0 b1 b2] [e0 e1 e2]], h as [h0 h1 h2].
  unfold det, dot, cross in Hd; simpl in Hd.
  repeat split; vec_simpl; field; exact Hd.
Qed.

(** A fractional component is bounded by the Cartesian length times the length
    of the matching reciprocal vector. *)
Lemma component_bound (x r rho : R) (v w : vec3) :
  x = dot v w -> norm2 v <= rho * rho -> 0 <= rho -> r = norm w ->
  - (rho * r) <= x <= rho * r.
Proof.
  intros -> Hv Hrho ->.
  pose proof (cauchy_schwarz v w) as CS.
  pose proof (norm_nonneg w) as Hw. pose proof (norm_sq w) as Hw2.
  pose proof (norm2_nonneg v). pose proof (norm2_nonneg w).
  assert (Hsq : dot v w * dot v w <= (rho * norm w) * (rho * norm w)).
  { replace (rho * norm w * (rho * norm w)) with (rho * rho * norm2 w) by (rewrite <- Hw2; ring).
    nra. }
  assert (0 <= rho * norm w) by nra.
  split; nra.
Qed.

Lemma rho_nonneg (l : Lattice) : 0 <= c0 (abc l) + c1 (abc l) + c2 (abc l).
Proof.
  pose proof (abc_nonneg l Xa). pose proof (abc_nonneg l Xb). pose proof (abc_nonneg l Xc).
  simpl in *. lra.
Qed.

(** A point whose fractional coordinates all lie in [-1, 1] is no further from
    the origin than the sum of the lattice lengths. *)
Lemma cell_point_bound (l : Lattice) (g : vec3) :
  Rabs (c0 g) <= 1 -> Rabs (c1 g) <= 1 -> Rabs (c2 g) <= 1 ->
  let rho := c0 (abc l) + c1 (abc l) + c2 (abc l) in
  norm2 (get_cartesian_coords l g) <= rho * rho.
Proof.
  intros H0 H1 H2 rho.
  set (v := get_cartesian_coords l g).
  assert (Hn : norm v <= rho).
  { unfold v, get_cartesian_coords.
    eapply Rle_trans; [apply norm_triangle|].
    eapply Rle_trans; [apply Rplus_le_compat_r, norm_triangle|].
    rewrite !norm_vscale_l. unfold rho, abc; simpl.
    pose proof (norm_nonneg (row0 l)). pose proof (norm_nonneg (row1 l)).
    pose proof (norm_nonneg (row2 l)). nra. }
  rewrite <- (norm_sq v). pose proof (norm_nonneg v). nra.
Qed.

(** *** Integer parts *)

Lemma floorZ_spec (x : R) : IZR (floorZ x) <= x < IZR (floorZ x) + 1.
Proof. unfold floorZ. pose proof (base_Int_part x). lra. Qed.

Lemma floorZ_unique (x : R) (z : Z) : IZR z <= x < IZR z + 1 -> floorZ x = z.
Proof. intros H. symmetry. apply Int_part_spec. lra. Qed.

Lemma floorZ_shift (x : R) (k : Z) : floorZ (x + IZR k) = (floorZ x + k)%Z.
Proof.
  apply floorZ_unique. rewrite plus_IZR. pose proof (floorZ_spec x). lra.
Qed.

Lemma mod1_shift (x : R) (k : Z) : mod1 (x + IZR k) = mod1 x.
Proof. unfold mod1. rewrite floorZ_shift, plus_IZR. ring. Qed.

Lemma mod1_range (x : R) : 0 <= mod1 x < 1.
Proof. unfold mod1. pose proof (floorZ_spec x). lra. Qed.

Lemma vmod1_shift (f : vec3) (n : Z * Z * Z) : vmod1 (vadd f (zvec n)) = vmod1 f.
Proof.
  destruct n as [[na nb] nc]. unfold vmod1; simpl. now rewrite !mod1_shift.
Qed.

Lemma floorZ_le_int (x : R) (z : Z) : x <= IZR z -> (floorZ x <= z)%Z.
Proof.
  intros H. pose proof (floorZ_spec x) as [H1 _].
  apply le_IZR. lra.
Qed.

Lemma int_le_floorZ (x : R) (z : Z) : IZR z <= x -> (z <= floorZ x)%Z.
Proof.
  intros H. pose proof (floorZ_spec x) as [_ H2].
  assert (IZR z < IZR (floorZ x + 1)) by (rewrite plus_IZR; lra).
  apply lt_IZR in H0. lia.
Qed.

Lemma elem_of_zrange (lo hi n : Z) : n ∈ zrange lo hi <-> (lo <= n <= hi)%Z.
Proof.
  unfold zrange. rewrite list_elem_of_In, in_map_iff. split.
  - intros [k [<- Hk]]. apply in_seq in Hk. lia.
  - intros H. exists (Z.to_nat (n - lo)). split; [lia|]. apply in_seq. lia.
Qed.

(** *** The search returns a nearest image *)

Lemma fold_closer_spec (l : Lattice) (center f0 : vec3) (ns : list (Z * Z * Z)) :
  forall n,
    let r := fold_left (closer l center f0) ns n in
    image_dist2 l center f0 r <= image_dist2 l center f0 n
    /\ forall m, m ∈ ns -> image_dist2 l center f0 r <= image_dist2 l center f0 m.
Proof.
  induction ns as [|k ns IH]; intros n; simpl.
  - split; [lra|]. intros m Hm. inversion Hm.
  - destruct (IH (closer l center f0 n k)) as [H1 H2].
    assert (Hc : image_dist2 l center f0 (closer l center f0 n k) <= image_dist2 l center f0 n
                 /\ image_dist2 l center f0 (closer l center f0 n k) <= image_dist2 l center f0 k).
    { unfold closer. destruct (Rlt_dec _ _); lra. }
    split; [lra|].
    intros m Hm. apply elem_of_cons in Hm as [->|Hm]; [lra|]. now apply H2.
Qed.

Lemma nearest_offset_min (l : Lattice) (center f0 : vec3) (m : Z * Z * Z) :
  m ∈ image_offsets l center f0 ->
  image_dist2 l center f0 (nearest_offset l center f0) <= image_dist2 l center f0 m.
Proof.
  unfold nearest_offset. destruct (image_offsets l center f0) as [|n ns]; intros Hm.
  - inversion Hm.
  - destruct (fold_closer_spec l center f0 ns n) as [H1 H2].
    apply elem_of_cons in Hm as [->|Hm]; [exact H1|now apply H2].
Qed.

Lemma elem_of_image_offsets (l : Lattice) (center f0 : vec3) (na nb nc : Z) :
  let pc := get_fractional_coords l center in
  let rho := c0 (abc l) + c1 (abc l) + c2 (abc l) in
  (floorZ (c0 pc - c0 f0 - rho * norm (recip0 l)) <= na
     <= floorZ (c0 pc - c0 f0 + rho * norm (recip0 l)) + 1)%Z ->
  (floorZ (c1 pc - c1 f0 - rho * norm (recip1 l)) <= nb
     <= floorZ (c1 pc - c1 f0 + rho * norm (recip1 l)) + 1)%Z ->
  (floorZ (c2 pc - c2 f0 - rho * norm (recip2 l)) <= nc
     <= floorZ (c2 pc - c2 f0 + rho * norm (recip2 l)) + 1)%Z ->
  (na, nb, nc) ∈ image_offsets l center f0.
Proof.
  intros pc rho Ha Hb Hc. unfold image_offsets.
  apply list_elem_of_bind. exists na. split; [|now apply elem_of_zrange].
  apply list_elem_of_bind. exists nb. split; [|now apply elem_of_zrange].
  apply list_elem_of_bind. exists nc. split; [|now apply elem_of_zrange].
  apply list_elem_of_singleton. reflexivity.
Qed.

Lemma image_dist2_centered (l : Lattice) (center f0 : vec3) (n : Z * Z * Z) :
  det l <> 0 ->
  image_dist2 l center f0 n
  = norm2 (get_cartesian_coords l
             (vsub (vadd f0 (zvec n)) (get_fractional_coords l center))).
Proof.
  intros Hd. unfold image_dist2.
  now rewrite cartesian_linear_sub, cartesian_fractional.
Qed.

Lemma int_in_window (x w : R) (n : Z) :
  - w <= IZR n - x <= w -> (floorZ (x - w) <= n <= floorZ (x + w) + 1)%Z.
Proof.
  intros [H1 H2]. split.
  - apply floorZ_le_int. lra.
  - pose proof (floorZ_spec (x + w)) as [_ H].
    assert (IZR n < IZR (floorZ (x + w) + 1)) by (rewrite plus_IZR; lra).
    apply lt_IZR in H0. lia.
Qed.

(** Every image no further from the center than the sum of the lattice lengths
    is enumerated. *)
Lemma window_complete (l : Lattice) (center f0 : vec3) (n : Z * Z * Z) :
  det l <> 0 ->
  let rho := c0 (abc l) + c1 (abc l) + c2 (abc l) in
  image_dist2 l center f0 n <= rho * rho ->
  n ∈ image_offsets l center f0.
Proof.
  intros Hd rho Hn. rewrite image_dist2_centered in Hn by assumption.
  set (pc := get_fractional_coords l center) in *.
  set (h := vsub (vadd f0 (zvec n)) pc) in *.
  destruct (fractional_component l h Hd) as [E0 [E1 E2]].
  pose proof (rho_nonneg l) as Hrho. fold rho in Hrho.
  pose proof (component_bound _ _ rho _ _ E0 Hn Hrho eq_refl) as B0.
  pose proof (component_bound _ _ rho _ _ E1 Hn Hrho eq_refl) as B1.
  pose proof (component_bound _ _ rho _ _ E2 Hn Hrho eq_refl) as B2.
  destruct n as [[na nb] nc]. unfold h in B0, B1, B2; simpl in B0, B1, B2.
  unfold rho in *. simpl in B0, B1, B2.
  apply elem_of_image_offsets; apply int_in_window; simpl; lra.
Qed.

(** The image in the cell of the center is within that distance. *)
Lemma window_start (l : Lattice) (center f0 : vec3) :
  det l <> 0 ->
  let pc := get_fractional_coords l center in
  let rho := c0 (abc l) + c1 (abc l) + c2 (abc l) in
  image_dist2 l center f0
    (floorZ (c0 pc - c0 f0), floorZ (c1 pc - c1 f0), floorZ (c2 pc - c2 f0))
  <= rho * rho.
Proof.
  intros Hd pc rho. rewrite image_dist2_centered by assumption. fold pc.
  apply cell_point_bound; simpl; apply Rabs_le;
    match goal with |- context [floorZ ?x] => pose proof (floorZ_spec x) end;
    simpl in *; lra.
Qed.

(** The chosen translation is nearest among all integer translations. *)
Theorem nearest_offset_optimal (l : Lattice) (center f0 : vec3) (m : Z * Z * Z) :
  det l <> 0 ->
  image_dist2 l center f0 (nearest_offset l center f0) <= image_dist2 l center f0 m.
Proof.
  intros Hd.
  set (rho := c0 (abc l) + c1 (abc l) + c2 (abc l)).
  pose proof (window_start l center f0 Hd) as Hs. cbv zeta in Hs. fold rho in Hs.
  pose proof (nearest_offset_min l center f0 _ (window_complete l center f0 _ Hd Hs)) as Hbest.
  destruct (Rle_dec (image_dist2 l center f0 m) (rho * rho)) as [Hm|Hm].
  - apply nearest_offset_min. now apply window_complete.
  - lra.
Qed.

(** *** The nearest site *)

Definition floor3 (f : vec3) : Z * Z * Z := (floorZ (c0 f), floorZ (c1 f), floorZ (c2 f)).

Definition zadd3 (n m : Z * Z * Z) : Z * Z * Z :=
  let '(na, nb, nc) := n in let '(ma, mb, mc) := m in ((na + ma)%Z, (nb + mb)%Z, (nc + mc)%Z).

Definition zsub3 (n m : Z * Z * Z) : Z * Z * Z :=
  let '(na, nb, nc) := n in let '(ma, mb, mc) := m in ((na - ma)%Z, (nb - mb)%Z, (nc - mc)%Z).

Lemma zvec_zadd3 (n m : Z * Z * Z) : zvec (zadd3 n m) = vadd (zvec n) (zvec m).
Proof. destruct n as [[? ?] ?], m as [[? ?] ?]. unfold vadd; simpl. now rewrite !plus_IZR. Qed.

Lemma zvec_zsub3 (n m : Z * Z * Z) : zvec (zsub3 n m) = vsub (zvec n) (zvec m).
Proof. destruct n as [[? ?] ?], m as [[? ?] ?]. unfold vsub; simpl. now rewrite !minus_IZR. Qed.

Lemma vmod1_floor3 (f : vec3) : vadd (vmod1 f) (zvec (floor3 f)) = f.
Proof.
  destruct f as [x y z]. unfold vmod1, floor3, zvec, vadd, mod1; simpl. f_equal; ring.
Qed.

(** Only the lattice, the species and the fractional coordinates modulo 1 of
    the site matter. *)
Lemma get_nearest_site_mod1 (d d' : Structure) (ref : vec3) (site site' : PeriodicSite) :
  lattice d = lattice d' -> specie site = specie site' ->
  vmod1 (frac_coords site) = vmod1 (frac_coords site') ->
  get_nearest_site d ref site = get_nearest_site d' ref site'.
Proof. intros Hl Hs Hf. unfold get_nearest_site. now rewrite Hl, Hs, Hf. Qed.

(** The site returned is a periodic image of the site given. *)
Lemma get_nearest_site_image (d : Structure) (ref : vec3) (site : PeriodicSite) :
  exists n, frac_coords (fst (get_nearest_site d ref site)) = vadd (frac_coords site) (zvec n)
    /\ site_lattice (fst (get_nearest_site d ref site)) = lattice d.
Proof.
  exists (zsub3 (nearest_offset (lattice d) ref (vmod1 (frac_coords site)))
                (floor3 (frac_coords site))).
  split; [|reflexivity]. simpl. rewrite zvec_zsub3.
  rewrite <- (vmod1_floor3 (frac_coords site)) at 3.
  apply vec3_eq; simpl; ring.
Qed.

(** No periodic image of the site is closer to the reference point. *)
Lemma get_nearest_site_optimal (d : Structure) (ref : vec3) (site : PeriodicSite)
    (m : Z * Z * Z) :
  det (lattice d) <> 0 ->
  norm2 (vsub (coords (fst (get_nearest_site d ref site))) ref)
  <= norm2 (vsub (get_cartesian_coords (lattice d) (vadd (frac_coords site) (zvec m))) ref).
Proof.
  intros Hd. unfold coords; simpl.
  pose proof (nearest_offset_optimal (lattice d) ref (vmod1 (frac_coords site))
                (zadd3 m (floor3 (frac_coords site))) Hd) as H.
  unfold image_dist2 in H. rewrite zvec_zadd3 in H.
  replace (vadd (vmod1 (frac_coords site)) (vadd (zvec m) (zvec (floor3 (frac_coords site)))))
    with (vadd (frac_coords site) (zvec m)) in H; [exact H|].
  rewrite <- (vmod1_floor3 (frac_coords site)) at 1.
  apply vec3_eq; simpl; ring.
Qed.

(* ===================================================================== *)
(** ** Same-branch polarization: invariance under quantum shifts, on exact values *)

(** Two rows of total polarization that give the same point modulo the lattice
    at one step. *)
Definition same_images (lattices : list Lattice) (i : nat) (p p' : option vec3) : Prop :=
  match p, p' with
  | Some p, Some p' =>
      forall l, lattices !! i = Some l ->
        vmod1 (np_divide p (abc l)) = vmod1 (np_divide p' (abc l))
  | None, None => True
  | _, _ => False
  end.

Lemma adjust_pol_lattices (ds ds' : list Structure) (ns : list PeriodicSite) :
  map lattice ds = map lattice ds' -> adjust_pol (ds, ns) = adjust_pol (ds', ns).
Proof.
  unfold adjust_pol; simpl. revert ds ds'.
  induction ns as [|s ns IH]; intros [|d ds] [|d' ds'] H; simpl in *;
    try reflexivity; try discriminate.
  injection H as H1 H2. rewrite H1. f_equal. now apply IH.
Qed.

Lemma branch_loop_same_images (lattices : list Lattice) (pt pt' : list vec3)
    (idx : list nat) :
  (forall i, i ∈ idx -> same_images lattices i (pt !! i) (pt' !! i)) ->
  forall ds ds' ns,
    map lattice ds = map lattice ds' ->
    adjust_pol <$> branch_loop idx lattices pt ds ns
    = adjust_pol <$> branch_loop idx lattices pt' ds' ns.
Proof.
  induction idx as [|i rest IH]; intros Hsame ds ds' ns Hmap; simpl.
  - f_equal. now apply adjust_pol_lattices.
  - destruct (lattices !! i) as [l|] eqn:Hl;
      [rewrite (py_index_Some _ _ _ Hl)|rewrite (py_index_None _ _ Hl); reflexivity].
    simpl.
    pose proof (Hsame i ltac:(left)) as Hi. unfold same_images in Hi.
    destruct (pt !! i) as [p|] eqn:Hp, (pt' !! i) as [p'|] eqn:Hp'; try contradiction.
    + rewrite (py_index_Some _ _ _ Hp), (py_index_Some _ _ _ Hp'). simpl.
      specialize (Hi l Hl).
      destruct (if Nat.eqb i 0 then Ok vzero else py_last ns ≫= (fun s => Ok (coords s)))
        as [prev|e]; simpl; [|reflexivity].
      rewrite Hi. apply IH.
      * intros k Hk. apply Hsame. now right.
      * rewrite !map_app, Hmap. reflexivity.
    + rewrite (py_index_None _ _ Hp), (py_index_None _ _ Hp'). reflexivity.
Qed.

Lemma same_images_refl (lattices : list Lattice) (i : nat) (p : option vec3) :
  same_images lattices i p p.
Proof. destruct p; simpl; auto. Qed.

Lemma mod1_quantum (x q : R) (n : Z) :
  mod1 ((x + IZR n * q) / Rabs q) = mod1 (x / Rabs q).
Proof.
  destruct (Rtotal_order q 0) as [Hq|[Hq|Hq]].
  - rewrite Rabs_left by assumption.
    replace ((x + IZR n * q) / - q) with (x / - q + IZR (- n)).
    + apply mod1_shift.
    + rewrite opp_IZR. field. lra.
  - subst q. now rewrite Rmult_0_r, Rplus_0_r.
  - rewrite Rabs_right by lra.
    replace ((x + IZR n * q) / q) with (x / q + IZR n) by (field; lra).
    apply mod1_shift.
Qed.

Definition vabs (q : vec3) : vec3 := mk3 (Rabs (c0 q)) (Rabs (c1 q)) (Rabs (c2 q)).

Lemma vmod1_quanta (x q : vec3) (n : Z * Z * Z) :
  vmod1 (np_divide (vadd x (np_multiply (zvec n) q)) (vabs q))
  = vmod1 (np_divide x (vabs q)).
Proof.
  destruct n as [[na nb] nc]. unfold vmod1; simpl. now rewrite !mod1_quantum.
Qed.

Lemma vabs_abc (l : Lattice) : vabs (abc l) = abc l.
Proof. unfold vabs, abc; simpl. now rewrite !Rabs_pos_eq by apply norm_nonneg. Qed.

Lemma vabs_scaled_abc (l : Lattice) (u : R) :
  vabs (vscale_l u (abc l)) = vscale_l (Rabs u) (abc l).
Proof.
  unfold vabs, vscale_l, abc; simpl.
  now rewrite !Rabs_mult, !(Rabs_pos_eq (norm _)) by apply norm_nonneg.
Qed.

(** The dipole of [n] quanta: [n_a], [n_b] and [n_c] lattice lengths of [l]
    along a, b and c. *)
Definition quanta_shift (l : Lattice) (n : Z * Z * Z) : vec3 := np_multiply (zvec n) (abc l).

Inductive dipole_kind : Type := Electronic | Ionic.

(** The track with [delta] added to the raw electronic or ionic dipole of step [j]. *)
Definition shift_dipole (self : Polarization) (which : dipole_kind) (j : nat) (delta : vec3)
    : Polarization :=
  match which with
  | Electronic =>
      mkPolarization (alter (fun p => vadd p delta) j (p_elecs self)) (p_ions self)
        (structures self)
  | Ionic =>
      mkPolarization (p_elecs self) (alter (fun p => vadd p delta) j (p_ions self))
        (structures self)
  end.

Lemma matrix_len_alter (f : vec3 -> vec3) (j : nat) (rows : list vec3) :
  matrix_len (alter f j rows) = matrix_len rows.
Proof.
  destruct rows as [|r rows]; [reflexivity|].
  destruct j; simpl; [reflexivity|].
  f_equal. apply length_alter.
Qed.

Lemma matrix_len_nonempty (rows : list vec3) : rows <> [] -> matrix_len rows = length rows.
Proof. destruct rows; [congruence|reflexivity]. Qed.

Lemma p_tot_shift (self : Polarization) (which : dipole_kind) (j : nat) (delta : vec3) :
  zip_with vadd (p_elecs (shift_dipole self which j delta))
                (p_ions (shift_dipole self which j delta))
  = alter (fun p => vadd p delta) j (zip_with vadd (p_elecs self) (p_ions self)).
Proof.
  apply list_eq. intros i. rewrite lookup_zip_with.
  destruct (decide (i = j)) as [->|Hij].
  - rewrite list_lookup_alter_eq, lookup_zip_with.
    destruct which; simpl; rewrite ?list_lookup_alter_eq;
      destruct (p_elecs self !! j) as [pe|]; simpl; try reflexivity;
      destruct (p_ions self !! j) as [pi|]; simpl; try reflexivity;
      f_equal; apply vec3_eq; simpl; ring.
  - rewrite list_lookup_alter_ne, lookup_zip_with by congruence.
    destruct which; simpl; rewrite ?list_lookup_alter_ne by congruence; reflexivity.
Qed.

Lemma same_branch_unfold (self : Polarization) (convert : bool) :
  get_same_branch_polarization_data self convert
  = let p_tot := zip_with vadd (p_elecs self) (p_ions self) in
    let lattices := map lattice (structures self) in
    let L := matrix_len (p_elecs self) in
    if convert then
      let units := unit_factors (volumes_of (structures self)) in
      lattices ← rescale_lattices (seq 0 L) units lattices;
      adjust_pol <$> branch_loop (seq 0 L) lattices (zip_with vscale_l units p_tot) [] []
    else adjust_pol <$> branch_loop (seq 0 L) lattices p_tot [] [].
Proof.
  unfold get_same_branch_polarization_data; simpl.
  destruct convert; simpl.
  - destruct (rescale_lattices _ _ _) as [lats|e]; simpl; [|reflexivity].
    destruct (branch_loop _ _ _ _ _) as [[ds ns]|e]; reflexivity.
  - destruct (branch_loop _ _ _ _ _) as [[ds ns]|e]; reflexivity.
Qed.

Lemma same_branch_shift (self : Polarization) (which : dipole_kind) (j : nat)
    (s : Structure) (n : Z * Z * Z) (convert : bool) :
  well_formed self ->
  structures self !! j = Some s ->
  get_same_branch_polarization_data
    (shift_dipole self which j (quanta_shift (lattice s) n)) convert
  = get_same_branch_polarization_data self convert.
Proof.
  intros [WF1 WF2] Hs.
  rewrite !same_branch_unfold. cbv zeta.
  rewrite p_tot_shift.
  set (delta := quanta_shift (lattice s) n).
  set (pt := zip_with vadd (p_elecs self) (p_ions self)).
  assert (HL : matrix_len (p_elecs (shift_dipole self which j delta))
               = matrix_len (p_elecs self)).
  { destruct which; simpl; [apply matrix_len_alter|reflexivity]. }
  assert (Hss : structures (shift_dipole self which j delta) = structures self)
    by (destruct which; reflexivity).
  rewrite HL, Hss.
  assert (Hne : p_elecs self <> []).
  { intros E. apply lookup_lt_Some in Hs. rewrite E in WF2. simpl in WF2. lia. }
  rewrite (matrix_len_nonempty _ Hne).
  destruct convert.
  - set (units := unit_factors (volumes_of (structures self))).
    replace (length (p_elecs self)) with (length (map lattice (structures self)))
      by (rewrite length_map; lia).
    rewrite rescale_lattices_all
      by (unfold units; now rewrite length_unit_factors, length_volumes_of, length_map).
    simpl. symmetry.
    apply branch_loop_same_images; [|reflexivity].
    intros i _. rewrite !lookup_zip_with.
    destruct (units !! i) as [u|] eqn:Hu; simpl; [|exact I].
    destruct (decide (i = j)) as [->|Hij].
    + rewrite list_lookup_alter_eq.
      destruct (pt !! j) as [p|]; simpl; [|exact I].
      intros l Hl. rewrite lookup_zip_with in Hl.
      change (map lattice (structures self)) with (lattice <$> structures self) in Hl.
      rewrite list_lookup_fmap, Hs, Hu in Hl. simpl in Hl.
      injection Hl as <-.
      rewrite abc_rescaled, <- vabs_scaled_abc. symmetry.
      rewrite <- (vmod1_quanta (vscale_l u p) (vscale_l u (abc (lattice s))) n).
      do 2 f_equal. unfold delta, quanta_shift. apply vec3_eq; simpl; ring.
    + rewrite list_lookup_alter_ne by congruence. apply same_images_refl.
  - symmetry. apply branch_loop_same_images; [|reflexivity].
    intros i _.
    destruct (decide (i = j)) as [->|Hij].
    + rewrite list_lookup_alter_eq.
      destruct (pt !! j) as [p|]; simpl; [|exact I].
      intros l Hl.
      change (map lattice (structures self)) with (lattice <$> structures self) in Hl.
      rewrite list_lookup_fmap, Hs in Hl. simpl in Hl. injection Hl as <-.
      rewrite <- (vabs_abc (lattice s)). symmetry. apply vmod1_quanta.
    + rewrite list_lookup_alter_ne by congruence. apply same_images_refl.
Qed.

(* ===================================================================== *)
(** ** Same-branch polarization: the loop terminates normally *)

Lemma py_last_snoc {A : Type} (xs : list A) (x : A) : py_last (xs ++ [x]) = Ok x.
Proof. unfold py_last. now rewrite last_snoc. Qed.

Lemma branch_loop_cons (lattices : list Lattice) (pt : list vec3) (i : nat)
    (rest : list nat) (ds : list Structure) (ns : list PeriodicSite)
    (l : Lattice) (p prev : vec3) :
  lattices !! i = Some l -> pt !! i = Some p ->
  (if Nat.eqb i 0 then Ok vzero else py_last ns ≫= (fun s => Ok (coords s))) = Ok prev ->
  let site := mkSite "C" (np_divide p (abc l)) l in
  let d := mkStructure l [site] in
  branch_loop (i :: rest) lattices pt ds ns
  = branch_loop rest lattices pt (ds ++ [d]) (ns ++ [fst (get_nearest_site d prev site)]).
Proof.
  intros Hl Hp Hprev site d. simpl.
  rewrite (py_index_Some _ _ _ Hl), (py_index_Some _ _ _ Hp). simpl.
  rewrite Hprev. reflexivity.
Qed.

Lemma branch_loop_run (lattices : list Lattice) (pt : list vec3) (n : nat) :
  forall k ds ns,
    (k + n <= length lattices)%nat -> (k + n <= length pt)%nat ->
    (0 < k -> ns <> [])%nat ->
    exists ds2 ns2,
      branch_loop (seq k n) lattices pt ds ns = Ok (ds ++ ds2, ns ++ ns2)
      /\ length ds2 = n /\ length ns2 = n.
Proof.
  induction n as [|n IH]; intros k ds ns Hl Hp Hk.
  - exists [], []. simpl. now rewrite !app_nil_r.
  - destruct (lookup_lt_is_Some_2 lattices k) as [l Hlk]; [lia|].
    destruct (lookup_lt_is_Some_2 pt k) as [p Hpk]; [lia|].
    assert (Hprev : exists prev,
      (if Nat.eqb k 0 then Ok vzero else py_last ns ≫= (fun s => Ok (coords s))) = Ok prev).
    { destruct k as [|k]; simpl; [now exists vzero|].
      destruct ns as [|x ns _] using rev_ind; [exfalso; apply Hk; [lia|reflexivity]|].
      rewrite py_last_snoc. simpl. now eexists. }
    destruct Hprev as [prev Hprev].
    change (seq k (S n)) with (k :: seq (S k) n).
    rewrite (branch_loop_cons _ _ _ _ _ _ _ _ _ Hlk Hpk Hprev).
    set (site := mkSite "C" (np_divide p (abc l)) l).
    set (d := mkStructure l [site]).
    destruct (IH (S k) (ds ++ [d])
                (ns ++ [fst (get_nearest_site d prev site)])) as [ds2 [ns2 [Hr [H1 H2]]]];
      [lia|lia|intros _ E; now apply app_eq_nil in E as [_ E]|].
    exists (d :: ds2), (fst (get_nearest_site d prev site) :: ns2).
    split; [|simpl; lia].
    rewrite <- !app_assoc in Hr. exact Hr.
Qed.

(** The point handed to the search at step 0, and the site it returns. *)
Definition first_site (l0 : Lattice) (p0 : vec3) : PeriodicSite :=
  let site := mkSite "C" (np_divide p0 (abc l0)) l0 in
  fst (get_nearest_site (mkStructure l0 [site]) vzero site).

Lemma branch_loop_first_row (lattices : list Lattice) (pt : list vec3) (L : nat)
    (l0 : Lattice) (p0 : vec3) :
  lattices !! 0%nat = Some l0 -> pt !! 0%nat = Some p0 ->
  (0 < L)%nat -> (L <= length lattices)%nat -> (L <= length pt)%nat ->
  exists rest,
    adjust_pol <$> branch_loop (seq 0 L) lattices pt [] []
    = Ok (np_multiply (frac_coords (first_site l0 p0)) (abc l0) :: rest)
    /\ length rest = (L - 1)%nat.
Proof.
  intros Hl0 Hp0 HL Hlen1 Hlen2.
  destruct L as [|L]; [lia|].
  change (seq 0 (S L)) with (0%nat :: seq 1 L).
  rewrite (branch_loop_cons _ _ _ _ _ _ _ _ vzero Hl0 Hp0 eq_refl).
  set (site := mkSite "C" (np_divide p0 (abc l0)) l0).
  set (d := mkStructure l0 [site]).
  destruct (branch_loop_run lattices pt L 1 [d] [fst (get_nearest_site d vzero site)])
    as [ds2 [ns2 [Hr [H1 H2]]]]; [lia|lia|discriminate|].
  change ([] ++ [d]) with [d].
  change ([] ++ [fst (get_nearest_site d vzero site)])
    with [fst (get_nearest_site d vzero site)].
  rewrite Hr.
  exists (adjust_pol (ds2, ns2)). split; [reflexivity|].
  unfold adjust_pol. rewrite length_zip_with. simpl. lia.
Qed.

(* ===================================================================== *)
(** ** Same-branch polarization: the first step *)

(** The unit factor of one structure, as [get_same_branch_polarization_data]
    computes it. *)
Definition unit_factor (s : Structure) : R := 1 / volume (lattice s) * (e_to_muC * cm2_to_A2).

(** The lattice used for a step, and the total dipole that is folded. *)
Definition step_lattice (s : Structure) (convert : bool) : Lattice :=
  if convert then rescaled (lattice s) (unit_factor s) else lattice s.

Definition step_total (s : Structure) (pe pi : vec3) (convert : bool) : vec3 :=
  if convert then vscale_l (unit_factor s) (vadd pe pi) else vadd pe pi.

(** Basis vector [d] is perpendicular to the other two. *)
Definition orthogonal_axis (l : Lattice) (d : axis) : Prop :=
  match d with
  | Xa => dot (row0 l) (row1 l) = 0 /\ dot (row0 l) (row2 l) = 0
  | Xb => dot (row1 l) (row0 l) = 0 /\ dot (row1 l) (row2 l) = 0
  | Xc => dot (row2 l) (row0 l) = 0 /\ dot (row2 l) (row1 l) = 0
  end.

Lemma same_branch_first_row (self : Polarization) (convert : bool)
    (s0 : Structure) (pe0 pi0 : vec3) :
  well_formed self ->
  structures self !! 0%nat = Some s0 ->
  p_elecs self !! 0%nat = Some pe0 -> p_ions self !! 0%nat = Some pi0 ->
  exists rest,
    get_same_branch_polarization_data self convert
    = Ok (np_multiply
            (frac_coords (first_site (step_lattice s0 convert) (step_total s0 pe0 pi0 convert)))
            (abc (step_lattice s0 convert)) :: rest)
    /\ S (length rest) = length (p_elecs self).
Proof.
  intros [WF1 WF2] Hs He Hi.
  rewrite same_branch_unfold. cbv zeta.
  assert (Hne : p_elecs self <> []) by (intros E; rewrite E in He; discriminate).
  rewrite (matrix_len_nonempty _ Hne).
  assert (Hpos : (0 < length (p_elecs self))%nat) by (apply lookup_lt_Some in He; lia).
  assert (Hpt : zip_with vadd (p_elecs self) (p_ions self) !! 0%nat = Some (vadd pe0 pi0))
    by (now rewrite lookup_zip_with, He, Hi).
  assert (Hlat : map lattice (structures self) !! 0%nat = Some (lattice s0)).
  { change (map lattice (structures self)) with (lattice <$> structures self).
    now rewrite list_lookup_fmap, Hs. }
  destruct convert; simpl step_lattice; simpl step_total.
  - set (units := unit_factors (volumes_of (structures self))).
    assert (Hul : length units = length (p_elecs self))
      by (unfold units; rewrite length_unit_factors, length_volumes_of; lia).
    replace (length (p_elecs self)) with (length (map lattice (structures self)))
      by (rewrite length_map; lia).
    rewrite rescale_lattices_all by (rewrite length_map; lia).
    simpl.
    assert (Hu : units !! 0%nat = Some (unit_factor s0))
      by apply (unit_factors_lookup _ _ _ (volumes_of_lookup _ _ _ Hs)).
    destruct (branch_loop_first_row
                (zip_with rescaled (map lattice (structures self)) units)
                (zip_with vscale_l units (zip_with vadd (p_elecs self) (p_ions self)))
                (length (map lattice (structures self)))
                (rescaled (lattice s0) (unit_factor s0))
                (vscale_l (unit_factor s0) (vadd pe0 pi0))) as [rest [Hr Hlen]].
    + now rewrite lookup_zip_with, Hlat, Hu.
    + now rewrite lookup_zip_with, Hu, Hpt.
    + rewrite length_map. lia.
    + rewrite length_zip_with, length_map. lia.
    + rewrite !length_zip_with, length_map. lia.
    + exists rest. split; [exact Hr|]. rewrite length_map in Hlen |- *. lia.
  - destruct (branch_loop_first_row (map lattice (structures self))
                (zip_with vadd (p_elecs self) (p_ions self))
                (length (p_elecs self)) (lattice s0) (vadd pe0 pi0))
      as [rest [Hr Hlen]]; try assumption.
    + rewrite length_map. lia.
    + rewrite length_zip_with. lia.
    + exists rest. split; [exact Hr|lia].
Qed.

Lemma vsub_vzero (v : vec3) : vsub v vzero = v.
Proof. destruct v. unfold vsub; simpl. f_equal; ring. Qed.

Lemma first_site_image (l0 : Lattice) (p0 : vec3) :
  exists n, frac_coords (first_site l0 p0) = vadd (np_divide p0 (abc l0)) (zvec n).
Proof.
  unfold first_site.
  destruct (get_nearest_site_image
              (mkStructure l0 [mkSite "C" (np_divide p0 (abc l0)) l0]) vzero
              (mkSite "C" (np_divide p0 (abc l0)) l0)) as [n [Hn _]].
  now exists n.
Qed.

Lemma first_site_optimal (l0 : Lattice) (p0 : vec3) (m : Z * Z * Z) :
  det l0 <> 0 ->
  norm2 (get_cartesian_coords l0 (frac_coords (first_site l0 p0)))
  <= norm2 (get_cartesian_coords l0 (vadd (np_divide p0 (abc l0)) (zvec m))).
Proof.
  intros Hd.
  pose proof (get_nearest_site_optimal
                (mkStructure l0 [mkSite "C" (np_divide p0 (abc l0)) l0]) vzero
                (mkSite "C" (np_divide p0 (abc l0)) l0) m Hd) as H.
  rewrite !vsub_vzero in H. exact H.
Qed.

Lemma norm2_zero (v : vec3) : norm2 v <= 0 -> v = vzero.
Proof.
  destruct v as [x y z]. unfold norm2, dot; simpl. intros H.
  assert (x = 0) by nra. assert (y = 0) by nra. assert (z = 0) by nra.
  subst. reflexivity.
Qed.

Lemma cartesian_zero (l : Lattice) (h : vec3) :
  det l <> 0 -> get_cartesian_coords l h = vzero -> h = vzero.
Proof.
  intros Hd Hh. destruct (fractional_component l h Hd) as [E0 [E1 E2]].
  rewrite Hh in E0, E1, E2. unfold dot in *; simpl in *.
  apply vec3_eq; simpl; lra.
Qed.

Lemma det_rows_nonzero (l : Lattice) (d : axis) : det l <> 0 -> 0 < comp (abc l) d.
Proof.
  intros Hd.
  destruct (Rle_lt_or_eq_dec _ _ (abc_nonneg l d)) as [H|H]; [exact H|].
  exfalso. apply Hd.
  assert (Hz : forall v, norm v = 0 -> v = vzero).
  { intros v Hv. apply norm2_zero. rewrite <- norm_sq, Hv. lra. }
  destruct l as [r0 r1 r2]. unfold det; simpl.
  destruct d; simpl in H; symmetry in H; apply Hz in H; subst;
    unfold dot, cross; simpl; ring.
Qed.

(** When the folded point is an integer combination of the lattice vectors,
    the image nearest to the origin is the origin. *)
Lemma first_site_integer (l0 : Lattice) (p0 : vec3) (k : Z * Z * Z) :
  det l0 <> 0 -> np_divide p0 (abc l0) = zvec k ->
  frac_coords (first_site l0 p0) = vzero.
Proof.
  intros Hd Hk.
  pose proof (first_site_optimal l0 p0 (zsub3 (0, 0, 0)%Z k) Hd) as H.
  rewrite Hk, zvec_zsub3 in H.
  replace (vadd (zvec k) (vsub (zvec (0, 0, 0)%Z) (zvec k))) with vzero in H
    by (apply vec3_eq; simpl; ring).
  replace (get_cartesian_coords l0 vzero) with vzero in H
    by (apply vec3_eq; simpl; ring).
  replace (norm2 vzero) with 0 in H by (unfold norm2, dot; simpl; ring).
  apply (cartesian_zero l0); [exact Hd|]. now apply norm2_zero.
Qed.

Lemma orth_split_a (l : Lattice) (x y z : R) :
  orthogonal_axis l Xa ->
  norm2 (get_cartesian_coords l (mk3 x y z))
  = x * x * norm2 (row0 l) + norm2 (get_cartesian_coords l (mk3 0 y z)).
Proof.
  intros [H1 H2].
  assert (E : norm2 (get_cartesian_coords l (mk3 x y z))
              = x * x * norm2 (row0 l) + 2 * x * y * dot (row0 l) (row1 l)
                + 2 * x * z * dot (row0 l) (row2 l)
                + norm2 (get_cartesian_coords l (mk3 0 y z)))
    by (vec_simpl; ring).
  rewrite E, H1, H2. ring.
Qed.

Lemma orth_split_b (l : Lattice) (x y z : R) :
  orthogonal_axis l Xb ->
  norm2 (get_cartesian_coords l (mk3 x y z))
  = y * y * norm2 (row1 l) + norm2 (get_cartesian_coords l (mk3 x 0 z)).
Proof.
  intros [H1 H2].
  assert (E : norm2 (get_cartesian_coords l (mk3 x y z))
              = y * y * norm2 (row1 l) + 2 * y * x * dot (row1 l) (row0 l)
                + 2 * y * z * dot (row1 l) (row2 l)
                + norm2 (get_cartesian_coords l (mk3 x 0 z)))
    by (vec_simpl; ring).
  rewrite E, H1, H2. ring.
Qed.

Lemma orth_split_c (l : Lattice) (x y z : R) :
  orthogonal_axis l Xc ->
  norm2 (get_cartesian_coords l (mk3 x y z))
  = z * z * norm2 (row2 l) + norm2 (get_cartesian_coords l (mk3 x y 0)).
Proof.
  intros [H1 H2].
  assert (E : norm2 (get_cartesian_coords l (mk3 x y z))
              = z * z * norm2 (row2 l) + 2 * z * x * dot (row2 l) (row0 l)
                + 2 * z * y * dot (row2 l) (row1 l)
                + norm2 (get_cartesian_coords l (mk3 x y 0)))
    by (vec_simpl; ring).
  rewrite E, H1, H2. ring.
Qed.

Lemma square_factor_zero (x q : R) : 0 < q -> x * x * q <= 0 -> x = 0.
Proof.
  intros Hq H. destruct (Req_dec x 0) as [Hx|Hx]; [exact Hx|]. exfalso.
  assert (0 < x * x) by nra.
  assert (0 < x * x * q) by (apply Rmult_lt_0_compat; assumption).
  lra.
Qed.

Lemma norm2_row_pos (l : Lattice) (d : axis) :
  det l <> 0 ->
  0 < norm2 (match d with Xa => row0 l | Xb => row1 l | Xc => row2 l end).
Proof.
  intros Hd. pose proof (det_rows_nonzero l d Hd) as H.
  destruct d; simpl in H; rewrite <- norm_sq; nra.
Qed.

(** When the folded point has an integer coordinate along a basis vector that
    is perpendicular to the other two, the nearest image has coordinate 0
    along it. *)
Lemma first_site_orthogonal (l0 : Lattice) (p0 : vec3) (d : axis) (k : Z) :
  det l0 <> 0 -> comp (np_divide p0 (abc l0)) d = IZR k -> orthogonal_axis l0 d ->
  comp (frac_coords (first_site l0 p0)) d = 0.
Proof.
  intros Hd Hk Ho.
  destruct (first_site_image l0 p0) as [[[na nb] nc] Hn].
  set (f0 := np_divide p0 (abc l0)) in *.
  pose proof (norm2_row_pos l0 d Hd) as Hpos.
  destruct d; simpl in Hk, Hpos.
  - pose proof (first_site_optimal l0 p0 ((- k)%Z, nb, nc) Hd) as H.
    fold f0 in H. rewrite Hn in H |- *. simpl.
    unfold vadd in H; simpl in H.
    rewrite (orth_split_a l0 _ _ _ Ho) in H.
    rewrite opp_IZR in H. rewrite Hk in H |- *.
    replace (IZR k + - IZR k) with 0 in H by ring.
    apply (square_factor_zero _ _ Hpos). lra.
  - pose proof (first_site_optimal l0 p0 (na, (- k)%Z, nc) Hd) as H.
    fold f0 in H. rewrite Hn in H |- *. simpl.
    unfold vadd in H; simpl in H.
    rewrite (orth_split_b l0 _ _ _ Ho) in H.
    rewrite opp_IZR in H. rewrite Hk in H |- *.
    replace (IZR k + - IZR k) with 0 in H by ring.
    apply (square_factor_zero _ _ Hpos). lra.
  - pose proof (first_site_optimal l0 p0 (na, nb, (- k)%Z) Hd) as H.
    fold f0 in H. rewrite Hn in H |- *. simpl.
    unfold vadd in H; simpl in H.
    rewrite (orth_split_c l0 _ _ _ Ho) in H.
    rewrite opp_IZR in H. rewrite Hk in H |- *.
    replace (IZR k + - IZR k) with 0 in H by ring.
    apply (square_factor_zero _ _ Hpos). lra.
Qed.

(** One quantum of the structure's lattice along [d], folded at step 0, is an
    integer number of (possibly rescaled) lattice lengths. *)
Lemma step_quantum_integer (s : Structure) (pe pi : vec3) (convert : bool) (d : axis) :
  det (step_lattice s convert) <> 0 ->
  comp (vadd pe pi) d = comp (abc (lattice s)) d ->
  exists k : Z,
    comp (np_divide (step_total s pe pi convert) (abc (step_lattice s convert))) d = IZR k.
Proof.
  intros Hd Hq.
  pose proof (det_rows_nonzero _ d Hd) as Hpos.
  destruct convert; simpl in *.
  - rewrite abc_rescaled in *.
    set (u := unit_factor s) in *.
    assert (E : comp (np_divide (vscale_l u (vadd pe pi)) (vscale_l (Rabs u) (abc (lattice s)))) d
                = u * comp (vadd pe pi) d / (Rabs u * comp (abc (lattice s)) d))
      by (destruct d; reflexivity).
    assert (Ha : 0 < Rabs u * comp (abc (lattice s)) d) by (destruct d; exact Hpos).
    rewrite E, Hq. set (a := comp (abc (lattice s)) d) in *.
    destruct (Rcase_abs u) as [Hu|Hu].
    + exists (-1)%Z. rewrite Rabs_left in * by assumption. field. nra.
    + exists 1%Z. rewrite Rabs_right in * by assumption. field. nra.
  - exists 1%Z.
    assert (E : comp (np_divide (vadd pe pi) (abc (lattice s))) d
                = comp (vadd pe pi) d / comp (abc (lattice s)) d)
      by (destruct d; reflexivity).
    rewrite E, Hq. field. lra.
Qed.

(** The same with zero in the other two directions: the folded point is an
    integer vector. *)
Lemma step_quantum_vector (s : Structure) (pe pi : vec3) (convert : bool) (d : axis) :
  det (step_lattice s convert) <> 0 ->
  vadd pe pi = vscale_l (comp (abc (lattice s)) d) (unit_axis d) ->
  exists k : Z * Z * Z,
    np_divide (step_total s pe pi convert) (abc (step_lattice s convert)) = zvec k.
Proof.
  intros Hd Hq.
  assert (Hqd : comp (vadd pe pi) d = comp (abc (lattice s)) d).
  { rewrite Hq. destruct d; simpl; ring. }
  destruct (step_quantum_integer s pe pi convert d Hd Hqd) as [k Hk].
  assert (Hz : forall e, e <> d ->
            comp (np_divide (step_total s pe pi convert) (abc (step_lattice s convert))) e = 0).
  { intros e He.
    assert (E0 : comp (step_total s pe pi convert) e = 0).
    { destruct convert; simpl; rewrite Hq; destruct d, e; try congruence; simpl; ring. }
    destruct e; simpl in *; rewrite E0; unfold Rdiv; ring. }
  destruct d.
  - exists (k, 0, 0)%Z. apply vec3_eq; simpl.
    + exact Hk.
    + apply (Hz Xb). discriminate.
    + apply (Hz Xc). discriminate.
  - exists (0, k, 0)%Z. apply vec3_eq; simpl.
    + apply (Hz Xa). discriminate.
    + exact Hk.
    + apply (Hz Xc). discriminate.
  - exists (0, 0, k)%Z. apply vec3_eq; simpl.
    + apply (Hz Xa). discriminate.
    + apply (Hz Xb). discriminate.
    + exact Hk.
Qed.

Lemma norm_le_of_norm2_le (u v : vec3) : norm2 u <= norm2 v -> norm u <= norm v.
Proof. intros H. unfold norm. now apply sqrt_le_1_alt. Qed.

(** C2 (amended).  On a track with a non-degenerate cell at step 0 the first
    row returned by [get_same_branch_polarization_data] is the periodic image
    of the first step's total dipole that lies closest to the origin in real
    space: it is [img * (a, b, c)] for fractional coordinates [img] that differ
    from those of the dipole by integers, and no other such image is closer to
    zero.  When the raw total dipole of the first step is exactly one lattice
    quantum along a direction [d] and zero along the other two, the first row
    is zero, so it is 0 and not the quantum along [d]; when the dipole has
    exactly one quantum along [d] and basis vector [d] is perpendicular to the
    other two, the first row is again 0 along [d], whatever the other
    components are. *)
Theorem endpoint_anchoring (self : Polarization) (convert_to_muC_per_cm2 : bool)
    (s0 : Structure) (pe0 pi0 : vec3) :
  well_formed self ->
  structures self !! 0%nat = Some s0 ->
  p_elecs self !! 0%nat = Some pe0 -> p_ions self !! 0%nat = Some pi0 ->
  det (step_lattice s0 convert_to_muC_per_cm2) <> 0 ->
  exists img rest,
    get_same_branch_polarization_data self convert_to_muC_per_cm2
    = Ok (np_multiply img (abc (step_lattice s0 convert_to_muC_per_cm2)) :: rest)
    /\ (exists n,
          img = vadd (np_divide (step_total s0 pe0 pi0 convert_to_muC_per_cm2)
                                (abc (step_lattice s0 convert_to_muC_per_cm2)))
                     (zvec n))
    /\ (forall m,
          norm (get_cartesian_coords (step_lattice s0 convert_to_muC_per_cm2) img)
          <= norm (get_cartesian_coords (step_lattice s0 convert_to_muC_per_cm2)
                     (vadd (np_divide (step_total s0 pe0 pi0 convert_to_muC_per_cm2)
                                      (abc (step_lattice s0 convert_to_muC_per_cm2)))
                           (zvec m))))
    /\ (forall d,
          vadd pe0 pi0 = vscale_l (comp (abc (lattice s0)) d) (unit_axis d) ->
          np_multiply img (abc (step_lattice s0 convert_to_muC_per_cm2)) = vzero
          /\ 0 < comp (abc (step_lattice s0 convert_to_muC_per_cm2)) d)
    /\ (forall d,
          comp (vadd pe0 pi0) d = comp (abc (lattice s0)) d ->
          orthogonal_axis (step_lattice s0 convert_to_muC_per_cm2) d ->
          comp (np_multiply img (abc (step_lattice s0 convert_to_muC_per_cm2))) d = 0
          /\ 0 < comp (abc (step_lattice s0 convert_to_muC_per_cm2)) d).
Proof.
  intros WF Hs He Hi Hd.
  destruct (same_branch_first_row self convert_to_muC_per_cm2 s0 pe0 pi0 WF Hs He Hi)
    as [rest [Hr _]].
  set (l0 := step_lattice s0 convert_to_muC_per_cm2) in *.
  set (p0 := step_total s0 pe0 pi0 convert_to_muC_per_cm2) in *.
  exists (frac_coords (first_site l0 p0)), rest.
  split; [exact Hr|]. split; [apply first_site_image|].
  split; [intros m; apply norm_le_of_norm2_le, first_site_optimal, Hd|].
  split.
  - intros d Hq. split; [|now apply det_rows_nonzero].
    destruct (step_quantum_vector s0 pe0 pi0 convert_to_muC_per_cm2 d Hd Hq) as [k Hk].
    fold l0 p0 in Hk. rewrite (first_site_integer l0 p0 k Hd Hk).
    apply vec3_eq; simpl; ring.
  - intros d Hq Ho. split; [|now apply det_rows_nonzero].
    destruct (step_quantum_integer s0 pe0 pi0 convert_to_muC_per_cm2 d Hd Hq) as [k Hk].
    fold l0 p0 in Hk.
    pose proof (first_site_orthogonal l0 p0 d k Hd Hk Ho) as H0.
    destruct d; simpl in *; rewrite H0; ring.
Qed.

(* ===================================================================== *)
(** ** Worked inputs *)

Lemma norm_eq (v : vec3) (r : R) : 0 <= r -> norm2 v = r * r -> norm v = r.
Proof. intros Hr H. unfold norm. rewrite H. now apply sqrt_square. Qed.

(** A cubic cell of edge 5. *)
Definition cubic5 : Lattice := mkLattice (mk3 5 0 0) (mk3 0 5 0) (mk3 0 0 5).

Lemma abc_cubic5 : abc cubic5 = mk3 5 5 5.
Proof.
  unfold abc, cubic5; simpl.
  f_equal; apply norm_eq; try lra; unfold norm2, dot; simpl; ring.
Qed.

Lemma det_cubic5 : det cubic5 = 125.
Proof. unfold cubic5. vec_simpl. ring. Qed.

Definition empty_cubic5 : Structure := mkStructure cubic5 [].

(** A two-step track in the cubic cell. *)
Definition two_step_track : Polarization :=
  mkPolarization [vzero; mk3 0 0 1] [vzero; vzero] [empty_cubic5; empty_cubic5].

(** A one-step track whose total dipole is one quantum along a. *)
Definition one_quantum_track : Polarization :=
  mkPolarization [mk3 5 0 0] [vzero] [empty_cubic5].

Lemma endpoint_anchoring_witness :
  exists rest, get_same_branch_polarization_data one_quantum_track false = Ok (vzero :: rest).
Proof.
  destruct (endpoint_anchoring one_quantum_track false empty_cubic5 (mk3 5 0 0) vzero)
    as [img [rest [Hr [_ [_ [Hq _]]]]]].
  - split; reflexivity.
  - reflexivity.
  - reflexivity.
  - reflexivity.
  - simpl. rewrite det_cubic5. lra.
  - exists rest. rewrite Hr. do 2 f_equal.
    apply (Hq Xa). simpl lattice. rewrite abc_cubic5.
    apply vec3_eq; simpl; ring.
Defined.

(** An oblique cell: a = (1, 0, 0), b = (1.8, 2.4, 0) of length 3, c = (0, 0, 1). *)
Definition oblique : Lattice := mkLattice (mk3 1 0 0) (mk3 1.8 2.4 0) (mk3 0 0 1).

Lemma abc_oblique : abc oblique = mk3 1 3 1.
Proof.
  unfold abc, oblique; simpl.
  f_equal; apply norm_eq; try lra; unfold norm2, dot; simpl; lra.
Qed.

Lemma det_oblique : det oblique = 2.4.
Proof. unfold oblique. vec_simpl. lra. Qed.

Lemma int_between (n : Z) (lo hi : Z) (x : R) :
  x = IZR n -> IZR lo < x < IZR hi -> (lo < n < hi)%Z.
Proof. intros -> [H1 H2]. split; now apply lt_IZR. Qed.

(** In the oblique cell the image of the point (1, 0.4, 0) nearest to the
    origin is (-1, 0.4, 0), at distance 1. *)
Lemma first_site_oblique :
  frac_coords (first_site oblique (mk3 1 1.2 0)) = mk3 (-1) 0.4 0.
Proof.
  assert (Hd : det oblique <> 0) by (rewrite det_oblique; lra).
  destruct (first_site_image oblique (mk3 1 1.2 0)) as [[[na nb] nc] Hn].
  pose proof (first_site_optimal oblique (mk3 1 1.2 0) (-2, 0, 0)%Z Hd) as H.
  rewrite Hn in H |- *. rewrite abc_oblique in *.
  unfold oblique, norm2, dot, get_cartesian_coords, np_divide, vadd, vscale_l in H;
    simpl in H.
  set (X := IZR na) in *. set (Y := IZR nb) in *. set (Z := IZR nc) in *.
  assert (H' : (X + 1.72 + 1.8 * Y) * (X + 1.72 + 1.8 * Y)
               + (0.96 + 2.4 * Y) * (0.96 + 2.4 * Y) + Z * Z <= 1) by lra.
  clear H.
  pose proof (Rle_0_sqr (X + 1.72 + 1.8 * Y)) as SA.
  pose proof (Rle_0_sqr (0.96 + 2.4 * Y)) as SB.
  pose proof (Rle_0_sqr Z) as SZ. unfold Rsqr in SA, SB, SZ.
  assert (BY : -1 <= 0.96 + 2.4 * Y <= 1) by (split; nra).
  assert (HY : (-1 < nb < 1)%Z) by (apply (int_between nb _ _ Y); [reflexivity|lra]).
  assert (Y = 0) as HY0 by (unfold Y; replace nb with 0%Z by lia; reflexivity).
  rewrite HY0 in *.
  assert (BZ : -0.5 <= Z <= 0.5) by (split; nra).
  assert (HZ : (-1 < nc < 1)%Z) by (apply (int_between nc _ _ Z); [reflexivity|lra]).
  assert (Z = 0) as HZ0 by (unfold Z; replace nc with 0%Z by lia; reflexivity).
  rewrite HZ0 in *.
  assert (BX : -0.5 <= X + 1.72 <= 0.5) by (split; nra).
  assert (HX : (-3 < na < -1)%Z) by (apply (int_between na _ _ X); [reflexivity|lra]).
  assert (X = -2) as HX0 by (unfold X; replace na with (-2)%Z by lia; reflexivity).
  unfold np_divide, vadd; simpl. fold X Y Z. rewrite HX0, HY0, HZ0.
  apply vec3_eq; simpl; lra.
Qed.

Definition oblique_track : Polarization :=
  mkPolarization [mk3 1 1.2 0] [vzero] [mkStructure oblique []].

(** C2, as it fails.  In the oblique cell a first step whose raw total dipole
    has exactly one quantum along a (and 1.2 along b) is folded to -1 along a:
    the image nearest to the origin in real space is one quantum below zero in
    that direction. *)
Lemma endpoint_anchoring_oblique :
  comp (vadd (mk3 1 1.2 0) vzero) Xa = comp (abc oblique) Xa
  /\ get_same_branch_polarization_data oblique_track false = Ok [mk3 (-1) 1.2 0]
  /\ comp (mk3 (-1) 1.2 0) Xa <> 0.
Proof.
  split; [rewrite abc_oblique; simpl; lra|]. split; [|simpl; lra].
  destruct (same_branch_first_row oblique_track false (mkStructure oblique [])
              (mk3 1 1.2 0) vzero) as [rest [Hr Hlen]];
    [split; reflexivity|reflexivity|reflexivity|reflexivity|].
  simpl in Hlen. destruct rest; [|discriminate].
  rewrite Hr. simpl step_lattice. simpl step_total.
  replace (vadd (mk3 1 1.2 0) vzero) with (mk3 1 1.2 0) by (apply vec3_eq; simpl; ring).
  rewrite first_site_oblique, abc_oblique.
  do 2 f_equal. apply vec3_eq; simpl; lra.
Qed.

(** One lithium ion at (1/2, 0, 0) in the cubic cell, with zval 1. *)
Definition li_site : PeriodicSite := mkSite "Li" (mk3 0.5 0 0) cubic5.
Definition li_structure : Structure := mkStructure cubic5 [li_site].
Definition li_zval : gmap string R := {[ "Li"%string := 1 ]}.

Lemma ionic_dipole_sum_witness :
  exists total,
    get_total_ionic_dipole li_structure li_zval = Ok total
    /\ total = np_sum_axis0
         (map (fun site => calc_ionic site li_structure (zval_of li_zval site))
              (sites li_structure))
    /\ forall d, comp total d
         = sum_R (map (fun site => - comp (abc (lattice li_structure)) d
                                    * comp (frac_coords site) d * zval_of li_zval site)
                      (sites li_structure)).
Proof.
  apply (proj1 (proj2 (ionic_dipole_sum li_structure li_zval))).
  intros site Hin. apply list_elem_of_singleton in Hin. subst site.
  exists 1. reflexivity.
Defined.

Definition li_track : Polarization := mkPolarization [mk3 1 2 3] [mk3 0 0 1] [li_structure].

Lemma volume_cubic5 : volume cubic5 = 125.
Proof. unfold volume. rewrite det_cubic5. apply Rabs_pos_eq. lra. Qed.

Lemma unit_conversion_rows_witness :
  let scale := -1.6021766e-13 * 1e16 / volume (lattice li_structure) in
  fst (get_pelecs_and_pions li_track true) !! 0%nat = Some (vscale_r (mk3 1 2 3) scale)
  /\ snd (get_pelecs_and_pions li_track true) !! 0%nat = Some (vscale_r (mk3 0 0 1) scale)
  /\ vdiv_r (vscale_r (mk3 1 2 3) scale) scale = mk3 1 2 3
  /\ vdiv_r (vscale_r (mk3 0 0 1) scale) scale = mk3 0 0 1.
Proof.
  assert (WF : well_formed li_track) by (split; reflexivity).
  destruct (proj2 (proj2 (proj2 (unit_conversion_rows li_track WF)))
              0%nat (mk3 1 2 3) (mk3 0 0 1) li_structure eq_refl eq_refl eq_refl)
    as [H1 [H2 H3]].
  split; [exact H1|]. split; [exact H2|].
  apply H3. simpl. rewrite volume_cubic5. lra.
Defined.

(* ===================================================================== *)
(** ** Same-branch polarization: a result is returned *)

Lemma same_branch_total (self : Polarization) (convert : bool) :
  well_formed self -> p_elecs self <> [] ->
  exists row rest,
    get_same_branch_polarization_data self convert = Ok (row :: rest)
    /\ S (length rest) = length (p_elecs self).
Proof.
  intros WF Hne. pose proof WF as [WF1 WF2].
  destruct (p_elecs self) as [|pe0 pes] eqn:He; [congruence|].
  destruct (p_ions self) as [|pi0 pis] eqn:Hi; [discriminate|].
  destruct (structures self) as [|s0 ss] eqn:Hs; [discriminate|].
  destruct (same_branch_first_row self convert s0 pe0 pi0 WF) as [rest [Hr Hlen]];
    try (rewrite ?He, ?Hi, ?Hs; reflexivity).
  rewrite He in Hlen. eauto.
Qed.

(** For an empty track the loop asks for [lattices[0]]: [IndexError]. *)
Lemma same_branch_empty (convert : bool) :
  get_same_branch_polarization_data (mkPolarization [] [] []) convert = Raise IndexError.
Proof. destruct convert; reflexivity. Qed.

(* ===================================================================== *)
(** ** Spline diagnostics *)

(** [v] is the largest element of [xs]. *)
Definition is_max_of (v : R) (xs : list R) : Prop := v ∈ xs /\ forall y, y ∈ xs -> y <= v.

Lemma fold_Rmax_spec (xs : list R) :
  forall x, is_max_of (fold_left Rmax xs x) (x :: xs).
Proof.
  induction xs as [|y ys IH]; intros x; simpl.
  - split; [left|]. intros z Hz. apply list_elem_of_singleton in Hz. lra.
  - destruct (IH (Rmax x y)) as [Hin Hle]. split.
    + apply elem_of_cons in Hin as [Hin|Hin]; [|now do 2 right].
      rewrite Hin. unfold Rmax. destruct (Rle_dec x y); [right; left|left].
    + intros z Hz.
      assert (Hxy : x <= Rmax x y /\ y <= Rmax x y) by (split; [apply Rmax_l|apply Rmax_r]).
      pose proof (Hle (Rmax x y) ltac:(left)) as Hm.
      apply elem_of_cons in Hz as [->|Hz]; [lra|].
      apply elem_of_cons in Hz as [->|Hz]; [lra|].
      apply Hle. now right.
Qed.

Lemma py_max_spec (xs : list R) :
  xs <> [] -> exists v, py_max xs = Ok v /\ is_max_of v xs.
Proof.
  destruct xs as [|x xs]; [congruence|]. intros _.
  exists (fold_left Rmax xs x). split; [reflexivity|apply fold_Rmax_spec].
Qed.

Lemma sum_R_fold (xs : list R) (a : R) : fold_left Rplus xs a = a + sum_R xs.
Proof.
  revert a; induction xs as [|x xs IH]; intros a; simpl; [lra|].
  rewrite IH. lra.
Qed.

Lemma np_sum_sum_R (xs : list R) : np_sum xs = sum_R xs.
Proof. unfold np_sum. rewrite sum_R_fold. lra. Qed.

Section SplineProperties.

Context {Spline : Type}.
Variable UnivariateSpline : list R -> list R -> nat -> result Spline.
Variable spline_eval : Spline -> R -> R.
Variable spline_derivative : Spline -> Spline.

(** Actual value minus spline prediction, step by step, in direction [d]. *)
Definition deviations (sp : Spline) (d : axis) (tot : list vec3) : list R :=
  imap (fun i row => comp row d - spline_eval sp (INR i)) tot.

Lemma spline_call_range_lookup (sp : Spline) (L i : nat) :
  spline_call spline_eval sp (range L) !! i
  = if decide (i < L)%nat then Some (spline_eval sp (INR i)) else None.
Proof.
  unfold spline_call, range.
  change (map ?f ?l) with (f <$> l). rewrite !list_lookup_fmap.
  destruct (decide (i < L)%nat) as [H|H].
  - rewrite lookup_seq_lt by assumption. reflexivity.
  - rewrite lookup_seq_ge by lia. reflexivity.
Qed.

Lemma deviations_zip (sp : Spline) (d : axis) (tot : list vec3) :
  zip_with Rminus (column d tot)
    (spline_call spline_eval sp (range (length (column d tot))))
  = deviations sp d tot.
Proof.
  apply list_eq. intros i.
  unfold deviations. rewrite lookup_zip_with, list_lookup_imap, spline_call_range_lookup.
  unfold column. change (map ?f ?l) with (f <$> l).
  rewrite length_fmap, list_lookup_fmap.
  destruct (tot !! i) as [row|] eqn:Hrow; simpl; [|reflexivity].
  apply lookup_lt_Some in Hrow.
  destruct (decide (i < length tot)%nat); [reflexivity|lia].
Qed.

(** The fit of one direction, as [same_branch_splines] keeps it. *)
Definition fitted (tot : list vec3) (d : axis) : option Spline :=
  match UnivariateSpline (range (length tot)) (column d tot) 3 with
  | Ok sp => Some sp
  | Raise _ => None
  end.

Lemma fit_column_fitted (tot : list vec3) (d : axis) :
  fit_column UnivariateSpline (length tot) tot d = Ok (fitted tot d).
Proof.
  unfold fit_column, fitted.
  destruct (UnivariateSpline _ _ _); reflexivity.
Qed.

(** The entry of [max_spline_jumps] for one direction: absent exactly when
    the fit of that direction failed, else the largest deviation. *)
Definition jump_entry_ok (tot : list vec3) (d : axis) (j : option R) : Prop :=
  match fitted tot d with
  | None => j = None
  | Some sp => exists v, j = Some v /\ is_max_of v (deviations sp d tot)
  end.

Lemma max_jump_entry_ok (tot : list vec3) (d : axis) :
  tot <> [] ->
  exists j, max_jump_entry spline_eval tot d (fitted tot d) = Ok j /\ jump_entry_ok tot d j.
Proof.
  intros Hne. unfold max_jump_entry, jump_entry_ok.
  destruct (fitted tot d) as [sp|]; [|now exists None].
  rewrite deviations_zip.
  destruct (py_max_spec (deviations sp d tot)) as [v [Hv Hmax]].
  { unfold deviations. destruct tot; [congruence|discriminate]. }
  rewrite Hv. simpl. exists (Some v). split; [reflexivity|]. now exists v.
Qed.

(** C7.  On a track (of at least one step) [same_branch_splines] returns, in
    each direction, the spline fitted to that direction's column of the
    converted same-branch data, or [None] when that fit, and only that fit,
    raised; [max_spline_jumps] returns three entries, each [None] exactly when
    the fit of its own direction failed and otherwise the maximum over all
    steps of the actual value minus the spline's prediction.  No entry
    depends on the outcome of another direction's fit. *)
Theorem spline_failures_independent (self : Polarization) :
  well_formed self -> p_elecs self <> [] ->
  exists tot,
    get_same_branch_polarization_data self true = Ok tot
    /\ same_branch_splines UnivariateSpline self
       = Ok (fitted tot Xa, fitted tot Xb, fitted tot Xc)
    /\ exists ja jb jc,
         max_spline_jumps UnivariateSpline spline_eval self = Ok [ja; jb; jc]
         /\ jump_entry_ok tot Xa ja /\ jump_entry_ok tot Xb jb /\ jump_entry_ok tot Xc jc.
Proof.
  intros WF Hne.
  destruct (same_branch_total self true WF Hne) as [row [rest [Htot _]]].
  exists (row :: rest). split; [exact Htot|].
  assert (Hsp : same_branch_splines UnivariateSpline self
                = Ok (fitted (row :: rest) Xa, fitted (row :: rest) Xb,
                      fitted (row :: rest) Xc)).
  { unfold same_branch_splines. rewrite Htot, bind_Ok. cbv beta zeta.
    rewrite !fit_column_fitted. reflexivity. }
  split; [exact Hsp|].
  destruct (max_jump_entry_ok (row :: rest) Xa) as [ja [Ha Ja]]; [discriminate|].
  destruct (max_jump_entry_ok (row :: rest) Xb) as [jb [Hb Jb]]; [discriminate|].
  destruct (max_jump_entry_ok (row :: rest) Xc) as [jc [Hc Jc]]; [discriminate|].
  exists ja, jb, jc. split; [|auto].
  unfold max_spline_jumps. rewrite Htot, Hsp, !bind_Ok.
  rewrite Ha, Hb, Hc. reflexivity.
Qed.

(** C8.  [EnergyTrend.smoothness] never raises.  When the spline cannot be
    built it returns [None] after printing a message; when the spline is
    built it prints nothing and returns the root of the mean squared
    difference between the spline and the energies, which is non-negative. *)
Theorem energy_smoothness_soft_failure (self : EnergyTrend) :
  match spline UnivariateSpline self with
  | Raise _ =>
      smoothness UnivariateSpline spline_eval self
      = (Ok None, ["Energy spline failed."%string])
  | Ok sp =>
      exists rms,
        smoothness UnivariateSpline spline_eval self = (Ok (Some rms), [])
        /\ rms = sqrt (sum_R (imap (fun i e => (spline_eval sp (INR i) - e)
                                             * (spline_eval sp (INR i) - e))
                                   (energies self))
                       / INR (length (energies self)))
        /\ 0 <= rms
  end.
Proof.
  unfold smoothness.
  destruct (spline UnivariateSpline self) as [sp|e]; [|reflexivity].
  eexists. split; [reflexivity|]. split; [|apply sqrt_pos].
  rewrite np_sum_sum_R. do 3 f_equal.
  apply list_eq. intros i. unfold np_square.
  change (map ?f ?l) with (f <$> l).
  rewrite list_lookup_fmap, lookup_zip_with, list_lookup_imap, spline_call_range_lookup.
  destruct (energies self !! i) as [e|] eqn:He; simpl.
  - apply lookup_lt_Some in He.
    destruct (decide (i < length (energies self))%nat); [reflexivity|lia].
  - destruct (decide _); reflexivity.
Qed.

(** C10.  [EnergyTrend.__init__] accepts every sequence of energies (the
    empty one and a single value included) and stores it unchanged.  An
    input the spline primitive cannot fit shows only when a method is called:
    [spline] and [max_spline_jump] raise the primitive's exception,
    [smoothness] and [endpoints_minima] print a message and return [None]. *)
Theorem energy_trend_init_total (es : list R) :
  EnergyTrend_init es = Ok (mkEnergyTrend es)
  /\ energies (mkEnergyTrend es) = es
  /\ forall e,
       UnivariateSpline (range (length es)) es 4 = Raise e ->
       spline UnivariateSpline (mkEnergyTrend es) = Raise e
       /\ max_spline_jump UnivariateSpline spline_eval (mkEnergyTrend es) = Raise e
       /\ smoothness UnivariateSpline spline_eval (mkEnergyTrend es)
          = (Ok None, ["Energy spline failed."%string])
       /\ forall slope_cutoff,
            endpoints_minima UnivariateSpline spline_eval spline_derivative
              (mkEnergyTrend es) slope_cutoff
            = (Ok None, ["Energy spline failed."%string]).
Proof.
  split; [reflexivity|]. split; [reflexivity|].
  intros e He.
  unfold max_spline_jump, smoothness, endpoints_minima, spline. simpl.
  rewrite He. auto.
Qed.

End SplineProperties.

(* ===================================================================== *)
(** ** A stand-in for the spline primitive *)

(** A primitive that refuses fewer than [k + 1] points, as the smoothing
    spline of degree [k] does, and otherwise returns the zero function. *)
Definition toy_fit (xs ys : list R) (k : nat) : result unit :=
  if (length xs <=? k)%nat then Raise FitError else Ok tt.

Definition toy_eval (sp : unit) (x : R) : R := 0.

Definition toy_derivative (sp : unit) : unit := sp.

(** The empty sequence of energies is stored, and fails only in the methods. *)
Lemma energy_trend_init_total_witness :
  EnergyTrend_init [] = Ok (mkEnergyTrend [])
  /\ spline toy_fit (mkEnergyTrend []) = Raise FitError
  /\ max_spline_jump toy_fit toy_eval (mkEnergyTrend []) = Raise FitError
  /\ smoothness toy_fit toy_eval (mkEnergyTrend []) = (Ok None, ["Energy spline failed."%string])
  /\ forall slope_cutoff,
       endpoints_minima toy_fit toy_eval toy_derivative (mkEnergyTrend []) slope_cutoff
       = (Ok None, ["Energy spline failed."%string]).
Proof.
  destruct (energy_trend_init_total toy_fit toy_eval toy_derivative []) as [H1 [_ H2]].
  split; [exact H1|]. apply (H2 FitError). reflexivity.
Defined.

(* ===================================================================== *)
(** ** Reasoning about computations on the store *)

(** [m], run from [σ], ends with an outcome and a state that satisfy [Φ]. *)
Definition wp {A : Type} (m : Py A) (σ : state) (Φ : result A -> state -> Prop) : Prop :=
  Φ (fst (m σ)) (snd (m σ)).

Lemma wp_ret {A : Type} (a : A) (σ : state) (Φ : result A -> state -> Prop) :
  Φ (Ok a) σ -> wp (mret a) σ Φ.
Proof. intros H. exact H. Qed.

Lemma wp_lift {A : Type} (r : result A) (σ : state) (Φ : result A -> state -> Prop) :
  Φ r σ -> wp (lift r) σ Φ.
Proof. intros H. exact H. Qed.

Lemma wp_bind {A B : Type} (m : Py A) (k : A -> Py B) (σ : state)
    (Φ : result B -> state -> Prop) :
  wp m σ (fun r σ' => match r with Ok a => wp (k a) σ' Φ | Raise e => Φ (Raise e) σ' end) ->
  wp (m ≫= k) σ Φ.
Proof.
  unfold wp, mbind, Py_bind. destruct (m σ) as [[a|e] σ']; simpl; auto.
Qed.

Lemma wp_try {A : Type} (body handler : Py A) (σ : state) (Φ : result A -> state -> Prop) :
  wp body σ (fun r σ' => match r with Ok a => Φ (Ok a) σ' | Raise _ => wp handler σ' Φ end) ->
  wp (st_try_except body handler) σ Φ.
Proof.
  unfold wp, st_try_except. destruct (body σ) as [[a|e] σ']; simpl; auto.
Qed.

Lemma wp_mono {A : Type} (m : Py A) (σ : state) (Φ Ψ : result A -> state -> Prop) :
  wp m σ Φ -> (forall r σ', Φ r σ' -> Ψ r σ') -> wp m σ Ψ.
Proof. unfold wp. auto. Qed.

Lemma wp_new (o : pyobj) (σ : state) (Φ : result loc -> state -> Prop) :
  (forall l, objects σ !! l = None -> Φ (Ok l) (mkState (<[l := o]> (objects σ)) (stdout σ))) ->
  wp (new o) σ Φ.
Proof.
  intros H. unfold wp, new; simpl. apply H.
  apply not_elem_of_dom. apply is_fresh.
Qed.

Lemma wp_overwrite (l : loc) (o : pyobj) (σ : state) (Φ : result unit -> state -> Prop) :
  Φ (Ok tt) (mkState (<[l := o]> (objects σ)) (stdout σ)) -> wp (overwrite l o) σ Φ.
Proof. intros H. exact H. Qed.

Lemma wp_print (line : string) (σ : state) (Φ : result unit -> state -> Prop) :
  Φ (Ok tt) (mkState (objects σ) (stdout σ ++ [line])) -> wp (print line) σ Φ.
Proof. intros H. exact H. Qed.

Lemma wp_get_matrix (l : loc) (rows : list vec3) (σ : state)
    (Φ : result (list vec3) -> state -> Prop) :
  objects σ !! l = Some (PMatrix rows) -> Φ (Ok rows) σ -> wp (get_matrix l) σ Φ.
Proof. intros Hl H. unfold wp, get_matrix; simpl. now rewrite Hl. Qed.

Lemma wp_get_matrixT (l : loc) (rows : list vec3) (σ : state)
    (Φ : result (list vec3) -> state -> Prop) :
  objects σ !! l = Some (PMatrixT rows) -> Φ (Ok rows) σ -> wp (get_matrixT l) σ Φ.
Proof. intros Hl H. unfold wp, get_matrixT; simpl. now rewrite Hl. Qed.

Lemma wp_get_row (l : loc) (xs : list R) (σ : state) (Φ : result (list R) -> state -> Prop) :
  objects σ !! l = Some (PRow xs) -> Φ (Ok xs) σ -> wp (get_row l) σ Φ.
Proof. intros Hl H. unfold wp, get_row; simpl. now rewrite Hl. Qed.

Lemma wp_get_lattices (l : loc) (ls : list Lattice) (σ : state)
    (Φ : result (list Lattice) -> state -> Prop) :
  objects σ !! l = Some (PLattices ls) -> Φ (Ok ls) σ -> wp (get_lattices l) σ Φ.
Proof. intros Hl H. unfold wp, get_lattices; simpl. now rewrite Hl. Qed.

Lemma wp_get_structures (l : loc) (ss : list Structure) (σ : state)
    (Φ : result (list Structure) -> state -> Prop) :
  objects σ !! l = Some (PStructures ss) -> Φ (Ok ss) σ -> wp (get_structures l) σ Φ.
Proof. intros Hl H. unfold wp, get_structures; simpl. now rewrite Hl. Qed.

Lemma wp_get_floats (l : loc) (es : list R) (σ : state) (Φ : result (list R) -> state -> Prop) :
  objects σ !! l = Some (PFloats es) -> Φ (Ok es) σ -> wp (get_floats l) σ Φ.
Proof. intros Hl H. unfold wp, get_floats; simpl. now rewrite Hl. Qed.

(** [σ'] holds every object of [σ], unchanged, and has printed the lines
    [out] since. *)
Definition extends (σ σ' : state) (out : list string) : Prop :=
  objects σ ⊆ objects σ' /\ stdout σ' = stdout σ ++ out.

Lemma extends_refl (σ : state) : extends σ σ [].
Proof. split; [reflexivity|now rewrite app_nil_r]. Qed.

Lemma extends_trans (σ1 σ2 σ3 : state) (o1 o2 : list string) :
  extends σ1 σ2 o1 -> extends σ2 σ3 o2 -> extends σ1 σ3 (o1 ++ o2).
Proof.
  intros [H1 E1] [H2 E2]. split; [now transitivity (objects σ2)|].
  now rewrite E2, E1, app_assoc.
Qed.

Lemma extends_new (σ : state) (l : loc) (o : pyobj) :
  objects σ !! l = None -> extends σ (mkState (<[l := o]> (objects σ)) (stdout σ)) [].
Proof.
  intros Hl. split; simpl; [now apply insert_subseteq|now rewrite app_nil_r].
Qed.

Lemma extends_lookup (σ σ' : state) (out : list string) (l : loc) (o : pyobj) :
  extends σ σ' out -> objects σ !! l = Some o -> objects σ' !! l = Some o.
Proof. intros [H _] Hl. eapply lookup_weaken; eassumption. Qed.

(** [units] is a new row of unit factors. *)
Lemma wp_st_units (volumes : list R) (σ : state) (Φ : result loc -> state -> Prop) :
  (forall l, objects σ !! l = None ->
     Φ (Ok l) (mkState (<[l := PRow (unit_factors volumes)]> (objects σ)) (stdout σ))) ->
  wp (st_units volumes) σ Φ.
Proof.
  intros H. unfold st_units.
  apply wp_bind, wp_new. intros l Hl.
  apply wp_bind. eapply wp_get_row; [simpl; apply lookup_insert_eq|].
  apply wp_bind, wp_overwrite, wp_ret. simpl.
  rewrite insert_insert_eq.
  replace (map (fun x => x * (e_to_muC * cm2_to_A2)) (map (fun v => 1 / v) volumes))
    with (unit_factors volumes) by (unfold unit_factors; now rewrite map_map).
  now apply H.
Qed.

(** Split the freshness of an address over the objects made before it. *)
Ltac fresh_facts :=
  cbn [objects stdout] in *;
  repeat match goal with
         | H : <[_ := _]> _ !! _ = None |- _ => apply lookup_insert_None in H as [H ?]
         end.

(** Look an address up in a store built by successive insertions. *)
Ltac lookup_solve :=
  fresh_facts;
  repeat (rewrite lookup_insert_eq || (rewrite lookup_insert_ne by congruence));
  try eassumption; try reflexivity.

(** The store still holds every object it held before the insertions. *)
Ltac extends_solve :=
  fresh_facts; split; simpl; [repeat (apply insert_subseteq_r; [assumption|]); reflexivity
                |now rewrite ?app_nil_r].

Lemma stored_polarization_inv (self : PolarizationRef) (σ : state) (P : Polarization) :
  stored_polarization self σ = Some P ->
  objects σ !! at_p_elecs self = Some (PMatrix (p_elecs P))
  /\ objects σ !! at_p_ions self = Some (PMatrix (p_ions P))
  /\ objects σ !! at_structures self = Some (PStructures (structures P)).
Proof.
  unfold stored_polarization. intros H.
  destruct (objects σ !! at_p_elecs self) as [[]|]; try discriminate.
  destruct (objects σ !! at_p_ions self) as [[]|]; try discriminate.
  destruct (objects σ !! at_structures self) as [[]|]; try discriminate.
  injection H as <-. auto.
Qed.

Lemma stored_polarization_extends (self : PolarizationRef) (σ σ' : state)
    (out : list string) (P : Polarization) :
  extends σ σ' out -> stored_polarization self σ = Some P ->
  stored_polarization self σ' = Some P.
Proof.
  intros Hext H. destruct (stored_polarization_inv _ _ _ H) as [H1 [H2 H3]].
  unfold stored_polarization.
  rewrite (extends_lookup _ _ _ _ _ Hext H1), (extends_lookup _ _ _ _ _ Hext H2),
    (extends_lookup _ _ _ _ _ Hext H3).
  now destruct P.
Qed.

Lemma wp_get_pelecs_and_pions (self : PolarizationRef) (convert : bool) (σ : state)
    (P : Polarization) (Φ : result (loc * loc) -> state -> Prop) :
  stored_polarization self σ = Some P ->
  (forall σ' le li,
     extends σ σ' [] ->
     objects σ' !! le = Some (PMatrix (fst (get_pelecs_and_pions P convert))) ->
     objects σ' !! li = Some (PMatrix (snd (get_pelecs_and_pions P convert))) ->
     Φ (Ok (le, li)) σ') ->
  wp (st_get_pelecs_and_pions self convert) σ Φ.
Proof.
  intros Hst H. destruct (stored_polarization_inv _ _ _ Hst) as [He [Hi Hs]].
  unfold st_get_pelecs_and_pions. destruct convert; simpl negb; cbv iota.
  - apply wp_bind. eapply wp_get_matrix; [exact He|].
    apply wp_bind, wp_new. intros l1 F1.
    apply wp_bind. eapply wp_get_matrix; [lookup_solve|].
    apply wp_bind, wp_new. intros l2 F2.
    apply wp_bind. eapply wp_get_structures; [lookup_solve|].
    apply wp_bind, wp_st_units. intros l3 F3.
    apply wp_bind. eapply wp_get_row; [lookup_solve|].
    apply wp_bind. eapply wp_get_matrixT; [lookup_solve|].
    apply wp_bind, wp_new. intros l4 F4.
    apply wp_bind. eapply wp_get_matrixT; [lookup_solve|].
    apply wp_bind, wp_new. intros l5 F5.
    apply wp_bind. eapply wp_get_matrixT; [lookup_solve|].
    apply wp_bind, wp_new. intros l6 F6.
    apply wp_bind. eapply wp_get_matrixT; [lookup_solve|].
    apply wp_bind, wp_new. intros l7 F7.
    apply wp_ret. fresh_facts.
    apply H; [extends_solve|lookup_solve|lookup_solve].
  - apply wp_ret. apply H; [apply extends_refl|exact He|exact Hi].
Qed.

Lemma state_insert_id (σ : state) (l : loc) (o : pyobj) :
  objects σ !! l = Some o -> mkState (<[l := o]> (objects σ)) (stdout σ) = σ.
Proof. intros H. rewrite insert_id by assumption. now destruct σ. Qed.

(** The loop on the store overwrites the list [lattices], and nothing else,
    with what the loop on values computes. *)
Lemma wp_rescale_lattices (idx : list nat) (units lattices : loc) (us : list R) :
  units <> lattices ->
  forall (ls : list Lattice) (σ : state) (Φ : result unit -> state -> Prop),
    objects σ !! units = Some (PRow us) ->
    objects σ !! lattices = Some (PLattices ls) ->
    (forall ls',
       (forall ls2, rescale_lattices idx us ls = Ok ls2 -> ls' = ls2) ->
       Φ (match rescale_lattices idx us ls with Ok _ => Ok tt | Raise e => Raise e end)
         (mkState (<[lattices := PLattices ls']> (objects σ)) (stdout σ))) ->
    wp (st_rescale_lattices idx units lattices) σ Φ.
Proof.
  intros Hne. induction idx as [|i rest IH]; intros ls σ Φ Hu Hl H.
  - apply wp_ret. specialize (H ls). simpl in H.
    rewrite (state_insert_id _ _ _ Hl) in H. apply H. now intros ls2 [= <-].
  - simpl st_rescale_lattices.
    apply wp_bind. eapply wp_get_lattices; [exact Hl|].
    apply wp_bind, wp_lift.
    destruct (ls !! i) as [lat|] eqn:Hi.
    + rewrite (py_index_Some _ _ _ Hi).
      apply wp_bind. eapply wp_get_row; [exact Hu|].
      apply wp_bind, wp_lift.
      destruct (us !! i) as [u|] eqn:Hui.
      * rewrite (py_index_Some _ _ _ Hui).
        apply wp_bind, wp_overwrite.
        eapply (IH (<[i := from_lengths_and_angles (vscale_r (abc lat) u) (angles lat)]> ls)).
        { simpl. now rewrite lookup_insert_ne by congruence. }
        { simpl. apply lookup_insert_eq. }
        intros ls' Hls'. simpl. rewrite insert_insert_eq.
        specialize (H ls'). simpl in H.
        rewrite (py_index_Some _ _ _ Hi), (py_index_Some _ _ _ Hui) in H. simpl in H.
        apply H. exact Hls'.
      * rewrite (py_index_None _ _ Hui).
        specialize (H ls). simpl in H.
        rewrite (py_index_Some _ _ _ Hi), (py_index_None _ _ Hui) in H. simpl in H.
        rewrite (state_insert_id _ _ _ Hl) in H. apply H. discriminate.
    + rewrite (py_index_None _ _ Hi).
      specialize (H ls). simpl in H.
      rewrite (py_index_None _ _ Hi) in H. simpl in H.
      rewrite (state_insert_id _ _ _ Hl) in H. apply H. discriminate.
Qed.

Lemma extends_trans_nil (σ1 σ2 σ3 : state) :
  extends σ1 σ2 [] -> extends σ2 σ3 [] -> extends σ1 σ3 [].
Proof. intros H1 H2. exact (extends_trans _ _ _ _ _ H1 H2). Qed.

(** The outcome [r] of a computation on the store agrees with the outcome
    [expected] of the computation on values: the same exception, or a
    reference that [decode]s to the same value. *)
Definition agrees {A B : Type} (expected : result B) (decode : state -> A -> option B)
    (r : result A) (σ : state) : Prop :=
  match expected with
  | Ok b => exists a, r = Ok a /\ decode σ a = Some b
  | Raise e => r = Raise e
  end.

(** The matrix a reference points to. *)
Definition matrix_at (σ : state) (l : loc) : option (list vec3) :=
  match objects σ !! l with
  | Some (PMatrix rows) => Some rows
  | _ => None
  end.

(** A value returned as such. *)
Definition immediate {A : Type} (σ : state) (a : A) : option A := Some a.

Lemma wp_get_same_branch (self : PolarizationRef) (convert : bool) (σ : state)
    (P : Polarization) (Φ : result loc -> state -> Prop) :
  stored_polarization self σ = Some P ->
  (forall r σ',
     extends σ σ' [] ->
     agrees (get_same_branch_polarization_data P convert) matrix_at r σ' ->
     Φ r σ') ->
  wp (st_get_same_branch_polarization_data self convert) σ Φ.
Proof.
  intros Hst H. destruct (stored_polarization_inv _ _ _ Hst) as [_ [_ Hs]].
  rewrite same_branch_unfold in H. cbv zeta in H.
  unfold st_get_same_branch_polarization_data.
  apply wp_bind. eapply wp_get_pelecs_and_pions; [exact Hst|].
  intros σ1 le li Hext Hle Hli. simpl in Hle, Hli.
  pose proof (extends_lookup _ _ _ _ _ Hext Hs) as Hs1.
  apply wp_bind. eapply wp_get_matrix; [exact Hle|].
  apply wp_bind. eapply wp_get_matrix; [exact Hli|].
  apply wp_bind, wp_new. intros l1 F1.
  apply wp_bind. eapply wp_get_matrix; [lookup_solve|].
  apply wp_bind, wp_new. intros l2 F2.
  apply wp_bind. eapply wp_get_structures; [lookup_solve|].
  apply wp_bind, wp_new. intros l3 F3.
  cbv zeta.
  set (pt := zip_with vadd (p_elecs P) (p_ions P)) in *.
  set (L := matrix_len (p_elecs P)) in *.
  destruct convert.
  - apply wp_bind. apply wp_bind, wp_st_units. intros l4 F4.
    apply wp_bind. eapply wp_get_row; [lookup_solve|].
    apply wp_bind. eapply wp_get_matrix; [lookup_solve|].
    apply wp_bind, wp_new. intros l5 F5.
    apply wp_bind.
    eapply (wp_rescale_lattices (seq 0 L) l4 l3);
      [fresh_facts; congruence|lookup_solve|lookup_solve|].
    intros ls' Hls'.
    destruct (rescale_lattices (seq 0 L) (unit_factors (volumes_of (structures P)))
                (map lattice (structures P))) as [ls2|e] eqn:Hres.
    + rewrite (Hls' ls2 eq_refl). clear Hls'.
      apply wp_ret.
      apply wp_bind. eapply wp_get_lattices; [lookup_solve|].
      apply wp_bind. eapply wp_get_matrix; [lookup_solve|].
      apply wp_bind, wp_lift. rewrite bind_Ok in H.
      destruct (branch_loop (seq 0 L) ls2 _ [] []) as [acc|e].
      * apply wp_new. intros l6 F6.
        apply H; [eapply extends_trans_nil; [exact Hext|extends_solve]|].
        exists l6. split; [reflexivity|]. unfold matrix_at. now lookup_solve.
      * apply H; [eapply extends_trans_nil; [exact Hext|extends_solve]|reflexivity].
    + apply H; [eapply extends_trans_nil; [exact Hext|extends_solve]|reflexivity].
  - apply wp_bind, wp_ret.
    apply wp_bind. eapply wp_get_lattices; [lookup_solve|].
    apply wp_bind. eapply wp_get_matrix; [lookup_solve|].
    apply wp_bind, wp_lift.
    destruct (branch_loop (seq 0 L) (map lattice (structures P)) pt [] []) as [acc|e].
    + apply wp_new. intros l6 F6.
      apply H; [eapply extends_trans_nil; [exact Hext|extends_solve]|].
      exists l6. split; [reflexivity|]. unfold matrix_at. now lookup_solve.
    + apply H; [eapply extends_trans_nil; [exact Hext|extends_solve]|reflexivity].
Qed.

Lemma matrix_at_lookup (σ : state) (l : loc) (rows : list vec3) :
  matrix_at σ l = Some rows -> objects σ !! l = Some (PMatrix rows).
Proof.
  unfold matrix_at. destruct (objects σ !! l) as [[]|]; try discriminate.
  now intros [= ->].
Qed.

Lemma agrees_immediate {A : Type} (r : result A) (σ : state) : agrees r immediate r σ.
Proof. destruct r as [a|e]; simpl; [now exists a|reflexivity]. Qed.

Lemma wp_get_lattice_quanta (self : PolarizationRef) (convert : bool) (σ : state)
    (P : Polarization) (Φ : result loc -> state -> Prop) :
  stored_polarization self σ = Some P ->
  (forall r σ',
     extends σ σ' [] -> agrees (get_lattice_quanta P convert) matrix_at r σ' -> Φ r σ') ->
  wp (st_get_lattice_quanta self convert) σ Φ.
Proof.
  intros Hst H. destruct (stored_polarization_inv _ _ _ Hst) as [_ [_ Hs]].
  unfold get_lattice_quanta in H.
  unfold st_get_lattice_quanta.
  apply wp_bind. eapply wp_get_structures; [exact Hs|].
  apply wp_bind, wp_new. intros l1 F1. cbv zeta.
  destruct convert.
  - apply wp_bind. apply wp_bind, wp_st_units. intros l2 F2.
    eapply (wp_rescale_lattices (seq 0 (length (structures P))) l2 l1);
      [fresh_facts; congruence|lookup_solve|lookup_solve|].
    intros ls' Hls'.
    destruct (rescale_lattices (seq 0 (length (structures P)))
                (unit_factors (volumes_of (structures P)))
                (map lattice (structures P))) as [ls2|e] eqn:Hres.
    + rewrite (Hls' ls2 eq_refl). clear Hls'.
      apply wp_bind. eapply wp_get_lattices; [lookup_solve|].
      apply wp_new. intros l3 F3.
      apply H; [extends_solve|].
      rewrite bind_Ok. exists l3. split; [reflexivity|]. unfold matrix_at. now lookup_solve.
    + apply H; [extends_solve|reflexivity].
  - apply wp_bind, wp_ret.
    apply wp_bind. eapply wp_get_lattices; [lookup_solve|].
    apply wp_new. intros l3 F3.
    apply H; [extends_solve|].
    rewrite bind_Ok. exists l3. split; [reflexivity|]. unfold matrix_at. now lookup_solve.
Qed.

Lemma wp_get_polarization_change (self : PolarizationRef) (σ : state) (P : Polarization)
    (Φ : result vec3 -> state -> Prop) :
  stored_polarization self σ = Some P ->
  (forall r σ',
     extends σ σ' [] -> agrees (get_polarization_change P) immediate r σ' -> Φ r σ') ->
  wp (st_get_polarization_change self) σ Φ.
Proof.
  intros Hst H. unfold get_polarization_change in H.
  unfold st_get_polarization_change.
  apply wp_bind. eapply wp_get_same_branch; [exact Hst|].
  intros r σ1 Hext Hag.
  destruct (get_same_branch_polarization_data P true) as [tot|e]; simpl in Hag.
  - destruct Hag as [t [-> Ht]]. apply matrix_at_lookup in Ht.
    apply wp_bind. eapply wp_get_matrix; [exact Ht|].
    apply wp_lift. apply H; [exact Hext|]. rewrite bind_Ok. apply agrees_immediate.
  - subst r. apply H; [exact Hext|reflexivity].
Qed.

Lemma wp_get_polarization_change_norm (self : PolarizationRef) (σ : state)
    (P : Polarization) (Φ : result R -> state -> Prop) :
  stored_polarization self σ = Some P ->
  (forall r σ',
     extends σ σ' [] -> agrees (get_polarization_change_norm P) immediate r σ' -> Φ r σ') ->
  wp (st_get_polarization_change_norm self) σ Φ.
Proof.
  intros Hst H. destruct (stored_polarization_inv _ _ _ Hst) as [_ [_ Hs]].
  unfold get_polarization_change_norm in H.
  unfold st_get_polarization_change_norm.
  apply wp_bind. eapply wp_get_structures; [exact Hs|].
  apply wp_bind, wp_lift.
  destruct (py_last (structures P)) as [polar|e].
  - rewrite bind_Ok in H. cbv beta iota zeta in H |- *.
    apply wp_bind. eapply wp_get_polarization_change; [exact Hst|].
    intros r σ1 Hext Hag.
    destruct (get_polarization_change P) as [v|e]; simpl in Hag.
    + destruct Hag as [a [-> [= ->]]].
      apply wp_ret. apply H; [exact Hext|]. rewrite bind_Ok. apply agrees_immediate.
    + subst r. apply H; [exact Hext|reflexivity].
  - apply H; [apply extends_refl|reflexivity].
Qed.

Lemma extends_print (σ σ2 : state) (line : string) :
  extends σ σ2 [] -> extends σ (mkState (objects σ2) (stdout σ2 ++ [line])) [line].
Proof. intros [H1 H2]. split; simpl; [exact H1|]. now rewrite H2, app_nil_r. Qed.

Lemma stored_energies_inv (self : EnergyTrendRef) (σ : state) (E : EnergyTrend) :
  stored_energies self σ = Some E ->
  objects σ !! at_energies self = Some (PFloats (energies E)).
Proof.
  unfold stored_energies. destruct (objects σ !! at_energies self) as [[]|]; try discriminate.
  now intros [= <-].
Qed.

Lemma stored_energies_extends (self : EnergyTrendRef) (σ σ' : state) (out : list string)
    (E : EnergyTrend) :
  extends σ σ' out -> stored_energies self σ = Some E -> stored_energies self σ' = Some E.
Proof.
  intros Hext H. pose proof (stored_energies_inv _ _ _ H) as H1.
  unfold stored_energies. rewrite (extends_lookup _ _ _ _ _ Hext H1). now destruct E.
Qed.

Section StoreSplineProperties.

Context {Spline : Type}.
Variable UnivariateSpline : list R -> list R -> nat -> result Spline.
Variable spline_eval : Spline -> R -> R.
Variable spline_derivative : Spline -> Spline.

Lemma wp_same_branch_splines (self : PolarizationRef) (σ : state) (P : Polarization)
    (Φ : result (option Spline * option Spline * option Spline) -> state -> Prop) :
  stored_polarization self σ = Some P ->
  (forall r σ',
     extends σ σ' [] ->
     agrees (same_branch_splines UnivariateSpline P) immediate r σ' -> Φ r σ') ->
  wp (st_same_branch_splines UnivariateSpline self) σ Φ.
Proof.
  intros Hst H. unfold same_branch_splines in H.
  unfold st_same_branch_splines.
  apply wp_bind. eapply wp_get_same_branch; [exact Hst|].
  intros r σ1 Hext Hag.
  destruct (get_same_branch_polarization_data P true) as [tot|e]; simpl in Hag.
  - destruct Hag as [t [-> Ht]]. apply matrix_at_lookup in Ht.
    apply wp_bind. eapply wp_get_matrix; [exact Ht|].
    rewrite bind_Ok in H. cbv zeta in H |- *.
    rewrite !fit_column_fitted in H |- *.
    apply wp_bind, wp_lift, wp_bind, wp_lift, wp_bind, wp_lift, wp_ret.
    apply H; [exact Hext|]. rewrite !bind_Ok. apply agrees_immediate.
  - subst r. apply H; [exact Hext|reflexivity].
Qed.

Lemma wp_max_spline_jumps (self : PolarizationRef) (σ : state) (P : Polarization)
    (Φ : result (list (option R)) -> state -> Prop) :
  stored_polarization self σ = Some P ->
  (forall r σ',
     extends σ σ' [] ->
     agrees (max_spline_jumps UnivariateSpline spline_eval P) immediate r σ' -> Φ r σ') ->
  wp (st_max_spline_jumps UnivariateSpline spline_eval self) σ Φ.
Proof.
  intros Hst H. unfold max_spline_jumps in H.
  unfold st_max_spline_jumps.
  apply wp_bind. eapply wp_get_same_branch; [exact Hst|].
  intros r σ1 Hext Hag.
  destruct (get_same_branch_polarization_data P true) as [tot|e]; simpl in Hag.
  - destruct Hag as [t [-> Ht]]. apply matrix_at_lookup in Ht.
    apply wp_bind. eapply wp_get_matrix; [exact Ht|].
    rewrite bind_Ok in H.
    apply wp_bind. eapply wp_same_branch_splines;
      [exact (stored_polarization_extends _ _ _ _ _ Hext Hst)|].
    intros r2 σ2 Hext2 Hag2.
    pose proof (extends_trans_nil _ _ _ Hext Hext2) as Hext'.
    destruct (same_branch_splines UnivariateSpline P) as [[[sp_a sp_b] sp_c]|e];
      simpl in Hag2.
    + destruct Hag2 as [a [-> [= ->]]]. rewrite bind_Ok in H.
      apply wp_bind, wp_lift.
      destruct (max_jump_entry spline_eval tot Xa sp_a) as [ja|e];
        [rewrite bind_Ok in H|apply H; [exact Hext'|reflexivity]].
      apply wp_bind, wp_lift.
      destruct (max_jump_entry spline_eval tot Xb sp_b) as [jb|e];
        [rewrite bind_Ok in H|apply H; [exact Hext'|reflexivity]].
      apply wp_bind, wp_lift.
      destruct (max_jump_entry spline_eval tot Xc sp_c) as [jc|e];
        [rewrite bind_Ok in H|apply H; [exact Hext'|reflexivity]].
      apply wp_ret. apply H; [exact Hext'|apply agrees_immediate].
    + subst r2. apply H; [exact Hext'|reflexivity].
  - subst r. apply H; [exact Hext|reflexivity].
Qed.

Lemma wp_Polarization_smoothness (self : PolarizationRef) (σ : state) (P : Polarization)
    (Φ : result (option (list R)) -> state -> Prop) :
  stored_polarization self σ = Some P ->
  (forall r σ',
     extends σ σ' (snd (Polarization_smoothness UnivariateSpline spline_eval P)) ->
     agrees (fst (Polarization_smoothness UnivariateSpline spline_eval P)) immediate r σ' ->
     Φ r σ') ->
  wp (st_Polarization_smoothness UnivariateSpline spline_eval self) σ Φ.
Proof.
  intros Hst H. unfold Polarization_smoothness in H.
  unfold st_Polarization_smoothness.
  apply wp_bind. eapply wp_get_same_branch; [exact Hst|].
  intros r σ1 Hext Hag.
  destruct (get_same_branch_polarization_data P true) as [tot|e]; simpl in Hag.
  - destruct Hag as [t [-> Ht]]. apply matrix_at_lookup in Ht.
    apply wp_bind. eapply wp_get_matrix; [exact Ht|].
    cbv zeta. apply wp_bind, wp_try, wp_bind.
    eapply wp_same_branch_splines;
      [exact (stored_polarization_extends _ _ _ _ _ Hext Hst)|].
    intros r2 σ2 Hext2 Hag2.
    pose proof (extends_trans_nil _ _ _ Hext Hext2) as Hext'.
    destruct (same_branch_splines UnivariateSpline P) as [[[sp_a sp_b] sp_c]|e];
      simpl in Hag2.
    + destruct Hag2 as [a [-> [= ->]]]. apply wp_ret.
      simpl fst in H. simpl snd in H.
      apply wp_bind, wp_lift.
      destruct (call_optional spline_eval sp_a (range (length tot))) as [la|e];
        [rewrite bind_Ok in H|apply H; [exact Hext'|reflexivity]].
      apply wp_bind, wp_lift.
      destruct (call_optional spline_eval sp_b (range (length tot))) as [lb|e];
        [rewrite bind_Ok in H|apply H; [exact Hext'|reflexivity]].
      apply wp_bind, wp_lift.
      destruct (call_optional spline_eval sp_c (range (length tot))) as [lc|e];
        [rewrite bind_Ok in H|apply H; [exact Hext'|reflexivity]].
      apply wp_ret. apply H; [exact Hext'|apply agrees_immediate].
    + subst r2. apply wp_bind, wp_print, wp_ret, wp_ret.
      apply H; [now apply extends_print|apply agrees_immediate].
  - subst r. apply H; [exact Hext|reflexivity].
Qed.

Lemma wp_spline (self : EnergyTrendRef) (σ : state) (E : EnergyTrend)
    (Φ : result Spline -> state -> Prop) :
  stored_energies self σ = Some E ->
  Φ (spline UnivariateSpline E) σ ->
  wp (st_spline UnivariateSpline self) σ Φ.
Proof.
  intros Hst H. unfold st_spline.
  apply wp_bind. eapply wp_get_floats; [exact (stored_energies_inv _ _ _ Hst)|].
  apply wp_lift. exact H.
Qed.

Lemma wp_smoothness (self : EnergyTrendRef) (σ : state) (E : EnergyTrend)
    (Φ : result (option R) -> state -> Prop) :
  stored_energies self σ = Some E ->
  (forall r σ',
     extends σ σ' (snd (smoothness UnivariateSpline spline_eval E)) ->
     agrees (fst (smoothness UnivariateSpline spline_eval E)) immediate r σ' -> Φ r σ') ->
  wp (st_smoothness UnivariateSpline spline_eval self) σ Φ.
Proof.
  intros Hst H. unfold smoothness in H. unfold st_smoothness.
  apply wp_bind. eapply wp_get_floats; [exact (stored_energies_inv _ _ _ Hst)|].
  apply wp_bind, wp_try, wp_bind. eapply wp_spline; [exact Hst|].
  destruct (spline UnivariateSpline E) as [sp|e].
  - apply wp_ret, wp_ret. apply H; [apply extends_refl|apply agrees_immediate].
  - apply wp_bind, wp_print, wp_ret, wp_ret.
    apply H; [apply extends_print, extends_refl|apply agrees_immediate].
Qed.

Lemma wp_max_spline_jump (self : EnergyTrendRef) (σ : state) (E : EnergyTrend)
    (Φ : result R -> state -> Prop) :
  stored_energies self σ = Some E ->
  (forall r σ',
     extends σ σ' [] ->
     agrees (max_spline_jump UnivariateSpline spline_eval E) immediate r σ' -> Φ r σ') ->
  wp (st_max_spline_jump UnivariateSpline spline_eval self) σ Φ.
Proof.
  intros Hst H. unfold max_spline_jump in H. unfold st_max_spline_jump.
  apply wp_bind. eapply wp_spline; [exact Hst|].
  destruct (spline UnivariateSpline E) as [sp|e].
  - apply wp_bind. eapply wp_get_floats; [exact (stored_energies_inv _ _ _ Hst)|].
    apply wp_lift. apply H; [apply extends_refl|]. rewrite bind_Ok. apply agrees_immediate.
  - apply H; [apply extends_refl|reflexivity].
Qed.

Lemma wp_endpoints_minima (self : EnergyTrendRef) (slope_cutoff : R) (σ : state)
    (E : EnergyTrend) (Φ : result (option Minima) -> state -> Prop) :
  stored_energies self σ = Some E ->
  (forall r σ',
     extends σ σ'
       (snd (endpoints_minima UnivariateSpline spline_eval spline_derivative E slope_cutoff)) ->
     agrees
       (fst (endpoints_minima UnivariateSpline spline_eval spline_derivative E slope_cutoff))
       immediate r σ' ->
     Φ r σ') ->
  wp (st_endpoints_minima UnivariateSpline spline_eval spline_derivative self slope_cutoff) σ Φ.
Proof.
  intros Hst H. unfold endpoints_minima in H. unfold st_endpoints_minima.
  apply wp_bind. eapply wp_get_floats; [exact (stored_energies_inv _ _ _ Hst)|].
  apply wp_bind, wp_try, wp_bind. eapply wp_spline; [exact Hst|].
  destruct (spline UnivariateSpline E) as [sp|e].
  - apply wp_ret. cbv zeta in H |- *. simpl fst in H. simpl snd in H.
    apply wp_bind, wp_lift.
    destruct (py_last _) as [e_last|e];
      [rewrite bind_Ok in H|apply H; [apply extends_refl|reflexivity]].
    apply wp_bind, wp_lift.
    destruct (py_index _ 0) as [e_first|e];
      [rewrite bind_Ok in H|apply H; [apply extends_refl|reflexivity]].
    apply wp_ret. apply H; [apply extends_refl|apply agrees_immediate].
  - apply wp_bind, wp_print, wp_ret, wp_ret.
    apply H; [apply extends_print, extends_refl|apply agrees_immediate].
Qed.

End StoreSplineProperties.

(* ===================================================================== *)
(** ** The methods leave the instance as it was *)

(** The two matrices a pair of references points to. *)
Definition matrices_at (σ : state) (ls : loc * loc) : option (list vec3 * list vec3) :=
  pe ← matrix_at σ (fst ls); pi ← matrix_at σ (snd ls); Some (pe, pi).

(** The method [m] only observes the stored state [s] of its instance: run
    from any store in which the instance has state [s], it leaves every object
    of that store as it was (so the instance still has state [s]), prints the
    lines the function [f] of [s] says, and its outcome is the one [f] gives
    for [s]. *)
Definition observes {S A B : Type} (stored : state -> option S) (m : Py A)
    (decode : state -> A -> option B) (f : S -> printing (result B)) : Prop :=
  forall σ s,
    stored σ = Some s ->
    exists r σ',
      m σ = (r, σ')
      /\ objects σ ⊆ objects σ'
      /\ stored σ' = Some s
      /\ stdout σ' = stdout σ ++ snd (f s)
      /\ agrees (fst (f s)) decode r σ'.

(** The outcomes of two calls are the same: the same exception, or references
    to equal values. *)
Definition same_outcome {A B : Type} (decode : state -> A -> option B)
    (r1 : result A) (σ1 : state) (r2 : result A) (σ2 : state) : Prop :=
  match r1, r2 with
  | Ok a1, Ok a2 => exists b, decode σ1 a1 = Some b /\ decode σ2 a2 = Some b
  | Raise e1, Raise e2 => e1 = e2
  | _, _ => False
  end.

(** Calling [m] twice in a row gives the same outcome twice. *)
Definition repeatable {S A B : Type} (stored : state -> option S) (m : Py A)
    (decode : state -> A -> option B) : Prop :=
  forall σ s,
    stored σ = Some s ->
    exists r1 σ1 r2 σ2,
      m σ = (r1, σ1) /\ m σ1 = (r2, σ2) /\ same_outcome decode r1 σ1 r2 σ2.

Definition read_only {S A B : Type} (stored : state -> option S) (m : Py A)
    (decode : state -> A -> option B) (f : S -> printing (result B)) : Prop :=
  observes stored m decode f /\ repeatable stored m decode.

Lemma observes_repeatable {S A B : Type} (stored : state -> option S) (m : Py A)
    (decode : state -> A -> option B) (f : S -> printing (result B)) :
  observes stored m decode f -> repeatable stored m decode.
Proof.
  intros Hobs σ s Hst.
  destruct (Hobs σ s Hst) as [r1 [σ1 [E1 [_ [Hst1 [_ A1]]]]]].
  destruct (Hobs σ1 s Hst1) as [r2 [σ2 [E2 [_ [_ [_ A2]]]]]].
  exists r1, σ1, r2, σ2. split; [exact E1|]. split; [exact E2|].
  unfold agrees in A1, A2. unfold same_outcome.
  destruct (fst (f s)) as [b|e].
  - destruct A1 as [a1 [-> D1]], A2 as [a2 [-> D2]]. now exists b.
  - now subst.
Qed.

Lemma read_only_intro {S A B : Type} (stored : state -> option S) (m : Py A)
    (decode : state -> A -> option B) (f : S -> printing (result B)) :
  (forall σ σ' out s, extends σ σ' out -> stored σ = Some s -> stored σ' = Some s) ->
  (forall σ s,
     stored σ = Some s ->
     wp m σ (fun r σ' => extends σ σ' (snd (f s)) /\ agrees (fst (f s)) decode r σ')) ->
  read_only stored m decode f.
Proof.
  intros Hkeep Hwp.
  assert (Hobs : observes stored m decode f).
  { intros σ s Hst. specialize (Hwp σ s Hst). unfold wp in Hwp.
    destruct (m σ) as [r σ'] eqn:E. simpl in Hwp. destruct Hwp as [Hext Hag].
    exists r, σ'. split; [reflexivity|]. split; [apply Hext|].
    split; [exact (Hkeep _ _ _ _ Hext Hst)|]. split; [apply Hext|exact Hag]. }
  split; [exact Hobs|exact (observes_repeatable _ _ _ _ Hobs)].
Qed.

Section ReadOnlyMethods.

Context {Spline : Type}.
Variable UnivariateSpline : list R -> list R -> nat -> result Spline.
Variable spline_eval : Spline -> R -> R.
Variable spline_derivative : Spline -> Spline.

(** C9.  Every public method of [Polarization] and of [EnergyTrend], run on a
    store in which its instance has a given stored state ([p_elecs], [p_ions],
    [structures], respectively [energies]), leaves every object of that store
    unchanged, so the instance keeps its stored state, and returns what the
    method computes from that state alone; called twice in a row with the
    same arguments it returns the same result twice. *)
Theorem methods_leave_state_unchanged (self : PolarizationRef) (trend : EnergyTrendRef) :
  (forall c, read_only (stored_polarization self) (st_get_pelecs_and_pions self c)
               matrices_at (fun P => (Ok (get_pelecs_and_pions P c), [])))
  /\ (forall c, read_only (stored_polarization self)
                  (st_get_same_branch_polarization_data self c)
                  matrix_at (fun P => (get_same_branch_polarization_data P c, [])))
  /\ (forall c, read_only (stored_polarization self) (st_get_lattice_quanta self c)
                  matrix_at (fun P => (get_lattice_quanta P c, [])))
  /\ read_only (stored_polarization self) (st_get_polarization_change self)
       immediate (fun P => (get_polarization_change P, []))
  /\ read_only (stored_polarization self) (st_get_polarization_change_norm self)
       immediate (fun P => (get_polarization_change_norm P, []))
  /\ read_only (stored_polarization self) (st_same_branch_splines UnivariateSpline self)
       immediate (fun P => (same_branch_splines UnivariateSpline P, []))
  /\ read_only (stored_polarization self)
       (st_max_spline_jumps UnivariateSpline spline_eval self)
       immediate (fun P => (max_spline_jumps UnivariateSpline spline_eval P, []))
  /\ read_only (stored_polarization self)
       (st_Polarization_smoothness UnivariateSpline spline_eval self)
       immediate (fun P => Polarization_smoothness UnivariateSpline spline_eval P)
  /\ read_only (stored_energies trend) (st_spline UnivariateSpline trend)
       immediate (fun E => (spline UnivariateSpline E, []))
  /\ read_only (stored_energies trend) (st_smoothness UnivariateSpline spline_eval trend)
       immediate (fun E => smoothness UnivariateSpline spline_eval E)
  /\ read_only (stored_energies trend) (st_max_spline_jump UnivariateSpline spline_eval trend)
       immediate (fun E => (max_spline_jump UnivariateSpline spline_eval E, []))
  /\ (forall slope_cutoff,
        read_only (stored_energies trend)
          (st_endpoints_minima UnivariateSpline spline_eval spline_derivative trend
             slope_cutoff)
          immediate
          (fun E => endpoints_minima UnivariateSpline spline_eval spline_derivative E
                      slope_cutoff)).
Proof.
  repeat split_and; try intros c;
    apply read_only_intro;
    try exact (stored_polarization_extends self);
    try exact (stored_energies_extends trend);
    intros σ s Hst; simpl fst; simpl snd.
  - eapply wp_get_pelecs_and_pions; [exact Hst|].
    intros σ' le li Hext Hle Hli. split; [exact Hext|].
    exists (le, li). split; [reflexivity|].
    destruct (get_pelecs_and_pions s c) as [pe pi]. simpl in Hle, Hli.
    unfold matrices_at, matrix_at; simpl. now rewrite Hle, Hli.
  - eapply wp_get_same_branch; [exact Hst|]. auto.
  - eapply wp_get_lattice_quanta; [exact Hst|]. auto.
  - eapply wp_get_polarization_change; [exact Hst|]. auto.
  - eapply wp_get_polarization_change_norm; [exact Hst|]. auto.
  - eapply wp_same_branch_splines; [exact Hst|]. auto.
  - eapply wp_max_spline_jumps; [exact Hst|]. auto.
  - eapply wp_Polarization_smoothness; [exact Hst|]. auto.
  - eapply wp_spline; [exact Hst|]. split; [apply extends_refl|apply agrees_immediate].
  - eapply wp_smoothness; [exact Hst|]. auto.
  - eapply wp_max_spline_jump; [exact Hst|]. auto.
  - eapply wp_endpoints_minima; [exact Hst|]. auto.
Qed.

End ReadOnlyMethods.

(** A store that holds the two-step track of the cubic cell. *)
Definition demo_state : state :=
  mkState (<[2%nat := PStructures [empty_cubic5; empty_cubic5]]>
             (<[1%nat := PMatrix [vzero; vzero]]>
                (<[0%nat := PMatrix [vzero; mk3 0 0 1]]> ∅)))
          [].

Definition demo_self : PolarizationRef := mkPolarizationRef 0%nat 1%nat 2%nat.

Lemma demo_stored : stored_polarization demo_self demo_state = Some two_step_track.
Proof. reflexivity. Qed.

(** On that store [get_same_branch_polarization_data] returns a reference to
    the matrix computed from the track, and the track is still stored. *)
Lemma methods_leave_state_unchanged_witness :
  exists r σ',
    st_get_same_branch_polarization_data demo_self false demo_state = (r, σ')
    /\ objects demo_state ⊆ objects σ'
    /\ stored_polarization demo_self σ' = Some two_step_track
    /\ stdout σ' = []
    /\ agrees (get_same_branch_polarization_data two_step_track false) matrix_at r σ'.
Proof.
  destruct (methods_leave_state_unchanged toy_fit toy_eval toy_derivative
              demo_self (mkEnergyTrendRef 0%nat)) as (_ & H & _).
  exact (proj1 (H false) demo_state two_step_track demo_stored).
Defined.

(* ===================================================================== *)
(** ** A track evaluated *)

(** In the cubic cell the image of (0, 0, 0.2) nearest to the origin is the
    point itself. *)
Lemma nearest_site_cubic5_near_origin :
  let site := mkSite "C" (mk3 0 0 0.2) cubic5 in
  frac_coords (fst (get_nearest_site (mkStructure cubic5 [site]) vzero site)) = mk3 0 0 0.2.
Proof.
  intros site.
  assert (Hd : det (lattice (mkStructure cubic5 [site])) <> 0)
    by (simpl; rewrite det_cubic5; lra).
  destruct (get_nearest_site_image (mkStructure cubic5 [site]) vzero site)
    as [[[na nb] nc] [Hn _]].
  pose proof (get_nearest_site_optimal (mkStructure cubic5 [site]) vzero site
                (0, 0, 0)%Z Hd) as H.
  unfold coords in H. rewrite Hn in H |- *.
  change (site_lattice (fst (get_nearest_site (mkStructure cubic5 [site]) vzero site)))
    with cubic5 in H.
  unfold cubic5, norm2, dot, get_cartesian_coords, vadd, vsub, vscale_l, vzero in H;
    simpl in H.
  set (X := IZR na) in *. set (Y := IZR nb) in *. set (Z := IZR nc) in *.
  assert (H' : 25 * (X * X) + 25 * (Y * Y) + 25 * ((0.2 + Z) * (0.2 + Z)) <= 1) by lra.
  clear H.
  pose proof (Rle_0_sqr X) as SX. pose proof (Rle_0_sqr Y) as SY.
  pose proof (Rle_0_sqr (0.2 + Z)) as SZ. unfold Rsqr in SX, SY, SZ.
  assert (BX : -0.5 <= X <= 0.5) by (split; nra).
  assert (BY : -0.5 <= Y <= 0.5) by (split; nra).
  assert (BZ : -0.5 <= Z <= 0.5) by (split; nra).
  assert (HX : (-1 < na < 1)%Z) by (apply (int_between na _ _ X); [reflexivity|lra]).
  assert (HY : (-1 < nb < 1)%Z) by (apply (int_between nb _ _ Y); [reflexivity|lra]).
  assert (HZ : (-1 < nc < 1)%Z) by (apply (int_between nc _ _ Z); [reflexivity|lra]).
  assert (X = 0) as HX0 by (unfold X; replace na with 0%Z by lia; reflexivity).
  assert (Y = 0) as HY0 by (unfold Y; replace nb with 0%Z by lia; reflexivity).
  assert (Z = 0) as HZ0 by (unfold Z; replace nc with 0%Z by lia; reflexivity).
  unfold vadd; simpl. fold X Y Z. rewrite HX0, HY0, HZ0. apply vec3_eq; simpl; lra.
Qed.

Lemma nearest_site_eta (d : Structure) (ref : vec3) (site : PeriodicSite) :
  fst (get_nearest_site d ref site)
  = mkSite (specie site) (frac_coords (fst (get_nearest_site d ref site))) (lattice d).
Proof. reflexivity. Qed.

(** The two-step track in the cubic cell: no step is further than half a
    quantum from the step before, and the raw totals are returned. *)
Lemma same_branch_two_step :
  get_same_branch_polarization_data two_step_track false = Ok [vzero; mk3 0 0 1].
Proof.
  rewrite same_branch_unfold. cbv zeta. simpl matrix_len. simpl structures.
  simpl p_elecs. simpl p_ions. simpl zip_with. simpl map.
  replace (vadd vzero vzero) with vzero by (apply vec3_eq; simpl; lra).
  replace (vadd (mk3 0 0 1) vzero) with (mk3 0 0 1) by (apply vec3_eq; simpl; lra).
  change (seq 0 2) with [0%nat; 1%nat].
  rewrite (branch_loop_cons [cubic5; cubic5] [vzero; mk3 0 0 1] 0 [1%nat] [] []
             cubic5 vzero vzero eq_refl eq_refl eq_refl).
  rewrite nearest_site_eta.
  change (frac_coords (fst (get_nearest_site _ vzero _)))
    with (frac_coords (first_site cubic5 vzero)).
  rewrite (first_site_integer cubic5 vzero (0, 0, 0)%Z)
    by (rewrite ?det_cubic5, ?abc_cubic5; try lra; apply vec3_eq; simpl; lra).
  simpl app. simpl specie. simpl lattice.
  assert (Hprev : (if Nat.eqb 1 0 then Ok vzero
                   else py_last [mkSite "C" vzero cubic5] ≫= (fun s => Ok (coords s)))
                  = Ok vzero).
  { simpl. f_equal. apply vec3_eq; simpl; lra. }
  rewrite (branch_loop_cons [cubic5; cubic5] [vzero; mk3 0 0 1] 1 [] _ _
             cubic5 (mk3 0 0 1) vzero eq_refl eq_refl Hprev).
  rewrite nearest_site_eta. rewrite abc_cubic5.
  replace (np_divide (mk3 0 0 1) (mk3 5 5 5)) with (mk3 0 0 0.2)
    by (apply vec3_eq; simpl; lra).
  rewrite nearest_site_cubic5_near_origin.
  simpl. unfold adjust_pol; simpl. rewrite abc_cubic5.
  do 2 f_equal; [|f_equal]; apply vec3_eq; simpl; lra.
Qed.

(* ===================================================================== *)
(** ** ZVAL dictionaries *)

Lemma zval_dict_from_potcar_snoc (potcar : list PotcarSingle) (p : PotcarSingle) :
  zval_dict_from_potcar (potcar ++ [p])
  = <[element p := ZVAL p]> (zval_dict_from_potcar potcar).
Proof. unfold zval_dict_from_potcar. now rewrite fold_left_app. Qed.

Lemma zval_dict_from_potcar_lookup (potcar : list PotcarSingle) (el : string) :
  zval_dict_from_potcar potcar !! el
  = ZVAL <$> last (filter (fun p => element p = el) potcar).
Proof.
  induction potcar as [|p potcar IH] using rev_ind; [reflexivity|].
  rewrite zval_dict_from_potcar_snoc, filter_app.
  destruct (decide (element p = el)) as [E|E].
  - rewrite E, lookup_insert_eq.
    rewrite filter_cons_True, filter_nil by assumption.
    now rewrite last_snoc.
  - rewrite lookup_insert_ne by assumption.
    rewrite filter_cons_False, filter_nil, app_nil_r by assumption.
    exact IH.
Qed.

Lemma zval_dict_from_potcar_is_Some (potcar : list PotcarSingle) (el : string) :
  is_Some (zval_dict_from_potcar potcar !! el)
  <-> exists p, p ∈ potcar /\ element p = el.
Proof.
  rewrite zval_dict_from_potcar_lookup, fmap_is_Some.
  split.
  - intros [p Hp]. exists p. apply last_Some_elem_of in Hp.
    now apply list_elem_of_filter in Hp as [? ?].
  - intros [p [Hin Hp]].
    destruct (last (filter (fun p => element p = el) potcar)) as [q|] eqn:Hl; [now exists q|].
    apply last_None in Hl.
    assert (p ∈ filter (fun p => element p = el) potcar) as Hf
      by (apply list_elem_of_filter; now split).
    rewrite Hl in Hf. inversion Hf.
Qed.

(** X1.  [zval_dict_from_potcar] maps an element to the ZVAL of the last
    entry of the POTCAR that has this element (a later entry overwrites an
    earlier one), and has no key for an element without an entry. *)
Theorem zval_dict_from_potcar_last (potcar : list PotcarSingle) (el : string) :
  zval_dict_from_potcar potcar !! el
  = ZVAL <$> last (filter (fun p => element p = el) potcar)
  /\ (zval_dict_from_potcar potcar !! el = None
      <-> forall p, p ∈ potcar -> element p <> el).
Proof.
  split; [apply zval_dict_from_potcar_lookup|].
  rewrite eq_None_not_Some, zval_dict_from_potcar_is_Some. split.
  - intros H p Hin E. apply H. now exists p.
  - intros H [p [Hin E]]. now apply (H p).
Qed.

Lemma pseudo_loop_ok (items : list (string * string)) (pseudo_dict acc : gmap string R) :
  NoDup items.*1 ->
  (forall k v, (k, v) ∈ items -> is_Some (pseudo_dict !! v)) ->
  exists z, pseudo_loop items pseudo_dict acc = Ok z
    /\ forall k, z !! k
         = match (list_to_map items : gmap string string) !! k with
           | Some v => pseudo_dict !! v
           | None => acc !! k
           end.
Proof.
  revert acc. induction items as [|[key value] rest IH]; intros acc Hnd Hall; simpl.
  - now exists acc.
  - rewrite fmap_cons in Hnd. apply NoDup_cons in Hnd as [Hnot Hnd]. simpl in Hnot.
    destruct (Hall key value) as [zv Hzv]; [left|]. rewrite Hzv.
    destruct (IH (<[key := zv]> acc) Hnd) as [z [Hz Hlook]].
    { intros k v Hin. apply (Hall k v). now right. }
    exists z. split; [exact Hz|]. intros k. rewrite Hlook.
    destruct (decide (key = k)) as [E|E].
    + subst k. rewrite (not_elem_of_list_to_map_1 _ _ Hnot).
      now rewrite !lookup_insert_eq.
    + now rewrite !lookup_insert_ne by exact E.
Qed.

Lemma pseudo_loop_missing (items : list (string * string)) (pseudo_dict acc : gmap string R) :
  (exists k v, (k, v) ∈ items /\ pseudo_dict !! v = None) ->
  exists k v, (k, v) ∈ items /\ pseudo_dict !! v = None
    /\ pseudo_loop items pseudo_dict acc = Raise (KeyError v).
Proof.
  revert acc. induction items as [|[key value] rest IH]; intros acc [k [v [Hin Hv]]]; simpl.
  - inversion Hin.
  - destruct (pseudo_dict !! value) as [zv|] eqn:Hzv.
    + apply elem_of_cons in Hin as [E|Hin]; [congruence|].
      destruct (IH (<[key := zv]> acc)) as [k' [v' [Hin' [Hv' Hr]]]]; [now exists k, v|].
      exists k', v'. split; [now right|]. now split.
    + exists key, value. split; [left|]. now split.
Qed.

Section ZvalProperties.
Variable VASP_PBE_ZVAL : gmap string R.

(** The table that is consulted. *)
Definition table_used (pseudo_dict : option (gmap string R)) : gmap string R :=
  default VASP_PBE_ZVAL pseudo_dict.

(** X2.  Under Python 2, when every pseudopotential name used in
    [species_potcar_dict] is a key of the table consulted (the argument
    [pseudo_dict], or [VASP_PBE_ZVAL] when it is [None]),
    [create_zval_dict_from_pseudo_dict] returns a dictionary with exactly the
    species of [species_potcar_dict] as keys, each mapped to the table's value
    for its pseudopotential name. *)
Theorem create_zval_dict_known (species_potcar_dict : gmap string string)
    (pseudo_dict : option (gmap string R)) :
  (forall k v, species_potcar_dict !! k = Some v -> is_Some (table_used pseudo_dict !! v)) ->
  exists z,
    create_zval_dict_from_pseudo_dict VASP_PBE_ZVAL Python2 species_potcar_dict pseudo_dict
    = Found (Ok z)
    /\ forall k, z !! k = species_potcar_dict !! k ≫= (fun v => table_used pseudo_dict !! v).
Proof.
  intros Hall. unfold create_zval_dict_from_pseudo_dict, iteritems.
  replace (match pseudo_dict with Some d => d | None => VASP_PBE_ZVAL end)
    with (table_used pseudo_dict) by (destruct pseudo_dict; reflexivity).
  destruct (pseudo_loop_ok (map_to_list species_potcar_dict) (table_used pseudo_dict) ∅)
    as [z [Hz Hlook]].
  - apply NoDup_fst_map_to_list.
  - intros k v Hin. apply (Hall k v). now apply elem_of_map_to_list.
  - exists z. split; [now rewrite Hz|]. intros k. rewrite Hlook, list_to_map_to_list.
    destruct (species_potcar_dict !! k); reflexivity.
Qed.

(** X3.  Under Python 3 [create_zval_dict_from_pseudo_dict] raises
    [AttributeError] on every dictionary, whatever the tables hold: the
    dictionary has no [iteritems].  Under Python 2, when some pseudopotential
    name used in [species_potcar_dict] is not a key of the table consulted, it
    raises [KeyError] for a name that is used and that the table lacks. *)
Theorem create_zval_dict_unknown (species_potcar_dict : gmap string string)
    (pseudo_dict : option (gmap string R)) :
  create_zval_dict_from_pseudo_dict VASP_PBE_ZVAL Python3 species_potcar_dict pseudo_dict
  = AttributeError "iteritems"
  /\ forall k v,
       species_potcar_dict !! k = Some v -> table_used pseudo_dict !! v = None ->
       exists k' v',
         species_potcar_dict !! k' = Some v' /\ table_used pseudo_dict !! v' = None
         /\ create_zval_dict_from_pseudo_dict VASP_PBE_ZVAL Python2 species_potcar_dict
              pseudo_dict
            = Found (Raise (KeyError v')).
Proof.
  split; [reflexivity|].
  intros k v Hk Hv. unfold create_zval_dict_from_pseudo_dict, iteritems.
  replace (match pseudo_dict with Some d => d | None => VASP_PBE_ZVAL end)
    with (table_used pseudo_dict) by (destruct pseudo_dict; reflexivity).
  destruct (pseudo_loop_missing (map_to_list species_potcar_dict) (table_used pseudo_dict) ∅)
    as [k' [v' [Hin [Hv' Hr]]]].
  - exists k, v. split; [now apply elem_of_map_to_list|exact Hv].
  - exists k', v'. split; [now apply elem_of_map_to_list|]. split; [exact Hv'|].
    now rewrite Hr.
Qed.

End ZvalProperties.

Lemma create_zval_dict_known_witness :
  exists z,
    create_zval_dict_from_pseudo_dict ∅ Python2 {[ "Li"%string := "Li_sv"%string ]}
      (Some {[ "Li_sv"%string := 3 ]}) = Found (Ok z)
    /\ forall k, z !! k
         = ({[ "Li"%string := "Li_sv"%string ]} : gmap string string) !! k
           ≫= (fun v => table_used ∅ (Some {[ "Li_sv"%string := 3 ]}) !! v).
Proof.
  apply (create_zval_dict_known ∅ {[ "Li"%string := "Li_sv"%string ]}
           (Some {[ "Li_sv"%string := 3 ]})).
  intros k v H. apply lookup_singleton_Some in H as [_ <-]. exists 3. reflexivity.
Defined.

Lemma create_zval_dict_unknown_witness :
  create_zval_dict_from_pseudo_dict ∅ Python3 {[ "Li"%string := "Li_sv"%string ]} None
  = AttributeError "iteritems"
  /\ exists k' v',
       ({[ "Li"%string := "Li_sv"%string ]} : gmap string string) !! k' = Some v'
       /\ table_used ∅ None !! v' = None
       /\ create_zval_dict_from_pseudo_dict ∅ Python2 {[ "Li"%string := "Li_sv"%string ]} None
          = Found (Raise (KeyError v')).
Proof.
  destruct (create_zval_dict_unknown ∅ {[ "Li"%string := "Li_sv"%string ]} None) as [H3 H2].
  split; [exact H3|].
  apply (H2 "Li"%string "Li_sv"%string); reflexivity.
Defined.

(* ===================================================================== *)
(** ** Ionic dipoles: coverage, order of the sites, lattice translations *)

Lemma total_ionic_loop_Ok_inv (todo : list PeriodicSite) (structure : Structure)
    (zval_dict : gmap string R) (acc out : list vec3) :
  total_ionic_loop todo structure zval_dict acc = Ok out ->
  forall site, site ∈ todo -> is_Some (zval_dict !! specie site).
Proof.
  revert acc. induction todo as [|s rest IH]; intros acc H site Hin; [inversion Hin|].
  simpl in H. destruct (zval_dict !! specie s) as [z|] eqn:Hz; [|discriminate].
  apply elem_of_cons in Hin as [->|Hin]; [rewrite Hz; eauto|].
  now apply (IH _ H).
Qed.

Lemma ionic_dipole_Ok_iff (structure : Structure) (zval_dict : gmap string R) :
  (exists total, get_total_ionic_dipole structure zval_dict = Ok total)
  <-> forall site, site ∈ sites structure -> is_Some (zval_dict !! specie site).
Proof.
  unfold get_total_ionic_dipole. split.
  - intros [total H].
    destruct (total_ionic_loop _ _ _ _) as [out|e] eqn:Hloop; [|discriminate].
    now apply (total_ionic_loop_Ok_inv _ _ _ _ _ Hloop).
  - intros Hall. rewrite total_ionic_loop_ok by assumption. eauto.
Qed.

Lemma ionic_dipole_comp (structure : Structure) (zval_dict : gmap string R) (total : vec3) :
  get_total_ionic_dipole structure zval_dict = Ok total ->
  forall d, comp total d
    = sum_R (map (fun site => - comp (abc (lattice structure)) d
                               * comp (frac_coords site) d * zval_of zval_dict site)
                 (sites structure)).
Proof.
  intros H d.
  assert (Hall : forall site, site ∈ sites structure -> is_Some (zval_dict !! specie site))
    by (apply ionic_dipole_Ok_iff; eauto).
  unfold get_total_ionic_dipole in H. rewrite total_ionic_loop_ok in H by assumption.
  simpl in H. injection H as <-.
  unfold np_sum_axis0. rewrite comp_fold_vadd, map_map.
  replace (comp vzero d) with 0 by (destruct d; reflexivity).
  rewrite Rplus_0_l. f_equal. apply map_ext. intros s. apply comp_calc_ionic.
Qed.

Lemma vec3_comp_eq (u v : vec3) : (forall d, comp u d = comp v d) -> u = v.
Proof. intros H. apply vec3_eq; [apply (H Xa)|apply (H Xb)|apply (H Xc)]. Qed.

(** X4.  With the dictionary made by [zval_dict_from_potcar],
    [get_total_ionic_dipole] returns a dipole exactly when every species of
    the structure has an entry in the POTCAR (otherwise it raises). *)
Theorem ionic_dipole_from_potcar (structure : Structure) (potcar : list PotcarSingle) :
  (exists total, get_total_ionic_dipole structure (zval_dict_from_potcar potcar) = Ok total)
  <-> forall site, site ∈ sites structure -> exists p, p ∈ potcar /\ element p = specie site.
Proof.
  rewrite ionic_dipole_Ok_iff.
  split; intros H site Hin; apply zval_dict_from_potcar_is_Some; now apply H.
Qed.

Lemma sum_R_Permutation (xs ys : list R) : xs ≡ₚ ys -> sum_R xs = sum_R ys.
Proof. induction 1; simpl; lra. Qed.

(** X5.  The total ionic dipole does not depend on the order of the sites:
    a structure with the same lattice and the same sites in another order
    gives the same dipole. *)
Theorem ionic_dipole_permutation (s s' : Structure) (zval_dict : gmap string R)
    (total : vec3) :
  lattice s = lattice s' -> sites s ≡ₚ sites s' ->
  get_total_ionic_dipole s zval_dict = Ok total ->
  get_total_ionic_dipole s' zval_dict = Ok total.
Proof.
  intros Hl Hp H.
  assert (Hall : forall site, site ∈ sites s' -> is_Some (zval_dict !! specie site)).
  { intros site Hin. apply (proj1 (ionic_dipole_Ok_iff s zval_dict)); [eauto|].
    now rewrite Hp. }
  destruct (proj2 (ionic_dipole_Ok_iff s' zval_dict) Hall) as [total' H'].
  rewrite H'. f_equal. apply vec3_comp_eq. intros d.
  rewrite (ionic_dipole_comp _ _ _ H), (ionic_dipole_comp _ _ _ H'), Hl.
  apply sum_R_Permutation. change (map ?f ?l) with (f <$> l). now rewrite Hp.
Qed.

(** Two lithium sites in the cubic cell, in both orders. *)
Definition li_site_2 : PeriodicSite := mkSite "Li" (mk3 0 0.25 0) cubic5.

Lemma ionic_dipole_permutation_witness :
  exists total,
    get_total_ionic_dipole (mkStructure cubic5 [li_site; li_site_2]) li_zval = Ok total
    /\ get_total_ionic_dipole (mkStructure cubic5 [li_site_2; li_site]) li_zval = Ok total.
Proof.
  eexists. split; [reflexivity|].
  apply (ionic_dipole_permutation (mkStructure cubic5 [li_site; li_site_2])
           (mkStructure cubic5 [li_site_2; li_site]) li_zval).
  - reflexivity.
  - apply perm_swap.
  - reflexivity.
Defined.

(** The site moved by a whole number of lattice vectors. *)
Definition translate_site (n : Z * Z * Z) (site : PeriodicSite) : PeriodicSite :=
  mkSite (specie site) (vadd (frac_coords site) (zvec n)) (site_lattice site).

(** The structure with site [j] moved by [n] lattice vectors. *)
Definition translate_in (s : Structure) (j : nat) (n : Z * Z * Z) : Structure :=
  mkStructure (lattice s) (alter (translate_site n) j (sites s)).

Lemma sum_R_alter {A : Type} (f : A -> R) (g : A -> A) (j : nat) (l : list A) (x : A) :
  l !! j = Some x ->
  sum_R (map f (alter g j l)) = sum_R (map f l) + (f (g x) - f x).
Proof.
  revert j. induction l as [|y l IH]; intros [|j] H; try discriminate.
  - injection H as ->. simpl. lra.
  - change (alter g (S j) (y :: l)) with (y :: alter g j l).
    simpl. rewrite (IH j H). lra.
Qed.

(** X6.  Moving one site by a whole number [n] of lattice vectors changes the
    total ionic dipole by minus the site's zval times [n] lattice lengths
    (direction by direction): the ionic dipole is fixed only up to quanta. *)
Theorem ionic_dipole_translation (s : Structure) (zval_dict : gmap string R) (j : nat)
    (n : Z * Z * Z) (site : PeriodicSite) (zval : R) (total : vec3) :
  sites s !! j = Some site -> zval_dict !! specie site = Some zval ->
  get_total_ionic_dipole s zval_dict = Ok total ->
  get_total_ionic_dipole (translate_in s j n) zval_dict
  = Ok (vsub total (vscale_r (quanta_shift (lattice s) n) zval)).
Proof.
  intros Hj Hz H.
  assert (Hall : forall x, x ∈ sites (translate_in s j n) -> is_Some (zval_dict !! specie x)).
  { intros x Hin. simpl in Hin. apply list_elem_of_lookup in Hin as [i Hi].
    destruct (decide (i = j)) as [->|Hij].
    - rewrite list_lookup_alter_eq, Hj in Hi. simpl in Hi. injection Hi as <-.
      simpl. rewrite Hz. eauto.
    - rewrite list_lookup_alter_ne in Hi by congruence.
      apply (proj1 (ionic_dipole_Ok_iff s zval_dict)); [eauto|].
      now apply list_elem_of_lookup_2 in Hi. }
  destruct (proj2 (ionic_dipole_Ok_iff _ zval_dict) Hall) as [total' H'].
  rewrite H'. f_equal. apply vec3_comp_eq. intros d.
  rewrite (ionic_dipole_comp _ _ _ H').
  simpl sites. simpl lattice.
  rewrite (sum_R_alter _ _ _ _ _ Hj), <- (ionic_dipole_comp _ _ _ H).
  unfold zval_of, translate_site; simpl. rewrite Hz; simpl.
  destruct n as [[na nb] nc]. destruct d; simpl; ring.
Qed.

Lemma ionic_dipole_translation_witness :
  exists total,
    get_total_ionic_dipole li_structure li_zval = Ok total
    /\ get_total_ionic_dipole (translate_in li_structure 0 (1, 0, 0)%Z) li_zval
       = Ok (vsub total (vscale_r (quanta_shift cubic5 (1, 0, 0)%Z) 1)).
Proof.
  eexists. split; [reflexivity|].
  apply (ionic_dipole_translation li_structure li_zval 0 (1, 0, 0)%Z li_site 1);
    reflexivity.
Defined.

(* ===================================================================== *)
(** ** The constructor from OUTCARs *)

Lemma outcars_loop_spec (outcars : list Outcar) (pe pi : list vec3) :
  outcars_loop outcars pe pi = (pe ++ map p_elec outcars, pi ++ map p_ion outcars).
Proof.
  revert pe pi. induction outcars as [|o rest IH]; intros pe pi; simpl.
  - now rewrite !app_nil_r.
  - now rewrite IH, <- !app_assoc.
Qed.

(** X7.  [from_outcars_and_structures] raises [ValueError] exactly when the
    numbers of OUTCARs and of structures differ; otherwise it returns the
    track whose rows are the [p_elec] and the [p_ion] of the OUTCARs, in
    order, with the structures given. *)
Theorem from_outcars_and_structures_spec (outcars : list Outcar) (ss : list Structure) :
  from_outcars_and_structures outcars ss
  = if decide (length outcars = length ss)
    then Ok (mkPolarization (map p_elec outcars) (map p_ion outcars) ss)
    else Raise ValueError.
Proof.
  unfold from_outcars_and_structures. rewrite outcars_loop_spec. simpl.
  unfold Polarization_init. rewrite !length_map, Nat.eqb_refl. simpl.
  destruct (decide (length outcars = length ss)) as [E|E].
  - apply Nat.eqb_eq in E. now rewrite E.
  - apply Nat.eqb_neq in E. now rewrite E.
Qed.

(* ===================================================================== *)
(** ** Same-branch polarization: every step *)

(** The site that one turn of the loop appends, for the lattice [l] and the
    total dipole [p] of the step and the reference point [prev]. *)
Definition step_site (prev : vec3) (l : Lattice) (p : vec3) : PeriodicSite :=
  let site := mkSite "C" (np_divide p (abc l)) l in
  fst (get_nearest_site (mkStructure l [site]) prev site).

Definition step_struct (l : Lattice) (p : vec3) : Structure :=
  mkStructure l [mkSite "C" (np_divide p (abc l)) l].

(** The sites of a run of the loop over [steps], started with reference [prev]. *)
Fixpoint track_sites (prev : vec3) (steps : list (Lattice * vec3)) : list PeriodicSite :=
  match steps with
  | [] => []
  | (l, p) :: rest => step_site prev l p :: track_sites (coords (step_site prev l p)) rest
  end.

(** The reference point of turn [k]: the origin at first, then the last site. *)
Definition reference (k : nat) (ns : list PeriodicSite) : vec3 :=
  if Nat.eqb k 0 then vzero else default vzero (coords <$> last ns).

Lemma branch_loop_track (lattices : list Lattice) (pt : list vec3) (n : nat) :
  forall k ds ns,
    (k + n <= length lattices)%nat -> (k + n <= length pt)%nat ->
    (0 < k -> ns <> [])%nat ->
    let steps := zip (take n (drop k lattices)) (take n (drop k pt)) in
    branch_loop (seq k n) lattices pt ds ns
    = Ok (ds ++ map (fun lp => step_struct lp.1 lp.2) steps,
          ns ++ track_sites (reference k ns) steps).
Proof.
  induction n as [|n IH]; intros k ds ns Hl Hp Hk steps.
  - subst steps. simpl. now rewrite !app_nil_r.
  - destruct (lookup_lt_is_Some_2 lattices k) as [l Hlk]; [lia|].
    destruct (lookup_lt_is_Some_2 pt k) as [p Hpk]; [lia|].
    assert (Hprev : (if Nat.eqb k 0 then Ok vzero
                     else py_last ns ≫= (fun s => Ok (coords s))) = Ok (reference k ns)).
    { unfold reference. destruct k as [|k]; simpl; [reflexivity|].
      destruct ns as [|x ns _] using rev_ind; [exfalso; apply Hk; [lia|reflexivity]|].
      rewrite py_last_snoc, last_snoc. reflexivity. }
    change (seq k (S n)) with (k :: seq (S k) n).
    rewrite (branch_loop_cons _ _ _ _ _ _ _ _ _ Hlk Hpk Hprev).
    rewrite IH; [|lia|lia|intros _ E; now apply app_eq_nil in E as [_ E]].
    subst steps. rewrite (drop_S _ _ _ Hlk), (drop_S _ _ _ Hpk).
    cbn [firstn zip zip_with map track_sites fst snd].
    rewrite <- !app_assoc.
    replace (reference (S k) (ns ++ [fst (get_nearest_site
               (mkStructure l [mkSite "C" (np_divide p (abc l)) l]) (reference k ns)
               (mkSite "C" (np_divide p (abc l)) l))]))
      with (coords (step_site (reference k ns) l p)); [reflexivity|].
    unfold reference. cbn [Nat.eqb]. now rewrite last_snoc.
Qed.

(** The rows of [adjust_pol] for a run over [steps]. *)
Fixpoint track_rows (prev : vec3) (steps : list (Lattice * vec3)) : list vec3 :=
  match steps with
  | [] => []
  | (l, p) :: rest =>
      np_multiply (frac_coords (step_site prev l p)) (abc l)
      :: track_rows (coords (step_site prev l p)) rest
  end.

Lemma adjust_pol_track (prev : vec3) (steps : list (Lattice * vec3)) :
  adjust_pol (map (fun lp => step_struct lp.1 lp.2) steps, track_sites prev steps)
  = track_rows prev steps.
Proof.
  revert prev. induction steps as [|[l p] rest IH]; intros prev; [reflexivity|].
  unfold adjust_pol in *. simpl. f_equal. apply IH.
Qed.

(** The lattice and the total dipole of every step, as the loop sees them. *)
Definition steps_of (self : Polarization) (convert : bool) : list (Lattice * vec3) :=
  zip_with (fun s pp => (step_lattice s convert, step_total s pp.1 pp.2 convert))
    (structures self) (zip (p_elecs self) (p_ions self)).

Lemma length_steps_of (self : Polarization) (convert : bool) :
  well_formed self -> length (steps_of self convert) = length (p_elecs self).
Proof.
  intros [WF1 WF2]. unfold steps_of. rewrite length_zip_with, length_zip. lia.
Qed.

Lemma same_branch_track (self : Polarization) (convert : bool) :
  well_formed self -> p_elecs self <> [] ->
  get_same_branch_polarization_data self convert
  = Ok (track_rows vzero (steps_of self convert)).
Proof.
  intros [WF1 WF2] Hne.
  rewrite same_branch_unfold. cbv zeta.
  rewrite (matrix_len_nonempty _ Hne).
  set (L := length (p_elecs self)).
  assert (Hrun : forall lattices pt,
            length lattices = L -> length pt = L ->
            adjust_pol <$> branch_loop (seq 0 L) lattices pt [] []
            = Ok (track_rows vzero (zip lattices pt))).
  { intros lattices pt H1 H2.
    rewrite branch_loop_track by (try lia; intros H; lia).
    cbv zeta. rewrite !drop_0.
    replace (take L lattices) with lattices by (rewrite <- H1; symmetry; apply firstn_all).
    replace (take L pt) with pt by (rewrite <- H2; symmetry; apply firstn_all).
    change (reference 0 []) with vzero.
    unfold fmap, result_fmap. cbn [app]. now rewrite adjust_pol_track. }
  destruct convert.
  - set (units := unit_factors (volumes_of (structures self))).
    assert (Hul : length units = L)
      by (unfold units; rewrite length_unit_factors, length_volumes_of; unfold L; lia).
    replace L with (length (map lattice (structures self))) at 1
      by (rewrite length_map; unfold L; lia).
    rewrite rescale_lattices_all by (rewrite length_map; unfold L in *; lia).
    rewrite bind_Ok, Hrun.
    + do 2 f_equal. apply list_eq. intros i. unfold steps_of.
      rewrite !lookup_zip_with.
      change (map lattice (structures self)) with (lattice <$> structures self).
      rewrite list_lookup_fmap.
      destruct (structures self !! i) as [s|] eqn:Hs; simpl; [|reflexivity].
      unfold units. rewrite (unit_factors_lookup _ _ _ (volumes_of_lookup _ _ _ Hs)). simpl.
      destruct (p_elecs self !! i) as [pe|]; simpl; [|reflexivity].
      destruct (p_ions self !! i) as [pi|]; reflexivity.
    + rewrite length_zip_with, length_map. unfold L in *; lia.
    + rewrite !length_zip_with. unfold L in *; lia.
  - rewrite Hrun.
    + do 2 f_equal. apply list_eq. intros i. unfold steps_of.
      rewrite !lookup_zip_with.
      change (map lattice (structures self)) with (lattice <$> structures self).
      rewrite list_lookup_fmap.
      destruct (structures self !! i) as [s|] eqn:Hs; simpl; [|reflexivity].
      destruct (p_elecs self !! i) as [pe|]; simpl; [|reflexivity].
      destruct (p_ions self !! i) as [pi|]; reflexivity.
    + rewrite length_map. unfold L; lia.
    + rewrite length_zip_with. unfold L; lia.
Qed.

(** No basis vector of the lattice has length 0. *)
Definition nondegenerate (l : Lattice) : Prop := forall d, comp (abc l) d <> 0.

(** The Cartesian point that stands for a row of dipoles in the cell [l]. *)
Definition row_point (l : Lattice) (row : vec3) : vec3 :=
  get_cartesian_coords l (np_divide row (abc l)).

(** The reference point of step [i]: [prev] at first, then the point of the
    row found for the step before. *)
Definition prev_point (prev : vec3) (lattices : list Lattice) (rows : list vec3) (i : nat)
    : vec3 :=
  match i with
  | O => prev
  | S j =>
      match lattices !! j, rows !! j with
      | Some l, Some row => row_point l row
      | _, _ => vzero
      end
  end.

Lemma divide_multiply (f a : vec3) :
  (forall d, comp a d <> 0) -> np_divide (np_multiply f a) a = f.
Proof.
  intros H. pose proof (H Xa). pose proof (H Xb). pose proof (H Xc).
  destruct f, a; simpl in *. apply vec3_eq; simpl; field; assumption.
Qed.

Lemma multiply_divide (p a : vec3) :
  (forall d, comp a d <> 0) -> np_multiply (np_divide p a) a = p.
Proof.
  intros H. pose proof (H Xa). pose proof (H Xb). pose proof (H Xc).
  destruct p, a; simpl in *. apply vec3_eq; simpl; field; assumption.
Qed.

Lemma step_site_point (prev : vec3) (l : Lattice) (p : vec3) :
  nondegenerate l ->
  row_point l (np_multiply (frac_coords (step_site prev l p)) (abc l))
  = coords (step_site prev l p).
Proof. intros H. unfold row_point. now rewrite divide_multiply. Qed.

Lemma step_site_image (prev : vec3) (l : Lattice) (p : vec3) :
  exists n, frac_coords (step_site prev l p) = vadd (np_divide p (abc l)) (zvec n).
Proof.
  unfold step_site.
  destruct (get_nearest_site_image (mkStructure l [mkSite "C" (np_divide p (abc l)) l]) prev
              (mkSite "C" (np_divide p (abc l)) l)) as [n [Hn _]].
  now exists n.
Qed.

Lemma step_site_optimal (prev : vec3) (l : Lattice) (p : vec3) (m : Z * Z * Z) :
  det l <> 0 ->
  norm2 (vsub (coords (step_site prev l p)) prev)
  <= norm2 (vsub (get_cartesian_coords l (vadd (np_divide p (abc l)) (zvec m))) prev).
Proof.
  intros Hd. unfold step_site.
  apply (get_nearest_site_optimal (mkStructure l [mkSite "C" (np_divide p (abc l)) l]) prev
           (mkSite "C" (np_divide p (abc l)) l) m Hd).
Qed.

Lemma track_rows_step (steps : list (Lattice * vec3)) :
  forall prev i l p,
    (forall lp, lp ∈ steps -> nondegenerate lp.1) ->
    steps !! i = Some (l, p) ->
    track_rows prev steps !! i
    = Some (np_multiply
              (frac_coords (step_site (prev_point prev steps.*1 (track_rows prev steps) i) l p))
              (abc l)).
Proof.
  induction steps as [|[l0 p0] rest IH]; intros prev i l p Hnd Hi; [discriminate|].
  destruct i as [|j].
  - injection Hi as -> ->. reflexivity.
  - change (track_rows prev ((l0, p0) :: rest) !! S j)
      with (track_rows (coords (step_site prev l0 p0)) rest !! j).
    rewrite (IH _ j l p); [|intros lp Hin; apply Hnd; now right|exact Hi].
    do 4 f_equal.
    destruct j as [|j']; [|reflexivity].
    simpl. symmetry. apply step_site_point. apply (Hnd (l0, p0)). left.
Qed.

Lemma length_track_rows (prev : vec3) (steps : list (Lattice * vec3)) :
  length (track_rows prev steps) = length steps.
Proof.
  revert prev. induction steps as [|[l p] rest IH]; intros prev; simpl; [reflexivity|].
  now rewrite IH.
Qed.

Lemma steps_of_lookup (self : Polarization) (convert : bool) (i : nat) :
  steps_of self convert !! i
  = s ← structures self !! i; pe ← p_elecs self !! i; pi ← p_ions self !! i;
    Some (step_lattice s convert, step_total s pe pi convert).
Proof.
  unfold steps_of. rewrite !lookup_zip_with.
  destruct (structures self !! i); simpl; [|reflexivity].
  destruct (p_elecs self !! i); simpl; [|reflexivity].
  destruct (p_ions self !! i); reflexivity.
Qed.

Lemma unit_factor_nonzero (s : Structure) : det (lattice s) <> 0 -> unit_factor s <> 0.
Proof.
  intros Hd. unfold unit_factor.
  assert (Hv : volume (lattice s) <> 0) by (unfold volume; now apply Rabs_no_R0).
  pose proof unit_constant_neg.
  apply Rmult_integral_contrapositive_currified; [|lra].
  unfold Rdiv. rewrite Rmult_1_l. now apply Rinv_neq_0_compat.
Qed.

Lemma step_lattice_nondegenerate (s : Structure) (convert : bool) :
  det (lattice s) <> 0 -> nondegenerate (step_lattice s convert).
Proof.
  intros Hd d. pose proof (det_rows_nonzero (lattice s) d Hd) as Hpos.
  destruct convert; simpl; [|lra].
  rewrite abc_rescaled.
  pose proof (Rabs_pos_lt _ (unit_factor_nonzero s Hd)) as Hu.
  assert (0 < Rabs (unit_factor s) * comp (abc (lattice s)) d)
    by now apply Rmult_lt_0_compat.
  destruct d; simpl in *; lra.
Qed.

(** The lattices and the total dipoles the loop works on. *)
Definition lattices_of (self : Polarization) (convert : bool) : list Lattice :=
  map (fun s => step_lattice s convert) (structures self).

Definition totals_of (self : Polarization) (convert : bool) : list vec3 :=
  zip_with (fun s pp => step_total s pp.1 pp.2 convert)
    (structures self) (zip (p_elecs self) (p_ions self)).

Lemma steps_of_fst (self : Polarization) (convert : bool) :
  well_formed self -> (steps_of self convert).*1 = lattices_of self convert.
Proof.
  intros [WF1 WF2]. apply list_eq. intros i. unfold lattices_of.
  change (map ?f ?l) with (f <$> l). rewrite !list_lookup_fmap, steps_of_lookup.
  destruct (structures self !! i) as [s|] eqn:Hs; simpl; [|reflexivity].
  apply lookup_lt_Some in Hs.
  destruct (lookup_lt_is_Some_2 (p_elecs self) i) as [pe ->]; [lia|].
  destruct (lookup_lt_is_Some_2 (p_ions self) i) as [pi ->]; [lia|].
  reflexivity.
Qed.

Lemma steps_of_snd (self : Polarization) (convert : bool) :
  (steps_of self convert).*2 = totals_of self convert.
Proof.
  apply list_eq. intros i. unfold totals_of.
  rewrite !list_lookup_fmap, steps_of_lookup, !lookup_zip_with.
  destruct (structures self !! i) as [s|]; simpl; [|reflexivity].
  destruct (p_elecs self !! i) as [pe|]; simpl; [|reflexivity].
  destruct (p_ions self !! i) as [pi|]; reflexivity.
Qed.

Lemma same_branch_Ok_nonempty (self : Polarization) (convert : bool) (rows : list vec3) :
  well_formed self ->
  get_same_branch_polarization_data self convert = Ok rows -> p_elecs self <> [].
Proof.
  intros [WF1 WF2] H E. destruct self as [pe pi ss]. simpl in *. subst pe.
  destruct pi; [|discriminate]. destruct ss; [|discriminate].
  rewrite same_branch_empty in H. discriminate.
Qed.

Lemma steps_nondegenerate (self : Polarization) (convert : bool) :
  (forall s, s ∈ structures self -> nondegenerate (step_lattice s convert)) ->
  forall lp, lp ∈ steps_of self convert -> nondegenerate lp.1.
Proof.
  intros H lp Hin. apply list_elem_of_lookup in Hin as [i Hi].
  rewrite steps_of_lookup in Hi.
  destruct (structures self !! i) as [s|] eqn:Hs; simpl in Hi; [|discriminate].
  destruct (p_elecs self !! i) as [pe|]; simpl in Hi; [|discriminate].
  destruct (p_ions self !! i) as [pi|]; simpl in Hi; [|discriminate].
  injection Hi as <-. simpl. apply H. now apply list_elem_of_lookup_2 in Hs.
Qed.

(** The row of step [i], from the lattice and the total dipole of the step. *)
Lemma same_branch_row (self : Polarization) (convert : bool) (rows : list vec3) (i : nat)
    (row : vec3) :
  well_formed self ->
  (forall s, s ∈ structures self -> nondegenerate (step_lattice s convert)) ->
  get_same_branch_polarization_data self convert = Ok rows ->
  rows !! i = Some row ->
  exists s pe pi,
    structures self !! i = Some s /\ p_elecs self !! i = Some pe /\ p_ions self !! i = Some pi
    /\ row = np_multiply
               (frac_coords
                  (step_site (prev_point vzero (lattices_of self convert) rows i)
                     (step_lattice s convert) (step_total s pe pi convert)))
               (abc (step_lattice s convert)).
Proof.
  intros WF Hnd Hrows Hi.
  pose proof (same_branch_Ok_nonempty _ _ _ WF Hrows) as Hne.
  rewrite (same_branch_track _ _ WF Hne) in Hrows. injection Hrows as <-.
  pose proof (lookup_lt_Some _ _ _ Hi) as Hlt. rewrite length_track_rows in Hlt.
  destruct (lookup_lt_is_Some_2 _ _ Hlt) as [[l p] Hstep].
  rewrite (track_rows_step _ vzero i l p (steps_nondegenerate _ _ Hnd) Hstep) in Hi.
  rewrite (steps_of_fst _ _ WF) in Hi.
  rewrite steps_of_lookup in Hstep.
  destruct (structures self !! i) as [s|]; simpl in Hstep; [|discriminate].
  destruct (p_elecs self !! i) as [pe|]; simpl in Hstep; [|discriminate].
  destruct (p_ions self !! i) as [pi|]; simpl in Hstep; [|discriminate].
  injection Hstep as <- <-. injection Hi as <-.
  now exists s, pe, pi.
Qed.

Lemma lattice_quanta_steps (self : Polarization) (convert : bool) :
  get_lattice_quanta self convert = Ok (map abc (lattices_of self convert)).
Proof.
  unfold get_lattice_quanta, lattices_of. destruct convert; simpl.
  - replace (length (structures self)) with (length (map lattice (structures self)))
      by apply length_map.
    rewrite rescale_lattices_all
      by now rewrite length_unit_factors, length_volumes_of, length_map.
    simpl. f_equal. rewrite !map_map. apply list_eq. intros i.
    change (map ?f ?l) with (f <$> l). rewrite !list_lookup_fmap, lookup_zip_with.
    rewrite list_lookup_fmap.
    destruct (structures self !! i) as [s|] eqn:Hs; simpl; [|reflexivity].
    now rewrite (unit_factors_lookup _ _ _ (volumes_of_lookup _ _ _ Hs)).
  - now rewrite !map_map.
Qed.

Lemma pelecs_pions_sum (self : Polarization) (convert : bool) (i : nat) (s : Structure)
    (pe pi pe' pi' : vec3) :
  structures self !! i = Some s -> p_elecs self !! i = Some pe -> p_ions self !! i = Some pi ->
  (get_pelecs_and_pions self convert).1 !! i = Some pe' ->
  (get_pelecs_and_pions self convert).2 !! i = Some pi' ->
  vadd pe' pi' = step_total s pe pi convert.
Proof.
  intros Hs He Hi He' Hi'. unfold get_pelecs_and_pions in *.
  destruct convert; simpl in *.
  - rewrite lookup_zip_with, (unit_factors_lookup _ _ _ (volumes_of_lookup _ _ _ Hs)) in He'.
    rewrite lookup_zip_with, (unit_factors_lookup _ _ _ (volumes_of_lookup _ _ _ Hs)) in Hi'.
    rewrite He in He'. rewrite Hi in Hi'. simpl in *.
    injection He' as <-. injection Hi' as <-.
    apply vec3_eq; unfold unit_factor; simpl; ring.
  - congruence.
Qed.

(** X8.  On a track whose cells all have non-zero volume, every row that
    [get_same_branch_polarization_data] returns is the total dipole of its
    step (the sum of the rows that [get_pelecs_and_pions] returns in the same
    units) plus a whole number of the quanta that [get_lattice_quanta] returns
    for the step, direction by direction: branch selection changes a dipole
    only by integer multiples of the quantum. *)
Theorem same_branch_integer_quanta (self : Polarization) (convert_to_muC_per_cm2 : bool)
    (rows quanta : list vec3) (i : nat) (row q pe pi : vec3) :
  well_formed self ->
  (forall s, s ∈ structures self -> det (lattice s) <> 0) ->
  get_same_branch_polarization_data self convert_to_muC_per_cm2 = Ok rows ->
  get_lattice_quanta self convert_to_muC_per_cm2 = Ok quanta ->
  rows !! i = Some row -> quanta !! i = Some q ->
  (get_pelecs_and_pions self convert_to_muC_per_cm2).1 !! i = Some pe ->
  (get_pelecs_and_pions self convert_to_muC_per_cm2).2 !! i = Some pi ->
  exists n : Z * Z * Z, row = vadd (vadd pe pi) (np_multiply (zvec n) q).
Proof.
  intros WF Hdet Hrows Hq Hi Hqi Hpe Hpi.
  assert (Hnd : forall s, s ∈ structures self
                  -> nondegenerate (step_lattice s convert_to_muC_per_cm2))
    by (intros s Hs; apply step_lattice_nondegenerate; now apply Hdet).
  destruct (same_branch_row _ _ _ _ _ WF Hnd Hrows Hi) as [s [pe0 [pi0 [Hs [He0 [Hi0 ->]]]]]].
  rewrite lattice_quanta_steps in Hq. injection Hq as <-.
  unfold lattices_of in Hqi. rewrite map_map in Hqi.
  change (map ?f ?l) with (f <$> l) in Hqi.
  rewrite list_lookup_fmap, Hs in Hqi. simpl in Hqi. injection Hqi as <-.
  rewrite (pelecs_pions_sum _ _ _ _ _ _ _ _ Hs He0 Hi0 Hpe Hpi).
  destruct (step_site_image
              (prev_point vzero (lattices_of self convert_to_muC_per_cm2) rows i)
              (step_lattice s convert_to_muC_per_cm2)
              (step_total s pe0 pi0 convert_to_muC_per_cm2)) as [n Hn].
  exists n. rewrite Hn.
  assert (Hs' : s ∈ structures self) by now apply list_elem_of_lookup_2 in Hs.
  rewrite <- (multiply_divide (step_total s pe0 pi0 convert_to_muC_per_cm2)
                (abc (step_lattice s convert_to_muC_per_cm2)) (Hnd s Hs')) at 2.
  apply vec3_eq; simpl; ring.
Qed.

Lemma two_step_well_formed : well_formed two_step_track.
Proof. split; reflexivity. Qed.

Lemma two_step_det (s : Structure) :
  s ∈ structures two_step_track -> det (lattice s) <> 0.
Proof.
  intros Hs. apply list_elem_of_In in Hs. simpl in Hs.
  destruct Hs as [<-|[<-|[]]]; simpl; rewrite det_cubic5; lra.
Qed.

Lemma same_branch_integer_quanta_witness :
  exists n : Z * Z * Z,
    mk3 0 0 1 = vadd (vadd (mk3 0 0 1) vzero) (np_multiply (zvec n) (abc cubic5)).
Proof.
  apply (same_branch_integer_quanta two_step_track false [vzero; mk3 0 0 1]
           [abc cubic5; abc cubic5] 1 (mk3 0 0 1) (abc cubic5) (mk3 0 0 1) vzero).
  - exact two_step_well_formed.
  - exact two_step_det.
  - exact same_branch_two_step.
  - reflexivity.
  - reflexivity.
  - reflexivity.
  - reflexivity.
  - reflexivity.
Defined.

Lemma vadd_zvec_zero (f : vec3) : vadd f (zvec (0, 0, 0)%Z) = f.
Proof. destruct f. apply vec3_eq; simpl; ring. Qed.

Lemma vadd_zvec_assoc (f : vec3) (n m : Z * Z * Z) :
  vadd (vadd f (zvec n)) (zvec m) = vadd f (zvec (zadd3 n m)).
Proof. rewrite zvec_zadd3. apply vec3_eq; simpl; ring. Qed.

Lemma det_nondegenerate (l : Lattice) : det l <> 0 -> nondegenerate l.
Proof. intros Hd d. pose proof (det_rows_nonzero l d Hd). lra. Qed.

(** X9.  Every row that [get_same_branch_polarization_data] returns is, among
    all the periodic images of its step (the row moved by whole numbers of
    quanta, seen as a point of the step's cell), one closest to the reference
    point of the step: the origin for step 0, the point of the row returned
    for the step before for every later step. *)
Theorem same_branch_nearest_to_previous (self : Polarization)
    (convert_to_muC_per_cm2 : bool) (rows : list vec3) (i : nat) (s : Structure)
    (row : vec3) (m : Z * Z * Z) :
  well_formed self ->
  (forall s, s ∈ structures self -> det (step_lattice s convert_to_muC_per_cm2) <> 0) ->
  get_same_branch_polarization_data self convert_to_muC_per_cm2 = Ok rows ->
  structures self !! i = Some s -> rows !! i = Some row ->
  let l := step_lattice s convert_to_muC_per_cm2 in
  let ref := prev_point vzero (lattices_of self convert_to_muC_per_cm2) rows i in
  norm (vsub (row_point l row) ref)
  <= norm (vsub (get_cartesian_coords l (vadd (np_divide row (abc l)) (zvec m))) ref).
Proof.
  intros WF Hdet Hrows Hs Hi l ref.
  assert (Hnd : forall s, s ∈ structures self
                  -> nondegenerate (step_lattice s convert_to_muC_per_cm2))
    by (intros s' Hs'; apply det_nondegenerate; now apply Hdet).
  destruct (same_branch_row _ _ _ _ _ WF Hnd Hrows Hi) as [s' [pe [pi [Hs' [_ [_ Hrow]]]]]].
  rewrite Hs in Hs'. injection Hs' as <-.
  fold l ref in Hrow.
  assert (Hin : s ∈ structures self) by now apply list_elem_of_lookup_2 in Hs.
  set (p := step_total s pe pi convert_to_muC_per_cm2) in *.
  apply norm_le_of_norm2_le. rewrite Hrow.
  rewrite (step_site_point ref l p (Hnd s Hin)).
  rewrite (divide_multiply _ _ (Hnd s Hin)).
  destruct (step_site_image ref l p) as [n Hn]. rewrite Hn.
  rewrite vadd_zvec_assoc.
  apply step_site_optimal. now apply Hdet.
Qed.

Lemma same_branch_nearest_to_previous_witness :
  let ref := prev_point vzero (lattices_of two_step_track false) [vzero; mk3 0 0 1] 1 in
  norm (vsub (row_point cubic5 (mk3 0 0 1)) ref)
  <= norm (vsub (get_cartesian_coords cubic5
                   (vadd (np_divide (mk3 0 0 1) (abc cubic5)) (zvec (0, 0, -1)%Z))) ref).
Proof.
  apply (same_branch_nearest_to_previous two_step_track false [vzero; mk3 0 0 1] 1
           empty_cubic5 (mk3 0 0 1) (0, 0, -1)%Z).
  - exact two_step_well_formed.
  - exact two_step_det.
  - exact same_branch_two_step.
  - reflexivity.
  - reflexivity.
Defined.

Lemma norm_lt_norm2 (u v : vec3) : norm u < norm v -> norm2 u < norm2 v.
Proof.
  intros H. rewrite <- (norm_sq u), <- (norm_sq v).
  pose proof (norm_nonneg u). pose proof (norm_nonneg v). nra.
Qed.

Lemma step_site_unambiguous (ref : vec3) (l : Lattice) (p : vec3) :
  det l <> 0 ->
  (forall m, m <> (0, 0, 0)%Z ->
     norm (vsub (row_point l p) ref)
     < norm (vsub (get_cartesian_coords l (vadd (np_divide p (abc l)) (zvec m))) ref)) ->
  np_multiply (frac_coords (step_site ref l p)) (abc l) = p.
Proof.
  intros Hd Hstrict.
  destruct (step_site_image ref l p) as [n Hn].
  destruct (decide (n = (0, 0, 0)%Z)) as [->|Hn0].
  - rewrite Hn, vadd_zvec_zero. apply multiply_divide. now apply det_nondegenerate.
  - exfalso. apply Hstrict, norm_lt_norm2 in Hn0.
    pose proof (step_site_optimal ref l p (0, 0, 0)%Z Hd) as Hopt.
    rewrite vadd_zvec_zero in Hopt. unfold coords in Hopt.
    change (site_lattice (step_site ref l p)) with l in Hopt.
    rewrite Hn in Hopt. unfold row_point in Hn0. lra.
Qed.

Lemma prev_point_ext (prev : vec3) (lattices : list Lattice) (rows rows' : list vec3)
    (i : nat) :
  (forall j, i = S j -> rows !! j = rows' !! j) ->
  prev_point prev lattices rows i = prev_point prev lattices rows' i.
Proof. destruct i as [|j]; intros H; simpl; [reflexivity|]. now rewrite (H j). Qed.

(** X10.  When at every step the total dipole, seen as a point of the step's
    cell, is strictly closer to its reference point (the origin for step 0,
    the point of the total dipole of the step before afterwards) than each of
    its other periodic images, [get_same_branch_polarization_data] returns the
    total dipoles unchanged. *)
Theorem same_branch_unambiguous (self : Polarization) (convert_to_muC_per_cm2 : bool) :
  well_formed self -> p_elecs self <> [] ->
  (forall s, s ∈ structures self -> det (step_lattice s convert_to_muC_per_cm2) <> 0) ->
  (forall i l p m,
     lattices_of self convert_to_muC_per_cm2 !! i = Some l ->
     totals_of self convert_to_muC_per_cm2 !! i = Some p ->
     m <> (0, 0, 0)%Z ->
     let ref := prev_point vzero (lattices_of self convert_to_muC_per_cm2)
                  (totals_of self convert_to_muC_per_cm2) i in
     norm (vsub (row_point l p) ref)
     < norm (vsub (get_cartesian_coords l (vadd (np_divide p (abc l)) (zvec m))) ref)) ->
  get_same_branch_polarization_data self convert_to_muC_per_cm2
  = Ok (totals_of self convert_to_muC_per_cm2).
Proof.
  intros WF Hne Hdet Hstrict.
  rewrite (same_branch_track _ _ WF Hne). f_equal.
  set (convert := convert_to_muC_per_cm2) in *.
  assert (Hnd : forall s, s ∈ structures self -> nondegenerate (step_lattice s convert))
    by (intros s' Hs'; apply det_nondegenerate; now apply Hdet).
  assert (Hstep : forall i,
            (forall j, i = S j ->
               track_rows vzero (steps_of self convert) !! j = totals_of self convert !! j) ->
            track_rows vzero (steps_of self convert) !! i = totals_of self convert !! i).
  { intros i Hprev.
    destruct (steps_of self convert !! i) as [[l p]|] eqn:Hi.
    - assert (Hl : lattices_of self convert !! i = Some l)
        by (rewrite <- (steps_of_fst _ _ WF), list_lookup_fmap, Hi; reflexivity).
      assert (Hp : totals_of self convert !! i = Some p)
        by (rewrite <- steps_of_snd, list_lookup_fmap, Hi; reflexivity).
      rewrite (track_rows_step _ vzero i l p (steps_nondegenerate _ _ Hnd) Hi).
      rewrite (steps_of_fst _ _ WF), Hp. f_equal.
      rewrite (prev_point_ext _ _ _ (totals_of self convert) _ Hprev).
      apply step_site_unambiguous.
      + apply list_elem_of_lookup_2 in Hl. unfold lattices_of in Hl.
        apply list_elem_of_fmap in Hl as [s [-> Hs]]. now apply Hdet.
      + intros m Hm. now apply Hstrict.
    - rewrite <- steps_of_snd, list_lookup_fmap, Hi. simpl.
      apply lookup_ge_None. rewrite length_track_rows. now apply lookup_ge_None. }
  apply list_eq. intros i. induction i as [|j IH]; apply Hstep.
  - intros j Hj. discriminate.
  - intros j' Hj. injection Hj as <-. exact IH.
Qed.

Lemma nonzero_int_square (k : Z) : k <> 0%Z -> 1 <= IZR k * IZR k.
Proof.
  intros Hk.
  assert (H : (k <= -1 \/ 1 <= k)%Z) by lia.
  destruct H as [H|H]; apply IZR_le in H; simpl in H; nra.
Qed.

Lemma two_step_unambiguous (i : nat) (l : Lattice) (p : vec3) (m : Z * Z * Z) :
  lattices_of two_step_track false !! i = Some l ->
  totals_of two_step_track false !! i = Some p ->
  m <> (0, 0, 0)%Z ->
  let ref := prev_point vzero (lattices_of two_step_track false)
               (totals_of two_step_track false) i in
  norm (vsub (row_point l p) ref)
  < norm (vsub (get_cartesian_coords l (vadd (np_divide p (abc l)) (zvec m))) ref).
Proof.
  intros Hl Hp Hm ref. destruct m as [[ma mb] mc].
  assert (Hsq : 1 <= IZR ma * IZR ma + IZR mb * IZR mb + IZR mc * IZR mc).
  { pose proof (Rle_0_sqr (IZR ma)). pose proof (Rle_0_sqr (IZR mb)).
    pose proof (Rle_0_sqr (IZR mc)). unfold Rsqr in *.
    destruct (decide (ma = 0%Z)) as [->|Ha];
      [|pose proof (nonzero_int_square ma Ha); lra].
    destruct (decide (mb = 0%Z)) as [->|Hb];
      [|pose proof (nonzero_int_square mb Hb); lra].
    destruct (decide (mc = 0%Z)) as [->|Hc];
      [congruence|pose proof (nonzero_int_square mc Hc); lra]. }
  unfold norm. apply sqrt_lt_1_alt.
  destruct i as [|[|i]]; [| |discriminate].
  - simpl in Hl, Hp. injection Hl as <-. injection Hp as <-.
    subst ref. unfold row_point. simpl prev_point. rewrite abc_cubic5.
    unfold norm2, dot, cubic5; simpl. split; nra.
  - simpl in Hl, Hp. injection Hl as <-. injection Hp as <-.
    subst ref. unfold row_point. simpl prev_point. unfold row_point. rewrite abc_cubic5.
    unfold norm2, dot, cubic5; simpl.
    pose proof (Rle_0_sqr (IZR ma)). pose proof (Rle_0_sqr (IZR mb)). unfold Rsqr in *.
    destruct (decide (mc = 0%Z)) as [->|Hc].
    + split; nra.
    + assert (H' : (mc <= -1 \/ 1 <= mc)%Z) by lia.
      destruct H' as [H'|H']; apply IZR_le in H'; simpl in H'; split; nra.
Qed.

Lemma same_branch_unambiguous_witness :
  get_same_branch_polarization_data two_step_track false
  = Ok (totals_of two_step_track false).
Proof.
  apply (same_branch_unambiguous two_step_track false).
  - exact two_step_well_formed.
  - discriminate.
  - exact two_step_det.
  - exact two_step_unambiguous.
Defined.

(* ===================================================================== *)
(** ** The polarization change, the empty track, smoothness *)

Lemma vscale_r_l (v : vec3) (k : R) : vscale_r v k = vscale_l k v.
Proof. apply vec3_eq; simpl; ring. Qed.

Lemma vdiv_r_l (v : vec3) (k : R) : vdiv_r v k = vscale_l (/ k) v.
Proof. apply vec3_eq; simpl; unfold Rdiv; ring. Qed.

Lemma norm_unit (a : vec3) : norm a <> 0 -> norm (vdiv_r a (norm a)) = 1.
Proof.
  intros H. rewrite vdiv_r_l, norm_vscale_l.
  pose proof (norm_nonneg a).
  rewrite Rabs_pos_eq by (left; apply Rinv_0_lt_compat; lra).
  now field.
Qed.

Lemma norm_vzero : norm vzero = 0.
Proof. apply norm_eq; [lra|]. unfold norm2, dot; simpl; ring. Qed.

(** The combination [a * P[0] + b * P[1] + c * P[2]] of the unit vectors of a lattice. *)
Definition along_units (l : Lattice) (P : vec3) : vec3 :=
  vadd (vadd (vscale_r (vdiv_r (row0 l) (norm (row0 l))) (c0 P))
             (vscale_r (vdiv_r (row1 l) (norm (row1 l))) (c1 P)))
       (vscale_r (vdiv_r (row2 l) (norm (row2 l))) (c2 P)).

Lemma change_norm_unfold (self : Polarization) :
  get_polarization_change_norm self
  = polar ← py_last (structures self);
    P ← get_polarization_change self;
    Ok (norm (along_units (lattice polar) P)).
Proof. reflexivity. Qed.

Lemma along_units_bound (l : Lattice) (P : vec3) :
  det l <> 0 ->
  norm (along_units l P) <= Rabs (c0 P) + Rabs (c1 P) + Rabs (c2 P).
Proof.
  intros Hd. unfold along_units.
  pose proof (det_rows_nonzero l Xa Hd) as Ha.
  pose proof (det_rows_nonzero l Xb Hd) as Hb.
  pose proof (det_rows_nonzero l Xc Hd) as Hc. simpl in Ha, Hb, Hc.
  eapply Rle_trans; [apply norm_triangle|].
  eapply Rle_trans; [apply Rplus_le_compat_r, norm_triangle|].
  rewrite !vscale_r_l, !norm_vscale_l, !norm_unit by lra. lra.
Qed.

Lemma along_units_orthogonal (l : Lattice) (P : vec3) :
  det l <> 0 ->
  orthogonal_axis l Xa -> orthogonal_axis l Xb ->
  norm (along_units l P) = norm P.
Proof.
  intros Hd [Hab Hac] [_ Hbc].
  pose proof (det_rows_nonzero l Xa Hd) as Ha.
  pose proof (det_rows_nonzero l Xb Hd) as Hb.
  pose proof (det_rows_nonzero l Xc Hd) as Hc. simpl in Ha, Hb, Hc.
  assert (E : norm2 (along_units l P) = norm2 P); [|unfold norm; now rewrite E].
  pose proof (norm_sq (row0 l)) as Na. pose proof (norm_sq (row1 l)) as Nb.
  pose proof (norm_sq (row2 l)) as Nc.
  set (na := norm (row0 l)) in *. set (nb := norm (row1 l)) in *.
  set (nc := norm (row2 l)) in *.
  unfold along_units. fold na nb nc.
  destruct l as [[a0 a1 a2] [b0 b1 b2] [g0 g1 g2]], P as [x y z].
  unfold norm2, dot, vadd, vscale_r, vdiv_r in *; simpl in *.
  transitivity (x * x * ((a0 * a0 + a1 * a1 + a2 * a2) / (na * na))
                + y * y * ((b0 * b0 + b1 * b1 + b2 * b2) / (nb * nb))
                + z * z * ((g0 * g0 + g1 * g1 + g2 * g2) / (nc * nc))
                + 2 * x * y * (a0 * b0 + a1 * b1 + a2 * b2) / (na * nb)
                + 2 * x * z * (a0 * g0 + a1 * g1 + a2 * g2) / (na * nc)
                + 2 * y * z * (b0 * g0 + b1 * g1 + b2 * g2) / (nb * nc)).
  - field. lra.
  - rewrite Hab, Hac, Hbc, <- Na, <- Nb, <- Nc. field. lra.
Qed.

Lemma polarization_change_rows (self : Polarization) :
  well_formed self -> p_elecs self <> [] ->
  exists row rest last_row,
    get_same_branch_polarization_data self true = Ok (row :: rest)
    /\ last (row :: rest) = Some last_row
    /\ S (length rest) = length (p_elecs self)
    /\ get_polarization_change self = Ok (vsub last_row row).
Proof.
  intros WF Hne.
  destruct (same_branch_total self true WF Hne) as [row [rest [Htot Hlen]]].
  destruct (last (row :: rest)) as [last_row|] eqn:Hlast;
    [|apply last_None in Hlast; discriminate].
  exists row, rest, last_row. repeat split; try assumption.
  unfold get_polarization_change. rewrite Htot, bind_Ok.
  unfold py_last. rewrite Hlast. reflexivity.
Qed.

(** X12.  For a track of one step (with a cell of non-zero volume) the
    polarization change is the zero vector and its norm is 0: the last row and
    the first row are the same row. *)
Theorem polarization_change_one_step (self : Polarization) :
  well_formed self -> length (p_elecs self) = 1%nat ->
  (forall s, s ∈ structures self -> det (lattice s) <> 0) ->
  get_polarization_change self = Ok vzero
  /\ get_polarization_change_norm self = Ok 0.
Proof.
  intros WF Hlen Hdet.
  assert (Hne : p_elecs self <> []) by (intros E; rewrite E in Hlen; discriminate).
  destruct (polarization_change_rows self WF Hne) as [row [rest [lr [_ [Hlast [Hl HP]]]]]].
  assert (rest = []) by (destruct rest; [reflexivity|simpl in Hl; lia]). subst rest.
  simpl in Hlast. injection Hlast as <-.
  assert (HP0 : get_polarization_change self = Ok vzero).
  { rewrite HP. f_equal. apply vec3_eq; simpl; ring. }
  split; [exact HP0|].
  rewrite change_norm_unfold, HP0.
  destruct WF as [_ WF2].
  destruct (structures self) as [|s ss] eqn:Hs; [rewrite Hlen in WF2; discriminate|].
  destruct (last (s :: ss)) as [polar|] eqn:Hlast; [|apply last_None in Hlast; discriminate].
  unfold py_last. rewrite Hlast. simpl. f_equal.
  apply norm_eq; [lra|]. unfold along_units, norm2, dot; simpl. ring.
Qed.

Lemma polarization_change_one_step_witness :
  get_polarization_change one_quantum_track = Ok vzero
  /\ get_polarization_change_norm one_quantum_track = Ok 0.
Proof.
  apply (polarization_change_one_step one_quantum_track).
  - split; reflexivity.
  - reflexivity.
  - intros s Hs. apply list_elem_of_singleton in Hs. subst s.
    simpl. rewrite det_cubic5. lra.
Defined.

(** X13.  On a track whose cells all have non-zero volume,
    [get_polarization_change] returns a vector [P] and
    [get_polarization_change_norm] a number [r] with
    [0 <= r <= |P[0]| + |P[1]| + |P[2]|]; when the basis vectors of the polar
    (last) cell are mutually perpendicular, [r] is the Euclidean norm of
    [P]. *)
Theorem polarization_change_norm_bounds (self : Polarization) (polar : Structure) :
  well_formed self ->
  last (structures self) = Some polar ->
  (forall s, s ∈ structures self -> det (lattice s) <> 0) ->
  exists P r,
    get_polarization_change self = Ok P
    /\ get_polarization_change_norm self = Ok r
    /\ 0 <= r <= Rabs (c0 P) + Rabs (c1 P) + Rabs (c2 P)
    /\ (orthogonal_axis (lattice polar) Xa -> orthogonal_axis (lattice polar) Xb ->
        r = norm P).
Proof.
  intros WF Hlast Hdet.
  assert (Hne : p_elecs self <> []).
  { intros E. destruct WF as [_ WF2]. rewrite E in WF2.
    destruct (structures self); [discriminate|discriminate]. }
  destruct (polarization_change_rows self WF Hne) as [row [rest [lr [_ [_ [_ HP]]]]]].
  assert (Hd : det (lattice polar) <> 0)
    by (apply Hdet; now apply last_Some_elem_of).
  exists (vsub lr row), (norm (along_units (lattice polar) (vsub lr row))).
  split; [exact HP|]. split; [|split; [split|]].
  - rewrite change_norm_unfold, HP. unfold py_last. now rewrite Hlast.
  - apply norm_nonneg.
  - now apply along_units_bound.
  - intros Ha Hb. now apply along_units_orthogonal.
Qed.

Lemma polarization_change_norm_bounds_witness :
  exists P r,
    get_polarization_change two_step_track = Ok P
    /\ get_polarization_change_norm two_step_track = Ok r
    /\ 0 <= r <= Rabs (c0 P) + Rabs (c1 P) + Rabs (c2 P)
    /\ (orthogonal_axis cubic5 Xa -> orthogonal_axis cubic5 Xb -> r = norm P).
Proof.
  apply (polarization_change_norm_bounds two_step_track empty_cubic5).
  - exact two_step_well_formed.
  - reflexivity.
  - exact two_step_det.
Defined.

(** X14.  The constructor accepts the empty track, and for the empty track
    [get_pelecs_and_pions] returns two empty matrices and [get_lattice_quanta]
    an empty one, while [get_same_branch_polarization_data] (its loop runs
    once, since the length of an empty matrix is 1), [get_polarization_change]
    and [get_polarization_change_norm] raise [IndexError]. *)
Theorem empty_track_raises (convert_to_muC_per_cm2 : bool) :
  exists empty,
    Polarization_init [] [] [] = Ok empty
    /\ get_pelecs_and_pions empty convert_to_muC_per_cm2 = ([], [])
    /\ get_lattice_quanta empty convert_to_muC_per_cm2 = Ok []
    /\ get_same_branch_polarization_data empty convert_to_muC_per_cm2 = Raise IndexError
    /\ get_polarization_change empty = Raise IndexError
    /\ get_polarization_change_norm empty = Raise IndexError.
Proof.
  exists (mkPolarization [] [] []).
  destruct convert_to_muC_per_cm2; repeat split; reflexivity.
Qed.

Section MoreSplineProperties.

Context {Spline : Type}.
Variable UnivariateSpline : list R -> list R -> nat -> result Spline.
Variable spline_eval : Spline -> R -> R.
Variable spline_derivative : Spline -> Spline.

Lemma same_branch_splines_fitted (self : Polarization) (tot : list vec3) :
  get_same_branch_polarization_data self true = Ok tot ->
  same_branch_splines UnivariateSpline self
  = Ok (fitted UnivariateSpline tot Xa, fitted UnivariateSpline tot Xb,
        fitted UnivariateSpline tot Xc).
Proof.
  intros Htot. unfold same_branch_splines. rewrite Htot, bind_Ok. cbv beta zeta.
  rewrite !fit_column_fitted. reflexivity.
Qed.

(** X15.  [Polarization.smoothness] never takes its [except] branch: it never
    prints and never returns [None].  (The call it guards,
    [same_branch_splines], raises only when the same-branch data cannot be
    computed, and then the unguarded first line has raised already.) *)
Theorem polarization_smoothness_never_soft (self : Polarization) :
  snd (Polarization_smoothness UnivariateSpline spline_eval self) = []
  /\ fst (Polarization_smoothness UnivariateSpline spline_eval self) <> Ok None.
Proof.
  unfold Polarization_smoothness.
  destruct (get_same_branch_polarization_data self true) as [tot|e] eqn:Htot;
    [|split; [reflexivity|discriminate]].
  rewrite (same_branch_splines_fitted self tot Htot).
  split; [reflexivity|]. simpl.
  destruct (fitted UnivariateSpline tot Xa); [|discriminate].
  destruct (fitted UnivariateSpline tot Xb); [|discriminate].
  destruct (fitted UnivariateSpline tot Xc); discriminate.
Qed.

(** The root mean square of the deviations of one direction. *)
Definition rms_deviation (sp : Spline) (d : axis) (tot : list vec3) : R :=
  sqrt (sum_R (map (fun x => x * x) (deviations spline_eval sp d tot)) / INR (length tot)).

Lemma rms_of_deviations (sp : Spline) (d : axis) (tot : list vec3) :
  rms_of (zip_with Rminus (spline_call spline_eval sp (range (length tot))) (column d tot))
         (length tot)
  = rms_deviation sp d tot.
Proof.
  unfold rms_of, rms_deviation. rewrite np_sum_sum_R. do 3 f_equal.
  apply list_eq. intros i. unfold np_square, deviations, column.
  change (map ?f ?l) with (f <$> l).
  rewrite !list_lookup_fmap, lookup_zip_with, list_lookup_imap, spline_call_range_lookup.
  rewrite list_lookup_fmap.
  destruct (tot !! i) as [row|] eqn:Hrow; simpl.
  - apply lookup_lt_Some in Hrow.
    destruct (decide (i < length tot)%nat); [simpl; f_equal; ring|lia].
  - destruct (decide _); reflexivity.
Qed.

(** X16.  When the same-branch data can be computed, [Polarization.smoothness]
    returns, if the fit succeeded in all three directions, the three root mean
    squares of the deviations between data and spline, each non-negative; if
    the fit of any direction failed, it raises [TypeError] (the missing spline
    is called). *)
Theorem polarization_smoothness_cases (self : Polarization) (tot : list vec3) :
  get_same_branch_polarization_data self true = Ok tot ->
  match fitted UnivariateSpline tot Xa, fitted UnivariateSpline tot Xb,
        fitted UnivariateSpline tot Xc with
  | Some sa, Some sb, Some sc =>
      Polarization_smoothness UnivariateSpline spline_eval self
      = (Ok (Some [rms_deviation sa Xa tot; rms_deviation sb Xb tot;
                   rms_deviation sc Xc tot]), [])
      /\ 0 <= rms_deviation sa Xa tot /\ 0 <= rms_deviation sb Xb tot
      /\ 0 <= rms_deviation sc Xc tot
  | _, _, _ =>
      Polarization_smoothness UnivariateSpline spline_eval self = (Raise TypeError, [])
  end.
Proof.
  intros Htot. unfold Polarization_smoothness.
  rewrite Htot, (same_branch_splines_fitted self tot Htot).
  destruct (fitted UnivariateSpline tot Xa) as [sa|]; [|reflexivity].
  destruct (fitted UnivariateSpline tot Xb) as [sb|]; [|reflexivity].
  destruct (fitted UnivariateSpline tot Xc) as [sc|]; [|reflexivity].
  split; [|repeat split; apply sqrt_pos].
  unfold call_optional. rewrite !bind_Ok. cbv zeta.
  now rewrite !rms_of_deviations.
Qed.

End MoreSplineProperties.

(** With the stand-in primitive the two-step track is too short for a fit. *)
Lemma polarization_smoothness_cases_witness :
  exists tot,
    get_same_branch_polarization_data two_step_track true = Ok tot
    /\ Polarization_smoothness toy_fit toy_eval two_step_track = (Raise TypeError, []).
Proof.
  destruct (same_branch_total two_step_track true two_step_well_formed) as [row [rest [H Hl]]];
    [discriminate|].
  exists (row :: rest). split; [exact H|].
  pose proof (polarization_smoothness_cases toy_fit toy_eval two_step_track (row :: rest) H)
    as Hc.
  assert (rest <> []) as Hrest by (intros ->; discriminate).
  destruct rest as [|r2 [|r3 rest]]; [congruence| |simpl in Hl; discriminate].
  exact Hc.
Defined.

(* ===================================================================== *)
(** ** The energy trend: largest deviation and end points *)

Lemma sum_R_squares_nonneg (xs : list R) : 0 <= sum_R (map (fun x => x * x) xs).
Proof.
  induction xs as [|y xs IH]; simpl; [lra|].
  pose proof (Rle_0_sqr y). unfold Rsqr in *. lra.
Qed.

Lemma square_le_sum_squares (x : R) (xs : list R) :
  x ∈ xs -> x * x <= sum_R (map (fun x => x * x) xs).
Proof.
  induction xs as [|y xs IH]; intros Hin; [inversion Hin|].
  simpl. apply elem_of_cons in Hin as [->|Hin].
  - pose proof (sum_R_squares_nonneg xs). lra.
  - pose proof (Rle_0_sqr y). unfold Rsqr in *. specialize (IH Hin). lra.
Qed.

Section EnergyTrendProperties.

Context {Spline : Type}.
Variable UnivariateSpline : list R -> list R -> nat -> result Spline.
Variable spline_eval : Spline -> R -> R.
Variable spline_derivative : Spline -> Spline.

(** Energy minus spline prediction, step by step. *)
Definition energy_deviations (sp : Spline) (es : list R) : list R :=
  imap (fun i e => e - spline_eval sp (INR i)) es.

Lemma energy_deviations_zip (sp : Spline) (es : list R) :
  zip_with Rminus es (spline_call spline_eval sp (range (length es)))
  = energy_deviations sp es.
Proof.
  apply list_eq. intros i. unfold energy_deviations.
  rewrite lookup_zip_with, list_lookup_imap, spline_call_range_lookup.
  destruct (es !! i) as [e|] eqn:He; simpl; [|reflexivity].
  apply lookup_lt_Some in He.
  destruct (decide (i < length es)%nat); [reflexivity|lia].
Qed.

Lemma energy_squares (sp : Spline) (es : list R) :
  np_square (zip_with Rminus (spline_call spline_eval sp (range (length es))) es)
  = map (fun x => x * x) (energy_deviations sp es).
Proof.
  apply list_eq. intros i. unfold np_square, energy_deviations.
  change (map ?f ?l) with (f <$> l).
  rewrite !list_lookup_fmap, lookup_zip_with, list_lookup_imap, spline_call_range_lookup.
  destruct (es !! i) as [e|] eqn:He; simpl.
  - apply lookup_lt_Some in He.
    destruct (decide (i < length es)%nat); [simpl; f_equal; ring|lia].
  - destruct (decide _); reflexivity.
Qed.

(** X17.  When the spline of the energies can be built (and there is at least
    one energy), [max_spline_jump] returns the largest deviation of an energy
    from the spline, [smoothness] prints nothing and returns the root mean
    square of the deviations (the square root of the sum of their squares
    divided by the number [L] of energies), and the largest deviation is at
    most [sqrt(L)] times that root mean square. *)
Theorem energy_max_jump_bounded (self : EnergyTrend) (sp : Spline) :
  spline UnivariateSpline self = Ok sp -> energies self <> [] ->
  let devs := energy_deviations sp (energies self) in
  let L := length (energies self) in
  let rms := sqrt (sum_R (map (fun x => x * x) devs) / INR L) in
  exists v,
    max_spline_jump UnivariateSpline spline_eval self = Ok v
    /\ is_max_of v devs
    /\ smoothness UnivariateSpline spline_eval self = (Ok (Some rms), [])
    /\ v <= sqrt (INR L) * rms.
Proof.
  intros Hsp Hne. cbv zeta.
  unfold max_spline_jump, smoothness. rewrite Hsp, bind_Ok. cbv zeta.
  rewrite energy_deviations_zip, np_sum_sum_R, energy_squares.
  destruct (py_max_spec (energy_deviations sp (energies self))) as [v [Hv Hmax]].
  { unfold energy_deviations. destruct (energies self); [congruence|discriminate]. }
  exists v. split; [exact Hv|]. split; [exact Hmax|]. split; [reflexivity|].
  set (Sq := sum_R (map (fun x => x * x) (energy_deviations sp (energies self)))).
  set (L := INR (length (energies self))).
  assert (HL : 0 < L).
  { unfold L. apply lt_0_INR. destruct (energies self); [congruence|simpl; lia]. }
  assert (HS : v * v <= Sq) by (apply square_le_sum_squares, Hmax).
  assert (HS0 : 0 <= Sq) by apply sum_R_squares_nonneg.
  rewrite <- sqrt_mult_alt by lra.
  replace (L * (Sq / L)) with Sq by (field; lra).
  apply Rle_trans with (Rabs v); [apply Rle_abs|].
  rewrite <- sqrt_sq_abs. now apply sqrt_le_1_alt.
Qed.

(** X18.  When the spline of the energies can be built (and there is at least
    one energy), [endpoints_minima] prints nothing and returns two flags:
    "polar" holds exactly when the absolute slope of the spline at the last
    step, [L - 1], is at most the cutoff, "nonpolar" exactly when the absolute
    slope at step 0 is. *)
Theorem endpoints_minima_flags (self : EnergyTrend) (sp : Spline) (slope_cutoff : R) :
  spline UnivariateSpline self = Ok sp -> energies self <> [] ->
  let der := spline_derivative sp in
  let slope_polar := spline_eval der (INR (length (energies self) - 1)) in
  let slope_nonpolar := spline_eval der (INR 0) in
  endpoints_minima UnivariateSpline spline_eval spline_derivative self slope_cutoff
  = (Ok (Some (mkMinima (Rleb (Rabs slope_polar) slope_cutoff)
                        (Rleb (Rabs slope_nonpolar) slope_cutoff))), [])
  /\ (Rabs slope_polar <= slope_cutoff <-> Rleb (Rabs slope_polar) slope_cutoff = true)
  /\ (Rabs slope_nonpolar <= slope_cutoff <-> Rleb (Rabs slope_nonpolar) slope_cutoff = true).
Proof.
  intros Hsp Hne der sp_polar sp_nonpolar.
  split; [|split; unfold Rleb; destruct (Rle_dec _ _); split; intros; try assumption;
           try reflexivity; try discriminate; contradiction].
  unfold endpoints_minima. rewrite Hsp. cbv zeta. fold der.
  destruct (energies self) as [|e es] eqn:He; [congruence|].
  assert (Hlast : py_last (spline_call spline_eval der (range (length (e :: es))))
                  = Ok sp_polar).
  { unfold py_last. rewrite last_lookup.
    unfold spline_call, range. rewrite !length_map, length_seq.
    change (map ?f ?l) with (f <$> l). rewrite !list_lookup_fmap.
    rewrite lookup_seq_lt by (simpl; lia). simpl.
    unfold sp_polar. simpl. now rewrite Nat.sub_0_r. }
  assert (Hfirst : py_index (spline_call spline_eval der (range (length (e :: es)))) 0
                   = Ok sp_nonpolar) by reflexivity.
  now rewrite Hlast, Hfirst.
Qed.

End EnergyTrendProperties.

(** Five energies, enough for the stand-in primitive at degree 4. *)
Definition five_energies : EnergyTrend := mkEnergyTrend [1; 2; 3; 4; 5].

Lemma energy_max_jump_bounded_witness :
  exists v,
    max_spline_jump toy_fit toy_eval five_energies = Ok v
    /\ is_max_of v (energy_deviations toy_eval tt (energies five_energies))
    /\ smoothness toy_fit toy_eval five_energies
       = (Ok (Some (sqrt (sum_R (map (fun x => x * x)
                                   (energy_deviations toy_eval tt (energies five_energies)))
                          / INR (length (energies five_energies))))), [])
    /\ v <= sqrt (INR (length (energies five_energies)))
            * sqrt (sum_R (map (fun x => x * x)
                             (energy_deviations toy_eval tt (energies five_energies)))
                    / INR (length (energies five_energies))).
Proof.
  apply (energy_max_jump_bounded toy_fit toy_eval five_energies tt).
  - reflexivity.
  - discriminate.
Defined.

Lemma endpoints_minima_flags_witness :
  endpoints_minima toy_fit toy_eval toy_derivative five_energies 0.005
  = (Ok (Some (mkMinima (Rleb (Rabs (toy_eval (toy_derivative tt) (INR (5 - 1)))) 0.005)
                        (Rleb (Rabs (toy_eval (toy_derivative tt) (INR 0))) 0.005))), []).
Proof.
  apply (endpoints_minima_flags toy_fit toy_eval toy_derivative five_energies tt 0.005).
  - reflexivity.
  - discriminate.
Defined.

(* ===================================================================== *)
(** ** Same-branch polarization: no jump exceeds half a quantum *)

(** The split of the squared length along one perpendicular basis vector. *)
Lemma orth_split (l : Lattice) (d : axis) (h : vec3) :
  orthogonal_axis l d ->
  exists rest : R,
    forall t, norm2 (get_cartesian_coords l (vadd h (vscale_l t (unit_axis d))))
              = (comp h d + t) * (comp h d + t)
                * comp (mk3 (norm2 (row0 l)) (norm2 (row1 l)) (norm2 (row2 l))) d
                + rest.
Proof.
  intros Ho. destruct h as [x y z]. destruct d; simpl.
  - exists (norm2 (get_cartesian_coords l (mk3 0 y z))). intros t.
    unfold vadd, vscale_l; simpl.
    rewrite (orth_split_a l _ _ _ Ho). now rewrite !Rmult_0_r, !Rplus_0_r, Rmult_1_r.
  - exists (norm2 (get_cartesian_coords l (mk3 x 0 z))). intros t.
    unfold vadd, vscale_l; simpl.
    rewrite (orth_split_b l _ _ _ Ho). now rewrite !Rmult_0_r, !Rplus_0_r, Rmult_1_r.
  - exists (norm2 (get_cartesian_coords l (mk3 x y 0))). intros t.
    unfold vadd, vscale_l; simpl.
    rewrite (orth_split_c l _ _ _ Ho). now rewrite !Rmult_0_r, !Rplus_0_r, Rmult_1_r.
Qed.

Lemma half_of_square (x N : R) :
  0 < N -> x * x * N <= (x + 1) * (x + 1) * N -> x * x * N <= (x + -1) * (x + -1) * N ->
  Rabs x <= 1 / 2.
Proof.
  intros HN H1 H2.
  assert (- (1 / 2) <= x) by nra.
  assert (x <= 1 / 2) by nra.
  apply Rabs_le. lra.
Qed.

(** Along a basis vector perpendicular to the other two, the site chosen lies
    within half a cell of the reference point. *)
Lemma step_site_half (g : vec3) (l : Lattice) (p : vec3) (d : axis) :
  det l <> 0 -> orthogonal_axis l d ->
  Rabs (comp (frac_coords (step_site (get_cartesian_coords l g) l p)) d - comp g d) <= 1 / 2.
Proof.
  intros Hd Ho.
  set (ref := get_cartesian_coords l g).
  destruct (step_site_image ref l p) as [n Hn].
  set (f := frac_coords (step_site ref l p)) in *.
  assert (Hopt : forall t : Z,
            norm2 (get_cartesian_coords l (vsub f g))
            <= norm2 (get_cartesian_coords l
                        (vadd (vsub f g) (vscale_l (IZR t) (unit_axis d))))).
  { intros t.
    set (e := match d with Xa => (t, 0, 0)%Z | Xb => (0, t, 0)%Z | Xc => (0, 0, t)%Z end).
    pose proof (step_site_optimal ref l p (zadd3 n e) Hd) as H.
    rewrite <- vadd_zvec_assoc, <- Hn in H. unfold coords in H.
    change (site_lattice (step_site ref l p)) with l in H. fold f in H.
    unfold ref in H. rewrite <- !cartesian_linear_sub in H.
    replace (vsub (vadd f (zvec e)) g)
      with (vadd (vsub f g) (vscale_l (IZR t) (unit_axis d))) in H; [exact H|].
    unfold e. destruct d; apply vec3_eq; simpl; ring. }
  destruct (orth_split l d (vsub f g) Ho) as [rest Hsplit].
  pose proof (Hopt 1%Z) as H1. pose proof (Hopt (-1)%Z) as H2.
  pose proof (Hsplit 0) as H0. rewrite !Hsplit in H1, H2.
  replace (vadd (vsub f g) (vscale_l 0 (unit_axis d))) with (vsub f g) in H0
    by (destruct d; apply vec3_eq; simpl; ring).
  rewrite H0 in H1, H2.
  replace (comp f d - comp g d) with (comp (vsub f g) d) by (destruct d; reflexivity).
  apply (half_of_square _ (comp (mk3 (norm2 (row0 l)) (norm2 (row1 l)) (norm2 (row2 l))) d)).
  - pose proof (norm2_row_pos l d Hd). destruct d; assumption.
  - rewrite Rplus_0_r in H1. lra.
  - rewrite Rplus_0_r in H2. lra.
Qed.

Lemma cartesian_vzero (l : Lattice) : get_cartesian_coords l vzero = vzero.
Proof. apply vec3_eq; simpl; ring. Qed.

Lemma comp_scaled_bound (x a : R) : 0 < a -> Rabs x <= 1 / 2 -> Rabs (x * a) <= a / 2.
Proof.
  intros Ha Hx. rewrite Rabs_mult, (Rabs_pos_eq a) by lra.
  pose proof (Rabs_pos x). nra.
Qed.

(** X19.  Along a lattice direction whose basis vector is perpendicular to
    the other two, the first row that [get_same_branch_polarization_data]
    returns is at most half a quantum from zero, and every later row whose cell
    is the cell of the step before is at most half a quantum from the row
    before it: no jump of the output exceeds half a quantum. *)
Theorem same_branch_half_quantum (self : Polarization) (convert_to_muC_per_cm2 : bool)
    (rows : list vec3) (i : nat) (s : Structure) (row : vec3) (d : axis) :
  well_formed self ->
  (forall s, s ∈ structures self -> det (step_lattice s convert_to_muC_per_cm2) <> 0) ->
  get_same_branch_polarization_data self convert_to_muC_per_cm2 = Ok rows ->
  structures self !! i = Some s -> rows !! i = Some row ->
  orthogonal_axis (step_lattice s convert_to_muC_per_cm2) d ->
  let quantum := comp (abc (step_lattice s convert_to_muC_per_cm2)) d in
  match i with
  | O => Rabs (comp row d) <= quantum / 2
  | S j =>
      forall s' row',
        structures self !! j = Some s' ->
        step_lattice s' convert_to_muC_per_cm2 = step_lattice s convert_to_muC_per_cm2 ->
        rows !! j = Some row' ->
        Rabs (comp row d - comp row' d) <= quantum / 2
  end.
Proof.
  intros WF Hdet Hrows Hs Hi Ho quantum.
  set (convert := convert_to_muC_per_cm2) in *.
  assert (Hnd : forall s, s ∈ structures self -> nondegenerate (step_lattice s convert))
    by (intros s0 Hs0; apply det_nondegenerate; now apply Hdet).
  destruct (same_branch_row _ _ _ _ _ WF Hnd Hrows Hi) as [s0 [pe [pi [Hs0 [_ [_ Hrow]]]]]].
  rewrite Hs in Hs0. injection Hs0 as <-.
  assert (Hin : s ∈ structures self) by now apply list_elem_of_lookup_2 in Hs.
  pose proof (Hdet s Hin) as Hd.
  pose proof (det_rows_nonzero _ d Hd) as Hq. fold quantum in Hq.
  set (l := step_lattice s convert) in *.
  set (p := step_total s pe pi convert) in *.
  destruct i as [|j].
  - simpl prev_point in Hrow. rewrite <- (cartesian_vzero l) in Hrow.
    pose proof (step_site_half vzero l p d Hd Ho) as H.
    replace (comp row d)
      with ((comp (frac_coords (step_site (get_cartesian_coords l vzero) l p)) d
             - comp vzero d) * quantum)
      by (rewrite Hrow; unfold quantum; destruct d; simpl; ring).
    now apply comp_scaled_bound.
  - intros s' row' Hs' Hl' Hj.
    assert (Hprev : prev_point vzero (lattices_of self convert) rows (S j)
                    = get_cartesian_coords l (np_divide row' (abc l))).
    { simpl. unfold lattices_of. change (map ?f ?x) with (f <$> x).
      rewrite list_lookup_fmap, Hs', Hj. simpl. now rewrite Hl'. }
    rewrite Hprev in Hrow.
    pose proof (step_site_half (np_divide row' (abc l)) l p d Hd Ho) as H.
    replace (comp row d - comp row' d)
      with ((comp (frac_coords (step_site (get_cartesian_coords l (np_divide row' (abc l)))
                                  l p)) d
             - comp (np_divide row' (abc l)) d) * quantum).
    + now apply comp_scaled_bound.
    + rewrite Hrow. unfold quantum in *. destruct d; simpl in *; field; lra.
Qed.

Lemma same_branch_half_quantum_witness :
  Rabs (comp (mk3 0 0 1) Xc - comp vzero Xc) <= comp (abc cubic5) Xc / 2.
Proof.
  assert (Ho : orthogonal_axis cubic5 Xc) by (split; unfold dot; simpl; ring).
  exact (same_branch_half_quantum two_step_track false [vzero; mk3 0 0 1] 1 empty_cubic5
           (mk3 0 0 1) Xc two_step_well_formed two_step_det same_branch_two_step
           eq_refl eq_refl Ho empty_cubic5 vzero eq_refl eq_refl eq_refl).
Defined.

(* ===================================================================== *)
(** ** Only the total dipole of a step is used *)

(** X29.  The same-branch polarization, the polarization change and its norm
    depend on the dipoles only through their sums [p_elec + p_ion]: two tracks
    with the same structures, as many steps and the same total dipole at each
    step give the same results, however the total is divided between the
    electronic and the ionic part. *)
Theorem same_branch_total_only (self self' : Polarization) (convert_to_muC_per_cm2 : bool) :
  structures self = structures self' ->
  length (p_elecs self) = length (p_elecs self') ->
  zip_with vadd (p_elecs self) (p_ions self) = zip_with vadd (p_elecs self') (p_ions self') ->
  get_same_branch_polarization_data self convert_to_muC_per_cm2
  = get_same_branch_polarization_data self' convert_to_muC_per_cm2
  /\ get_polarization_change self = get_polarization_change self'
  /\ get_polarization_change_norm self = get_polarization_change_norm self'.
Proof.
  intros Hs Hl Ht.
  assert (Hm : matrix_len (p_elecs self) = matrix_len (p_elecs self')).
  { destruct (p_elecs self), (p_elecs self'); try discriminate; [reflexivity|].
    simpl in *. lia. }
  assert (H : forall convert, get_same_branch_polarization_data self convert
                              = get_same_branch_polarization_data self' convert).
  { intros convert. rewrite !same_branch_unfold. cbv zeta. now rewrite Hs, Hm, Ht. }
  assert (Hc : get_polarization_change self = get_polarization_change self')
    by (unfold get_polarization_change; now rewrite H).
  split; [apply H|]. split; [exact Hc|].
  unfold get_polarization_change_norm. now rewrite Hs, Hc.
Qed.

(** The two-step track with the dipole of its second step counted as ionic. *)
Definition two_step_ionic : Polarization :=
  mkPolarization [vzero; vzero] [vzero; mk3 0 0 1] [empty_cubic5; empty_cubic5].

Lemma same_branch_total_only_witness :
  get_same_branch_polarization_data two_step_track false
  = get_same_branch_polarization_data two_step_ionic false
  /\ get_polarization_change two_step_track = get_polarization_change two_step_ionic
  /\ get_polarization_change_norm two_step_track
     = get_polarization_change_norm two_step_ionic.
Proof.
  apply (same_branch_total_only two_step_track two_step_ionic false).
  - reflexivity.
  - reflexivity.
  - simpl. do 2 f_equal. apply vec3_eq; simpl; ring.
Defined.

(* ===================================================================== *)
(** ** Same-branch polarization: quantum shifts and rounding

    On exact values a shift by whole quanta changes nothing
    ([same_branch_shift]).  The program computes in doubles, and the shifted
    dipole reaches the search with a rounding error.  This section proves that
    the output follows the error as long as every step has its nearest image
    by a margin, and shows on doubles what happens without the margin. *)

(** *** Cubic cells *)

(** A cubic cell of edge [e]. *)
Definition cubic (e : R) : Lattice := mkLattice (mk3 e 0 0) (mk3 0 e 0) (mk3 0 0 e).

Lemma abc_cubic (e : R) : abc (cubic e) = mk3 (Rabs e) (Rabs e) (Rabs e).
Proof.
  unfold abc, cubic; simpl.
  f_equal; apply norm_eq; try apply Rabs_pos; unfold norm2, dot; simpl;
    rewrite <- (Rabs_mult e e), Rabs_pos_eq by nra; ring.
Qed.

Lemma det_cubic (e : R) : det (cubic e) = e * e * e.
Proof. unfold cubic, det, dot, cross; simpl. ring. Qed.

Lemma det_cubic_nonzero (e : R) : e <> 0 -> det (cubic e) <> 0.
Proof.
  intros He. rewrite det_cubic.
  repeat apply Rmult_integral_contrapositive_currified; assumption.
Qed.

Lemma cartesian_cubic (e : R) (f : vec3) : get_cartesian_coords (cubic e) f = vscale_l e f.
Proof. apply vec3_eq; simpl; ring. Qed.

Lemma abs_cap_0 : abs_cap 0 = 0.
Proof.
  unfold abs_cap. rewrite Rmin_left by lra. apply Rmax_left. lra.
Qed.

Lemma angles_cubic (e : R) : angles (cubic e) = mk3 90 90 90.
Proof.
  assert (H : forall x, acos (abs_cap (0 / x)) * 180 / PI = 90).
  { intros x. unfold Rdiv at 2. rewrite Rmult_0_l, abs_cap_0, acos_0.
    pose proof PI_RGT_0. field. lra. }
  unfold angles, angle_deg, cubic; simpl.
  replace (dot (mk3 0 e 0) (mk3 0 0 e)) with 0 by (unfold dot; simpl; ring).
  replace (dot (mk3 0 0 e) (mk3 e 0 0)) with 0 by (unfold dot; simpl; ring).
  replace (dot (mk3 e 0 0) (mk3 0 e 0)) with 0 by (unfold dot; simpl; ring).
  now rewrite !H.
Qed.

Lemma rescaled_cubic (e u : R) : rescaled (cubic e) u = cubic (Rabs e * u).
Proof.
  unfold rescaled, from_lengths_and_angles. rewrite angles_cubic, abc_cubic. simpl.
  unfold from_parameters, radians.
  replace (90 * PI / 180) with (PI / 2) by field.
  rewrite cos_PI2, sin_PI2.
  replace ((0 * 0 - 0) / (1 * 1)) with 0 by field.
  rewrite abs_cap_0, acos_0, cos_PI2, sin_PI2.
  unfold cubic. f_equal; apply vec3_eq; simpl; ring.
Qed.

(** *** The nearest image under small errors *)

Lemma norm_vadd3 (a b c : vec3) : norm (vadd (vadd a b) c) <= norm a + norm b + norm c.
Proof.
  eapply Rle_trans; [apply norm_triangle|].
  pose proof (norm_triangle a b). lra.
Qed.

Lemma norm_vneg (v : vec3) : norm (vneg v) = norm v.
Proof. unfold norm. f_equal. unfold norm2, dot, vneg; simpl. ring. Qed.

Lemma cartesian_linear_add (l : Lattice) (f g : vec3) :
  get_cartesian_coords l (vadd f g)
  = vadd (get_cartesian_coords l f) (get_cartesian_coords l g).
Proof. apply vec3_eq; simpl; ring. Qed.

Lemma row_point_vadd (l : Lattice) (p q : vec3) :
  row_point l (vadd p q) = vadd (row_point l p) (row_point l q).
Proof. unfold row_point. apply vec3_eq; simpl; unfold Rdiv; ring. Qed.

Lemma np_divide_vadd (p q a : vec3) :
  np_divide (vadd p q) a = vadd (np_divide p a) (np_divide q a).
Proof. apply vec3_eq; simpl; unfold Rdiv; ring. Qed.

Lemma np_multiply_vadd (f g a : vec3) :
  np_multiply (vadd f g) a = vadd (np_multiply f a) (np_multiply g a).
Proof. apply vec3_eq; simpl; ring. Qed.

(** One turn of the loop, for a total dipole moved by whole quanta and by an
    error, and a reference point moved by an error: when the image found is
    nearest by more than twice the size of the errors, the same image is found,
    moved by the error of the dipole. *)
Lemma step_site_stable (l : Lattice) (r r' p p' delta : vec3) (k : Z * Z * Z) (e1 e2 : R) :
  det l <> 0 ->
  p' = vadd (vadd p (np_multiply (zvec k) (abc l))) delta ->
  norm (row_point l delta) <= e1 -> norm (vsub r' r) <= e2 ->
  (forall m, m <> (0, 0, 0)%Z ->
     norm (vsub (row_point l (np_multiply (frac_coords (step_site r l p)) (abc l))) r)
     + 2 * (e1 + e2)
     < norm (vsub (get_cartesian_coords l
                     (vadd (np_divide (np_multiply (frac_coords (step_site r l p)) (abc l))
                                      (abc l)) (zvec m))) r)) ->
  np_multiply (frac_coords (step_site r' l p')) (abc l)
  = vadd (np_multiply (frac_coords (step_site r l p)) (abc l)) delta.
Proof.
  intros Hd Hp' He1 He2 Hmargin.
  pose proof (det_nondegenerate l Hd) as Hnd.
  set (f := frac_coords (step_site r l p)) in *.
  destruct (step_site_image r l p) as [n Hn]. fold f in Hn.
  destruct (step_site_image r' l p') as [n' Hn'].
  set (d := np_divide delta (abc l)).
  assert (Hdiv : np_divide p' (abc l)
                 = vadd (vadd (np_divide p (abc l)) (zvec k)) d).
  { rewrite Hp', !np_divide_vadd, (divide_multiply _ _ Hnd). reflexivity. }
  set (m := zadd3 k (zsub3 n' n)).
  assert (Hf' : frac_coords (step_site r' l p') = vadd (vadd f (zvec m)) d).
  { rewrite Hn', Hdiv, Hn. unfold m. rewrite zvec_zadd3, zvec_zsub3.
    apply vec3_eq; simpl; ring. }
  destruct (decide (m = (0, 0, 0)%Z)) as [Hm|Hm].
  - rewrite Hf', Hm, vadd_zvec_zero, np_multiply_vadd. f_equal.
    unfold d. now apply multiply_divide.
  - exfalso. specialize (Hmargin m Hm).
    rewrite (divide_multiply _ _ Hnd) in Hmargin.
    unfold row_point in Hmargin. rewrite (divide_multiply _ _ Hnd) in Hmargin.
    pose proof (step_site_optimal r' l p' (zsub3 n k) Hd) as Hopt.
    apply norm_le_of_norm2_le in Hopt.
    unfold coords in Hopt.
    change (site_lattice (step_site r' l p')) with l in Hopt.
    rewrite Hf', Hdiv, zvec_zsub3 in Hopt.
    set (cf := get_cartesian_coords l f) in *.
    set (cm := get_cartesian_coords l (zvec m)) in *.
    set (cd := get_cartesian_coords l d) in *.
    assert (HA : get_cartesian_coords l (vadd (vadd f (zvec m)) d) = vadd (vadd cf cm) cd)
      by (unfold cf, cm, cd; now rewrite !cartesian_linear_add).
    assert (HB' : get_cartesian_coords l
                    (vadd (vadd (vadd (np_divide p (abc l)) (zvec k)) d)
                       (vsub (zvec n) (zvec k)))
                  = vadd cf cd).
    { unfold cf, cd. rewrite <- cartesian_linear_add. f_equal.
      rewrite Hn. apply vec3_eq; simpl; ring. }
    rewrite HA, HB' in Hopt.
    assert (Hcm : get_cartesian_coords l (vadd f (zvec m)) = vadd cf cm)
      by (unfold cf, cm; now rewrite cartesian_linear_add).
    rewrite Hcm in Hmargin.
    assert (Hcd : norm cd <= e1) by exact He1.
    (* the two triangle inequalities *)
    assert (T1 : norm (vsub (vadd cf cd) r') <= norm (vsub cf r) + norm cd + norm (vsub r' r)).
    { replace (vsub (vadd cf cd) r') with (vadd (vadd (vsub cf r) cd) (vneg (vsub r' r)))
        by (apply vec3_eq; simpl; ring).
      eapply Rle_trans; [apply norm_vadd3|]. rewrite norm_vneg. lra. }
    assert (T2 : norm (vsub (vadd cf cm) r)
                 <= norm (vsub (vadd (vadd cf cm) cd) r') + norm cd + norm (vsub r' r)).
    { replace (vsub (vadd cf cm) r)
        with (vadd (vadd (vsub (vadd (vadd cf cm) cd) r') (vneg cd)) (vsub r' r))
        by (apply vec3_eq; simpl; ring).
      eapply Rle_trans; [apply norm_vadd3|]. rewrite norm_vneg. lra. }
    lra.
Qed.

(** The same over a whole run of the loop: the lattices are those of [steps],
    the total dipole of each step is moved by whole quanta and by an error
    of size at most [eps] (as a point of the step's cell), and every image
    found for [steps] is nearest by more than [4 * eps]. *)
Lemma track_rows_stable (eps : R) (steps steps' : list (Lattice * vec3))
    (deltas : list vec3) :
  0 <= eps ->
  (forall lp, lp ∈ steps -> det lp.1 <> 0) ->
  length steps' = length steps -> length deltas = length steps ->
  (forall i l p, steps !! i = Some (l, p) ->
     exists p' delta k,
       steps' !! i = Some (l, p') /\ deltas !! i = Some delta
       /\ p' = vadd (vadd p (np_multiply (zvec k) (abc l))) delta
       /\ norm (row_point l delta) <= eps) ->
  (forall i l row m,
     steps.*1 !! i = Some l -> track_rows vzero steps !! i = Some row ->
     m <> (0, 0, 0)%Z ->
     let ref := prev_point vzero steps.*1 (track_rows vzero steps) i in
     norm (vsub (row_point l row) ref) + 4 * eps
     < norm (vsub (get_cartesian_coords l (vadd (np_divide row (abc l)) (zvec m))) ref)) ->
  track_rows vzero steps' = zip_with vadd (track_rows vzero steps) deltas.
Proof.
  intros Heps Hdet Hlen Hdl Hrel Hmargin.
  assert (Hnd : forall lp, lp ∈ steps -> nondegenerate lp.1)
    by (intros lp Hin; apply det_nondegenerate; now apply Hdet).
  assert (Hnd' : forall lp, lp ∈ steps' -> nondegenerate lp.1).
  { intros [l p'] Hin. apply list_elem_of_lookup in Hin as [i Hi].
    destruct (lookup_lt_is_Some_2 steps i) as [[l0 p0] H0];
      [rewrite <- Hlen; now apply lookup_lt_Some in Hi|].
    destruct (Hrel i l0 p0 H0) as [p'' [delta [k [H1 _]]]].
    rewrite Hi in H1. injection H1 as -> _. simpl.
    apply (Hnd (l0, p0)). now apply list_elem_of_lookup_2 in H0. }
  assert (Hlat : steps'.*1 = steps.*1).
  { apply list_eq. intros i. rewrite !list_lookup_fmap.
    destruct (steps !! i) as [[l p]|] eqn:Hi.
    - destruct (Hrel i l p Hi) as [p' [delta [k [H1 _]]]]. now rewrite H1.
    - apply lookup_ge_None in Hi. rewrite <- Hlen in Hi. apply lookup_ge_None in Hi.
      now rewrite Hi. }
  set (rows := track_rows vzero steps) in *.
  set (rows' := track_rows vzero steps').
  assert (Hstep : forall i,
            (forall j, i = S j -> rows' !! j = zip_with vadd rows deltas !! j) ->
            rows' !! i = zip_with vadd rows deltas !! i).
  { intros i Hprev. rewrite lookup_zip_with.
    destruct (steps !! i) as [[l p]|] eqn:Hi.
    - destruct (Hrel i l p Hi) as [p' [delta [k [Hi' [Hdelta [Hp' Hsize]]]]]].
      unfold rows', rows.
      rewrite (track_rows_step steps' vzero i l p' Hnd' Hi').
      rewrite (track_rows_step steps vzero i l p Hnd Hi). fold rows rows'.
      rewrite Hdelta. simpl. f_equal. rewrite Hlat.
      set (r := prev_point vzero steps.*1 rows i).
      set (r' := prev_point vzero steps.*1 rows' i).
      assert (Hl : steps.*1 !! i = Some l) by (now rewrite list_lookup_fmap, Hi).
      assert (Hr : norm (vsub r' r) <= eps).
      { unfold r, r'. destruct i as [|j]; simpl.
        - replace (vsub vzero vzero) with vzero by (apply vec3_eq; simpl; ring).
          now rewrite norm_vzero.
        - rewrite (Hprev j eq_refl), lookup_zip_with.
          destruct (steps !! j) as [[lj pj]|] eqn:Hj.
          + destruct (Hrel j lj pj Hj) as [pj' [dj [kj [_ [Hdj [_ Hsj]]]]]].
            rewrite list_lookup_fmap, Hj. simpl.
            destruct (rows !! j) as [rowj|] eqn:Hrowj.
            * rewrite Hdj. simpl. rewrite row_point_vadd.
              replace (vsub (vadd (row_point lj rowj) (row_point lj dj)) (row_point lj rowj))
                with (row_point lj dj) by (apply vec3_eq; simpl; ring).
              exact Hsj.
            * exfalso. apply lookup_ge_None in Hrowj. unfold rows in Hrowj.
              rewrite length_track_rows in Hrowj. apply lookup_lt_Some in Hj. lia.
          + rewrite list_lookup_fmap, Hj. simpl.
            replace (vsub vzero vzero) with vzero by (apply vec3_eq; simpl; ring).
            now rewrite norm_vzero. }
      apply (step_site_stable l r r' p p' delta k eps eps).
      + apply (Hdet (l, p)). now apply list_elem_of_lookup_2 in Hi.
      + exact Hp'.
      + exact Hsize.
      + exact Hr.
      + intros m Hm.
        pose proof (Hmargin i l _ m Hl
                      (track_rows_step steps vzero i l p Hnd Hi) Hm) as H.
        cbv zeta in H. fold rows r in H. lra.
    - assert (Hge : (length steps <= i)%nat) by now apply lookup_ge_None.
      replace (rows' !! i) with (@None vec3)
        by (symmetry; apply lookup_ge_None; unfold rows';
            rewrite length_track_rows; lia).
      replace (rows !! i) with (@None vec3)
        by (symmetry; apply lookup_ge_None; unfold rows;
            rewrite length_track_rows; lia).
      reflexivity. }
  apply list_eq. intros i. induction i as [|j IH]; apply Hstep.
  - intros j Hj. discriminate.
  - intros j' Hj. injection Hj as <-. exact IH.
Qed.

Lemma totals_of_lookup (self : Polarization) (convert : bool) (i : nat) :
  totals_of self convert !! i
  = s ← structures self !! i; pe ← p_elecs self !! i; pi ← p_ions self !! i;
    Some (step_total s pe pi convert).
Proof.
  unfold totals_of. rewrite !lookup_zip_with.
  destruct (structures self !! i); simpl; [|reflexivity].
  destruct (p_elecs self !! i); simpl; [|reflexivity].
  destruct (p_ions self !! i); reflexivity.
Qed.

(** Whole lattice lengths of the structure, added to a raw dipole, are whole
    quanta of the total dipole in the units in use. *)
Lemma step_total_quanta (s : Structure) (pe pi : vec3) (n : Z * Z * Z) (convert : bool) :
  exists k : Z * Z * Z,
    step_total s (vadd pe (quanta_shift (lattice s) n)) pi convert
    = vadd (step_total s pe pi convert) (np_multiply (zvec k) (abc (step_lattice s convert)))
    /\ step_total s pe (vadd pi (quanta_shift (lattice s) n)) convert
       = vadd (step_total s pe pi convert) (np_multiply (zvec k) (abc (step_lattice s convert))).
Proof.
  destruct n as [[na nb] nc]. destruct convert; simpl.
  - rewrite abc_rescaled. set (u := unit_factor s).
    destruct (Rcase_abs u) as [Hu|Hu].
    + exists ((- na)%Z, (- nb)%Z, (- nc)%Z). rewrite Rabs_left by assumption.
      split; apply vec3_eq; simpl; rewrite ?opp_IZR; ring.
    + exists (na, nb, nc). rewrite Rabs_right by assumption.
      split; apply vec3_eq; simpl; ring.
  - exists (na, nb, nc). split; apply vec3_eq; simpl; ring.
Qed.

(** Every row is the image nearest to its reference point by more than
    [gap]: each other image of the row is further from the reference point of
    its step (the origin, then the point of the row before) by more than
    [gap]. *)
Definition clear_by (gap : R) (lattices : list Lattice) (rows : list vec3) : Prop :=
  forall i l row m,
    lattices !! i = Some l -> rows !! i = Some row -> m <> (0, 0, 0)%Z ->
    let ref := prev_point vzero lattices rows i in
    norm (vsub (row_point l row) ref) + gap
    < norm (vsub (get_cartesian_coords l (vadd (np_divide row (abc l)) (zvec m))) ref).

(** The track [self'] has the structures of [self] and, at each step, the
    total dipole of [self] moved by a whole number of quanta of the step, up
    to the error in [deltas], which is a point of the step's cell no further
    than [eps] from the origin. *)
Definition same_up_to_quanta (eps : R) (deltas : list vec3) (convert : bool)
    (self self' : Polarization) : Prop :=
  well_formed self' /\ structures self' = structures self
  /\ length deltas = length (p_elecs self)
  /\ forall i l p,
       steps_of self convert !! i = Some (l, p) ->
       exists p' delta k,
         totals_of self' convert !! i = Some p' /\ deltas !! i = Some delta
         /\ p' = vadd (vadd p (np_multiply (zvec k) (abc l))) delta
         /\ norm (row_point l delta) <= eps.

Lemma same_branch_stable (self self' : Polarization) (convert : bool) (eps : R)
    (deltas rows : list vec3) :
  well_formed self ->
  (forall s, s ∈ structures self -> det (step_lattice s convert) <> 0) ->
  get_same_branch_polarization_data self convert = Ok rows ->
  0 <= eps ->
  clear_by (4 * eps) (lattices_of self convert) rows ->
  same_up_to_quanta eps deltas convert self self' ->
  get_same_branch_polarization_data self' convert = Ok (zip_with vadd rows deltas).
Proof.
  intros WF Hdet Hrows Heps Hclear [WF' [Hss [Hdl Hrel]]].
  pose proof (same_branch_Ok_nonempty _ _ _ WF Hrows) as Hne.
  assert (Hne' : p_elecs self' <> []).
  { destruct WF as [_ W2], WF' as [_ W2']. rewrite Hss in W2'.
    intros E. rewrite E in W2'. rewrite <- W2' in W2.
    destruct (p_elecs self); [congruence|discriminate]. }
  rewrite (same_branch_track _ _ WF Hne) in Hrows. injection Hrows as <-.
  rewrite (same_branch_track _ _ WF' Hne'). f_equal.
  apply (track_rows_stable eps); try assumption.
  - intros [l p] Hin. apply list_elem_of_lookup in Hin as [i Hi].
    rewrite steps_of_lookup in Hi.
    destruct (structures self !! i) as [s|] eqn:Hs; simpl in Hi; [|discriminate].
    destruct (p_elecs self !! i); simpl in Hi; [|discriminate].
    destruct (p_ions self !! i); simpl in Hi; [|discriminate].
    injection Hi as <- _. simpl. apply Hdet. now apply list_elem_of_lookup_2 in Hs.
  - rewrite !length_steps_of by assumption.
    destruct WF as [_ W2], WF' as [_ W2']. rewrite Hss in W2'. lia.
  - now rewrite length_steps_of.
  - intros i l p Hi.
    destruct (Hrel i l p Hi) as [p' [delta [k [Hp' [Hd [E Hsize]]]]]].
    exists p', delta, k. split; [|auto].
    rewrite totals_of_lookup, Hss in Hp'. rewrite steps_of_lookup in Hi |- *. rewrite Hss.
    destruct (structures self !! i) as [s|]; simpl in *; [|discriminate].
    destruct (p_elecs self' !! i) as [pe'|]; simpl in *; [|discriminate].
    destruct (p_ions self' !! i) as [pi'|]; simpl in *; [|discriminate].
    destruct (p_elecs self !! i) as [pe|]; simpl in *; [|discriminate].
    destruct (p_ions self !! i) as [pi|]; simpl in *; [|discriminate].
    injection Hi as <- _. injection Hp' as ->. reflexivity.
  - rewrite (steps_of_fst _ _ WF). exact Hclear.
Qed.

Lemma shifted_totals (self : Polarization) (which : dipole_kind) (j : nat) (s : Structure)
    (n : Z * Z * Z) (convert : bool) (i : nat) (l : Lattice) (p : vec3) :
  structures self !! j = Some s ->
  steps_of self convert !! i = Some (l, p) ->
  exists k,
    totals_of (shift_dipole self which j (quanta_shift (lattice s) n)) convert !! i
    = Some (vadd p (np_multiply (zvec k) (abc l))).
Proof.
  intros Hs Hi. rewrite steps_of_lookup in Hi. rewrite totals_of_lookup.
  replace (structures (shift_dipole self which j (quanta_shift (lattice s) n)))
    with (structures self) by (destruct which; reflexivity).
  destruct (structures self !! i) as [si|] eqn:Hsi; simpl in *; [|discriminate].
  destruct (p_elecs self !! i) as [pe|] eqn:Hpe; simpl in *; [|discriminate].
  destruct (p_ions self !! i) as [pi|] eqn:Hpi; simpl in *; [|discriminate].
  injection Hi as <- <-.
  destruct (decide (i = j)) as [->|Hij].
  - rewrite Hs in Hsi. injection Hsi as <-.
    destruct (step_total_quanta s pe pi n convert) as [k [He Hio]].
    exists k. destruct which; simpl.
    + rewrite list_lookup_alter_eq, Hpe, Hpi. simpl. now rewrite He.
    + rewrite Hpe. simpl. rewrite list_lookup_alter_eq, Hpi. simpl. now rewrite Hio.
  - exists (0, 0, 0)%Z.
    replace (vadd (step_total si pe pi convert)
               (np_multiply (zvec (0, 0, 0)%Z) (abc (step_lattice si convert))))
      with (step_total si pe pi convert) by (apply vec3_eq; simpl; ring).
    destruct which; simpl.
    + rewrite list_lookup_alter_ne by congruence. now rewrite Hpe, Hpi.
    + rewrite Hpe. simpl. rewrite list_lookup_alter_ne by congruence. now rewrite Hpi.
Qed.

(** A track whose total dipoles are those of the shifted track, each with an
    error of size at most [eps], has the total dipoles of the track itself up
    to whole quanta and these errors. *)
Lemma shifted_up_to_quanta (self self' : Polarization) (which : dipole_kind) (j : nat)
    (s : Structure) (n : Z * Z * Z) (convert : bool) (eps : R) (deltas : list vec3) :
  well_formed self ->
  structures self !! j = Some s ->
  well_formed self' -> structures self' = structures self ->
  length deltas = length (p_elecs self) ->
  totals_of self' convert
  = zip_with vadd
      (totals_of (shift_dipole self which j (quanta_shift (lattice s) n)) convert) deltas ->
  (forall i l delta,
     lattices_of self convert !! i = Some l -> deltas !! i = Some delta ->
     norm (row_point l delta) <= eps) ->
  same_up_to_quanta eps deltas convert self self'.
Proof.
  intros WF Hs WF' Hss Hdl Htot Hsize.
  split; [exact WF'|]. split; [exact Hss|]. split; [exact Hdl|].
  intros i l p Hi.
  destruct (shifted_totals self which j s n convert i l p Hs Hi) as [k Hk].
  destruct (lookup_lt_is_Some_2 deltas i) as [delta Hd].
  { rewrite Hdl, <- (length_steps_of self convert WF).
    now apply lookup_lt_Some in Hi. }
  exists (vadd (vadd p (np_multiply (zvec k) (abc l))) delta), delta, k.
  split; [|split; [exact Hd|split; [reflexivity|]]].
  - rewrite Htot, lookup_zip_with, Hk, Hd. reflexivity.
  - apply (Hsize i l delta); [|exact Hd].
    rewrite <- (steps_of_fst _ _ WF), list_lookup_fmap, Hi. reflexivity.
Qed.

Lemma same_branch_length (self : Polarization) (convert : bool) (rows : list vec3) :
  well_formed self ->
  get_same_branch_polarization_data self convert = Ok rows ->
  length rows = length (p_elecs self).
Proof.
  intros WF Hrows.
  pose proof (same_branch_Ok_nonempty _ _ _ WF Hrows) as Hne.
  rewrite (same_branch_track _ _ WF Hne) in Hrows. injection Hrows as <-.
  now rewrite length_track_rows, length_steps_of.
Qed.


Lemma norm_zvec_ge_1 (m : Z * Z * Z) : m <> (0, 0, 0)%Z -> 1 <= norm (zvec m).
Proof.
  intros Hm. destruct m as [[ma mb] mc].
  assert (Hsq : 1 <= IZR ma * IZR ma + IZR mb * IZR mb + IZR mc * IZR mc).
  { pose proof (Rle_0_sqr (IZR ma)). pose proof (Rle_0_sqr (IZR mb)).
    pose proof (Rle_0_sqr (IZR mc)). unfold Rsqr in *.
    destruct (decide (ma = 0%Z)) as [->|Ha];
      [|pose proof (nonzero_int_square ma Ha); lra].
    destruct (decide (mb = 0%Z)) as [->|Hb];
      [|pose proof (nonzero_int_square mb Hb); lra].
    destruct (decide (mc = 0%Z)) as [->|Hc];
      [congruence|pose proof (nonzero_int_square mc Hc); lra]. }
  unfold norm. rewrite <- sqrt_1. apply sqrt_le_1_alt.
  unfold norm2, dot; simpl. exact Hsq.
Qed.

(** In a cubic cell of edge [e], a row whose point is nearer to the reference
    point than half of what is left of the edge after [gap] is nearest by more
    than [gap]. *)
Lemma cubic_clear (e gap : R) (row ref : vec3) (m : Z * Z * Z) :
  m <> (0, 0, 0)%Z ->
  2 * norm (vsub (row_point (cubic e) row) ref) + gap < Rabs e ->
  norm (vsub (row_point (cubic e) row) ref) + gap
  < norm (vsub (get_cartesian_coords (cubic e)
                  (vadd (np_divide row (abc (cubic e))) (zvec m))) ref).
Proof.
  intros Hm Hgap.
  set (w := vsub (row_point (cubic e) row) ref) in *.
  set (t := vsub (get_cartesian_coords (cubic e)
                    (vadd (np_divide row (abc (cubic e))) (zvec m))) ref).
  assert (Ht : vscale_l e (zvec m) = vadd t (vneg w)).
  { unfold t, w, row_point. rewrite cartesian_linear_add, (cartesian_cubic e (zvec m)).
    apply vec3_eq; simpl; ring. }
  pose proof (norm_triangle t (vneg w)) as Tr. rewrite <- Ht, norm_vneg in Tr.
  rewrite norm_vscale_l in Tr.
  pose proof (norm_zvec_ge_1 m Hm) as H1. pose proof (Rabs_pos e) as He.
  assert (Rabs e <= Rabs e * norm (zvec m)) by nra.
  lra.
Qed.



(** The two-step track with three quanta along c added to the electronic
    dipole of its second step, and an error of 0.01 in that dipole. *)
Definition shifted_two_step_track : Polarization :=
  mkPolarization [vzero; mk3 0 0 16.01] [vzero; vzero] [empty_cubic5; empty_cubic5].


(** *** Unit conversion on two steps in the cubic cell *)

Lemma unit_factor_cubic5 : unit_factor empty_cubic5 = -12.8174128.
Proof.
  unfold unit_factor. simpl lattice. rewrite volume_cubic5.
  unfold e_to_muC, cm2_to_A2. lra.
Qed.

Lemma step_lattice_cubic5 : step_lattice empty_cubic5 true = cubic (-64.087064).
Proof.
  unfold step_lattice. simpl lattice. rewrite unit_factor_cubic5.
  change cubic5 with (cubic 5). rewrite rescaled_cubic.
  f_equal. rewrite Rabs_pos_eq by lra. lra.
Qed.

(** In a cubic cell of edge [e], the point of a row is the row, up to the
    sign of the edge. *)
Lemma row_point_cubic (e : R) (row : vec3) :
  e <> 0 -> row_point (cubic e) row = vscale_l (e / Rabs e) row.
Proof.
  intros He. unfold row_point. rewrite cartesian_cubic, abc_cubic.
  pose proof (Rabs_no_R0 e He).
  apply vec3_eq; simpl; field; assumption.
Qed.

Lemma norm_row_point_cubic (e : R) (row ref : vec3) :
  e <> 0 ->
  norm (vsub (row_point (cubic e) row) (row_point (cubic e) ref)) = norm (vsub row ref).
Proof.
  intros He. rewrite !row_point_cubic by assumption.
  replace (vsub (vscale_l (e / Rabs e) row) (vscale_l (e / Rabs e) ref))
    with (vscale_l (e / Rabs e) (vsub row ref)) by (apply vec3_eq; simpl; ring).
  rewrite norm_vscale_l.
  replace (Rabs (e / Rabs e)) with 1; [ring|].
  unfold Rdiv. rewrite Rabs_mult, Rabs_inv, Rabs_Rabsolu.
  field. now apply Rabs_no_R0.
Qed.

(** A run in which every total dipole is the image nearest to its reference
    point, strictly, returns the total dipoles. *)
Lemma track_rows_kept (steps : list (Lattice * vec3)) :
  (forall lp, lp ∈ steps -> det lp.1 <> 0) ->
  (forall i l p m, steps !! i = Some (l, p) -> m <> (0, 0, 0)%Z ->
     let ref := prev_point vzero steps.*1 steps.*2 i in
     norm (vsub (row_point l p) ref)
     < norm (vsub (get_cartesian_coords l (vadd (np_divide p (abc l)) (zvec m))) ref)) ->
  track_rows vzero steps = steps.*2.
Proof.
  intros Hdet Hstrict.
  assert (Hnd : forall lp, lp ∈ steps -> nondegenerate lp.1)
    by (intros lp Hin; apply det_nondegenerate; now apply Hdet).
  assert (Hstep : forall i,
            (forall j, i = S j -> track_rows vzero steps !! j = steps.*2 !! j) ->
            track_rows vzero steps !! i = steps.*2 !! i).
  { intros i Hprev. rewrite (list_lookup_fmap snd).
    destruct (steps !! i) as [[l p]|] eqn:Hi; simpl.
    - rewrite (track_rows_step steps vzero i l p Hnd Hi). f_equal.
      rewrite (prev_point_ext _ _ _ steps.*2 _ Hprev).
      apply step_site_unambiguous.
      + apply (Hdet (l, p)). now apply list_elem_of_lookup_2 in Hi.
      + intros m Hm. now apply (Hstrict i l p m).
    - apply lookup_ge_None. rewrite length_track_rows. now apply lookup_ge_None. }
  apply list_eq. intros i. induction i as [|j IH]; apply Hstep.
  - intros j Hj. discriminate.
  - intros j' Hj. injection Hj as <-. exact IH.
Qed.

(** A two-step track in the cubic cell whose second total dipole is [z] along
    c: with unit conversion the cell has edge 64.087064 and the rows are the
    converted total dipoles, as long as the second is within half an edge of
    the first. *)
Lemma same_branch_converted_two_step (z : R) :
  Rabs z < 2 ->
  get_same_branch_polarization_data
    (mkPolarization [vzero; mk3 0 0 z] [vzero; vzero] [empty_cubic5; empty_cubic5]) true
  = Ok [vzero; mk3 0 0 (-12.8174128 * z)].
Proof.
  intros Hz.
  set (T := mkPolarization [vzero; mk3 0 0 z] [vzero; vzero] [empty_cubic5; empty_cubic5]).
  rewrite (same_branch_track T true); [|split; reflexivity|discriminate]. f_equal.
  assert (Hsteps : steps_of T true
                   = [(cubic (-64.087064), vzero);
                      (cubic (-64.087064), mk3 0 0 (-12.8174128 * z))]).
  { unfold steps_of, T. cbn [structures p_elecs p_ions zip zip_with fst snd].
    rewrite step_lattice_cubic5. unfold step_total. rewrite unit_factor_cubic5.
    replace (vscale_l (-12.8174128) (vadd vzero vzero)) with vzero
      by (apply vec3_eq; simpl; lra).
    replace (vscale_l (-12.8174128) (vadd (mk3 0 0 z) vzero)) with (mk3 0 0 (-12.8174128 * z))
      by (apply vec3_eq; simpl; lra).
    reflexivity. }
  rewrite Hsteps.
  assert (He : -64.087064 <> 0) by lra.
  rewrite track_rows_kept; [reflexivity| |].
  - intros lp Hin. apply list_elem_of_In in Hin. simpl in Hin.
    destruct Hin as [<-|[<-|[]]]; now apply det_cubic_nonzero.
  - intros i l p m Hi Hm ref.
    assert (El : l = cubic (-64.087064)).
    { destruct i as [|[|i]]; [| |discriminate]; simpl in Hi; now injection Hi as <- _. }
    subst l. pose proof (cubic_clear (-64.087064) 0 p ref m Hm) as H.
    rewrite !Rplus_0_r in H. apply H. clear H.
    rewrite (Rabs_left (-64.087064)) by lra.
    destruct i as [|[|i]]; [| |discriminate]; simpl in Hi; injection Hi as <-; subst ref;
      cbn [prev_point fmap list_fmap lookup list_lookup fst snd].
    + rewrite <- (vsub_vzero (row_point _ _)) at 1.
      replace vzero with (row_point (cubic (-64.087064)) vzero) at 2
        by (rewrite row_point_cubic by exact He; apply vec3_eq; simpl; ring).
      rewrite vsub_vzero, norm_row_point_cubic by exact He.
      replace (vsub vzero vzero) with vzero by (apply vec3_eq; simpl; ring).
      rewrite norm_vzero. lra.
    + rewrite norm_row_point_cubic by exact He.
      rewrite (norm_eq _ (12.8174128 * Rabs z)).
      * lra.
      * pose proof (Rabs_pos z). lra.
      * assert (Hsq : Rabs z * Rabs z = z * z)
          by (rewrite <- Rabs_mult; apply Rabs_pos_eq; nra).
        unfold norm2, dot, vsub, vzero; cbn [c0 c1 c2].
        replace (12.8174128 * Rabs z * (12.8174128 * Rabs z))
          with (12.8174128 * 12.8174128 * (Rabs z * Rabs z)) by ring.
        rewrite Hsq. lra.
Qed.

(** *** Ties of the search *)








(** *** A tie in double precision *)
















(** *** The polarization change *)

Lemma along_units_vadd (l : Lattice) (P D : vec3) :
  along_units l (vadd P D) = vadd (along_units l P) (along_units l D).
Proof. unfold along_units. apply vec3_eq; simpl; unfold Rdiv; ring. Qed.

Lemma norm_vadd_near (a b : vec3) : Rabs (norm (vadd a b) - norm a) <= norm b.
Proof.
  pose proof (norm_triangle a b) as H1.
  pose proof (norm_triangle (vadd a b) (vneg b)) as H2.
  replace (vadd (vadd a b) (vneg b)) with a in H2 by (apply vec3_eq; simpl; ring).
  rewrite norm_vneg in H2.
  apply Rabs_le. lra.
Qed.

Lemma last_zip_with_vadd (rows deltas : list vec3) (r d : vec3) :
  length deltas = length rows ->
  last rows = Some r -> last deltas = Some d ->
  last (zip_with vadd rows deltas) = Some (vadd r d).
Proof.
  intros Hlen Hr Hd. rewrite last_lookup in *.
  rewrite lookup_zip_with, length_zip_with, Hlen, Nat.min_id.
  rewrite Hlen in Hd. now rewrite Hr, Hd.
Qed.

(** The polarization change and its norm, from the rows of the same-branch
    data. *)
Lemma polarization_change_of_rows (self : Polarization) (rows : list vec3)
    (first_row last_row : vec3) (polar : Structure) :
  get_same_branch_polarization_data self true = Ok rows ->
  rows !! 0%nat = Some first_row -> last rows = Some last_row ->
  last (structures self) = Some polar ->
  get_polarization_change self = Ok (vsub last_row first_row)
  /\ get_polarization_change_norm self
     = Ok (norm (along_units (lattice polar) (vsub last_row first_row))).
Proof.
  intros Hrows Hf Hl Hp.
  assert (H : get_polarization_change self = Ok (vsub last_row first_row)).
  { unfold get_polarization_change. rewrite Hrows, bind_Ok.
    unfold py_last. rewrite Hl, bind_Ok.
    destruct rows as [|r rows]; [discriminate|]. injection Hf as ->. reflexivity. }
  split; [exact H|].
  rewrite change_norm_unfold, H. unfold py_last. rewrite Hp. reflexivity.
Qed.

(** X11.  Adding integer multiples of the lattice quanta of step [j] to the
    raw electronic or ionic dipole of step [j] changes the polarization change
    and its norm by no more than the errors allow, on a track that has no step
    near a tie.  Under the conditions of the stability of the same-branch data
    (each row of [self] nearest by more than [4 * eps], the total dipoles of
    [self'] those of the shifted track up to errors [deltas] of size at most
    [eps]), [get_polarization_change] moves by exactly the error of the last
    step minus that of the first, and [get_polarization_change_norm] by no
    more than the length of this difference taken along the unit vectors of
    the last lattice.  With no errors both are unchanged. *)
Theorem polarization_change_stability (self self' : Polarization) (which : dipole_kind)
    (j : nat) (s : Structure) (n : Z * Z * Z) (eps : R) (deltas rows : list vec3)
    (d0 dL : vec3) :
  well_formed self ->
  structures self !! j = Some s ->
  (forall s, s ∈ structures self -> det (step_lattice s true) <> 0) ->
  get_same_branch_polarization_data self true = Ok rows ->
  0 <= eps ->
  clear_by (4 * eps) (lattices_of self true) rows ->
  well_formed self' -> structures self' = structures self ->
  length deltas = length rows ->
  totals_of self' true
  = zip_with vadd
      (totals_of (shift_dipole self which j (quanta_shift (lattice s) n)) true) deltas ->
  (forall i l delta,
     lattices_of self true !! i = Some l -> deltas !! i = Some delta ->
     norm (row_point l delta) <= eps) ->
  deltas !! 0%nat = Some d0 -> last deltas = Some dL ->
  exists P N N' polar,
    last (structures self) = Some polar
    /\ get_polarization_change self = Ok P
    /\ get_polarization_change self' = Ok (vadd P (vsub dL d0))
    /\ get_polarization_change_norm self = Ok N
    /\ get_polarization_change_norm self' = Ok N'
    /\ Rabs (N' - N) <= norm (along_units (lattice polar) (vsub dL d0)).
Proof.
  intros WF Hs Hdet Hrows Heps Hclear WF' Hss Hdl Htot Hsize Hd0 HdL.
  pose proof (same_branch_length _ _ _ WF Hrows) as Hlen.
  assert (Hrows' : get_same_branch_polarization_data self' true
                   = Ok (zip_with vadd rows deltas)).
  { apply (same_branch_stable self self' true eps deltas rows); try assumption.
    apply (shifted_up_to_quanta self self' which j s n); try assumption. lia. }
  destruct rows as [|r0 rows0] eqn:Er.
  { destruct deltas; discriminate. }
  rewrite <- Er in *.
  destruct (last rows) as [rL|] eqn:HrL; [|apply last_None in HrL; congruence].
  destruct (last (structures self)) as [polar|] eqn:Hp.
  2:{ apply last_None in Hp. rewrite Hp in Hs. discriminate. }
  assert (Hr0 : rows !! 0%nat = Some r0) by now rewrite Er.
  destruct (polarization_change_of_rows self rows r0 rL polar Hrows Hr0 HrL Hp) as [HP HN].
  destruct (polarization_change_of_rows self' (zip_with vadd rows deltas)
              (vadd r0 d0) (vadd rL dL) polar Hrows') as [HP' HN'].
  { now rewrite lookup_zip_with, Hr0, Hd0. }
  { now apply last_zip_with_vadd. }
  { now rewrite Hss. }
  assert (E : vsub (vadd rL dL) (vadd r0 d0) = vadd (vsub rL r0) (vsub dL d0))
    by (apply vec3_eq; simpl; ring).
  rewrite E in HP', HN'. rewrite along_units_vadd in HN'.
  eexists _, _, _, polar.
  repeat split; [exact HP|exact HP'|exact HN|exact HN'|].
  apply norm_vadd_near.
Qed.

Lemma lattices_of_two_step_converted :
  lattices_of two_step_track true = [cubic (-64.087064); cubic (-64.087064)].
Proof.
  unfold lattices_of. cbn [structures two_step_track map fmap list_fmap].
  now rewrite step_lattice_cubic5.
Qed.

Lemma converted_two_step_clear :
  clear_by (4 * 0.2) (lattices_of two_step_track true) [vzero; mk3 0 0 (-12.8174128 * 1)].
Proof.
  rewrite lattices_of_two_step_converted.
  intros i l row m Hl Hrow Hm ref.
  assert (He : -64.087064 <> 0) by lra.
  assert (E : l = cubic (-64.087064)).
  { destruct i as [|[|i]]; [| |discriminate]; simpl in Hl; now injection Hl as <-. }
  subst l. apply cubic_clear; [exact Hm|].
  rewrite (Rabs_left (-64.087064)) by lra.
  destruct i as [|[|i]]; [| |discriminate]; simpl in Hrow; injection Hrow as <-; subst ref;
    cbn [prev_point fmap list_fmap lookup list_lookup fst snd].
  - rewrite row_point_cubic by exact He.
    replace (vsub (vscale_l _ vzero) vzero) with vzero by (apply vec3_eq; simpl; ring).
    rewrite norm_vzero. lra.
  - rewrite norm_row_point_cubic by exact He.
    rewrite (norm_eq _ 12.8174128); [lra|lra|].
    unfold norm2, dot, vsub, vzero; cbn [c0 c1 c2]. lra.
Qed.

(** Three quanta along c and an error of 0.01 in the electronic dipole of the
    second step of the two-step track. *)
Lemma polarization_change_stability_witness :
  exists P N N' polar,
    last (structures two_step_track) = Some polar
    /\ get_polarization_change two_step_track = Ok P
    /\ get_polarization_change shifted_two_step_track
       = Ok (vadd P (vsub (mk3 0 0 (-12.8174128 * 0.01)) vzero))
    /\ get_polarization_change_norm two_step_track = Ok N
    /\ get_polarization_change_norm shifted_two_step_track = Ok N'
    /\ Rabs (N' - N)
       <= norm (along_units (lattice polar) (vsub (mk3 0 0 (-12.8174128 * 0.01)) vzero)).
Proof.
  apply (polarization_change_stability two_step_track shifted_two_step_track Electronic 1
           empty_cubic5 (0, 0, 3)%Z 0.2 [vzero; mk3 0 0 (-12.8174128 * 0.01)]
           [vzero; mk3 0 0 (-12.8174128 * 1)]).
  - exact two_step_well_formed.
  - reflexivity.
  - intros s Hs. apply list_elem_of_In in Hs. simpl in Hs.
    destruct Hs as [<-|[<-|[]]]; rewrite step_lattice_cubic5; apply det_cubic_nonzero; lra.
  - apply same_branch_converted_two_step. rewrite Rabs_pos_eq; lra.
  - lra.
  - exact converted_two_step_clear.
  - split; reflexivity.
  - reflexivity.
  - reflexivity.
  - unfold totals_of, quanta_shift.
    cbn [structures p_elecs p_ions shift_dipole shifted_two_step_track two_step_track
           zip_with list_alter lattice empty_cubic5].
    unfold step_total. rewrite unit_factor_cubic5, abc_cubic5.
    cbn [alter list_alter zip zip_with fst snd].
    f_equal; [|f_equal]; apply vec3_eq; simpl; lra.
  - rewrite lattices_of_two_step_converted. intros i l delta Hl Hd.
    assert (He : -64.087064 <> 0) by lra.
    assert (E : l = cubic (-64.087064)).
    { destruct i as [|[|i]]; [| |discriminate]; simpl in Hl; now injection Hl as <-. }
    subst l.
    rewrite <- (vsub_vzero (row_point _ _)).
    replace vzero with (row_point (cubic (-64.087064)) vzero) at 1
      by (rewrite row_point_cubic by exact He; apply vec3_eq; simpl; ring).
    rewrite norm_row_point_cubic by exact He.
    destruct i as [|[|i]]; [| |discriminate]; simpl in Hd; injection Hd as <-.
    + replace (vsub vzero vzero) with vzero by (apply vec3_eq; simpl; ring).
      rewrite norm_vzero. lra.
    + rewrite (norm_eq _ (12.8174128 * 0.01)); [lra|lra|].
      unfold norm2, dot, vsub, vzero; cbn [c0 c1 c2]. lra.
  - reflexivity.
  - reflexivity.
Defined.

(** *** The splines of a track that falls along c *)

(** A primitive that cannot fit a column of zeros, and otherwise returns the
    zero function. *)
Definition all_zero (ys : list R) : bool :=
  forallb (fun y => if Req_dec_T y 0 then true else false) ys.

Definition picky_fit (xs ys : list R) (k : nat) : result unit :=
  if all_zero ys then Raise FitError else Ok tt.

(** A two-step track in the cubic cell whose dipole falls along c. *)
Definition falling_track : Polarization :=
  mkPolarization [vzero; mk3 0 0 (-1)] [vzero; vzero] [empty_cubic5; empty_cubic5].

Lemma all_zero_zeros : all_zero [0; 0] = true.
Proof. unfold all_zero; simpl. destruct (Req_dec_T 0 0); [reflexivity|lra]. Qed.

Lemma all_zero_nonzero (x : R) : x <> 0 -> all_zero [0; x] = false.
Proof.
  intros Hx. unfold all_zero; simpl.
  destruct (Req_dec_T 0 0); [|lra]. destruct (Req_dec_T x 0); [lra|reflexivity].
Qed.

(** The fits along a and b fail, the fit along c succeeds: the first two
    entries are [None], the third is the largest deviation along c. *)
Lemma spline_failures_independent_witness :
  get_same_branch_polarization_data falling_track true = Ok [vzero; mk3 0 0 12.8174128]
  /\ same_branch_splines picky_fit falling_track = Ok (None, None, Some tt)
  /\ max_spline_jumps picky_fit toy_eval falling_track = Ok [None; None; Some 12.8174128].
Proof.
  destruct (spline_failures_independent picky_fit toy_eval falling_track)
    as [tot [Htot [Hsp [ja [jb [jc [Hj [Ja [Jb Jc]]]]]]]]].
  - split; reflexivity.
  - discriminate.
  - assert (Hrows : get_same_branch_polarization_data falling_track true
                    = Ok [vzero; mk3 0 0 12.8174128]).
    { unfold falling_track. rewrite same_branch_converted_two_step.
      - do 2 f_equal. f_equal. apply vec3_eq; simpl; lra.
      - rewrite Rabs_left; lra. }
    rewrite Hrows in Htot. injection Htot as <-.
    assert (Fa : fitted picky_fit [vzero; mk3 0 0 12.8174128] Xa = None).
    { unfold fitted, picky_fit. cbn [column map comp vzero c0]. now rewrite all_zero_zeros. }
    assert (Fb : fitted picky_fit [vzero; mk3 0 0 12.8174128] Xb = None).
    { unfold fitted, picky_fit. cbn [column map comp vzero c1]. now rewrite all_zero_zeros. }
    assert (Fc : fitted picky_fit [vzero; mk3 0 0 12.8174128] Xc = Some tt).
    { unfold fitted, picky_fit. cbn [column map comp vzero c2].
      rewrite all_zero_nonzero; [reflexivity|lra]. }
    unfold jump_entry_ok in Ja, Jb, Jc. rewrite Fa in Ja. rewrite Fb in Jb. rewrite Fc in Jc.
    rewrite Fa, Fb, Fc in Hsp. subst ja jb.
    destruct Jc as [v [-> [Hin Hmax]]].
    split; [exact Hrows|]. split; [exact Hsp|].
    rewrite Hj. assert (v = 12.8174128) as ->; [|reflexivity].
    unfold deviations, toy_eval in Hin, Hmax.
    cbn [imap comp vzero c2] in Hin, Hmax. unfold compose in Hin, Hmax. cbn [c2] in Hin, Hmax.
    pose proof (Hmax (12.8174128 - 0) ltac:(right; left)) as Hv.
    apply elem_of_cons in Hin as [->|Hin]; [lra|].
    apply list_elem_of_singleton in Hin. lra.
Defined.

(* ===================================================================== *)
(** * The readers of LOBSTER files: properties *)

Section LobsterBasics.

Import Lobster.

(** A bind that returns has returned in its first part. *)
Lemma bind_Ok_inv {A B : Type} (m : result A) (k : A -> result B) (b : B) :
  m ≫= k = Ok b -> exists a, m = Ok a /\ k a = Ok b.
Proof. destruct m as [a|e]; [eauto|discriminate]. Qed.

Lemma getitem_Ok {A : Type} (xs : list A) (i : nat) (x : A) :
  getitem xs i = Ok x <-> xs !! i = Some x.
Proof. unfold getitem. destruct (xs !! i); split; congruence. Qed.

Lemma length_slice {A : Type} (a b : nat) (xs : list A) :
  length (slice a b xs) = (length xs - b - a)%nat.
Proof. unfold slice. rewrite length_drop, length_take. lia. Qed.

Lemma lookup_slice {A : Type} (a b : nat) (xs : list A) (i : nat) :
  (i < length xs - b - a)%nat -> slice a b xs !! i = xs !! (a + i)%nat.
Proof. intros H. unfold slice. rewrite lookup_drop, lookup_take_lt by lia. reflexivity. Qed.

End LobsterBasics.

(* ===================================================================== *)
(** ** CHARGE and ICOHPLIST *)

Section ReaderProperties.

Import Lobster.

Variable str_split : string -> list string.
Variable float_of : string -> option R.
Variable int_of : string -> option Z.

Lemma float_Ok (s : string) (x : R) : float float_of s = Ok x <-> float_of s = Some x.
Proof. unfold float. destruct (float_of s); split; congruence. Qed.

(** One well-formed line of a CHARGE file, read as the loop reads it. *)
Definition charge_fields (row : string) (label type : string) (mulliken loewdin : R) : Prop :=
  exists number f2 f3,
    str_split row !! 0%nat = Some number /\ str_split row !! 1%nat = Some type
    /\ str_split row !! 2%nat = Some f2 /\ str_split row !! 3%nat = Some f3
    /\ label = (type ++ number)%string
    /\ float_of f2 = Some mulliken /\ float_of f3 = Some loewdin.

Lemma Charge_loop_Ok (atoms : list nat) (data : list string) (self c : Charge) :
  Charge_loop str_split float_of atoms data self = Ok c ->
  num_atoms c = num_atoms self
  /\ exists labels tys ms ls,
       atomlist c = atomlist self ++ labels /\ types c = types self ++ tys
       /\ Mulliken c = Mulliken self ++ ms /\ Loewdin c = Loewdin self ++ ls
       /\ length labels = length atoms /\ length tys = length atoms
       /\ length ms = length atoms /\ length ls = length atoms
       /\ forall j atom, atoms !! j = Some atom ->
            exists row label type m l,
              data !! atom = Some row /\ charge_fields row label type m l
              /\ labels !! j = Some label /\ tys !! j = Some type
              /\ ms !! j = Some m /\ ls !! j = Some l.
Proof.
  revert self. induction atoms as [|atom rest IH]; intros self H.
  - simpl in H. injection H as <-. split; [reflexivity|].
    exists [], [], [], []. rewrite !app_nil_r. repeat split; try reflexivity.
    intros j a Hj. discriminate.
  - simpl in H.
    apply bind_Ok_inv in H as [row [Hrow H]].
    apply bind_Ok_inv in H as [name [Hname H]].
    apply bind_Ok_inv in H as [number [Hnumber H]].
    apply bind_Ok_inv in H as [type [Htype H]].
    apply bind_Ok_inv in H as [f2 [Hf2 H]].
    apply bind_Ok_inv in H as [m [Hm H]].
    apply bind_Ok_inv in H as [f3 [Hf3 H]].
    apply bind_Ok_inv in H as [l [Hl H]].
    apply getitem_Ok in Hrow, Hname, Hnumber, Htype, Hf2, Hf3.
    apply float_Ok in Hm, Hl.
    assert (type = name) by congruence. subst type.
    destruct (IH _ H) as [Hn [labels [tys [ms [ls Hall]]]]].
    simpl in Hn, Hall.
    destruct Hall as [E1 [E2 [E3 [E4 [L1 [L2 [L3 [L4 Hrows]]]]]]]].
    split; [exact Hn|].
    exists ((name ++ number)%string :: labels), (name :: tys), (m :: ms), (l :: ls).
    rewrite E1, E2, E3, E4, <- !app_assoc. simpl.
    repeat split; try reflexivity; try lia.
    intros [|j] a Hj.
    + injection Hj as <-. exists row, (name ++ number)%string, name, m, l.
      repeat split; try assumption.
      exists number, f2, f3. repeat split; assumption.
    + apply (Hrows j a Hj).
Qed.

Lemma Charge_loop_not_IOError (atoms : list nat) (data : list string) (self : Charge)
    (message : string) :
  Charge_loop str_split float_of atoms data self <> Raise (IOError message).
Proof.
  revert self. induction atoms as [|atom rest IH]; intros self; simpl; [discriminate|].
  unfold getitem, float.
  destruct (data !! atom) as [row|]; simpl; [|discriminate].
  destruct (str_split row !! 1%nat); simpl; [|discriminate].
  destruct (str_split row !! 0%nat); simpl; [|discriminate].
  destruct (str_split row !! 2%nat) as [f2|]; simpl; [|discriminate].
  destruct (float_of f2); simpl; [|discriminate].
  destruct (str_split row !! 3%nat) as [f3|]; simpl; [|discriminate].
  destruct (float_of f3); simpl; [|discriminate].
  apply IH.
Qed.

Lemma Charge_loop_returns (atoms : list nat) (data : list string) :
  forall self,
    (forall atom, atom ∈ atoms ->
       exists row label type m l,
         data !! atom = Some row /\ charge_fields row label type m l) ->
    exists c, Charge_loop str_split float_of atoms data self = Ok c.
Proof.
  induction atoms as [|atom rest IH]; intros self Hall; [now exists self|].
  destruct (Hall atom) as [row [label [type [m [l [Hrow Hf]]]]]]; [left|].
  destruct Hf as [number [f2 [f3 [H0 [H1 [H2 [H3 [_ [Hm Hl]]]]]]]]].
  cbn [Charge_loop]. unfold getitem, float.
  rewrite Hrow. simpl. rewrite H1. simpl. rewrite H0. simpl. rewrite H2. simpl.
  rewrite Hm. simpl. rewrite H3. simpl. rewrite Hl. simpl.
  apply IH. intros a Ha. apply Hall. now right.
Qed.

(** X20.  [Charge.__init__] raises [IOError] ("CHARGES file contains no
    data.") exactly when the file has at most six lines (three header lines
    and the last three lines hold no atom), and it returns exactly when the
    file has more than six lines and each line between the first three and
    the last three has at least four fields, of which [float] reads the third
    and the fourth. *)
Theorem charge_outcome (contents : string) :
  let lines := split_lines contents in
  (Charge_init str_split float_of contents = Raise (IOError "CHARGES file contains no data.")
   <-> (length lines <= 6)%nat)
  /\ ((exists c, Charge_init str_split float_of contents = Ok c)
      <-> (6 < length lines)%nat
          /\ forall i row, (3 <= i < length lines - 3)%nat -> lines !! i = Some row ->
               exists label type m l, charge_fields row label type m l).
Proof.
  intros lines. unfold Charge_init. cbv zeta. fold lines. rewrite length_slice.
  destruct (Nat.eqb_spec (length lines - 3 - 3) 0) as [E|E].
  - split; [split; [lia|reflexivity]|].
    split; [intros [c H]; discriminate|lia].
  - split.
    { split; [|lia]. intros H. exfalso. exact (Charge_loop_not_IOError _ _ _ _ H). }
    split.
    + intros [c H]. split; [lia|]. intros i row Hi Hrow.
      apply Charge_loop_Ok in H as [_ [labels [tys [ms [ls Hall]]]]].
      destruct Hall as [_ [_ [_ [_ [_ [_ [_ [_ Hrows]]]]]]]].
      destruct (Hrows (i - 3)%nat (i - 3)%nat) as [row' [label [type [m [l [Hrow' [Hf _]]]]]]].
      { rewrite lookup_seq_lt by lia. reflexivity. }
      rewrite lookup_slice in Hrow' by lia.
      replace (3 + (i - 3))%nat with i in Hrow' by lia.
      rewrite Hrow in Hrow'. injection Hrow' as <-. eauto.
    + intros [Hlen Hrows].
      apply Charge_loop_returns. intros atom Ha. apply elem_of_seq in Ha.
      destruct (lookup_lt_is_Some_2 lines (3 + atom)) as [row Hrow]; [lia|].
      destruct (Hrows (3 + atom)%nat row) as [label [type [m [l Hf]]]]; [lia|exact Hrow|].
      exists row, label, type, m, l. split; [|exact Hf].
      rewrite lookup_slice by lia. exact Hrow.
Qed.

(** X21.  When [Charge.__init__] returns, the file has more than six lines,
    [num_atoms] is the number of lines minus six, the four lists [atomlist],
    [types], [Mulliken] and [Loewdin] have [num_atoms] entries each, and entry
    [i] comes from line [3 + i]: its second field is the type, the type
    followed by the first field the name in [atomlist], and the third and
    fourth fields, read as floats, the two charges. *)
Theorem charge_lists (contents : string) (c : Charge) :
  Charge_init str_split float_of contents = Ok c ->
  let lines := split_lines contents in
  (6 < length lines)%nat
  /\ num_atoms c = (length lines - 6)%nat
  /\ length (atomlist c) = num_atoms c /\ length (types c) = num_atoms c
  /\ length (Mulliken c) = num_atoms c /\ length (Loewdin c) = num_atoms c
  /\ forall i, (i < num_atoms c)%nat ->
       exists row label type m l,
         lines !! (3 + i)%nat = Some row /\ charge_fields row label type m l
         /\ atomlist c !! i = Some label /\ types c !! i = Some type
         /\ Mulliken c !! i = Some m /\ Loewdin c !! i = Some l.
Proof.
  unfold Charge_init. cbv zeta. rewrite length_slice.
  destruct (Nat.eqb_spec (length (split_lines contents) - 3 - 3) 0) as [E|E];
    [discriminate|].
  intros H. apply Charge_loop_Ok in H as [Hn [labels [tys [ms [ls Hall]]]]].
  simpl in Hn, Hall.
  destruct Hall as [-> [-> [-> [-> [L1 [L2 [L3 [L4 Hrows]]]]]]]].
  rewrite length_seq in L1, L2, L3, L4.
  split; [lia|]. split; [lia|]. rewrite Hn.
  repeat split; try lia.
  intros i Hi.
  destruct (Hrows i i) as [row [label [type [m [l [Hrow Hrest]]]]]].
  { rewrite lookup_seq_lt by lia. reflexivity. }
  rewrite lookup_slice in Hrow by lia.
  exists row, label, type, m, l. split; [exact Hrow|exact Hrest].
Qed.

Lemma int_Ok (s : string) (x : Z) : int int_of s = Ok x <-> int_of s = Some x.
Proof. unfold int. destruct (int_of s); split; congruence. Qed.

(** Every list of the record has [n] entries. *)
Definition lists_length (l : IcohpLists) (n : nat) : Prop :=
  length (list_labels l) = n /\ length (list_atom1 l) = n /\ length (list_atom2 l) = n
  /\ length (list_length l) = n /\ length (list_translation l) = n
  /\ length (list_num l) = n /\ length (list_icohp l) = n.

(** The spins a dictionary [icohp] has values for. *)
Definition spins_of (spin_polarized : bool) : gset Spin :=
  if spin_polarized then {[Up; Down]} else {[Up]}.

Lemma icohp_down_Ok (col : nat) (spin : bool) (num_bonds : nat) (data : list string)
    (bond : nat) (up : R) (icohp : gmap Spin R) :
  icohp_down str_split float_of col spin num_bonds data bond {[Up := up]} = Ok icohp ->
  dom icohp = spins_of spin
  /\ (spin = true -> is_Some (data !! (bond + num_bonds + 1)%nat)).
Proof.
  unfold icohp_down. destruct spin; simpl.
  - intros H.
    apply bind_Ok_inv in H as [row [Hrow H]].
    apply bind_Ok_inv in H as [field [Hfield H]].
    apply bind_Ok_inv in H as [down [Hdown H]].
    injection H as <-. apply getitem_Ok in Hrow. split; [|eauto].
    rewrite dom_insert_L, dom_singleton_L. set_solver.
  - intros H. injection H as <-. split; [|discriminate].
    apply dom_singleton_L.
Qed.

Lemma Icohplist_bond_Ok (version : lobster_version) (spin : bool) (num_bonds : nat)
    (data : list string) (bond : nat) (acc acc' : IcohpLists) (n : nat) :
  Icohplist_bond str_split float_of int_of version spin num_bonds data bond acc = Ok acc' ->
  lists_length acc n ->
  lists_length acc' (S n)
  /\ (spin = true -> is_Some (data !! (bond + num_bonds + 1)%nat))
  /\ (forall i, (i < n)%nat -> list_icohp acc' !! i = list_icohp acc !! i)
  /\ exists icohp, list_icohp acc' !! n = Some icohp /\ dom icohp = spins_of spin.
Proof.
  unfold Icohplist_bond. intros H Hlen.
  apply bind_Ok_inv in H as [row [_ H]].
  apply bind_Ok_inv in H as [[[[[[[label atom1] atom2] len] translation] num] icohp] [Hf H]].
  injection H as <-.
  assert (Hi : dom icohp = spins_of spin
               /\ (spin = true -> is_Some (data !! (bond + num_bonds + 1)%nat))).
  { destruct version.
    - apply bind_Ok_inv in Hf as [? [_ Hf]]. apply bind_Ok_inv in Hf as [? [_ Hf]].
      apply bind_Ok_inv in Hf as [? [_ Hf]]. apply bind_Ok_inv in Hf as [? [_ Hf]].
      apply bind_Ok_inv in Hf as [? [_ Hf]]. apply bind_Ok_inv in Hf as [? [_ Hf]].
      apply bind_Ok_inv in Hf as [? [_ Hf]]. apply bind_Ok_inv in Hf as [? [_ Hf]].
      apply bind_Ok_inv in Hf as [? [_ Hf]]. apply bind_Ok_inv in Hf as [? [_ Hf]].
      apply bind_Ok_inv in Hf as [? [_ Hf]]. apply bind_Ok_inv in Hf as [? [_ Hf]].
      apply bind_Ok_inv in Hf as [up [_ Hf]]. apply bind_Ok_inv in Hf as [ic [Hd Hf]].
      injection Hf as <- <- <- <- <- <- <-. now apply icohp_down_Ok in Hd.
    - apply bind_Ok_inv in Hf as [? [_ Hf]]. apply bind_Ok_inv in Hf as [? [_ Hf]].
      apply bind_Ok_inv in Hf as [? [_ Hf]]. apply bind_Ok_inv in Hf as [? [_ Hf]].
      apply bind_Ok_inv in Hf as [? [_ Hf]]. apply bind_Ok_inv in Hf as [? [_ Hf]].
      apply bind_Ok_inv in Hf as [up [_ Hf]]. apply bind_Ok_inv in Hf as [? [_ Hf]].
      apply bind_Ok_inv in Hf as [? [_ Hf]]. apply bind_Ok_inv in Hf as [ic [Hd Hf]].
      injection Hf as <- <- <- <- <- <- <-. now apply icohp_down_Ok in Hd. }
  destruct Hi as [Hdom Hdata].
  destruct Hlen as [L1 [L2 [L3 [L4 [L5 [L6 L7]]]]]].
  split; [|split; [exact Hdata|split]].
  - unfold lists_length. simpl. rewrite !length_app. simpl. lia.
  - intros i Hi. simpl. rewrite lookup_app_l by lia. reflexivity.
  - exists icohp. split; [|exact Hdom]. simpl.
    rewrite lookup_app_r by lia. rewrite L7, Nat.sub_diag. reflexivity.
Qed.

Lemma Icohplist_loop_Ok (version : lobster_version) (spin : bool) (num_bonds : nat)
    (data : list string) (bonds : list nat) :
  forall (acc r : IcohpLists) (n : nat),
    Icohplist_loop str_split float_of int_of version spin num_bonds data bonds acc = Ok r ->
    lists_length acc n ->
    lists_length r (n + length bonds)
    /\ (forall bond, bond ∈ bonds -> spin = true ->
          is_Some (data !! (bond + num_bonds + 1)%nat))
    /\ (forall i, (i < n)%nat -> list_icohp r !! i = list_icohp acc !! i)
    /\ (forall i, (n <= i < n + length bonds)%nat ->
          exists icohp, list_icohp r !! i = Some icohp /\ dom icohp = spins_of spin).
Proof.
  induction bonds as [|bond rest IH]; intros acc r n H Hlen.
  - simpl in H. injection H as <-. rewrite Nat.add_0_r.
    split; [exact Hlen|]. split; [intros b Hb; inversion Hb|].
    split; [reflexivity|]. simpl. intros i Hi. lia.
  - simpl in H. apply bind_Ok_inv in H as [acc' [Hbond H]].
    destruct (Icohplist_bond_Ok _ _ _ _ _ _ _ n Hbond Hlen)
      as [Hlen' [Hdata [Hkeep [icohp [Hicohp Hdom]]]]].
    destruct (IH acc' r (S n) H Hlen') as [Hr [Hdata' [Hkeep' Hnew]]].
    split; [|split; [|split]].
    + simpl. now rewrite <- Nat.add_succ_comm.
    + intros b Hb Hs. apply elem_of_cons in Hb as [->|Hb]; [now apply Hdata|].
      now apply Hdata'.
    + intros i Hi. rewrite Hkeep' by lia. now apply Hkeep.
    + intros i Hi. simpl in Hi.
      destruct (decide (i = n)) as [->|Hne].
      * exists icohp. rewrite Hkeep' by lia. now split.
      * apply Hnew. lia.
Qed.

(** The lines of the file without the header and the last line. *)
Definition icohp_data (contents : string) : list string := slice 1 1 (split_lines contents).

(** X22.  [Icohplist.__init__] has no data exactly when the file has at most
    two lines, and then raises [IOError]; it raises [ValueError] when the
    first data line has neither 8 nor 6 fields; and a file whose only data
    line contains "distance" is refused: with [IOError] when that line has 8
    or 6 fields, with [ValueError] otherwise. *)
Theorem icohplist_rejects (are_coops : bool) (contents : string) :
  let data := icohp_data contents in
  (data = [] <-> (length (split_lines contents) <= 2)%nat)
  /\ (data = [] ->
      Icohplist_init str_split float_of int_of are_coops contents
      = (Raise (IOError "ICOHPLIST file contains no data."), []))
  /\ (forall first,
        data !! 0%nat = Some first ->
        length (str_split first) <> 8%nat -> length (str_split first) <> 6%nat ->
        Icohplist_init str_split float_of int_of are_coops contents
        = (Raise ValueError, []))
  /\ (forall only,
        data = [only] -> contains "distance" only = true ->
        (length (str_split only) = 8%nat \/ length (str_split only) = 6%nat ->
         fst (Icohplist_init str_split float_of int_of are_coops contents)
         = Raise (IOError "ICOHPLIST file contains no data."))
        /\ (length (str_split only) <> 8%nat -> length (str_split only) <> 6%nat ->
            fst (Icohplist_init str_split float_of int_of are_coops contents)
            = Raise ValueError)).
Proof.
  unfold icohp_data, Icohplist_init. cbv zeta.
  set (data := slice 1 1 (split_lines contents)).
  assert (Hlen : length data = (length (split_lines contents) - 1 - 1)%nat)
    by apply length_slice.
  split; [|split; [|split]].
  - split.
    + intros E. rewrite E in Hlen. simpl in Hlen. lia.
    + intros H. apply length_zero_iff_nil. lia.
  - intros E. now rewrite E.
  - intros first Hfirst H8 H6.
    destruct (Nat.eqb_spec (length data) 0) as [E|E].
    { apply length_zero_iff_nil in E. rewrite E in Hfirst. discriminate. }
    rewrite Hfirst. simpl default.
    apply Nat.eqb_neq in H8, H6. now rewrite H8, H6.
  - intros only E Hc. rewrite E. simpl. split.
    + intros [H8|H6].
      * rewrite H8. simpl. now rewrite Hc.
      * rewrite H6. simpl. now rewrite Hc.
    + intros H8 H6. apply Nat.eqb_neq in H8, H6. now rewrite H8, H6.
Qed.

(** X23.  When [Icohplist.__init__] reaches the call of [CompleteIcohp], the
    file was taken as spin polarized exactly when its middle data line contains
    "distance"; the number of bonds is then half the number of data lines,
    which is odd (an even number of data lines makes the last bond fail), and
    otherwise the number of data lines; each of the seven lists handed over
    has one entry per bond, and every [icohp] dictionary has the key
    [Spin.up], and the key [Spin.down] exactly for a spin-polarized file. *)
Theorem icohplist_lists (are_coops : bool) (contents : string) (r : Icohplist)
    (warnings : list string) :
  Icohplist_init str_split float_of int_of are_coops contents = (Ok r, warnings) ->
  let data := icohp_data contents in
  let num_bonds := if is_spin_polarized r then (length data / 2)%nat else length data in
  Lobster.are_coops r = are_coops
  /\ (exists middle, data !! (length data / 2)%nat = Some middle
        /\ is_spin_polarized r = contains "distance" middle)
  /\ lists_length (collection_arguments r) num_bonds
  /\ (is_spin_polarized r = true -> length data = (2 * num_bonds + 1)%nat)
  /\ forall i, (i < num_bonds)%nat ->
       exists icohp, list_icohp (collection_arguments r) !! i = Some icohp
         /\ dom icohp = spins_of (is_spin_polarized r).
Proof.
  unfold Icohplist_init, icohp_data. cbv zeta.
  set (data := slice 1 1 (split_lines contents)).
  destruct (Nat.eqb_spec (length data) 0) as [E|E]; [discriminate|].
  assert (Hhalf : (length data / 2 < length data)%nat) by (apply Nat.div_lt; lia).
  pose proof (Nat.div_mod_eq (length data) 2) as Hdm.
  pose proof (Nat.mod_upper_bound (length data) 2 ltac:(lia)) as Hm.
  set (half := (length data / 2)%nat) in *.
  destruct (Nat.eqb (length (str_split (default EmptyString (data !! 0%nat)))) 8);
    [|destruct (Nat.eqb (length (str_split (default EmptyString (data !! 0%nat)))) 6);
      [|discriminate]].
  all: destruct (lookup_lt_is_Some_2 data half Hhalf) as [middle Hmid].
  all: rewrite Hmid; change (default EmptyString (Some middle)) with middle.
  all: destruct (contains "distance" middle) eqn:Hc.
  all: try (destruct (Nat.eqb_spec half 0) as [E2|E2]; [discriminate|]).
  all: intros H; injection H as H _.
  all: apply bind_Ok_inv in H as [lists [Hloop H]]; injection H as <-.
  all: cbn [is_spin_polarized collection_arguments Lobster.are_coops].
  all: destruct (Icohplist_loop_Ok _ _ _ _ _ _ _ 0%nat Hloop) as [Hlen [Hdata [_ Hnew]]];
    [repeat split|].
  all: rewrite length_seq, Nat.add_0_l in Hlen, Hnew.
  all: split; [reflexivity|]; split; [exists middle; now split|]; split; [exact Hlen|].
  all: split; [|intros i Hi; apply Hnew; lia].
  all: try discriminate.
  all: intros _.
  all: assert (Hlast : is_Some (data !! (half - 1 + half + 1)%nat))
    by (apply Hdata; [apply elem_of_seq; lia|reflexivity]).
  all: apply lookup_lt_is_Some in Hlast.
  all: lia.
Qed.

End ReaderProperties.

(* ===================================================================== *)
(** ** DOSCAR: projected densities by column *)

Section DoscarProperties.

Import Lobster.

(** [pdos[orb][spin]], when both keys are there. *)
Definition pdos_lookup (pdos : gmap string (gmap Spin (list R))) (orb : string) (spin : Spin)
    : option (list R) :=
  pdos !! orb ≫= (fun d => d !! spin).

Lemma pdos_lookup_set (pdos : gmap string (gmap Spin (list R))) (orb orb' : string)
    (spin spin' : Spin) (column : list R) :
  pdos_lookup (set_pdos pdos orb spin column) orb' spin'
  = if decide (orb = orb' /\ spin = spin') then Some column else pdos_lookup pdos orb' spin'.
Proof.
  unfold pdos_lookup, set_pdos.
  destruct (decide (orb = orb')) as [->|Ho].
  - rewrite lookup_insert_eq. simpl.
    destruct (decide (spin = spin')) as [->|Hs].
    + rewrite lookup_insert_eq. now rewrite decide_True.
    + rewrite lookup_insert_ne by assumption.
      rewrite decide_False by tauto.
      destruct (pdos !! orb'); [reflexivity|]. simpl. apply lookup_empty.
  - rewrite lookup_insert_ne by assumption. rewrite decide_False by tauto. reflexivity.
Qed.

(** The column loop, with the orbital and the spin of column [j] given by two
    functions. *)
Fixpoint columns_loop (orb_of : nat -> nat) (spin_of : nat -> Spin) (js : list nat)
    (data : list (list R)) (orbitals : list (list string)) (atom : nat)
    (pdos : gmap string (gmap Spin (list R))) : result (gmap string (gmap Spin (list R))) :=
  match js with
  | [] => Ok pdos
  | j :: rest =>
      names ← getitem orbitals (atom + 1);
      orb ← getitem names (orb_of j);
      column ← getitem data j;
      columns_loop orb_of spin_of rest data orbitals atom
        (set_pdos pdos orb (spin_of j) column)
  end.

(** The spin of column [j] of a spin-polarized array. *)
Definition column_spin (j : nat) : Spin := if Nat.eqb (j mod 2) 0 then Down else Up.

Lemma pdos_columns_loop (n : nat) :
  forall j0 data orbitals atom pdos,
    (1 <= j0)%nat ->
    pdos_columns (seq j0 n) data orbitals atom (j0 - 1) pdos
    = columns_loop (fun j => (j - 1)%nat) (fun _ => Up) (seq j0 n) data orbitals atom pdos.
Proof.
  induction n as [|n IH]; intros j0 data orbitals atom pdos Hj; [reflexivity|].
  simpl.
  destruct (getitem orbitals (atom + 1)) as [names|]; simpl; [|reflexivity].
  destruct (getitem names (j0 - 1)) as [orb|]; simpl; [|reflexivity].
  destruct (getitem data j0) as [column|]; simpl; [|reflexivity].
  replace (j0 - 1 + 1)%nat with (S j0 - 1)%nat by lia.
  apply IH. lia.
Qed.

Lemma half_step (j : nat) :
  (1 <= j)%nat ->
  (if Nat.eqb (j mod 2) 0 then ((j - 1) / 2 + 1)%nat else ((j - 1) / 2)%nat) = ((S j - 1) / 2)%nat.
Proof.
  intros Hj.
  pose proof (Nat.div_mod_eq j 2) as E. pose proof (Nat.mod_upper_bound j 2 ltac:(lia)) as B.
  pose proof (Nat.div_mod_eq (j - 1) 2) as E1.
  pose proof (Nat.mod_upper_bound (j - 1) 2 ltac:(lia)) as B1.
  pose proof (Nat.div_mod_eq (S j - 1) 2) as E2.
  pose proof (Nat.mod_upper_bound (S j - 1) 2 ltac:(lia)) as B2.
  destruct (Nat.eqb_spec (j mod 2) 0); lia.
Qed.

Lemma pdos_columns_polarized_loop (n : nat) :
  forall j0 data orbitals atom pdos,
    (1 <= j0)%nat ->
    pdos_columns_polarized (seq j0 n) data orbitals atom ((j0 - 1) / 2) pdos
    = columns_loop (fun j => ((j - 1) / 2)%nat) column_spin (seq j0 n) data orbitals atom pdos.
Proof.
  induction n as [|n IH]; intros j0 data orbitals atom pdos Hj; [reflexivity|].
  cbn [seq pdos_columns_polarized columns_loop].
  destruct (getitem orbitals (atom + 1)) as [names|]; [|reflexivity].
  cbn [mbind result_bind].
  destruct (getitem names ((j0 - 1) / 2)) as [orb|]; [|reflexivity].
  destruct (getitem data j0) as [column|]; [|reflexivity].
  rewrite (half_step j0 Hj). unfold column_spin at 1.
  apply IH. lia.
Qed.

Lemma columns_loop_spec (orb_of : nat -> nat) (spin_of : nat -> Spin)
    (data : list (list R)) (orbitals : list (list string)) (atom : nat)
    (names : list string) (n : nat) :
  orbitals !! (atom + 1)%nat = Some names -> NoDup names ->
  forall j0 pdos r,
    (forall j j', (j0 <= j < j0 + n)%nat -> (j0 <= j' < j0 + n)%nat ->
       orb_of j = orb_of j' -> spin_of j = spin_of j' -> j = j') ->
    columns_loop orb_of spin_of (seq j0 n) data orbitals atom pdos = Ok r ->
    (forall j, (j0 <= j < j0 + n)%nat ->
       exists orb column,
         names !! orb_of j = Some orb /\ data !! j = Some column
         /\ pdos_lookup r orb (spin_of j) = Some column)
    /\ (forall orb spin,
          (forall j, (j0 <= j < j0 + n)%nat -> names !! orb_of j = Some orb ->
             spin_of j <> spin) ->
          pdos_lookup r orb spin = pdos_lookup pdos orb spin).
Proof.
  intros Hnames Hnd. induction n as [|n IH]; intros j0 pdos r Hinj H.
  - simpl in H. injection H as <-. split; [intros j Hj; lia|reflexivity].
  - cbn [seq columns_loop] in H.
    apply bind_Ok_inv in H as [names' [Hn' H]].
    apply getitem_Ok in Hn'. rewrite Hnames in Hn'. injection Hn' as <-.
    apply bind_Ok_inv in H as [orb0 [Horb0 H]].
    apply bind_Ok_inv in H as [col0 [Hcol0 H]].
    apply getitem_Ok in Horb0, Hcol0.
    destruct (IH (S j0) (set_pdos pdos orb0 (spin_of j0) col0) r) as [HA HB];
      [intros j j' Hj Hj'; apply Hinj; lia|exact H|].
    split.
    + intros j Hj. destruct (decide (j = j0)) as [->|Hne]; [|apply HA; lia].
      exists orb0, col0. split; [exact Horb0|]. split; [exact Hcol0|].
      rewrite HB.
      * rewrite pdos_lookup_set. now rewrite decide_True.
      * intros j Hj' Hname Hspin.
        assert (orb_of j = orb_of j0)
          by (eapply NoDup_lookup; [exact Hnd|exact Hname|exact Horb0]).
        assert (j = j0) by (apply Hinj; [lia|lia|assumption|assumption]). lia.
    + intros orb spin Hcond. rewrite HB by (intros j Hj; apply Hcond; lia).
      rewrite pdos_lookup_set. rewrite decide_False; [reflexivity|].
      intros [-> Hs]. apply (Hcond j0); [lia|exact Horb0|exact Hs].
Qed.

(** The orbital and the spin that column [j] of an atom's array belongs to. *)
Definition column_orbital (is_spin_polarized : bool) (j : nat) : nat :=
  if is_spin_polarized then ((j - 1) / 2)%nat else (j - 1)%nat.

Definition column_spin_of (is_spin_polarized : bool) (j : nat) : Spin :=
  if is_spin_polarized then column_spin j else Up.

Lemma column_injective (is_spin_polarized : bool) (j j' : nat) :
  (1 <= j)%nat -> (1 <= j')%nat ->
  column_orbital is_spin_polarized j = column_orbital is_spin_polarized j' ->
  column_spin_of is_spin_polarized j = column_spin_of is_spin_polarized j' -> j = j'.
Proof.
  intros Hj Hj'. unfold column_orbital, column_spin_of, column_spin.
  destruct is_spin_polarized; [|lia].
  pose proof (Nat.div_mod_eq (j - 1) 2). pose proof (Nat.div_mod_eq (j' - 1) 2).
  pose proof (Nat.mod_upper_bound (j - 1) 2 ltac:(lia)).
  pose proof (Nat.mod_upper_bound (j' - 1) 2 ltac:(lia)).
  pose proof (Nat.div_mod_eq j 2). pose proof (Nat.div_mod_eq j' 2).
  pose proof (Nat.mod_upper_bound j 2 ltac:(lia)).
  pose proof (Nat.mod_upper_bound j' 2 ltac:(lia)).
  intros Horb Hspin.
  destruct (Nat.eqb_spec (j mod 2) 0), (Nat.eqb_spec (j' mod 2) 0);
    try discriminate; lia.
Qed.

(** The dictionary of one atom, as [pdos_atoms] computes it. *)
Definition atom_pdos (is_spin_polarized : bool) (data : list (list R))
    (orbitals : list (list string)) (atom : nat)
    : result (gmap string (gmap Spin (list R))) :=
  if is_spin_polarized
  then pdos_columns_polarized (seq 1 (length data - 1)) data orbitals atom 0 ∅
  else pdos_columns (seq 1 (length data - 1)) data orbitals atom 0 ∅.

Lemma atom_pdos_loop (is_spin_polarized : bool) (data : list (list R))
    (orbitals : list (list string)) (atom : nat) :
  atom_pdos is_spin_polarized data orbitals atom
  = columns_loop (column_orbital is_spin_polarized) (column_spin_of is_spin_polarized)
      (seq 1 (length data - 1)) data orbitals atom ∅.
Proof.
  unfold atom_pdos. destruct is_spin_polarized.
  - apply (pdos_columns_polarized_loop (length data - 1) 1). lia.
  - apply (pdos_columns_loop (length data - 1) 1). lia.
Qed.

Lemma pdos_atoms_spec (is_spin_polarized : bool) (dos : list (list (list R)))
    (orbitals : list (list string)) (n : nat) :
  forall a pdoss r,
    pdos_atoms is_spin_polarized (seq a n) dos orbitals pdoss = Ok r ->
    length r = (length pdoss + n)%nat
    /\ (forall i, (i < length pdoss)%nat -> r !! i = pdoss !! i)
    /\ forall k, (k < n)%nat ->
         exists data d,
           dos !! (a + k + 1)%nat = Some data
           /\ atom_pdos is_spin_polarized data orbitals (a + k) = Ok d
           /\ r !! (length pdoss + k)%nat = Some d.
Proof.
  induction n as [|n IH]; intros a pdoss r H.
  - simpl in H. injection H as <-. split; [lia|]. split; [reflexivity|intros k Hk; lia].
  - cbn [seq pdos_atoms] in H.
    apply bind_Ok_inv in H as [data [Hdata H]]. apply getitem_Ok in Hdata.
    apply bind_Ok_inv in H as [d [Hd H]].
    destruct (IH _ _ _ H) as [Hlen [Hkeep Hrest]].
    rewrite length_app in Hlen, Hkeep, Hrest. simpl in Hlen, Hkeep, Hrest.
    split; [lia|]. split.
    + intros i Hi. rewrite Hkeep by lia. now rewrite lookup_app_l.
    + intros [|k] Hk.
      * exists data, d. rewrite !Nat.add_0_r. split; [exact Hdata|]. split; [exact Hd|].
        rewrite Hkeep by lia. rewrite lookup_app_r by lia.
        now rewrite Nat.sub_diag.
      * destruct (Hrest k) as [data' [d' [H1 [H2 H3]]]]; [lia|].
        exists data', d'. replace (a + S k)%nat with (S a + k)%nat by lia.
        split; [exact H1|]. split; [exact H2|].
        replace (length pdoss + S k)%nat with (length pdoss + 1 + k)%nat by lia. exact H3.
Qed.

(** X24.  When the tables of a DOSCAR are built, [pdos] has one dictionary
    per atom, and for an atom whose orbital names are pairwise different every
    column [j >= 1] of the atom's array is found again in it: without spin
    polarization under orbital [j - 1] and [Spin.up]; with spin polarization
    under orbital [(j - 1) // 2], as [Spin.up] for odd [j] and [Spin.down] for
    even [j].  The dictionary holds nothing else. *)
Theorem doscar_pdos_columns (is_spin_polarized : bool) (natoms : nat)
    (dos : list (list (list R))) (orbitals : list (list string)) (t : DosTables)
    (atom : nat) (data : list (list R)) (names : list string) :
  doscar_tables is_spin_polarized natoms dos orbitals = Ok t ->
  (atom < natoms)%nat ->
  dos !! (atom + 1)%nat = Some data ->
  orbitals !! (atom + 1)%nat = Some names -> NoDup names ->
  length (pdos t) = natoms
  /\ exists d,
       pdos t !! atom = Some d
       /\ (forall j, (1 <= j < length data)%nat ->
             exists orb column,
               names !! column_orbital is_spin_polarized j = Some orb
               /\ data !! j = Some column
               /\ pdos_lookup d orb (column_spin_of is_spin_polarized j) = Some column)
       /\ (forall orb spin,
             (forall j, (1 <= j < length data)%nat ->
                names !! column_orbital is_spin_polarized j = Some orb ->
                column_spin_of is_spin_polarized j <> spin) ->
             pdos_lookup d orb spin = None).
Proof.
  intros H Hatom Hdata Hnames Hnd.
  assert (Hp : pdos_atoms is_spin_polarized (seq 0 natoms) dos orbitals [] = Ok (pdos t)).
  { unfold doscar_tables in H.
    apply bind_Ok_inv in H as [doshere [_ H]].
    apply bind_Ok_inv in H as [en [_ H]].
    destruct is_spin_polarized; simpl in H.
    - apply bind_Ok_inv in H as [up [_ H]]. apply bind_Ok_inv in H as [down [_ H]].
      apply bind_Ok_inv in H as [pdoss [Hp H]]. injection H as <-. exact Hp.
    - apply bind_Ok_inv in H as [up [_ H]].
      apply bind_Ok_inv in H as [pdoss [Hp H]]. injection H as <-. exact Hp. }
  destruct (pdos_atoms_spec _ _ _ _ _ _ _ Hp) as [Hlen [_ Hrows]].
  split; [exact Hlen|].
  destruct (Hrows atom Hatom) as [data' [d [Hdata' [Hd Hrow]]]].
  simpl in Hdata', Hd, Hrow. rewrite Hdata in Hdata'. injection Hdata' as <-.
  exists d. split; [exact Hrow|].
  rewrite atom_pdos_loop in Hd.
  destruct (columns_loop_spec (column_orbital is_spin_polarized)
              (column_spin_of is_spin_polarized) data orbitals atom names
              (length data - 1) Hnames Hnd 1%nat ∅ d)
    as [HA HB]; [|exact Hd|].
  { intros j j' Hj Hj'. apply column_injective; lia. }
  split.
  - intros j Hj. apply HA. lia.
  - intros orb spin Hcond. rewrite HB; [reflexivity|].
    intros j Hj. apply Hcond. lia.
Qed.

Lemma columns_loop_names (orb_of : nat -> nat) (spin_of : nat -> Spin)
    (data : list (list R)) (orbitals : list (list string)) (atom : nat)
    (names : list string) (js : list nat) :
  orbitals !! (atom + 1)%nat = Some names ->
  forall pdos r,
    columns_loop orb_of spin_of js data orbitals atom pdos = Ok r ->
    forall j, j ∈ js -> is_Some (names !! orb_of j).
Proof.
  intros Hnames. induction js as [|j0 rest IH]; intros pdos r H j Hj; [inversion Hj|].
  cbn [columns_loop] in H.
  apply bind_Ok_inv in H as [names' [Hn' H]].
  apply getitem_Ok in Hn'. rewrite Hnames in Hn'. injection Hn' as <-.
  apply bind_Ok_inv in H as [orb0 [Horb0 H]]. apply getitem_Ok in Horb0.
  apply bind_Ok_inv in H as [col0 [_ H]].
  apply elem_of_cons in Hj as [->|Hj]; [eauto|].
  now apply (IH _ _ H).
Qed.

Lemma columns_loop_error (orb_of : nat -> nat) (spin_of : nat -> Spin)
    (data : list (list R)) (orbitals : list (list string)) (atom : nat) (js : list nat) :
  forall pdos e,
    columns_loop orb_of spin_of js data orbitals atom pdos = Raise e -> e = IndexError.
Proof.
  induction js as [|j0 rest IH]; intros pdos e H; [discriminate|].
  cbn [columns_loop] in H. unfold getitem in H.
  destruct (orbitals !! (atom + 1)%nat) as [names|]; simpl in H; [|congruence].
  destruct (names !! orb_of j0) as [orb|]; simpl in H; [|congruence].
  destruct (data !! j0) as [col|]; simpl in H; [|congruence].
  now apply (IH _ _ H).
Qed.

Lemma pdos_atoms_error (is_spin_polarized : bool) (dos : list (list (list R)))
    (orbitals : list (list string)) (atoms : list nat) :
  forall pdoss e,
    pdos_atoms is_spin_polarized atoms dos orbitals pdoss = Raise e -> e = IndexError.
Proof.
  induction atoms as [|atom rest IH]; intros pdoss e H; [discriminate|].
  cbn [pdos_atoms] in H. unfold getitem in H.
  destruct (dos !! (atom + 1)%nat) as [data|]; simpl in H; [|congruence].
  fold (atom_pdos is_spin_polarized data orbitals atom) in H.
  rewrite atom_pdos_loop in H.
  destruct (columns_loop _ _ _ _ _ _ _) as [d|e'] eqn:Hd; simpl in H.
  - now apply (IH _ _ H).
  - injection H as <-. now apply columns_loop_error in Hd.
Qed.

Lemma columns_loop_returns (orb_of : nat -> nat) (spin_of : nat -> Spin)
    (data : list (list R)) (orbitals : list (list string)) (atom : nat) (js : list nat) :
  forall pdos,
    (forall j, j ∈ js ->
       (j < length data)%nat
       /\ exists names orb,
            orbitals !! (atom + 1)%nat = Some names /\ names !! orb_of j = Some orb) ->
    exists r, columns_loop orb_of spin_of js data orbitals atom pdos = Ok r.
Proof.
  induction js as [|j0 rest IH]; intros pdos Hall; [now exists pdos|].
  destruct (Hall j0) as [Hlt [names [orb [Hnames Horb]]]]; [left|].
  destruct (lookup_lt_is_Some_2 data j0 Hlt) as [column Hcol].
  cbn [columns_loop]. unfold getitem. rewrite Hnames. simpl. rewrite Horb. simpl.
  rewrite Hcol. simpl. apply IH. intros j Hj. apply Hall. now right.
Qed.

Lemma columns_loop_Ok_inv (orb_of : nat -> nat) (spin_of : nat -> Spin)
    (data : list (list R)) (orbitals : list (list string)) (atom : nat) (js : list nat) :
  forall pdos r,
    columns_loop orb_of spin_of js data orbitals atom pdos = Ok r ->
    forall j, j ∈ js ->
      exists names orb, orbitals !! (atom + 1)%nat = Some names /\ names !! orb_of j = Some orb.
Proof.
  induction js as [|j0 rest IH]; intros pdos r H j Hj; [inversion Hj|].
  cbn [columns_loop] in H.
  apply bind_Ok_inv in H as [names [Hnames H]]. apply getitem_Ok in Hnames.
  apply bind_Ok_inv in H as [orb0 [Horb0 H]]. apply getitem_Ok in Horb0.
  apply bind_Ok_inv in H as [col0 [_ H]].
  apply elem_of_cons in Hj as [->|Hj]; [eauto|].
  now apply (IH _ _ H).
Qed.

Lemma pdos_atoms_returns (is_spin_polarized : bool) (dos : list (list (list R)))
    (orbitals : list (list string)) (atoms : list nat) :
  forall pdoss,
    (forall atom, atom ∈ atoms ->
       exists data d, dos !! (atom + 1)%nat = Some data
                      /\ atom_pdos is_spin_polarized data orbitals atom = Ok d) ->
    exists r, pdos_atoms is_spin_polarized atoms dos orbitals pdoss = Ok r.
Proof.
  induction atoms as [|atom rest IH]; intros pdoss Hall; [now exists pdoss|].
  destruct (Hall atom) as [data [d [Hdata Hd]]]; [left|].
  cbn [pdos_atoms]. unfold getitem. rewrite Hdata. simpl.
  fold (atom_pdos is_spin_polarized data orbitals atom). rewrite Hd. simpl.
  apply IH. intros a Ha. apply Hall. now right.
Qed.

Lemma doscar_tables_pdos (is_spin_polarized : bool) (natoms : nat)
    (dos : list (list (list R))) (orbitals : list (list string)) (t : DosTables) :
  doscar_tables is_spin_polarized natoms dos orbitals = Ok t ->
  pdos_atoms is_spin_polarized (seq 0 natoms) dos orbitals [] = Ok (pdos t)
  /\ exists doshere, dos !! 0%nat = Some doshere
       /\ ((if is_spin_polarized then 3 else 2) <= length doshere)%nat.
Proof.
  intros H. unfold doscar_tables in H.
  apply bind_Ok_inv in H as [doshere [Hdos H]]. apply getitem_Ok in Hdos.
  apply bind_Ok_inv in H as [en [_ H]].
  destruct is_spin_polarized; simpl in H.
  - apply bind_Ok_inv in H as [up [_ H]]. apply bind_Ok_inv in H as [down [Hdown H]].
    apply bind_Ok_inv in H as [pdoss [Hp H]]. injection H as <-.
    split; [exact Hp|]. exists doshere. split; [exact Hdos|].
    apply getitem_Ok, lookup_lt_Some in Hdown. lia.
  - apply bind_Ok_inv in H as [up [Hup H]].
    apply bind_Ok_inv in H as [pdoss [Hp H]]. injection H as <-.
    split; [exact Hp|]. exists doshere. split; [exact Hdos|].
    apply getitem_Ok, lookup_lt_Some in Hup. lia.
Qed.

Lemma doscar_tables_error (is_spin_polarized : bool) (natoms : nat)
    (dos : list (list (list R))) (orbitals : list (list string)) (e : exn) :
  doscar_tables is_spin_polarized natoms dos orbitals = Raise e -> e = IndexError.
Proof.
  intros H. unfold doscar_tables, getitem in H.
  destruct (dos !! 0%nat) as [doshere|]; simpl in H; [|congruence].
  destruct (doshere !! 0%nat) as [en|]; simpl in H; [|congruence].
  destruct is_spin_polarized; simpl in H.
  + destruct (doshere !! 1%nat) as [up|]; simpl in H; [|congruence].
    destruct (doshere !! 2%nat) as [down|]; simpl in H; [|congruence].
    destruct (pdos_atoms true (seq 0 natoms) dos orbitals []) as [p|e'] eqn:Hp;
      simpl in H; [discriminate|].
    injection H as <-. now apply pdos_atoms_error in Hp.
  + destruct (doshere !! 1%nat) as [up|]; simpl in H; [|congruence].
    destruct (pdos_atoms false (seq 0 natoms) dos orbitals []) as [p|e'] eqn:Hp;
      simpl in H; [discriminate|].
    injection H as <-. now apply pdos_atoms_error in Hp.
Qed.

(** The arrays and the orbital names of a DOSCAR fit together: the first
    array has the columns of the energies and of the total densities, every
    atom has its array, and every column of it after the first has the name
    of its orbital. *)
Definition doscar_complete (is_spin_polarized : bool) (natoms : nat)
    (dos : list (list (list R))) (orbitals : list (list string)) : Prop :=
  (exists doshere, dos !! 0%nat = Some doshere
     /\ ((if is_spin_polarized then 3 else 2) <= length doshere)%nat)
  /\ forall atom, (atom < natoms)%nat ->
       exists data, dos !! (atom + 1)%nat = Some data
         /\ forall j, (1 <= j < length data)%nat ->
              exists names orb,
                orbitals !! (atom + 1)%nat = Some names
                /\ names !! column_orbital is_spin_polarized j = Some orb.

(** X25.  Building the tables of a DOSCAR returns exactly when the arrays
    and the orbital names fit together: the first array has the column of the
    energies and those of the total densities (one, or two with spin
    polarization), every atom has its array, and every column of it after the
    first has the name of its orbital (column [j] needs name [j - 1], with
    spin polarization name [(j - 1) // 2]).  Otherwise it raises
    [IndexError], and nothing else. *)
Theorem doscar_outcome (is_spin_polarized : bool) (natoms : nat)
    (dos : list (list (list R))) (orbitals : list (list string)) :
  ((exists t, doscar_tables is_spin_polarized natoms dos orbitals = Ok t)
   <-> doscar_complete is_spin_polarized natoms dos orbitals)
  /\ (~ doscar_complete is_spin_polarized natoms dos orbitals ->
      doscar_tables is_spin_polarized natoms dos orbitals = Raise IndexError).
Proof.
  assert (Hto : forall t, doscar_tables is_spin_polarized natoms dos orbitals = Ok t ->
                  doscar_complete is_spin_polarized natoms dos orbitals).
  { intros t H. apply doscar_tables_pdos in H as [Hp Hdos]. split; [exact Hdos|].
    intros atom Hatom.
    destruct (pdos_atoms_spec _ _ _ _ _ _ _ Hp) as [_ [_ Hrows]].
    destruct (Hrows atom Hatom) as [data [d [Hdata [Hd _]]]].
    simpl in Hdata, Hd. exists data. split; [exact Hdata|].
    intros j Hj. rewrite atom_pdos_loop in Hd.
    apply (columns_loop_Ok_inv _ _ _ _ _ _ _ _ Hd j). apply elem_of_seq. lia. }
  split; [split|].
  - intros [t H]. exact (Hto t H).
  - intros [[doshere [Hdos Hlen]] Hatoms].
    assert (Hp : exists r, pdos_atoms is_spin_polarized (seq 0 natoms) dos orbitals [] = Ok r).
    { apply pdos_atoms_returns. intros atom Ha. apply elem_of_seq in Ha.
      destruct (Hatoms atom) as [data [Hdata Hcols]]; [lia|].
      destruct (columns_loop_returns (column_orbital is_spin_polarized)
                  (column_spin_of is_spin_polarized) data orbitals atom
                  (seq 1 (length data - 1)) ∅) as [d Hd].
      { intros j Hj. apply elem_of_seq in Hj. split; [lia|]. apply Hcols. lia. }
      exists data, d. split; [exact Hdata|]. now rewrite atom_pdos_loop. }
    destruct Hp as [r Hp].
    destruct (lookup_lt_is_Some_2 doshere 0) as [en Hen]; [destruct is_spin_polarized; lia|].
    destruct (lookup_lt_is_Some_2 doshere 1) as [up Hup]; [destruct is_spin_polarized; lia|].
    unfold doscar_tables, getitem. rewrite Hdos. simpl. rewrite Hen. simpl.
    destruct is_spin_polarized; simpl.
    + destruct (lookup_lt_is_Some_2 doshere 2) as [down Hdown]; [lia|].
      rewrite Hup. simpl. rewrite Hdown. simpl. rewrite Hp. simpl. eauto.
    + rewrite Hup. simpl. rewrite Hp. simpl. eauto.
  - intros Hnot.
    destruct (doscar_tables is_spin_polarized natoms dos orbitals) as [t|e] eqn:H.
    + destruct Hnot. exact (Hto t eq_refl).
    + f_equal. exact (doscar_tables_error _ _ _ _ _ H).
Qed.

End DoscarProperties.

(* ===================================================================== *)
(** ** COHPCAR: columns and labels *)

Section CohpcarProperties.

Import Lobster.

(** The columns of a COHPCAR file after the energies, in one formula: block
    [s] (one block per spin) holds [num_bonds + 1] curves (the average first,
    then the bonds), each a COHP column followed by an ICOHP column. *)
Definition file_row (num_bonds s curve : nat) (integrated : bool) : nat :=
  1 + 2 * (curve + s * (num_bonds + 1)) + (if integrated then 1 else 0).

(** X26.  The rows of [data] that [Cohpcar.__init__] reads follow one layout:
    after the energies, one block per spin, in each block the average and then
    the bonds, each as a COHP column followed by its ICOHP column.  No column
    is read twice, and with [spins] blocks every column from 1 to
    [2 * spins * (num_bonds + 1)] is read. *)
Theorem cohp_file_layout (num_bonds : nat) :
  (forall s, average_cohp_row num_bonds s = file_row num_bonds s 0 false
             /\ average_icohp_row num_bonds s = file_row num_bonds s 0 true)
  /\ (forall bond s, cohp_row num_bonds bond s = file_row num_bonds s (bond + 1) false
                     /\ icohp_row num_bonds bond s = file_row num_bonds s (bond + 1) true)
  /\ (forall s curve integrated s' curve' integrated',
        (curve <= num_bonds)%nat -> (curve' <= num_bonds)%nat ->
        file_row num_bonds s curve integrated = file_row num_bonds s' curve' integrated' ->
        s = s' /\ curve = curve' /\ integrated = integrated')
  /\ (forall spins row,
        (1 <= row <= 2 * spins * (num_bonds + 1))%nat ->
        exists s curve integrated,
          (s < spins)%nat /\ (curve <= num_bonds)%nat
          /\ row = file_row num_bonds s curve integrated).
Proof.
  unfold average_cohp_row, average_icohp_row, cohp_row, icohp_row, file_row.
  split; [intros s; split; lia|]. split; [intros bond s; split; lia|]. split.
  - intros s curve integrated s' curve' integrated' Hc Hc' H.
    assert (Hq : ((num_bonds + 1) * s + curve = (num_bonds + 1) * s' + curve')%nat
                 /\ integrated = integrated').
    { destruct integrated, integrated'; split; try reflexivity; try lia. }
    destruct Hq as [Hq ->].
    apply Nat.div_mod_unique in Hq as [-> ->]; [auto|lia|lia].
  - intros spins row Hrow.
    set (q := ((row - 1) / 2)%nat).
    pose proof (Nat.div_mod_eq (row - 1) 2) as E.
    pose proof (Nat.mod_upper_bound (row - 1) 2 ltac:(lia)) as B.
    pose proof (Nat.div_mod_eq q (num_bonds + 1)) as Eq.
    pose proof (Nat.mod_upper_bound q (num_bonds + 1) ltac:(lia)) as Bq.
    fold q in E.
    exists (q / (num_bonds + 1))%nat, (q mod (num_bonds + 1))%nat,
           (Nat.eqb ((row - 1) mod 2) 1).
    split; [|split; [lia|]].
    + apply Nat.Div0.div_lt_upper_bound. nia.
    + destruct (Nat.eqb_spec ((row - 1) mod 2) 1); lia.
Qed.

Lemma pretty_N_go_ne_average (x : N) (s : string) :
  s <> "average"%string -> pretty_N_go x s <> "average"%string.
Proof.
  revert s. induction (N.lt_wf_0 x) as [x _ IH]; intros s Hs.
  assert (x = 0 \/ 0 < x)%N as [->|Hx] by lia.
  - now rewrite pretty_N_go_0.
  - rewrite pretty_N_go_step by assumption. apply IH.
    + now apply N.div_lt.
    + unfold pretty_N_char. repeat case_match; discriminate.
Qed.

Lemma pretty_nat_ne_average (n : nat) : pretty n <> "average"%string.
Proof.
  unfold pretty, pretty_nat, pretty, pretty_N.
  case_decide; [discriminate|]. now apply pretty_N_go_ne_average.
Qed.

(** The dictionary of one curve: for the spin at position [s] of [spins], row
    [row_of s] of [data]; no other spin. *)
Definition spin_table (data : list (list R)) (row_of : nat -> nat) (spins : list Spin)
    (m : gmap Spin (list R)) : Prop :=
  (forall s spin, spins !! s = Some spin ->
     exists row, data !! row_of s = Some row /\ m !! spin = Some row)
  /\ (forall spin, spin ∉ spins -> m !! spin = None).

Lemma spin_rows_inv (data : list (list R)) (row_of : nat -> nat) (spins : list Spin) :
  forall k acc m,
    spin_rows data row_of (imap (fun i spin => ((k + i)%nat, spin)) spins) acc = Ok m ->
    NoDup spins ->
    (forall s spin, spins !! s = Some spin ->
       exists row, data !! row_of (k + s)%nat = Some row /\ m !! spin = Some row)
    /\ (forall spin, spin ∉ spins -> m !! spin = acc !! spin).
Proof.
  induction spins as [|spin0 rest IH]; intros k acc m H Hnd.
  - simpl in H. injection H as <-. split; [intros s spin Hs; discriminate|reflexivity].
  - apply NoDup_cons in Hnd as [Hnot Hnd].
    cbn [imap spin_rows] in H. rewrite Nat.add_0_r in H.
    apply bind_Ok_inv in H as [row [Hrow H]]. apply getitem_Ok in Hrow.
    rewrite (imap_ext _ (fun i spin => ((S k + i)%nat, spin))) in H
      by (intros i x _; simpl; f_equal; lia).
    destruct (IH (S k) _ m H Hnd) as [HA HB].
    split.
    + intros [|s] spin Hs.
      * injection Hs as <-. exists row. rewrite Nat.add_0_r. split; [exact Hrow|].
        rewrite (HB spin0 Hnot). apply lookup_insert_eq.
      * destruct (HA s spin Hs) as [r [H1 H2]]. exists r.
        replace (k + S s)%nat with (S k + s)%nat by lia. now split.
    + intros spin Hspin. apply not_elem_of_cons in Hspin as [Hne Hspin].
      rewrite (HB spin Hspin). now rewrite lookup_insert_ne.
Qed.

Lemma spin_rows_table (data : list (list R)) (row_of : nat -> nat) (spins : list Spin)
    (m : gmap Spin (list R)) :
  spin_rows data row_of (enumerate spins) ∅ = Ok m -> NoDup spins ->
  spin_table data row_of spins m.
Proof.
  intros H Hnd. unfold enumerate in H.
  destruct (spin_rows_inv data row_of spins 0 ∅ m H Hnd) as [HA HB].
  split; [exact HA|]. intros spin Hs. now rewrite (HB spin Hs).
Qed.

Variable get_bond_data : nat -> result BondData.

Lemma cohp_loop_plain (spins : list Spin) (num_bonds : nat) (data : list (list R)) (n : nat) :
  NoDup spins ->
  forall a st st',
    cohp_loop get_bond_data spins num_bonds data (seq a n) st = Ok st' ->
    bondnumber st = a ->
    (forall bond bd, (a <= bond < a + n)%nat -> get_bond_data bond = Ok bd ->
       bond_orbitals bd = None) ->
    bondnumber st' = (a + n)%nat
    /\ orb_cohp st' = orb_cohp st
    /\ (forall key, (forall bond, (a <= bond < a + n)%nat -> key <> pretty (bond + 1)%nat) ->
          cohp_data st' !! key = cohp_data st !! key)
    /\ forall bond, (a <= bond < a + n)%nat ->
         exists bd cohp icohp,
           get_bond_data bond = Ok bd
           /\ cohp_data st' !! pretty (bond + 1)%nat
              = Some (mkCohpEntry (Some cohp) (Some icohp) (Some (bond_length bd))
                        (Some (bond_sites bd)))
           /\ spin_table data (cohp_row num_bonds bond) spins cohp
           /\ spin_table data (icohp_row num_bonds bond) spins icohp.
Proof.
  intros Hnd. induction n as [|n IH]; intros a st st' H Ha Hplain.
  - simpl in H. injection H as <-. rewrite Nat.add_0_r.
    split; [exact Ha|]. split; [reflexivity|]. split; [reflexivity|]. intros b Hb. lia.
  - cbn [seq cohp_loop] in H.
    apply bind_Ok_inv in H as [bd [Hbd H]].
    apply bind_Ok_inv in H as [st1 [Hst1 H]].
    unfold cohp_bond in Hst1.
    apply bind_Ok_inv in Hst1 as [cohp [Hcohp Hst1]].
    apply bind_Ok_inv in Hst1 as [icohp [Hicohp Hst1]].
    rewrite (Hplain a bd ltac:(lia) Hbd) in Hst1. injection Hst1 as <-.
    destruct (IH (S a) _ st' H) as [Hn [Ho [Hkeep Hrows]]].
    { simpl. lia. }
    { intros bond bd' Hb. apply Hplain. lia. }
    simpl in Ho, Hkeep, Hrows.
    split; [lia|]. split; [exact Ho|]. split.
    + intros key Hkey. rewrite Hkeep by (intros b Hb; apply Hkey; lia).
      rewrite Ha. apply lookup_insert_ne. intros E. apply (Hkey a); [lia|]. now symmetry.
    + intros bond Hb. destruct (decide (bond = a)) as [->|Hne]; [|apply Hrows; lia].
      exists bd, cohp, icohp. split; [exact Hbd|]. split.
      * rewrite Hkeep.
        -- rewrite Ha. apply lookup_insert_eq.
        -- intros b Hb' E. apply (inj pretty) in E. lia.
      * split; now apply spin_rows_table.
Qed.

(** X27.  For a COHPCAR without orbital-resolved lines, [orb_res_cohp] is
    [None] and [cohp_data] has exactly the key "average" and the keys "1" to
    "num_bonds"; the entry of bond [b] (counted from 0) is under the label
    [str(b + 1)] and holds the length and the sites of the bond and, for each
    spin, rows [2 * (b + s * (num_bonds + 1)) + 3] and [... + 4] of [data]. *)
Theorem cohp_plain_file (spins : list Spin) (num_bonds : nat) (data : list (list R))
    (t : CohpTables) :
  cohp_tables get_bond_data spins num_bonds data = Ok t ->
  NoDup spins ->
  (forall bond bd, (bond < num_bonds)%nat -> get_bond_data bond = Ok bd ->
     bond_orbitals bd = None) ->
  orb_res_cohp t = None
  /\ (exists average iaverage,
        table_cohp_data t !! "average"%string
        = Some (mkCohpEntry (Some average) (Some iaverage) None None)
        /\ spin_table data (average_cohp_row num_bonds) spins average
        /\ spin_table data (average_icohp_row num_bonds) spins iaverage)
  /\ (forall bond, (bond < num_bonds)%nat ->
        exists bd cohp icohp,
          get_bond_data bond = Ok bd
          /\ table_cohp_data t !! pretty (bond + 1)%nat
             = Some (mkCohpEntry (Some cohp) (Some icohp) (Some (bond_length bd))
                       (Some (bond_sites bd)))
          /\ spin_table data (cohp_row num_bonds bond) spins cohp
          /\ spin_table data (icohp_row num_bonds bond) spins icohp)
  /\ (forall key, is_Some (table_cohp_data t !! key) ->
        key = "average"%string
        \/ exists bond, (bond < num_bonds)%nat /\ key = pretty (bond + 1)%nat).
Proof.
  intros H Hnd Hplain. unfold cohp_tables in H.
  apply bind_Ok_inv in H as [energies [_ H]].
  apply bind_Ok_inv in H as [average [Hav H]].
  apply bind_Ok_inv in H as [iaverage [Hiav H]].
  apply bind_Ok_inv in H as [st [Hloop H]]. injection H as <-.
  destruct (cohp_loop_plain spins num_bonds data num_bonds Hnd 0 _ st Hloop)
    as [Hn [Ho [Hkeep Hrows]]]; [reflexivity|intros b bd Hb; apply Hplain; lia|].
  simpl in Ho, Hkeep, Hrows. cbn [orb_res_cohp table_cohp_data].
  split; [now rewrite Ho|]. split; [|split].
  - exists average, iaverage. split; [|split; now apply spin_rows_table].
    rewrite Hkeep.
    + apply lookup_singleton_eq.
    + intros b _ E. symmetry in E. now apply pretty_nat_ne_average in E.
  - intros bond Hb. apply Hrows. lia.
  - intros key Hkey.
    destruct (decide (key = "average"%string)) as [->|Hne]; [now left|]. right.
    destruct (decide (key ∈ (fun bond : nat => pretty (bond + 1)%nat) <$> seq 0 num_bonds))
      as [Hex|Hnex].
    + apply list_elem_of_fmap in Hex as [bond [-> Hb]]. apply elem_of_seq in Hb.
      exists bond. split; [lia|reflexivity].
    + exfalso. rewrite Hkeep in Hkey.
      * rewrite lookup_singleton_ne in Hkey by congruence. now destruct Hkey.
      * intros b Hb E. apply Hnex. apply list_elem_of_fmap. exists b.
        split; [exact E|]. apply elem_of_seq. lia.
Qed.

(** Line [bond] of the header is not orbital-resolved. *)
Definition is_total (bond : nat) : bool :=
  match get_bond_data bond with
  | Ok bd => match bond_orbitals bd with None => true | Some _ => false end
  | Raise _ => false
  end.

(** The number of lines that are not orbital-resolved among the first [n]. *)
Fixpoint totals (n : nat) : nat :=
  match n with
  | O => O
  | S m => (totals m + (if is_total m then 1 else 0))%nat
  end.

Lemma totals_mono (n m : nat) : (n <= m)%nat -> (totals n <= totals m)%nat.
Proof. induction 1; [lia|]. simpl. lia. Qed.

(** [orb_cohp[label][orb_label]], when both keys are there. *)
Definition orbital_lookup (oc : gmap string (gmap (option string) OrbitalEntry))
    (label : string) (orb_label : option string) : option OrbitalEntry :=
  oc !! label ≫= (fun d => d !! orb_label).

Lemma orbital_lookup_set (oc : gmap string (gmap (option string) OrbitalEntry))
    (label label' : string) (ol ol' : option string) (entry : OrbitalEntry) :
  orbital_lookup (<[label := <[ol := entry]> (default ∅ (oc !! label))]> oc) label' ol'
  = if decide (label = label' /\ ol = ol') then Some entry else orbital_lookup oc label' ol'.
Proof.
  unfold orbital_lookup.
  destruct (decide (label = label')) as [->|Hl].
  - rewrite lookup_insert_eq. simpl.
    destruct (decide (ol = ol')) as [->|Ho].
    + rewrite lookup_insert_eq. now rewrite decide_True.
    + rewrite lookup_insert_ne by assumption. rewrite decide_False by tauto.
      destruct (oc !! label'); [reflexivity|]. simpl. apply lookup_empty.
  - rewrite lookup_insert_ne by assumption. rewrite decide_False by tauto. reflexivity.
Qed.

(** One turn of the loop for an orbital-resolved line, when the label of the
    current bond is a key of [cohp_data] already. *)
Lemma cohp_bond_orbital (spins : list Spin) (num_bonds : nat) (data : list (list R))
    (bond : nat) (bd : BondData) (orbs : list (Z * nat)) (st st1 : CohpState) :
  bond_orbitals bd = Some orbs ->
  is_Some (cohp_data st !! pretty (bondnumber st)) ->
  cohp_bond spins num_bonds data bond bd st = Ok st1 ->
  exists cohp icohp,
    spin_rows data (cohp_row num_bonds bond) (enumerate spins) ∅ = Ok cohp
    /\ spin_rows data (icohp_row num_bonds bond) (enumerate spins) ∅ = Ok icohp
    /\ st1 = mkCohpState (bondnumber st) (cohp_data st)
               (<[pretty (bondnumber st) :=
                    <[bond_orb_label bd :=
                        mkOrbitalEntry cohp icohp orbs (bond_length bd) (bond_sites bd)]>
                      (default ∅ (orb_cohp st !! pretty (bondnumber st)))]> (orb_cohp st)).
Proof.
  intros Horbs [entry Hkey] H. unfold cohp_bond in H.
  apply bind_Ok_inv in H as [cohp [Hcohp H]].
  apply bind_Ok_inv in H as [icohp [Hicohp H]].
  exists cohp, icohp. split; [exact Hcohp|]. split; [exact Hicohp|].
  rewrite Horbs in H.
  destruct (orb_cohp st !! pretty (bondnumber st)) as [d|] eqn:Hd.
  - injection H as <-. reflexivity.
  - rewrite Hkey in H. injection H as <-. cbn [default from_option].
    now rewrite insert_empty.
Qed.

Lemma is_total_true (bond : nat) :
  is_total bond = true <-> exists bd, get_bond_data bond = Ok bd /\ bond_orbitals bd = None.
Proof.
  unfold is_total. destruct (get_bond_data bond) as [bd|e].
  - destruct (bond_orbitals bd) eqn:E; split; try discriminate; eauto.
    intros [bd' [H1 H2]]. injection H1 as <-. congruence.
  - split; [discriminate|]. intros [bd [H _]]. discriminate.
Qed.

Lemma is_total_false (bond : nat) (bd : BondData) (orbs : list (Z * nat)) :
  get_bond_data bond = Ok bd -> bond_orbitals bd = Some orbs -> is_total bond = false.
Proof. intros H1 H2. unfold is_total. now rewrite H1, H2. Qed.

Lemma cohp_loop_numbered (spins : list Spin) (num_bonds : nat) (data : list (list R))
    (n : nat) :
  NoDup spins ->
  forall a st st',
    cohp_loop get_bond_data spins num_bonds data (seq a n) st = Ok st' ->
    bondnumber st = totals a ->
    ((1 <= a)%nat -> is_Some (cohp_data st !! pretty (totals a))) ->
    (a = 0%nat -> (1 <= n)%nat -> is_total 0 = true) ->
    bondnumber st' = totals (a + n)
    /\ (forall key,
          (forall bond, (a <= bond < a + n)%nat -> is_total bond = true ->
             key <> pretty (totals (S bond))) ->
          cohp_data st' !! key = cohp_data st !! key)
    /\ (forall bond, (a <= bond < a + n)%nat -> is_total bond = true ->
          exists bd cohp icohp,
            get_bond_data bond = Ok bd
            /\ cohp_data st' !! pretty (totals (S bond))
               = Some (mkCohpEntry (Some cohp) (Some icohp) (Some (bond_length bd))
                         (Some (bond_sites bd)))
            /\ spin_table data (cohp_row num_bonds bond) spins cohp
            /\ spin_table data (icohp_row num_bonds bond) spins icohp)
    /\ (forall label ol,
          (forall bond bd, (a <= bond < a + n)%nat -> get_bond_data bond = Ok bd ->
             is_total bond = false ->
             ~ (label = pretty (totals (S bond)) /\ ol = bond_orb_label bd)) ->
          orbital_lookup (orb_cohp st') label ol = orbital_lookup (orb_cohp st) label ol)
    /\ (forall bond bd orbs,
          (a <= bond < a + n)%nat -> get_bond_data bond = Ok bd ->
          bond_orbitals bd = Some orbs ->
          (forall b' bd', (bond < b' < a + n)%nat -> get_bond_data b' = Ok bd' ->
             is_total b' = false -> totals (S b') = totals (S bond) ->
             bond_orb_label bd' <> bond_orb_label bd) ->
          exists cohp icohp,
            orbital_lookup (orb_cohp st') (pretty (totals (S bond))) (bond_orb_label bd)
            = Some (mkOrbitalEntry cohp icohp orbs (bond_length bd) (bond_sites bd))
            /\ spin_table data (cohp_row num_bonds bond) spins cohp
            /\ spin_table data (icohp_row num_bonds bond) spins icohp).
Proof.
  intros Hnd. induction n as [|n IH]; intros a st st' H Hnum Hkey Hfirst.
  - simpl in H. injection H as <-. rewrite Nat.add_0_r.
    split; [exact Hnum|]. split; [reflexivity|]. split; [intros b Hb; lia|].
    split; [reflexivity|]. intros b bd orbs Hb. lia.
  - cbn [seq cohp_loop] in H.
    apply bind_Ok_inv in H as [bd [Hbd H]].
    apply bind_Ok_inv in H as [st1 [Hst1 H]].
    replace (a + S n)%nat with (S a + n)%nat by lia.
    destruct (bond_orbitals bd) as [orbs|] eqn:Horbs.
    + (* an orbital-resolved line *)
      pose proof (is_total_false a bd orbs Hbd Horbs) as Hta.
      assert (Ha : (1 <= a)%nat).
      { destruct a; [|lia]. rewrite Hfirst in Hta by lia. discriminate. }
      assert (Htot : totals (S a) = totals a) by (simpl; rewrite Hta; lia).
      specialize (Hkey Ha). rewrite <- Hnum in Hkey.
      destruct (cohp_bond_orbital _ _ _ _ _ _ _ _ Horbs Hkey Hst1)
        as [cohp [icohp [Hcohp [Hicohp ->]]]].
      destruct (IH (S a) _ st' H) as [Hn [Hck [Htotal [Hok Horb]]]].
      { simpl bondnumber. lia. }
      { intros _. simpl cohp_data. rewrite Htot, <- Hnum. exact Hkey. }
      { intros E. discriminate. }
      cbn [bondnumber cohp_data orb_cohp] in Hn, Hck, Htotal, Hok, Horb.
      split; [exact Hn|]. split; [|split; [|split]].
      * intros key Hk. apply Hck. intros b Hb. apply Hk. lia.
      * intros b Hb Hb'. destruct (decide (b = a)) as [->|Hne]; [congruence|].
        apply Htotal; [lia|exact Hb'].
      * intros label ol Hcond. rewrite Hok by (intros b bd' Hb; apply Hcond; lia).
        rewrite orbital_lookup_set. rewrite decide_False; [reflexivity|].
        intros [<- <-]. apply (Hcond a bd); [lia|exact Hbd|exact Hta|].
        split; [now rewrite Htot, Hnum|reflexivity].
      * intros b bd' orbs' Hb Hbd' Horbs' Hlater.
        destruct (decide (b = a)) as [->|Hne].
        -- rewrite Hbd in Hbd'. injection Hbd' as <-.
           rewrite Horbs in Horbs'. injection Horbs' as <-.
           exists cohp, icohp. split; [|split; now apply spin_rows_table].
           rewrite Hok.
           ++ rewrite orbital_lookup_set. rewrite decide_True; [reflexivity|].
              split; [now rewrite Htot, Hnum|reflexivity].
           ++ intros b' bd' Hb' Hbd' Hnt [E1 E2]. apply (inj pretty) in E1.
              apply (Hlater b' bd'); [lia|exact Hbd'|exact Hnt|now symmetry|now symmetry].
        -- apply (Horb b bd' orbs'); [lia|exact Hbd'|exact Horbs'|].
           intros b' bd'' Hb'. apply Hlater. lia.
    + (* a line that is not orbital-resolved *)
      assert (Hta : is_total a = true) by (apply is_total_true; eauto).
      assert (Htot : totals (S a) = S (totals a)) by (simpl; rewrite Hta; lia).
      unfold cohp_bond in Hst1.
      apply bind_Ok_inv in Hst1 as [cohp [Hcohp Hst1]].
      apply bind_Ok_inv in Hst1 as [icohp [Hicohp Hst1]].
      rewrite Horbs in Hst1. injection Hst1 as <-.
      replace (bondnumber st + 1)%nat with (totals (S a)) in H by lia.
      destruct (IH (S a) _ st' H) as [Hn [Hck [Htotal [Hok Horb]]]].
      { reflexivity. }
      { intros _. simpl cohp_data. rewrite lookup_insert_eq. eauto. }
      { intros E. discriminate. }
      cbn [bondnumber cohp_data orb_cohp] in Hn, Hck, Htotal, Hok, Horb.
      assert (Hlater : forall b, (S a <= b < S a + n)%nat -> is_total b = true ->
                pretty (totals (S a)) <> pretty (totals (S b))).
      { intros b Hb Hb' E. apply (inj pretty) in E.
        assert (totals (S b) = S (totals b)) by (simpl; rewrite Hb'; lia).
        pose proof (totals_mono (S a) b ltac:(lia)). lia. }
      split; [exact Hn|]. split; [|split; [|split]].
      * intros key Hk. rewrite Hck by (intros b Hb; apply Hk; lia).
        apply lookup_insert_ne. intros E. apply (Hk a); [lia|exact Hta|]. now symmetry.
      * intros b Hb Hb'. destruct (decide (b = a)) as [->|Hne]; [|apply Htotal; [lia|exact Hb']].
        exists bd, cohp, icohp. split; [exact Hbd|]. split.
        -- rewrite Hck by exact Hlater. apply lookup_insert_eq.
        -- split; now apply spin_rows_table.
      * intros label ol Hcond. apply Hok. intros b bd' Hb. apply Hcond. lia.
      * intros b bd' orbs' Hb Hbd' Horbs' Hcond.
        destruct (decide (b = a)) as [->|Hne]; [congruence|].
        apply (Horb b bd' orbs'); [lia|exact Hbd'|exact Horbs'|].
        intros b' bd'' Hb'. apply Hcond. lia.
Qed.

(** X28.  For a COHPCAR whose first header line is not orbital-resolved, a
    line that is not orbital-resolved is filed in [cohp_data] under its number
    among such lines, and an orbital-resolved line is filed in [orb_res_cohp]
    under the number of the last such line before it and under its own orbital
    label, where it stays unless a later line of the same bond has the same
    orbital label. *)
Theorem cohp_numbered_file (spins : list Spin) (num_bonds : nat) (data : list (list R))
    (t : CohpTables) :
  cohp_tables get_bond_data spins num_bonds data = Ok t ->
  NoDup spins ->
  ((1 <= num_bonds)%nat -> is_total 0 = true) ->
  (forall bond, (bond < num_bonds)%nat -> is_total bond = true ->
     exists bd cohp icohp,
       get_bond_data bond = Ok bd
       /\ table_cohp_data t !! pretty (totals (S bond))
          = Some (mkCohpEntry (Some cohp) (Some icohp) (Some (bond_length bd))
                    (Some (bond_sites bd)))
       /\ spin_table data (cohp_row num_bonds bond) spins cohp
       /\ spin_table data (icohp_row num_bonds bond) spins icohp)
  /\ (forall bond bd orbs,
        (bond < num_bonds)%nat -> get_bond_data bond = Ok bd ->
        bond_orbitals bd = Some orbs ->
        (forall b' bd', (bond < b' < num_bonds)%nat -> get_bond_data b' = Ok bd' ->
           is_total b' = false -> totals (S b') = totals (S bond) ->
           bond_orb_label bd' <> bond_orb_label bd) ->
        exists oc cohp icohp,
          orb_res_cohp t = Some oc
          /\ orbital_lookup oc (pretty (totals (S bond))) (bond_orb_label bd)
             = Some (mkOrbitalEntry cohp icohp orbs (bond_length bd) (bond_sites bd))
          /\ spin_table data (cohp_row num_bonds bond) spins cohp
          /\ spin_table data (icohp_row num_bonds bond) spins icohp).
Proof.
  intros H Hnd Hfirst. unfold cohp_tables in H.
  apply bind_Ok_inv in H as [energies [_ H]].
  apply bind_Ok_inv in H as [average [_ H]].
  apply bind_Ok_inv in H as [iaverage [_ H]].
  apply bind_Ok_inv in H as [st [Hloop H]]. injection H as <-.
  destruct (cohp_loop_numbered spins num_bonds data num_bonds Hnd 0 _ st Hloop)
    as [_ [_ [Htotal [_ Horb]]]]; [reflexivity|intros Hle; lia|intros _; exact Hfirst|].
  cbn [orb_res_cohp table_cohp_data]. split.
  - intros bond Hb. apply Htotal. lia.
  - intros bond bd orbs Hb Hbd Horbs Hlater.
    destruct (Horb bond bd orbs) as [cohp [icohp [Hl Ht]]];
      [lia|exact Hbd|exact Horbs|intros b' bd' Hb'; apply Hlater; lia|].
    exists (orb_cohp st), cohp, icohp. split; [|split; [exact Hl|exact Ht]].
    destruct (Nat.eqb_spec (size (orb_cohp st)) 0) as [E|E]; [|reflexivity].
    apply map_size_empty_inv in E. rewrite E in Hl. discriminate.
Qed.

Lemma spin_rows_returns (data : list (list R)) (row_of : nat -> nat)
    (pairs : list (nat * Spin)) :
  forall acc,
    (forall s spin, (s, spin) ∈ pairs -> (row_of s < length data)%nat) ->
    exists m, spin_rows data row_of pairs acc = Ok m.
Proof.
  induction pairs as [|[s0 spin0] rest IH]; intros acc Hall; [now exists acc|].
  destruct (lookup_lt_is_Some_2 data (row_of s0)) as [row Hrow];
    [apply (Hall s0 spin0); left|].
  cbn [spin_rows]. unfold getitem. rewrite Hrow. simpl.
  apply IH. intros s spin Hs. apply (Hall s spin). now right.
Qed.

Lemma spin_rows_needs (data : list (list R)) (row_of : nat -> nat)
    (pairs : list (nat * Spin)) :
  forall acc m,
    spin_rows data row_of pairs acc = Ok m ->
    forall s spin, (s, spin) ∈ pairs -> (row_of s < length data)%nat.
Proof.
  induction pairs as [|[s0 spin0] rest IH]; intros acc m H s spin Hs; [inversion Hs|].
  cbn [spin_rows] in H.
  apply bind_Ok_inv in H as [row [Hrow H]]. apply getitem_Ok in Hrow.
  apply elem_of_cons in Hs as [E|Hs].
  - injection E as -> ->. now apply lookup_lt_Some in Hrow.
  - now apply (IH _ _ H s spin).
Qed.

Lemma spin_rows_error (data : list (list R)) (row_of : nat -> nat)
    (pairs : list (nat * Spin)) :
  forall acc e, spin_rows data row_of pairs acc = Raise e -> e = IndexError.
Proof.
  induction pairs as [|[s0 spin0] rest IH]; intros acc e H; [discriminate|].
  cbn [spin_rows] in H. unfold getitem in H.
  destruct (data !! row_of s0) as [row|]; simpl in H; [|congruence].
  now apply (IH _ _ H).
Qed.

Lemma elem_of_enumerate (spins : list Spin) (s : nat) (spin : Spin) :
  (s, spin) ∈ enumerate spins <-> spins !! s = Some spin.
Proof.
  unfold enumerate. rewrite elem_of_lookup_imap. split.
  - intros [i [x [E H]]]. injection E as -> ->. exact H.
  - intros H. eauto.
Qed.

(** The rows of [data] that one turn of the loop reads are there. *)
Lemma cohp_bond_returns (spins : list Spin) (num_bonds : nat) (data : list (list R))
    (bond : nat) (bd : BondData) (st : CohpState) :
  (forall s, (s < length spins)%nat -> (icohp_row num_bonds bond s < length data)%nat) ->
  exists st', cohp_bond spins num_bonds data bond bd st = Ok st'.
Proof.
  intros Hrows. unfold cohp_bond.
  destruct (spin_rows_returns data (cohp_row num_bonds bond) (enumerate spins) ∅) as [c Hc].
  { intros s spin Hs. apply elem_of_enumerate, lookup_lt_Some in Hs.
    specialize (Hrows s Hs). unfold cohp_row, icohp_row in *. lia. }
  destruct (spin_rows_returns data (icohp_row num_bonds bond) (enumerate spins) ∅) as [ic Hic].
  { intros s spin Hs. apply elem_of_enumerate, lookup_lt_Some in Hs. now apply Hrows. }
  rewrite Hc, Hic. simpl.
  destruct (bond_orbitals bd); [|eauto].
  destruct (orb_cohp st !! pretty (bondnumber st)); [eauto|].
  destruct (cohp_data st !! pretty (bondnumber st)); eauto.
Qed.

Lemma cohp_bond_needs (spins : list Spin) (num_bonds : nat) (data : list (list R))
    (bond : nat) (bd : BondData) (st st' : CohpState) :
  cohp_bond spins num_bonds data bond bd st = Ok st' ->
  forall s, (s < length spins)%nat -> (icohp_row num_bonds bond s < length data)%nat.
Proof.
  intros H s Hs. unfold cohp_bond in H.
  apply bind_Ok_inv in H as [c [_ H]]. apply bind_Ok_inv in H as [ic [Hic _]].
  destruct (lookup_lt_is_Some_2 spins s Hs) as [spin Hspin].
  apply (spin_rows_needs _ _ _ _ _ Hic s spin). now apply elem_of_enumerate.
Qed.

Lemma cohp_bond_error (spins : list Spin) (num_bonds : nat) (data : list (list R))
    (bond : nat) (bd : BondData) (st : CohpState) (e : exn) :
  cohp_bond spins num_bonds data bond bd st = Raise e -> e = IndexError.
Proof.
  unfold cohp_bond. intros H.
  destruct (spin_rows data (cohp_row num_bonds bond) (enumerate spins) ∅) as [c|e'] eqn:Hc;
    simpl in H; [|injection H as <-; now apply spin_rows_error in Hc].
  destruct (spin_rows data (icohp_row num_bonds bond) (enumerate spins) ∅) as [ic|e'] eqn:Hic;
    simpl in H; [|injection H as <-; now apply spin_rows_error in Hic].
  destruct (bond_orbitals bd); [|discriminate].
  destruct (orb_cohp st !! pretty (bondnumber st)); [discriminate|].
  destruct (cohp_data st !! pretty (bondnumber st)); discriminate.
Qed.

Lemma cohp_loop_returns (spins : list Spin) (num_bonds : nat) (data : list (list R))
    (bonds : list nat) :
  forall st,
    (forall bond, bond ∈ bonds ->
       (exists bd, get_bond_data bond = Ok bd)
       /\ forall s, (s < length spins)%nat -> (icohp_row num_bonds bond s < length data)%nat) ->
    exists st', cohp_loop get_bond_data spins num_bonds data bonds st = Ok st'.
Proof.
  induction bonds as [|bond rest IH]; intros st Hall; [now exists st|].
  destruct (Hall bond) as [[bd Hbd] Hrows]; [left|].
  destruct (cohp_bond_returns spins num_bonds data bond bd st Hrows) as [st1 Hst1].
  cbn [cohp_loop]. rewrite Hbd. simpl. rewrite Hst1. simpl.
  apply IH. intros b Hb. apply Hall. now right.
Qed.

Lemma cohp_loop_needs (spins : list Spin) (num_bonds : nat) (data : list (list R))
    (bonds : list nat) :
  forall st st',
    cohp_loop get_bond_data spins num_bonds data bonds st = Ok st' ->
    forall bond, bond ∈ bonds ->
      (exists bd, get_bond_data bond = Ok bd)
      /\ forall s, (s < length spins)%nat -> (icohp_row num_bonds bond s < length data)%nat.
Proof.
  induction bonds as [|bond0 rest IH]; intros st st' H bond Hb; [inversion Hb|].
  cbn [cohp_loop] in H.
  apply bind_Ok_inv in H as [bd [Hbd H]]. apply bind_Ok_inv in H as [st1 [Hst1 H]].
  apply elem_of_cons in Hb as [->|Hb].
  - split; [eauto|]. exact (cohp_bond_needs _ _ _ _ _ _ _ Hst1).
  - exact (IH _ _ H bond Hb).
Qed.

Lemma cohp_loop_error (spins : list Spin) (num_bonds : nat) (data : list (list R))
    (bonds : list nat) :
  forall st e,
    cohp_loop get_bond_data spins num_bonds data bonds st = Raise e ->
    e = IndexError \/ exists bond, bond ∈ bonds /\ get_bond_data bond = Raise e.
Proof.
  induction bonds as [|bond rest IH]; intros st e H; [discriminate|].
  cbn [cohp_loop] in H.
  destruct (get_bond_data bond) as [bd|e'] eqn:Hbd; simpl in H.
  - destruct (cohp_bond spins num_bonds data bond bd st) as [st1|e'] eqn:Hst1; simpl in H.
    + destruct (IH _ _ H) as [->|[b [Hb Hraise]]]; [now left|].
      right. exists b. split; [now right|exact Hraise].
    + injection H as <-. left. exact (cohp_bond_error _ _ _ _ _ _ _ Hst1).
  - injection H as <-. right. exists bond. split; [left|exact Hbd].
Qed.

(** X30.  The part of [Cohpcar.__init__] after the reading of [data] returns
    exactly when [data] has more than [2 * len(spins) * (num_bonds + 1)] rows
    (the energies and two columns for the average and for each bond, per spin)
    and [_get_bond_data] returns for each of the [num_bonds] header lines.
    When it raises, the error is [IndexError] or the error [_get_bond_data]
    raised for a header line. *)
Theorem cohp_tables_outcome (spins : list Spin) (num_bonds : nat) (data : list (list R)) :
  ((exists t, cohp_tables get_bond_data spins num_bonds data = Ok t)
   <-> (2 * length spins * (num_bonds + 1) < length data)%nat
       /\ forall bond, (bond < num_bonds)%nat -> exists bd, get_bond_data bond = Ok bd)
  /\ forall e, cohp_tables get_bond_data spins num_bonds data = Raise e ->
       e = IndexError
       \/ exists bond, (bond < num_bonds)%nat /\ get_bond_data bond = Raise e.
Proof.
  split; [split|].
  - intros [t H]. unfold cohp_tables in H.
    apply bind_Ok_inv in H as [energies [Hen H]].
    apply getitem_Ok, lookup_lt_Some in Hen.
    apply bind_Ok_inv in H as [average [_ H]].
    apply bind_Ok_inv in H as [iaverage [Hiav H]].
    apply bind_Ok_inv in H as [st [Hloop _]].
    pose proof (cohp_loop_needs _ _ _ _ _ _ Hloop) as Hneeds.
    split.
    + destruct (length spins) as [|S'] eqn:HS; [simpl; lia|].
      destruct (lookup_lt_is_Some_2 spins S') as [spin Hspin]; [lia|].
      destruct num_bonds as [|N'].
      * apply elem_of_enumerate in Hspin.
        pose proof (spin_rows_needs _ _ _ _ _ Hiav S' spin Hspin) as Hlt.
        unfold average_icohp_row in Hlt. lia.
      * destruct (Hneeds N') as [_ Hrows]; [apply elem_of_seq; lia|].
        specialize (Hrows S' ltac:(lia)).
        unfold icohp_row in Hrows. nia.
    + intros bond Hb. apply (Hneeds bond). apply elem_of_seq. lia.
  - intros [Hlen Hbonds].
    destruct (lookup_lt_is_Some_2 data 0) as [energies Hen]; [lia|].
    destruct (spin_rows_returns data (average_cohp_row num_bonds) (enumerate spins) ∅)
      as [average Hav].
    { intros s spin Hs. apply elem_of_enumerate, lookup_lt_Some in Hs.
      unfold average_cohp_row. nia. }
    destruct (spin_rows_returns data (average_icohp_row num_bonds) (enumerate spins) ∅)
      as [iaverage Hiav].
    { intros s spin Hs. apply elem_of_enumerate, lookup_lt_Some in Hs.
      unfold average_icohp_row. nia. }
    unfold cohp_tables, getitem. rewrite Hen. simpl. rewrite Hav. simpl. rewrite Hiav. simpl.
    match goal with
    | |- context [cohp_loop _ _ _ _ _ ?st0] =>
        destruct (cohp_loop_returns spins num_bonds data (seq 0 num_bonds) st0) as [st Hst]
    end.
    { intros bond Hb. apply elem_of_seq in Hb. split; [apply Hbonds; lia|].
      intros s Hs. unfold icohp_row. nia. }
    rewrite Hst. simpl. eauto.
  - intros e H. unfold cohp_tables, getitem in H.
    destruct (data !! 0%nat) as [energies|]; simpl in H; [|left; congruence].
    destruct (spin_rows data (average_cohp_row num_bonds) (enumerate spins) ∅)
      as [average|e'] eqn:Hav; simpl in H;
      [|injection H as <-; left; now apply spin_rows_error in Hav].
    destruct (spin_rows data (average_icohp_row num_bonds) (enumerate spins) ∅)
      as [iaverage|e'] eqn:Hiav; simpl in H;
      [|injection H as <-; left; now apply spin_rows_error in Hiav].
    match type of H with
    | context [cohp_loop _ _ _ _ _ ?st0] =>
        destruct (cohp_loop get_bond_data spins num_bonds data (seq 0 num_bonds) st0)
          as [st|e'] eqn:Hloop
    end; simpl in H; [discriminate|].
    injection H as <-.
    destruct (cohp_loop_error _ _ _ _ _ _ Hloop) as [->|[bond [Hb Hraise]]]; [now left|].
    right. exists bond. split; [|exact Hraise]. apply elem_of_seq in Hb. lia.
Qed.

End CohpcarProperties.

(* ===================================================================== *)
(** ** The readers on small files *)

(** Stand-ins for the builtins: fields separated by single spaces, and
    conversions that accept every field. *)
Fixpoint toy_words (s : string) (current : string) : list string :=
  match s with
  | EmptyString => if String.eqb current EmptyString then [] else [current]
  | String c rest =>
      if Ascii.eqb c " "%char
      then (if String.eqb current EmptyString then toy_words rest EmptyString
            else current :: toy_words rest EmptyString)
      else toy_words rest (current ++ String c EmptyString)
  end.

Definition toy_split (s : string) : list string := toy_words s EmptyString.
Definition toy_float (s : string) : option R := Some 0.
Definition toy_int (s : string) : option Z := Some 0%Z.

Definition newline : string := String "010"%char EmptyString.

(** A CHARGE file with one atom. *)
Definition charge_file : string :=
  ("header" ++ newline ++ "header" ++ newline ++ "header" ++ newline
   ++ "1 Li 0.5 0.6" ++ newline ++ "footer" ++ newline ++ "footer" ++ newline)%string.

Section LobsterExamples.
Import Lobster.

Lemma charge_lists_witness :
  exists c,
    Charge_init toy_split toy_float charge_file = Ok c
    /\ num_atoms c = 1%nat /\ atomlist c = ["Li1"%string].
Proof.
  eexists. split; [reflexivity|].
  destruct (charge_lists toy_split toy_float charge_file _ eq_refl) as [_ [H _]].
  split; [exact H|reflexivity].
Defined.

(** A spin-polarized ICOHPLIST file with one bond. *)
Definition icohplist_file : string :=
  ("header" ++ newline ++ "1 Fe1 Fe2 2.5 0 0 0 -0.1" ++ newline
   ++ "COHP# atomMU atomNU distance translation ICOHP" ++ newline
   ++ "1 Fe1 Fe2 2.5 0 0 0 -0.2" ++ newline)%string.

Lemma icohplist_lists_witness :
  exists r,
    Icohplist_init toy_split toy_float toy_int false icohplist_file = (Ok r, [])
    /\ is_spin_polarized r = true
    /\ lists_length (collection_arguments r) 1.
Proof.
  eexists. split; [reflexivity|].
  destruct (icohplist_lists toy_split toy_float toy_int false icohplist_file _ [] eq_refl)
    as [_ [_ [H _]]].
  split; [reflexivity|exact H].
Defined.

(** The arrays of a spin-polarized DOSCAR with one atom and one orbital: the
    total array (energies, up, down) and the array of the atom (energies, 2s
    up, 2s down). *)
Definition toy_dos : list (list (list R)) := [[[0]; [1]; [2]]; [[0]; [3]; [4]]].
Definition toy_orbitals : list (list string) := [[]; ["2s"%string]].

Lemma doscar_pdos_columns_witness :
  exists t d,
    doscar_tables true 1 toy_dos toy_orbitals = Ok t
    /\ pdos t !! 0%nat = Some d
    /\ pdos_lookup d "2s" Up = Some [3] /\ pdos_lookup d "2s" Down = Some [4].
Proof.
  eexists.
  destruct (doscar_pdos_columns true 1 toy_dos toy_orbitals _ 0 [[0]; [3]; [4]]
              ["2s"%string] eq_refl) as [_ [d [Hd [Hcols _]]]].
  - lia.
  - reflexivity.
  - reflexivity.
  - apply NoDup_singleton.
  - exists d. split; [reflexivity|]. split; [exact Hd|].
    destruct (Hcols 1%nat) as [orb1 [col1 [Ho1 [Hc1 Hl1]]]]; [simpl; lia|].
    destruct (Hcols 2%nat) as [orb2 [col2 [Ho2 [Hc2 Hl2]]]]; [simpl; lia|].
    injection Ho1 as <-. injection Hc1 as <-.
    injection Ho2 as <-. injection Hc2 as <-.
    split; [exact Hl1|exact Hl2].
Defined.

(** A COHPCAR without spin polarization: one bond, then the same bond
    followed by one orbital-resolved line. *)
Definition plain_bond (bond : nat) : result BondData :=
  Ok (mkBondData 2.5 (0, 1)%Z None None).

Definition resolved_bonds (bond : nat) : result BondData :=
  match bond with
  | O => Ok (mkBondData 2.5 (0, 1)%Z None None)
  | _ => Ok (mkBondData 2.5 (0, 1)%Z (Some [(3, 0%nat); (3, 4%nat)]%Z) (Some "3s-3d_xy"%string))
  end.

Definition toy_data : list (list R) := [[0]; [1]; [2]; [3]; [4]; [5]; [6]].

Lemma cohp_plain_file_witness :
  exists t,
    cohp_tables plain_bond [Up] 1 toy_data = Ok t
    /\ orb_res_cohp t = None
    /\ forall key, is_Some (table_cohp_data t !! key) ->
         key = "average"%string
         \/ exists bond, (bond < 1)%nat /\ key = pretty (bond + 1)%nat.
Proof.
  eexists. split; [reflexivity|].
  destruct (cohp_plain_file plain_bond [Up] 1 toy_data _ eq_refl) as [H1 [_ [_ H4]]].
  - apply NoDup_singleton.
  - intros bond bd _ H. injection H as <-. reflexivity.
  - split; [exact H1|exact H4].
Defined.

Lemma cohp_numbered_file_witness :
  exists t oc cohp icohp,
    cohp_tables resolved_bonds [Up] 2 toy_data = Ok t
    /\ orb_res_cohp t = Some oc
    /\ orbital_lookup oc (pretty 1%nat) (Some "3s-3d_xy"%string)
       = Some (mkOrbitalEntry cohp icohp [(3, 0%nat); (3, 4%nat)]%Z 2.5 (0, 1)%Z).
Proof.
  eexists.
  destruct (cohp_numbered_file resolved_bonds [Up] 2 toy_data _ eq_refl) as [_ H].
  - apply NoDup_singleton.
  - reflexivity.
  - destruct (H 1%nat (mkBondData 2.5 (0, 1)%Z (Some [(3, 0%nat); (3, 4%nat)]%Z)
                         (Some "3s-3d_xy"%string)) [(3, 0%nat); (3, 4%nat)]%Z)
      as [oc [cohp [icohp [H1 [H2 _]]]]].
    + lia.
    + reflexivity.
    + reflexivity.
    + intros b' bd' Hb'. lia.
    + exists oc, cohp, icohp. split; [reflexivity|]. split; [exact H1|exact H2].
Defined.

End LobsterExamples.
